(** * A shallow embedding of the MPS trace engine (trace.c) and of the
      mostly-copying pool class AMC (poolamc.c).

    Machine words ([Size], [Addr], [RefSet], [TraceSet]) are [Z]; sets
    are bitsets manipulated with [Z.lor], [Z.land], [Z.lnot] and
    [Z.testbit].  [TRACE_MAX] is 1, as in the source, so the only trace
    identifier is 0.  Functions with side effects take and return the
    arena state explicitly. *)

From Stdlib Require Import ZArith List Bool Lia Sorting.Sorted.
Import ListNotations.
Open Scope Z_scope.

(** ** Words, result codes and sets *)

Definition Addr := Z.
Definition Size := Z.
Definition Word := Z.

Definition MPS_WORD_WIDTH : Z := 64.
Definition WORD_MOD : Z := 2 ^ MPS_WORD_WIDTH.

(** Unsigned word arithmetic wraps round. *)
Definition SizeAdd (a b : Size) : Size := (a + b) mod WORD_MOD.
Definition SizeSub (a b : Size) : Size := (a - b) mod WORD_MOD.

Inductive Res :=
  ResOK | ResFAIL | ResRESOURCE | ResMEMORY | ResLIMIT | ResUNIMPL
| ResIO | ResCOMMIT_LIMIT | ResPARAM.

Definition Res_eqb (a b : Res) : bool :=
  match a, b with
  | ResOK, ResOK | ResFAIL, ResFAIL | ResRESOURCE, ResRESOURCE
  | ResMEMORY, ResMEMORY | ResLIMIT, ResLIMIT | ResUNIMPL, ResUNIMPL
  | ResIO, ResIO | ResCOMMIT_LIMIT, ResCOMMIT_LIMIT
  | ResPARAM, ResPARAM => true
  | _, _ => false
  end.

(** Modelled from the spec: [ResIsAllocFailure] (mpm.h) is true of the
    resource-exhaustion codes. *)
Definition ResIsAllocFailure (r : Res) : bool :=
  match r with
  | ResMEMORY | ResRESOURCE | ResCOMMIT_LIMIT => true
  | _ => false
  end.

Definition RefSet := Z.
Definition TraceSet := Z.
Definition TraceId := Z.

Definition RefSetEMPTY : RefSet := 0.
Definition RefSetUNIV : RefSet := WORD_MOD - 1.
Definition TraceSetEMPTY : TraceSet := 0.

(** Modelled from the spec: the set macros of mpm.h are word-wide bit
    operations (union, intersection, difference, superset). *)
Definition RefSetUnion (a b : RefSet) : RefSet := Z.lor a b.
Definition RefSetInter (a b : RefSet) : RefSet := Z.land a b.
Definition RefSetDiff (a b : RefSet) : RefSet := Z.land a (Z.lnot b).
Definition RefSetSuper (a b : RefSet) : bool := Z.land b (Z.lnot a) =? 0.
Definition RefSetSub (a b : RefSet) : bool := RefSetSuper b a.

Definition TraceSetUnion (a b : TraceSet) : TraceSet := Z.lor a b.
Definition TraceSetInter (a b : TraceSet) : TraceSet := Z.land a b.
Definition TraceSetDiff (a b : TraceSet) : TraceSet := Z.land a (Z.lnot b).
Definition TraceSetSingle (ti : TraceId) : TraceSet := Z.shiftl 1 ti.
Definition TraceSetIsMember (ts : TraceSet) (ti : TraceId) : bool :=
  Z.testbit ts ti.
Definition TraceSetAdd (ts : TraceSet) (ti : TraceId) : TraceSet :=
  Z.lor ts (TraceSetSingle ti).
Definition TraceSetDel (ts : TraceSet) (ti : TraceId) : TraceSet :=
  Z.land ts (Z.lnot (TraceSetSingle ti)).
Definition TraceSetSub (a b : TraceSet) : bool := Z.land a (Z.lnot b) =? 0.

Definition TRACE_MAX : Z := 1.

(** Modelled from the spec: the zone of an address is a bit-range
    selected by the arena's zone shift (ref.c). *)
Definition RefSetAdd (zoneShift : Z) (rs : RefSet) (a : Addr) : RefSet :=
  Z.lor rs (Z.shiftl 1 (Z.shiftr a zoneShift mod MPS_WORD_WIDTH)).

Definition RefSetOfRange (zoneShift : Z) (base limit : Addr) : RefSet :=
  let zbase := Z.shiftr base zoneShift in
  let zlimit := Z.shiftr (limit - 1) zoneShift + 1 in
  if MPS_WORD_WIDTH <=? zlimit - zbase then RefSetUNIV
  else
    let zb := zbase mod MPS_WORD_WIDTH in
    let zl := zlimit mod MPS_WORD_WIDTH in
    if zb <? zl then Z.shiftl 1 zl - Z.shiftl 1 zb
    else (Z.lnot (Z.shiftl 1 zb - Z.shiftl 1 zl)) mod WORD_MOD.

(** ** Scan states (trace.c) *)

Inductive Rank := RankAMBIG | RankEXACT | RankWEAK | RankFINAL.

Definition Rank_eqb (a b : Rank) : bool :=
  match a, b with
  | RankAMBIG, RankAMBIG | RankEXACT, RankEXACT
  | RankWEAK, RankWEAK | RankFINAL, RankFINAL => true
  | _, _ => false
  end.

Definition RankIndex (r : Rank) : Z :=
  match r with RankAMBIG => 0 | RankEXACT => 1 | RankWEAK => 2 | RankFINAL => 3 end.

Definition RankSetIsMember (rs : Z) (r : Rank) : bool := Z.testbit rs (RankIndex r).
Definition RankSetEMPTY : Z := 0.

Record ScanState := mkScanState {
  ss_emergencyFix : bool;     (* ss->fix == TraceFixEmergency *)
  ss_rank : Rank;
  ss_traces : TraceSet;
  ss_white : RefSet;
  ss_unfixedSummary : RefSet;
  ss_fixedSummary : RefSet;
  ss_wasMarked : bool;
  ss_fixRefCount : Z;
  ss_segRefCount : Z;
  ss_whiteSegRefCount : Z;
  ss_nailCount : Z;
  ss_snapCount : Z;
  ss_forwardedCount : Z;
  ss_copiedSize : Size;
  ss_scannedSize : Size
}.

Definition ss_set_summaries (ss : ScanState) (unfixed fixed : RefSet) : ScanState :=
  {| ss_emergencyFix := ss_emergencyFix ss; ss_rank := ss_rank ss;
     ss_traces := ss_traces ss; ss_white := ss_white ss;
     ss_unfixedSummary := unfixed; ss_fixedSummary := fixed;
     ss_wasMarked := ss_wasMarked ss; ss_fixRefCount := ss_fixRefCount ss;
     ss_segRefCount := ss_segRefCount ss;
     ss_whiteSegRefCount := ss_whiteSegRefCount ss;
     ss_nailCount := ss_nailCount ss; ss_snapCount := ss_snapCount ss;
     ss_forwardedCount := ss_forwardedCount ss;
     ss_copiedSize := ss_copiedSize ss; ss_scannedSize := ss_scannedSize ss |}.

(** [ScanStateSetSummary] *)
Definition ScanStateSetSummary (ss : ScanState) (summary : RefSet) : ScanState :=
  ss_set_summaries ss RefSetEMPTY summary.

(** [ScanStateSummary] *)
Definition ScanStateSummary (ss : ScanState) : RefSet :=
  TraceSetUnion (ss_fixedSummary ss)
                (TraceSetDiff (ss_unfixedSummary ss) (ss_white ss)).

(** ** Client objects and nailboards *)

(** A formatted object, as the format callbacks see it: its length
    (format->skip), its reference slots (format->scan) and its
    forwarding pointer (format->isMoved; 0 when not forwarded).  A
    padding object has no slots. *)
Record Obj := mkObj { o_size : Size; o_refs : list Addr; o_fwd : Addr }.

Definition PadObj (size : Size) : Obj := mkObj size [] 0.

(** Association list from client addresses to objects. *)
Fixpoint obj_find (a : Addr) (os : list (Addr * Obj)) : option Obj :=
  match os with
  | [] => None
  | (b, o) :: os' => if a =? b then Some o else obj_find a os'
  end.

Fixpoint obj_set (a : Addr) (o : Obj) (os : list (Addr * Obj)) : list (Addr * Obj) :=
  match os with
  | [] => [(a, o)]
  | (b, o') :: os' => if a =? b then (b, o) :: os' else (b, o') :: obj_set a o os'
  end.

(** Modelled from the spec: a nailboard is a bitmap keyed by object
    base address, aligned to the pool alignment, with a "new nails
    since last clear" flag (nailboard.c). *)
Record Nailboard := mkBoard { nb_marks : list bool; nb_newNails : bool }.

Fixpoint list_set {A} (l : list A) (i : nat) (x : A) : list A :=
  match l, i with
  | [], _ => []
  | _ :: l', O => x :: l'
  | y :: l', S i' => y :: list_set l' i' x
  end.

Definition NailboardCreateMarks (align base limit : Addr) : list bool :=
  repeat false (Z.to_nat ((limit - base + align - 1) / align)).

Definition NailboardIndex (align base a : Addr) : nat := Z.to_nat ((a - base) / align).

Definition NailboardGet (align base : Addr) (b : Nailboard) (a : Addr) : bool :=
  nth (NailboardIndex align base a) (nb_marks b) false.

(** [NailboardSet] returns whether the address was already marked. *)
Definition NailboardSet (align base : Addr) (b : Nailboard) (a : Addr)
  : bool * Nailboard :=
  let i := NailboardIndex align base a in
  if nth i (nb_marks b) false then (true, b)
  else (false, mkBoard (list_set (nb_marks b) i true) true).

Definition NailboardClearNewNails (b : Nailboard) : Nailboard := mkBoard (nb_marks b) false.
Definition NailboardNewNails (b : Nailboard) : bool := nb_newNails b.

(** [NailboardIsResRange]: no nail in [lo, hi). *)
Definition NailboardIsResRange (align base : Addr) (b : Nailboard) (lo hi : Addr) : bool :=
  let i := NailboardIndex align base lo in
  let j := Z.to_nat ((hi - base + align - 1) / align) in
  forallb negb (firstn (j - i) (skipn i (nb_marks b))).

Definition NailboardSetRange (align base : Addr) (b : Nailboard) (lo hi : Addr) : Nailboard :=
  let i := NailboardIndex align base lo in
  let j := Z.to_nat ((hi - base + align - 1) / align) in
  mkBoard (firstn i (nb_marks b) ++ repeat true (j - i) ++ skipn j (nb_marks b))
          (nb_newNails b).

(** ** Segments, buffers, generations, the pool and the trace *)

Record Seg := mkSeg {
  seg_base : Addr;
  seg_limit : Addr;
  seg_gc : bool;             (* SegPool(seg)->class->attr & AttrGC *)
  seg_white : TraceSet;
  seg_grey : TraceSet;
  seg_nailed : TraceSet;
  seg_rankSet : Z;
  seg_summary : RefSet;
  seg_gen : nat;             (* amcseg->gen *)
  seg_board : option Nailboard;
  seg_forwarded : Size;      (* amcseg->forwarded[0] *)
  seg_old : bool;
  seg_accountedAsBuffered : bool;
  seg_deferred : bool;
  seg_objs : list (Addr * Obj)
}.

Definition SegSize (s : Seg) : Size := seg_limit s - seg_base s.

Definition seg_upd (s : Seg) (white grey nailed summary : Z)
    (board : option Nailboard) (objs : list (Addr * Obj)) : Seg :=
  {| seg_base := seg_base s; seg_limit := seg_limit s; seg_gc := seg_gc s;
     seg_white := white; seg_grey := grey; seg_nailed := nailed;
     seg_rankSet := seg_rankSet s; seg_summary := summary;
     seg_gen := seg_gen s; seg_board := board;
     seg_forwarded := seg_forwarded s; seg_old := seg_old s;
     seg_accountedAsBuffered := seg_accountedAsBuffered s;
     seg_deferred := seg_deferred s; seg_objs := objs |}.

Definition SegSetWhite (s : Seg) (w : TraceSet) : Seg :=
  seg_upd s w (seg_grey s) (seg_nailed s) (seg_summary s) (seg_board s) (seg_objs s).
Definition SegSetGrey (s : Seg) (g : TraceSet) : Seg :=
  seg_upd s (seg_white s) g (seg_nailed s) (seg_summary s) (seg_board s) (seg_objs s).
Definition SegSetNailed (s : Seg) (n : TraceSet) : Seg :=
  seg_upd s (seg_white s) (seg_grey s) n (seg_summary s) (seg_board s) (seg_objs s).
Definition SegSetSummary (s : Seg) (r : RefSet) : Seg :=
  seg_upd s (seg_white s) (seg_grey s) (seg_nailed s) r (seg_board s) (seg_objs s).
Definition SegSetBoard (s : Seg) (b : option Nailboard) : Seg :=
  seg_upd s (seg_white s) (seg_grey s) (seg_nailed s) (seg_summary s) b (seg_objs s).
Definition SegSetObjs (s : Seg) (os : list (Addr * Obj)) : Seg :=
  seg_upd s (seg_white s) (seg_grey s) (seg_nailed s) (seg_summary s) (seg_board s) os.

Definition SegSetAmcFlags (s : Seg) (forwarded : Size) (old aab deferred : bool) : Seg :=
  {| seg_base := seg_base s; seg_limit := seg_limit s; seg_gc := seg_gc s;
     seg_white := seg_white s; seg_grey := seg_grey s; seg_nailed := seg_nailed s;
     seg_rankSet := seg_rankSet s; seg_summary := seg_summary s;
     seg_gen := seg_gen s; seg_board := seg_board s;
     seg_forwarded := forwarded; seg_old := old;
     seg_accountedAsBuffered := aab;
     seg_deferred := deferred; seg_objs := seg_objs s |}.

Definition SegSetRankAndSummary (s : Seg) (rs : Z) (r : RefSet) : Seg :=
  {| seg_base := seg_base s; seg_limit := seg_limit s; seg_gc := seg_gc s;
     seg_white := seg_white s; seg_grey := seg_grey s; seg_nailed := seg_nailed s;
     seg_rankSet := rs; seg_summary := r;
     seg_gen := seg_gen s; seg_board := seg_board s;
     seg_forwarded := seg_forwarded s; seg_old := seg_old s;
     seg_accountedAsBuffered := seg_accountedAsBuffered s;
     seg_deferred := seg_deferred s; seg_objs := seg_objs s |}.

Definition amcSegHasNailboard (s : Seg) : bool :=
  match seg_board s with Some _ => true | None => false end.

(** An allocation buffer: [base], [init] (the scan limit), [alloc] and
    [limit]; attached to the segment whose base is [buf_seg]. *)
Record Buffer := mkBuf {
  buf_seg : option Addr;
  buf_mutator : bool;
  buf_base : Addr;
  buf_init : Addr;
  buf_alloc : Addr;
  buf_limit : Addr;
  buf_gen : nat;              (* amcBufGen *)
  buf_rankSet : Z;
  buf_forHashArrays : bool
}.

Definition buf_upd (b : Buffer) (seg : option Addr) (base init alloc limit : Addr) : Buffer :=
  {| buf_seg := seg; buf_mutator := buf_mutator b; buf_base := base;
     buf_init := init; buf_alloc := alloc; buf_limit := limit;
     buf_gen := buf_gen b; buf_rankSet := buf_rankSet b;
     buf_forHashArrays := buf_forHashArrays b |}.

Definition amcBufSetGen (b : Buffer) (g : nat) : Buffer :=
  {| buf_seg := buf_seg b; buf_mutator := buf_mutator b; buf_base := buf_base b;
     buf_init := buf_init b; buf_alloc := buf_alloc b; buf_limit := buf_limit b;
     buf_gen := g; buf_rankSet := buf_rankSet b;
     buf_forHashArrays := buf_forHashArrays b |}.

Definition BufferScanLimit (b : Buffer) : Addr := buf_init b.

(** A generation of the pool: its forwarding buffer (an index into the
    arena's buffer list) and the condemned size recorded by
    [GenDescCondemned]. *)
Record Gen := mkGen { gen_forward : nat; gen_condemned : Size; gen_survived : Size }.

Inductive RampMode := RampOUTSIDE | RampBEGIN | RampRAMPING | RampFINISH | RampCOLLECTING.

Definition RampMode_eqb (a b : RampMode) : bool :=
  match a, b with
  | RampOUTSIDE, RampOUTSIDE | RampBEGIN, RampBEGIN | RampRAMPING, RampRAMPING
  | RampFINISH, RampFINISH | RampCOLLECTING, RampCOLLECTING => true
  | _, _ => false
  end.

(** The AMC pool structure (the fields the claims read). *)
Record AMC := mkAMC {
  amc_rampCount : Z;          (* unsigned *)
  amc_rampMode : RampMode;
  amc_rampGen : nat;
  amc_afterRampGen : nat;
  amc_extendBy : Size;
  amc_largeSize : Size;
  amc_interior : bool;        (* amc->pinned == amcPinnedInterior *)
  amc_align : Size;           (* PoolAlignment(pool) *)
  amc_headerSize : Size       (* pool->format->headerSize *)
}.

Definition amc_set_ramp (amc : AMC) (count : Z) (mode : RampMode) : AMC :=
  {| amc_rampCount := count; amc_rampMode := mode;
     amc_rampGen := amc_rampGen amc; amc_afterRampGen := amc_afterRampGen amc;
     amc_extendBy := amc_extendBy amc; amc_largeSize := amc_largeSize amc;
     amc_interior := amc_interior amc; amc_align := amc_align amc;
     amc_headerSize := amc_headerSize amc |}.

Definition UINT_MAX : Z := 2 ^ 32 - 1.

Inductive TraceState := TraceINIT | TraceUNFLIPPED | TraceFLIPPED | TraceRECLAIM | TraceFINISHED.

Definition TraceState_eqb (a b : TraceState) : bool :=
  match a, b with
  | TraceINIT, TraceINIT | TraceUNFLIPPED, TraceUNFLIPPED
  | TraceFLIPPED, TraceFLIPPED | TraceRECLAIM, TraceRECLAIM
  | TraceFINISHED, TraceFINISHED => true
  | _, _ => false
  end.

Record Trace := mkTrace {
  tr_ti : TraceId;
  tr_white : RefSet;
  tr_mayMove : RefSet;
  tr_state : TraceState;
  tr_emergency : bool;
  tr_condemned : Size;
  tr_foundation : Size;
  tr_rate : Size;
  tr_rootScanSize : Size;
  tr_segScanSize : Size;
  tr_segScanCount : Z;
  tr_reclaimCount : Z;
  tr_reclaimSize : Size
}.

(** A root: its rank, its summary and its reference slots. *)
Record Root := mkRoot { root_rank : Rank; root_summary : RefSet; root_refs : list Addr;
                        root_grey : TraceSet }.

(** Events of the shallow embedding that the claims observe: copying of
    object bytes, reservation from a buffer and writing a padding
    object. *)
Inductive Event :=
| EvCopy (dst src : Addr) (len : Size)
| EvReserve (buf : nat) (len : Size)
| EvPad (a : Addr) (len : Size).

Record Arena := mkArena {
  ar_segs : list Seg;         (* the segment ring, in address order *)
  ar_bufs : list Buffer;
  ar_gens : list Gen;
  ar_amc : AMC;
  ar_trace : Trace;           (* arena->trace[0] *)
  ar_busyTraces : TraceSet;
  ar_flippedTraces : TraceSet;
  ar_roots : list Root;
  ar_zoneShift : Z;
  ar_grainSize : Size;
  ar_commitLimit : Size;
  ar_boardOK : bool;          (* whether NailboardCreate can allocate *)
  ar_log : list Event
}.

Definition ar_upd (ar : Arena) (segs : list Seg) (bufs : list Buffer) (gens : list Gen)
    (amc : AMC) (tr : Trace) (log : list Event) : Arena :=
  {| ar_segs := segs; ar_bufs := bufs; ar_gens := gens; ar_amc := amc;
     ar_trace := tr; ar_busyTraces := ar_busyTraces ar;
     ar_flippedTraces := ar_flippedTraces ar; ar_roots := ar_roots ar;
     ar_zoneShift := ar_zoneShift ar; ar_grainSize := ar_grainSize ar;
     ar_commitLimit := ar_commitLimit ar; ar_boardOK := ar_boardOK ar;
     ar_log := log |}.

Definition ar_set_segs (ar : Arena) (segs : list Seg) : Arena :=
  ar_upd ar segs (ar_bufs ar) (ar_gens ar) (ar_amc ar) (ar_trace ar) (ar_log ar).
Definition ar_set_bufs (ar : Arena) (bufs : list Buffer) : Arena :=
  ar_upd ar (ar_segs ar) bufs (ar_gens ar) (ar_amc ar) (ar_trace ar) (ar_log ar).
Definition ar_set_gens (ar : Arena) (gens : list Gen) : Arena :=
  ar_upd ar (ar_segs ar) (ar_bufs ar) gens (ar_amc ar) (ar_trace ar) (ar_log ar).
Definition ar_set_amc (ar : Arena) (amc : AMC) : Arena :=
  ar_upd ar (ar_segs ar) (ar_bufs ar) (ar_gens ar) amc (ar_trace ar) (ar_log ar).
Definition ar_set_trace (ar : Arena) (tr : Trace) : Arena :=
  ar_upd ar (ar_segs ar) (ar_bufs ar) (ar_gens ar) (ar_amc ar) tr (ar_log ar).
Definition ar_log_event (ar : Arena) (e : Event) : Arena :=
  ar_upd ar (ar_segs ar) (ar_bufs ar) (ar_gens ar) (ar_amc ar) (ar_trace ar) (ar_log ar ++ [e]).

Definition ar_set_flipped (ar : Arena) (ts : TraceSet) : Arena :=
  {| ar_segs := ar_segs ar; ar_bufs := ar_bufs ar; ar_gens := ar_gens ar;
     ar_amc := ar_amc ar; ar_trace := ar_trace ar; ar_busyTraces := ar_busyTraces ar;
     ar_flippedTraces := ts; ar_roots := ar_roots ar;
     ar_zoneShift := ar_zoneShift ar; ar_grainSize := ar_grainSize ar;
     ar_commitLimit := ar_commitLimit ar; ar_boardOK := ar_boardOK ar;
     ar_log := ar_log ar |}.

Definition ar_set_roots (ar : Arena) (rs : list Root) : Arena :=
  {| ar_segs := ar_segs ar; ar_bufs := ar_bufs ar; ar_gens := ar_gens ar;
     ar_amc := ar_amc ar; ar_trace := ar_trace ar; ar_busyTraces := ar_busyTraces ar;
     ar_flippedTraces := ar_flippedTraces ar; ar_roots := rs;
     ar_zoneShift := ar_zoneShift ar; ar_grainSize := ar_grainSize ar;
     ar_commitLimit := ar_commitLimit ar; ar_boardOK := ar_boardOK ar;
     ar_log := ar_log ar |}.

Definition tr_upd (t : Trace) (white mayMove : RefSet) (st : TraceState) (em : bool)
    (condemned foundation rate : Size) : Trace :=
  {| tr_ti := tr_ti t; tr_white := white; tr_mayMove := mayMove; tr_state := st;
     tr_emergency := em; tr_condemned := condemned; tr_foundation := foundation;
     tr_rate := rate; tr_rootScanSize := tr_rootScanSize t;
     tr_segScanSize := tr_segScanSize t; tr_segScanCount := tr_segScanCount t;
     tr_reclaimCount := tr_reclaimCount t; tr_reclaimSize := tr_reclaimSize t |}.

Definition tr_set_state (t : Trace) (st : TraceState) : Trace :=
  tr_upd t (tr_white t) (tr_mayMove t) st (tr_emergency t)
         (tr_condemned t) (tr_foundation t) (tr_rate t).
Definition tr_set_emergency (t : Trace) (em : bool) : Trace :=
  tr_upd t (tr_white t) (tr_mayMove t) (tr_state t) em
         (tr_condemned t) (tr_foundation t) (tr_rate t).

Definition tr_set_counts (t : Trace) (rootScan segScan segCount reclaimCount reclaimSize : Z)
  : Trace :=
  {| tr_ti := tr_ti t; tr_white := tr_white t; tr_mayMove := tr_mayMove t;
     tr_state := tr_state t; tr_emergency := tr_emergency t;
     tr_condemned := tr_condemned t; tr_foundation := tr_foundation t;
     tr_rate := tr_rate t; tr_rootScanSize := rootScan;
     tr_segScanSize := segScan; tr_segScanCount := segCount;
     tr_reclaimCount := reclaimCount; tr_reclaimSize := reclaimSize |}.

(** Segment lookup and update by position in the ring. *)
Fixpoint seg_of_addr_from (i : nat) (segs : list Seg) (a : Addr) : option (nat * Seg) :=
  match segs with
  | [] => None
  | s :: segs' =>
      if (seg_base s <=? a) && (a <? seg_limit s) then Some (i, s)
      else seg_of_addr_from (S i) segs' a
  end.

(** [SegOfAddr] / [SEG_OF_ADDR] *)
Definition SegOfAddr (ar : Arena) (a : Addr) : option (nat * Seg) :=
  seg_of_addr_from O (ar_segs ar) a.

Definition ar_set_seg (ar : Arena) (i : nat) (s : Seg) : Arena :=
  ar_set_segs ar (list_set (ar_segs ar) i s).

Definition ar_set_buf (ar : Arena) (i : nat) (b : Buffer) : Arena :=
  ar_set_bufs ar (list_set (ar_bufs ar) i b).

Fixpoint find_buf_from (i : nat) (bs : list Buffer) (base : Addr) : option (nat * Buffer) :=
  match bs with
  | [] => None
  | b :: bs' =>
      match buf_seg b with
      | Some x => if x =? base then Some (i, b) else find_buf_from (S i) bs' base
      | None => find_buf_from (S i) bs' base
      end
  end.

(** [SegBuffer]: the buffer attached to a segment, if any. *)
Definition SegBuffer (ar : Arena) (s : Seg) : option (nat * Buffer) :=
  find_buf_from O (ar_bufs ar) (seg_base s).

Definition dummyGen : Gen := mkGen O 0 0.
Definition dummyBuf : Buffer := mkBuf None false 0 0 0 0 O 0 false.
Definition ar_gen (ar : Arena) (g : nat) : Gen := nth g (ar_gens ar) dummyGen.
Definition ar_buf (ar : Arena) (i : nat) : Buffer := nth i (ar_bufs ar) dummyBuf.

(** ** Arena and pool-generation services *)

Definition GenDescCondemned (ar : Arena) (g : nat) (size : Size) : Arena :=
  let gen := ar_gen ar g in
  let tr := ar_trace ar in
  ar_set_trace
    (ar_set_gens ar (list_set (ar_gens ar) g
       (mkGen (gen_forward gen) (SizeAdd (gen_condemned gen) size) (gen_survived gen))))
    (tr_upd tr (tr_white tr) (tr_mayMove tr) (tr_state tr) (tr_emergency tr)
            (SizeAdd (tr_condemned tr) size) (tr_foundation tr) (tr_rate tr)).

Definition GenDescSurvived (ar : Arena) (g : nat) (forwarded preserved : Size) : Arena :=
  let gen := ar_gen ar g in
  ar_set_gens ar (list_set (ar_gens ar) g
     (mkGen (gen_forward gen) (gen_condemned gen)
            (SizeAdd (gen_survived gen) (SizeAdd forwarded preserved)))).

(** Modelled from the spec: [SizeArenaGrains] rounds a size up to a
    whole number of arena grains. *)
Definition SizeArenaGrains (size grain : Size) : Size :=
  ((size + grain - 1) / grain) * grain.

Definition ArenaCommitted (ar : Arena) : Size :=
  fold_right (fun s acc => SegSize s + acc) 0 (ar_segs ar).

(** Modelled from the spec: the arena reservation layer hands out a
    fresh grain-aligned range above every existing segment, provided the
    commit limit allows it. *)
Definition ArenaFreshBase (ar : Arena) : Addr :=
  SizeArenaGrains (fold_right (fun s acc => Z.max (seg_limit s) acc)
                              (ar_grainSize ar) (ar_segs ar)) (ar_grainSize ar).

Definition NewSeg (base size : Addr) (g : nat) : Seg :=
  {| seg_base := base; seg_limit := base + size; seg_gc := true;
     seg_white := TraceSetEMPTY; seg_grey := TraceSetEMPTY; seg_nailed := TraceSetEMPTY;
     seg_rankSet := RankSetEMPTY; seg_summary := RefSetEMPTY; seg_gen := g;
     seg_board := None; seg_forwarded := 0; seg_old := false;
     seg_accountedAsBuffered := false; seg_deferred := false; seg_objs := [] |}.

(** Modelled from the spec: [PoolGenAlloc] is arena code outside this
    source tree; this stand-in appends a new segment of the generation
    to the ring and returns its index, and fails only past the commit
    limit (with [ResCOMMIT_LIMIT]); the arena's other failures and the
    pool generation's size accounting are not modelled. *)
Definition PoolGenAlloc (ar : Arena) (g : nat) (size : Size) : Res * nat * Arena :=
  if ar_commitLimit ar <? ArenaCommitted ar + size then (ResCOMMIT_LIMIT, O, ar)
  else (ResOK, length (ar_segs ar),
        ar_set_segs ar (ar_segs ar ++ [NewSeg (ArenaFreshBase ar) size g])).

(** The format's pad method writes a padding object at [a]. *)
Definition FormatPad (ar : Arena) (i : nat) (a : Addr) (len : Size) : Arena :=
  let s := nth i (ar_segs ar) (NewSeg 0 0 O) in
  let h := amc_headerSize (ar_amc ar) in
  ar_log_event (ar_set_seg ar i (SegSetObjs s (obj_set (a + h) (PadObj len) (seg_objs s))))
               (EvPad a len).

Fixpoint seg_index_from (i : nat) (segs : list Seg) (base : Addr) : option nat :=
  match segs with
  | [] => None
  | s :: segs' => if seg_base s =? base then Some i else seg_index_from (S i) segs' base
  end.

Definition SegIndexOfBase (ar : Arena) (base : Addr) : option nat :=
  seg_index_from O (ar_segs ar) base.

(** [amcSegBufferEmpty] -- free from buffer to segment. *)
Definition amcSegBufferEmpty (ar : Arena) (i : nat) (b : Buffer) : Arena :=
  let base := buf_base b in
  let init := buf_init b in
  let limit := buf_limit b in
  let ar := if init <? limit then FormatPad ar i init (limit - init) else ar in
  let s := nth i (ar_segs ar) (NewSeg 0 0 O) in
  let ar := if TraceSetIsMember (seg_white s) 0
            then GenDescCondemned ar (seg_gen s) (limit - base) else ar in
  let s := nth i (ar_segs ar) (NewSeg 0 0 O) in
  if seg_accountedAsBuffered s
  then ar_set_seg ar i (SegSetAmcFlags s (seg_forwarded s) (seg_old s) false (seg_deferred s))
  else ar.

(** Modelled from the spec: [BufferDetach] flushes the buffer to its
    segment (padding [init, limit)) and marks the buffer empty. *)
Definition BufferDetach (ar : Arena) (bi : nat) : Arena :=
  let b := ar_buf ar bi in
  match buf_seg b with
  | None => ar
  | Some x =>
      let ar := match SegIndexOfBase ar x with
                | Some i => amcSegBufferEmpty ar i b
                | None => ar
                end in
      ar_set_buf ar bi (buf_upd b None 0 0 0 0)
  end.

(** [AMCBufferFill] -- refill an allocation buffer.  Its AVERs (the
    buffer is reset, [size > 0], the size is aligned) are not modelled:
    statements take [0 < size] as a hypothesis.  The call to
    [PoolGenAccountForFill] (defined outside this source tree) is not
    modelled either, since the model keeps no pool-generation size
    accounting; only the segment's [accountedAsBuffered] flag is set. *)
Definition AMCBufferFill (ar : Arena) (bi : nat) (size : Size)
  : Res * Addr * Addr * Arena :=
  let amc := ar_amc ar in
  let buffer := ar_buf ar bi in
  let g := buf_gen buffer in
  let grainsSize := if size <? amc_extendBy amc then amc_extendBy amc
                    else SizeArenaGrains size (ar_grainSize ar) in
  match PoolGenAlloc ar g grainsSize with
  | (ResOK, i, ar) =>
      let s := nth i (ar_segs ar) (NewSeg 0 0 O) in
      let s := if buf_rankSet buffer =? RankSetEMPTY
               then SegSetRankAndSummary s (buf_rankSet buffer) RefSetEMPTY
               else SegSetRankAndSummary s (buf_rankSet buffer) RefSetUNIV in
      let deferred :=
        (RampMode_eqb (amc_rampMode amc) RampRAMPING
         && Nat.eqb bi (gen_forward (ar_gen ar (amc_rampGen amc)))
         && Nat.eqb g (amc_rampGen amc)) || buf_forHashArrays buffer in
      let s := if deferred
               then SegSetAmcFlags s (seg_forwarded s) (seg_old s)
                                   (seg_accountedAsBuffered s) true
               else s in
      let ar := ar_set_seg ar i s in
      let base := seg_base s in
      let '(limit, ar) :=
        if size <? amc_largeSize amc then (base + grainsSize, ar)
        else
          let limit := base + size in
          let padSize := grainsSize - size in
          (limit, if 0 <? padSize then FormatPad ar i limit padSize else ar) in
      let s := nth i (ar_segs ar) (NewSeg 0 0 O) in
      let ar := ar_set_seg ar i (SegSetAmcFlags s (seg_forwarded s) (seg_old s) true
                                                (seg_deferred s)) in
      (ResOK, base, limit, ar)
  | (res, _, ar) => (res, 0, 0, ar)
  end.

(** Modelled from the spec: [BufferFill] detaches the buffer, asks the
    pool for memory and attaches the buffer to it, reserving [size]. *)
Definition BufferFill (ar : Arena) (bi : nat) (size : Size) : Res * Addr * Arena :=
  let ar := BufferDetach ar bi in
  match AMCBufferFill ar bi size with
  | (ResOK, base, limit, ar) =>
      let b := ar_buf ar bi in
      (ResOK, base, ar_set_buf ar bi (buf_upd b (Some base) base base (base + size) limit))
  | (res, _, _, ar) => (res, 0, ar)
  end.

(** Modelled from the spec: [BUFFER_RESERVE] bumps [alloc] when the
    request fits, and otherwise calls [BufferFill]. *)
Definition BUFFER_RESERVE (ar : Arena) (bi : nat) (size : Size) : Res * Addr * Arena :=
  let ar := ar_log_event ar (EvReserve bi size) in
  let b := ar_buf ar bi in
  match buf_seg b with
  | Some x =>
      if buf_alloc b + size <=? buf_limit b
      then (ResOK, buf_alloc b,
            ar_set_buf ar bi (buf_upd b (Some x) (buf_base b) (buf_init b)
                                       (buf_alloc b + size) (buf_limit b)))
      else BufferFill ar bi size
  | None => BufferFill ar bi size
  end.

(** Modelled from the spec: [BUFFER_COMMIT] sets [init := alloc]; no
    flip can intervene inside a fix, so it succeeds. *)
Definition BUFFER_COMMIT (ar : Arena) (bi : nat) : bool * Arena :=
  let b := ar_buf ar bi in
  (true, ar_set_buf ar bi (buf_upd b (buf_seg b) (buf_base b) (buf_alloc b)
                                   (buf_alloc b) (buf_limit b))).

(** ** Fixing references (poolamc.c) *)

Definition dummySeg : Seg := NewSeg 0 0 O.
Definition ar_seg (ar : Arena) (i : nat) : Seg := nth i (ar_segs ar) dummySeg.

(** The format's view of the memory at a client address; an address
    that holds no object reads as a one-grain object without slots. *)
Definition ObjAt (align : Size) (s : Seg) (a : Addr) : Obj :=
  match obj_find a (seg_objs s) with Some o => o | None => mkObj align [] 0 end.

(** [format->isMoved] *)
Definition FormatIsMoved (s : Seg) (a : Addr) : Addr :=
  match obj_find a (seg_objs s) with Some o => o_fwd o | None => 0 end.

(** [format->skip] *)
Definition FormatSkip (align : Size) (s : Seg) (a : Addr) : Addr :=
  a + o_size (ObjAt align s a).

(** [amcPinnedInterior] and [amcPinnedBase], selected by [amc->pinned]. *)
Definition amcPinned (amc : AMC) (s : Seg) (b : Nailboard) (base limit : Addr) : bool :=
  let h := amc_headerSize amc in
  if amc_interior amc
  then negb (NailboardIsResRange (amc_align amc) (seg_base s) b (base - h) (limit - h))
  else NailboardGet (amc_align amc) (seg_base s) b base.

(** [amcSegFixInPlace] -- fix a reference without moving the object. *)
Definition amcSegFixInPlace (ar : Arena) (i : nat) (ss : ScanState) (ref : Addr) : Arena :=
  let s := ar_seg ar i in
  let amc := ar_amc ar in
  let k (s : Seg) :=
    let s := SegSetNailed s (TraceSetUnion (seg_nailed s) (ss_traces ss)) in
    let s := if negb (seg_rankSet s =? RankSetEMPTY)
             then SegSetGrey s (TraceSetUnion (seg_grey s) (ss_traces ss)) else s in
    ar_set_seg ar i s in
  match seg_board s with
  | Some b =>
      let '(wasMarked, b') := NailboardSet (amc_align amc) (seg_base s) b ref in
      let s := SegSetBoard s (Some b') in
      if TraceSetSub (ss_traces ss) (seg_nailed s) && wasMarked
      then ar_set_seg ar i s
      else k s
  | None =>
      if TraceSetSub (ss_traces ss) (seg_nailed s) then ar else k s
  end.

(** [amcSegFixEmergency] -- fix a reference, without allocating.  The
    result is the result code and the new value of [*refIO]. *)
Definition amcSegFixEmergency (ar : Arena) (i : nat) (ss : ScanState) (ref : Addr)
  : Res * Addr * Arena :=
  if Rank_eqb (ss_rank ss) RankAMBIG then (ResOK, ref, amcSegFixInPlace ar i ss ref)
  else
    let newRef := FormatIsMoved (ar_seg ar i) ref in
    if negb (newRef =? 0) then (ResOK, newRef, ar)
    else (ResOK, ref, amcSegFixInPlace ar i ss ref).

Definition ss_set_counts (ss : ScanState) (wasMarked : bool)
    (fixRef segRef whiteSegRef nail snap fwd copied scanned : Z) : ScanState :=
  {| ss_emergencyFix := ss_emergencyFix ss; ss_rank := ss_rank ss;
     ss_traces := ss_traces ss; ss_white := ss_white ss;
     ss_unfixedSummary := ss_unfixedSummary ss; ss_fixedSummary := ss_fixedSummary ss;
     ss_wasMarked := wasMarked; ss_fixRefCount := fixRef;
     ss_segRefCount := segRef; ss_whiteSegRefCount := whiteSegRef;
     ss_nailCount := nail; ss_snapCount := snap; ss_forwardedCount := fwd;
     ss_copiedSize := copied; ss_scannedSize := scanned |}.

Definition ss_incr_nail (ss : ScanState) : ScanState :=
  ss_set_counts ss (ss_wasMarked ss) (ss_fixRefCount ss) (ss_segRefCount ss)
    (ss_whiteSegRefCount ss) (ss_nailCount ss + 1) (ss_snapCount ss)
    (ss_forwardedCount ss) (ss_copiedSize ss) (ss_scannedSize ss).
Definition ss_incr_snap (ss : ScanState) : ScanState :=
  ss_set_counts ss (ss_wasMarked ss) (ss_fixRefCount ss) (ss_segRefCount ss)
    (ss_whiteSegRefCount ss) (ss_nailCount ss) (ss_snapCount ss + 1)
    (ss_forwardedCount ss) (ss_copiedSize ss) (ss_scannedSize ss).
Definition ss_start_forward (ss : ScanState) : ScanState :=
  ss_set_counts ss false (ss_fixRefCount ss) (ss_segRefCount ss)
    (ss_whiteSegRefCount ss) (ss_nailCount ss) (ss_snapCount ss)
    (ss_forwardedCount ss + 1) (ss_copiedSize ss) (ss_scannedSize ss).
Definition ss_add_copied (ss : ScanState) (len : Size) : ScanState :=
  ss_set_counts ss (ss_wasMarked ss) (ss_fixRefCount ss) (ss_segRefCount ss)
    (ss_whiteSegRefCount ss) (ss_nailCount ss) (ss_snapCount ss)
    (ss_forwardedCount ss) (SizeAdd (ss_copiedSize ss) len) (ss_scannedSize ss).
Definition ss_add_scanned (ss : ScanState) (len : Size) : ScanState :=
  ss_set_counts ss (ss_wasMarked ss) (ss_fixRefCount ss) (ss_segRefCount ss)
    (ss_whiteSegRefCount ss) (ss_nailCount ss) (ss_snapCount ss)
    (ss_forwardedCount ss) (ss_copiedSize ss) (SizeAdd (ss_scannedSize ss) len).

(** The forwarding step of [amcSegFix]: reserve [length] bytes in the
    generation's forwarding buffer, grey and summarise the to-segment,
    copy, commit, account and install the broken heart. *)
Definition amcSegForward (ar : Arena) (i : nat) (ss : ScanState) (ref : Addr)
  : Res * Addr * ScanState * Arena :=
  let amc := ar_amc ar in
  let h := amc_headerSize amc in
  let s := ar_seg ar i in
  let o := ObjAt (amc_align amc) s ref in
  let clientQ := ref + o_size o in
  let base := ref - h in
  let ss := ss_start_forward ss in
  let bi := gen_forward (ar_gen ar (seg_gen s)) in
  let length := clientQ - ref in
  match BUFFER_RESERVE ar bi length with
  | (ResOK, newBase, ar) =>
      let newRef := newBase + h in
      let ar :=
        match buf_seg (ar_buf ar bi) with
        | Some x =>
            match SegIndexOfBase ar x with
            | Some j =>
                let s := ar_seg ar i in
                let toSeg := ar_seg ar j in
                let grey := seg_grey s in
                let '(grey, toSeg) :=
                  if negb (seg_rankSet s =? RankSetEMPTY)
                  then (TraceSetUnion grey (ss_traces ss),
                        SegSetSummary toSeg (RefSetUnion (seg_summary toSeg) (seg_summary s)))
                  else (grey, toSeg) in
                let toSeg := SegSetGrey toSeg (TraceSetUnion (seg_grey toSeg) grey) in
                let toSeg := SegSetObjs toSeg
                   (obj_set newRef (mkObj (o_size o) (o_refs o) 0) (seg_objs toSeg)) in
                ar_log_event (ar_set_seg ar j toSeg) (EvCopy newBase base length)
            | None => ar_log_event ar (EvCopy newBase base length)
            end
        | None => ar_log_event ar (EvCopy newBase base length)
        end in
      let '(_, ar) := BUFFER_COMMIT ar bi in
      let ss := ss_add_copied ss length in
      let s := ar_seg ar i in
      let s := SegSetAmcFlags s (SizeAdd (seg_forwarded s) length) (seg_old s)
                              (seg_accountedAsBuffered s) (seg_deferred s) in
      let s := SegSetObjs s (obj_set ref (mkObj (o_size o) (o_refs o) newRef) (seg_objs s)) in
      (ResOK, newRef, ss, ar_set_seg ar i s)
  | (res, _, ar) => (res, ref, ss, ar)
  end.

(** [amcSegFix] -- fix a reference to the segment. *)
Definition amcSegFix (ar : Arena) (i : nat) (ss : ScanState) (ref : Addr)
  : Res * Addr * ScanState * Arena :=
  let s := ar_seg ar i in
  let amc := ar_amc ar in
  if Rank_eqb (ss_rank ss) RankAMBIG then
    if seg_nailed s =? TraceSetEMPTY then
      if negb (ar_boardOK ar) then (ResMEMORY, ref, ss, ar)
      else
        let s := SegSetBoard s (Some (mkBoard (NailboardCreateMarks (amc_align amc)
                                                (seg_base s) (seg_limit s)) false)) in
        let ss := ss_incr_nail ss in
        let s := SegSetNailed s (TraceSetUnion (seg_nailed s) (ss_traces ss)) in
        (ResOK, ref, ss, amcSegFixInPlace (ar_set_seg ar i s) i ss ref)
    else (ResOK, ref, ss, amcSegFixInPlace ar i ss ref)
  else
    let newRef := FormatIsMoved s ref in
    if newRef =? 0 then
      let clientQ := FormatSkip (amc_align amc) s ref in
      if negb (seg_nailed s =? TraceSetEMPTY)
         && negb (match seg_board s with
                  | Some b => negb (amcPinned amc s b ref clientQ)
                  | None => false
                  end)
      then
        if negb (TraceSetSub (ss_traces ss) (seg_nailed s)) then
          let s := if negb (seg_rankSet s =? RankSetEMPTY)
                   then SegSetGrey s (TraceSetUnion (seg_grey s) (ss_traces ss)) else s in
          let s := SegSetNailed s (TraceSetUnion (seg_nailed s) (ss_traces ss)) in
          (ResOK, ref, ss, ar_set_seg ar i s)
        else (ResOK, ref, ss, ar)
      else if Rank_eqb (ss_rank ss) RankWEAK then (ResOK, 0, ss, ar)
      else amcSegForward ar i ss ref
    else (ResOK, newRef, ss_incr_snap ss, ar).

(** ** The trace's fix methods (trace.c) *)

Definition ss_set_fixed (ss : ScanState) (fixed : RefSet) : ScanState :=
  ss_set_summaries ss (ss_unfixedSummary ss) fixed.
Definition ss_set_unfixed (ss : ScanState) (unfixed : RefSet) : ScanState :=
  ss_set_summaries ss unfixed (ss_fixedSummary ss).

Definition ss_bump (ss : ScanState) (fixRef segRef whiteSegRef : Z) : ScanState :=
  ss_set_counts ss (ss_wasMarked ss) (ss_fixRefCount ss + fixRef)
    (ss_segRefCount ss + segRef) (ss_whiteSegRefCount ss + whiteSegRef)
    (ss_nailCount ss) (ss_snapCount ss) (ss_forwardedCount ss)
    (ss_copiedSize ss) (ss_scannedSize ss).

(** [TraceFix].  Every segment of the model belongs to the AMC pool, so
    [PoolFix] is [amcSegFix]. *)
Definition TraceFix (ar : Arena) (ss : ScanState) (ref : Addr)
  : Res * Addr * ScanState * Arena :=
  let ss := ss_bump ss 1 0 0 in
  let '(res, ref, ss, ar) :=
    match SegOfAddr ar ref with
    | Some (i, s) =>
        let ss := ss_bump ss 0 1 0 in
        if negb (TraceSetInter (seg_white s) (ss_traces ss) =? TraceSetEMPTY)
        then amcSegFix ar i (ss_bump ss 0 0 1) ref
        else (ResOK, ref, ss, ar)
    | None => (ResOK, ref, ss, ar)
    end in
  match res with
  | ResOK => (ResOK, ref, ss_set_fixed ss (RefSetAdd (ar_zoneShift ar) (ss_fixedSummary ss) ref), ar)
  | _ => (res, ref, ss, ar)
  end.

(** [TraceFixEmergency]; [PoolFixEmergency] is [amcSegFixEmergency]. *)
Definition TraceFixEmergency (ar : Arena) (ss : ScanState) (ref : Addr)
  : Res * Addr * ScanState * Arena :=
  let ss := ss_bump ss 1 0 0 in
  let '(ref, ss, ar) :=
    match SegOfAddr ar ref with
    | Some (i, s) =>
        let ss := ss_bump ss 0 1 0 in
        if negb (TraceSetInter (seg_white s) (ss_traces ss) =? TraceSetEMPTY)
        then let ss := ss_bump ss 0 0 1 in
             let '(_, ref, ar) := amcSegFixEmergency ar i ss ref in
             (ref, ss, ar)
        else (ref, ss, ar)
    | None => (ref, ss, ar)
    end in
  (ResOK, ref, ss_set_fixed ss (RefSetAdd (ar_zoneShift ar) (ss_fixedSummary ss) ref), ar).

(** [ss->fix], as chosen by [ScanStateInit]. *)
Definition ScanStateFix (ar : Arena) (ss : ScanState) (ref : Addr)
  : Res * Addr * ScanState * Arena :=
  if ss_emergencyFix ss then TraceFixEmergency ar ss ref else TraceFix ar ss ref.

(** [ScanStateInit] for the single trace. *)
Definition ScanStateInit (ar : Arena) (ts : TraceSet) (rank : Rank) (white : RefSet) : ScanState :=
  {| ss_emergencyFix := TraceSetIsMember ts 0 && tr_emergency (ar_trace ar);
     ss_rank := rank; ss_traces := ts; ss_white := white;
     ss_unfixedSummary := RefSetEMPTY; ss_fixedSummary := RefSetEMPTY;
     ss_wasMarked := true; ss_fixRefCount := 0; ss_segRefCount := 0;
     ss_whiteSegRefCount := 0; ss_nailCount := 0; ss_snapCount := 0;
     ss_forwardedCount := 0; ss_copiedSize := 0; ss_scannedSize := 0 |}.

(** ** Scanning formatted objects *)

(** Writing slot [k] of the object at client address [p]. *)
Definition SegSetSlot (s : Seg) (p : Addr) (k : nat) (v : Addr) : Seg :=
  match obj_find p (seg_objs s) with
  | Some o => SegSetObjs s (obj_set p (mkObj (o_size o) (list_set (o_refs o) k v) (o_fwd o))
                                    (seg_objs s))
  | None => s
  end.

(** Modelled from the spec: the format's scan method visits each slot
    of the object at [p] in segment [i]; [MPS_FIX1] adds the slot's zone
    to the unfixed summary and calls the fix method when the zone is
    white ([MPS_FIX2]), writing the fixed value back. *)
Fixpoint FormatScanSlots (fuel : nat) (ar : Arena) (i : nat) (ss : ScanState)
    (p : Addr) (k : nat) : Res * ScanState * Arena :=
  match fuel with
  | O => (ResOK, ss, ar)
  | S fuel' =>
      let o := ObjAt (amc_align (ar_amc ar)) (ar_seg ar i) p in
      match nth_error (o_refs o) k with
      | None => (ResOK, ss, ar)
      | Some ref =>
          let zone := RefSetAdd (ar_zoneShift ar) RefSetEMPTY ref in
          let ss := ss_set_unfixed ss (RefSetUnion (ss_unfixedSummary ss) zone) in
          if RefSetInter (ss_white ss) zone =? RefSetEMPTY
          then FormatScanSlots fuel' ar i ss p (S k)
          else
            match ScanStateFix ar ss ref with
            | (ResOK, ref', ss, ar) =>
                let ar := ar_set_seg ar i (SegSetSlot (ar_seg ar i) p k ref') in
                FormatScanSlots fuel' ar i ss p (S k)
            | (res, _, ss, ar) => (res, ss, ar)
            end
      end
  end.

(** Modelled from the spec: the format's scan method walks the objects
    of [base, limit) with [skip]. *)
Fixpoint FormatScanArea (fuel : nat) (ar : Arena) (i : nat) (ss : ScanState)
    (p limit : Addr) : option (Res * ScanState * Arena) :=
  if p <? limit then
    match fuel with
    | O => None
    | S fuel' =>
        let q := FormatSkip (amc_align (ar_amc ar)) (ar_seg ar i) p in
        let n := length (o_refs (ObjAt (amc_align (ar_amc ar)) (ar_seg ar i) p)) in
        match FormatScanSlots n ar i ss p O with
        | (ResOK, ss, ar) => FormatScanArea fuel' ar i ss q limit
        | (res, ss, ar) => Some (res, ss, ar)
        end
    end
  else Some (ResOK, ss, ar).

(** Modelled from the spec: [TraceScanFormat] accounts the scanned
    range and calls the format's scan method on it. *)
Definition TraceScanFormat (ar : Arena) (i : nat) (ss : ScanState) (base limit : Addr)
  : option (Res * ScanState * Arena) :=
  FormatScanArea (S (Z.to_nat (limit - base))) ar i (ss_add_scanned ss (limit - base))
                 base limit.

(** ** Work measure

    The loops of the source that are not bounded by their data
    ([while (SegBuffer(&buffer, seg))], the nailed rescans, the trace's
    step loops) are run with an iteration bound computed from this
    measure; exhausting the bound yields [None], standing for a run that
    does not terminate.  [W] counts, over the segments white for trace
    0, the addresses not yet forwarded and the nails still available;
    [G] counts the segments grey for trace 0. *)

Fixpoint count_false (l : list bool) : nat :=
  match l with
  | [] => O
  | b :: l' => Nat.add (if b then O else S O) (count_false l')
  end.

Definition seg_nbits (align : Size) (s : Seg) : nat :=
  Z.to_nat ((seg_limit s - seg_base s + align - 1) / align).

Fixpoint count_unmoved (s : Seg) (a : Addr) (n : nat) : nat :=
  match n with
  | O => O
  | S n' => Nat.add (if FormatIsMoved s a =? 0 then S O else O) (count_unmoved s (a + 1) n')
  end.

Definition seg_unmoved (s : Seg) : nat :=
  count_unmoved s (seg_base s) (Z.to_nat (seg_limit s - seg_base s)).

Definition seg_nailwork (align : Size) (s : Seg) : nat :=
  let unnailed := if TraceSetIsMember (seg_nailed s) 0 then O else S O in
  match seg_board s with
  | Some b => Nat.add (count_false (nb_marks b)) unnailed
  | None => if TraceSetIsMember (seg_nailed s) 0 then O else S (seg_nbits align s)
  end.

Definition seg_work (align : Size) (s : Seg) : nat :=
  if TraceSetIsMember (seg_white s) 0 then Nat.add (seg_unmoved s) (seg_nailwork align s) else O.

Definition WhiteWork (ar : Arena) : nat :=
  fold_right (fun s acc => Nat.add (seg_work (amc_align (ar_amc ar)) s) acc) O (ar_segs ar).

Definition GreyCount (ar : Arena) : nat :=
  fold_right (fun s acc => Nat.add (if TraceSetIsMember (seg_grey s) 0 then S O else O) acc)
             O (ar_segs ar).

Definition TraceWork (ar : Arena) : nat := Nat.add (WhiteWork ar) (GreyCount ar).

(** ** Scanning AMC segments (poolamc.c) *)

Definition SegBufferScanLimit (ar : Arena) (s : Seg) : Addr :=
  match SegBuffer ar s with Some (_, b) => BufferScanLimit b | None => seg_limit s end.

Definition SegPinned (ar : Arena) (i : nat) (p q : Addr) : bool :=
  let s := ar_seg ar i in
  match seg_board s with
  | Some b => amcPinned (ar_amc ar) s b p q
  | None => false
  end.

(** [amcSegScanNailedRange]; the result carries [*totalReturn]. *)
Fixpoint amcSegScanNailedRange (fuel : nat) (ar : Arena) (i : nat) (ss : ScanState)
    (total : bool) (p clientLimit : Addr) : option (Res * bool * ScanState * Arena) :=
  if p <? clientLimit then
    match fuel with
    | O => None
    | S fuel' =>
        let q := FormatSkip (amc_align (ar_amc ar)) (ar_seg ar i) p in
        if SegPinned ar i p q then
          match TraceScanFormat ar i ss p q with
          | None => None
          | Some (ResOK, ss, ar) => amcSegScanNailedRange fuel' ar i ss total q clientLimit
          | Some (res, ss, ar) => Some (res, false, ss, ar)
          end
        else amcSegScanNailedRange fuel' ar i ss false q clientLimit
    end
  else Some (ResOK, total, ss, ar).

Definition amcSegScanNailedRange' (ar : Arena) (i : nat) (ss : ScanState)
    (total : bool) (base limit : Addr) : option (Res * bool * ScanState * Arena) :=
  let h := amc_headerSize (ar_amc ar) in
  amcSegScanNailedRange (S (Z.to_nat (limit - base))) ar i ss total (base + h) (limit + h).

Definition SegClearNewNails (ar : Arena) (i : nat) : Arena :=
  let s := ar_seg ar i in
  match seg_board s with
  | Some b => ar_set_seg ar i (SegSetBoard s (Some (NailboardClearNewNails b)))
  | None => ar
  end.

Definition SegNewNails (ar : Arena) (i : nat) : bool :=
  match seg_board (ar_seg ar i) with Some b => NailboardNewNails b | None => false end.

(** The buffer loop of [amcSegScanNailedOnce]. *)
Fixpoint amcSegScanNailedOnceLoop (fuel : nat) (ar : Arena) (i : nat) (ss : ScanState)
    (total : bool) (p : Addr) : option (Res * bool * bool * ScanState * Arena) :=
  match SegBuffer ar (ar_seg ar i) with
  | Some (_, buffer) =>
      let limit := BufferScanLimit buffer in
      if limit <=? p then Some (ResOK, total, SegNewNails ar i, ss, ar)
      else
        match fuel with
        | O => None
        | S fuel' =>
            match amcSegScanNailedRange' ar i ss total p limit with
            | None => None
            | Some (ResOK, total, ss, ar) => amcSegScanNailedOnceLoop fuel' ar i ss total limit
            | Some (res, total, ss, ar) => Some (res, total, true, ss, ar)
            end
        end
  | None =>
      let limit := seg_limit (ar_seg ar i) in
      match amcSegScanNailedRange' ar i ss total p limit with
      | None => None
      | Some (ResOK, total, ss, ar) => Some (ResOK, total, SegNewNails ar i, ss, ar)
      | Some (res, total, ss, ar) => Some (res, total, true, ss, ar)
      end
  end.

(** [amcSegScanNailedOnce]: result, [*totalReturn], [*moreReturn]. *)
Definition amcSegScanNailedOnce (ar : Arena) (i : nat) (ss : ScanState)
  : option (Res * bool * bool * ScanState * Arena) :=
  let ar := SegClearNewNails ar i in
  amcSegScanNailedOnceLoop (S (S (WhiteWork ar))) ar i ss true (seg_base (ar_seg ar i)).

Fixpoint amcSegScanNailedLoop (fuel : nat) (loops : nat) (ar : Arena) (i : nat)
    (ss : ScanState) : option (Res * bool * nat * ScanState * Arena) :=
  match fuel with
  | O => None
  | S fuel' =>
      match amcSegScanNailedOnce ar i ss with
      | None => None
      | Some (ResOK, total, more, ss, ar) =>
          if more then amcSegScanNailedLoop fuel' (S loops) ar i ss
          else Some (ResOK, total, S loops, ss, ar)
      | Some (res, _, _, ss, ar) => Some (res, false, loops, ss, ar)
      end
  end.

(** [amcSegScanNailed] *)
Definition amcSegScanNailed (ar : Arena) (i : nat) (ss : ScanState)
  : option (Res * bool * ScanState * Arena) :=
  match amcSegScanNailedLoop (S (S (WhiteWork ar))) O ar i ss with
  | None => None
  | Some (ResOK, total, loops, ss, ar) =>
      let ss := if Nat.ltb 1 loops then ScanStateSetSummary ss (ScanStateSummary ss) else ss in
      Some (ResOK, total, ss, ar)
  | Some (res, _, _, ss, ar) => Some (res, false, ss, ar)
  end.

(** The buffer loop of [amcSegScan]. *)
Fixpoint amcSegScanLoop (fuel : nat) (ar : Arena) (i : nat) (ss : ScanState) (base : Addr)
  : option (Res * bool * ScanState * Arena) :=
  let h := amc_headerSize (ar_amc ar) in
  match SegBuffer ar (ar_seg ar i) with
  | Some (_, buffer) =>
      let limit := BufferScanLimit buffer + h in
      if limit <=? base then Some (ResOK, true, ss, ar)
      else
        match fuel with
        | O => None
        | S fuel' =>
            match TraceScanFormat ar i ss base limit with
            | None => None
            | Some (ResOK, ss, ar) => amcSegScanLoop fuel' ar i ss limit
            | Some (res, ss, ar) => Some (res, false, ss, ar)
            end
        end
  | None =>
      let limit := seg_limit (ar_seg ar i) + h in
      if base <? limit then
        match TraceScanFormat ar i ss base limit with
        | None => None
        | Some (ResOK, ss, ar) => Some (ResOK, true, ss, ar)
        | Some (res, ss, ar) => Some (res, false, ss, ar)
        end
      else Some (ResOK, true, ss, ar)
  end.

(** [amcSegScan]: result and [*totalReturn]. *)
Definition amcSegScan (ar : Arena) (i : nat) (ss : ScanState)
  : option (Res * bool * ScanState * Arena) :=
  if amcSegHasNailboard (ar_seg ar i) then amcSegScanNailed ar i ss
  else amcSegScanLoop (S (S (WhiteWork ar))) ar i ss
                      (seg_base (ar_seg ar i) + amc_headerSize (ar_amc ar)).

(** ** The trace engine (trace.c) *)

Definition TraceSetSingle0 : TraceSet := TraceSetSingle 0.

Definition tr_add_segscan (t : Trace) (scanned : Size) : Trace :=
  tr_set_counts t (tr_rootScanSize t) (SizeAdd (tr_segScanSize t) scanned)
    (tr_segScanCount t + 1) (tr_reclaimCount t) (tr_reclaimSize t).
Definition tr_add_rootscan (t : Trace) (scanned : Size) : Trace :=
  tr_set_counts t (SizeAdd (tr_rootScanSize t) scanned) (tr_segScanSize t)
    (tr_segScanCount t) (tr_reclaimCount t) (tr_reclaimSize t).
Definition tr_add_reclaim (t : Trace) (count : Z) (size : Size) : Trace :=
  tr_set_counts t (tr_rootScanSize t) (tr_segScanSize t) (tr_segScanCount t)
    (tr_reclaimCount t + count) (SizeAdd (tr_reclaimSize t) size).

(** [TraceScanSeg] for the trace set {0}.  [PoolBlacken] of an AMC
    segment does nothing beyond the ungreying done here. *)
Definition TraceScanSeg (ar : Arena) (i : nat) (rank : Rank) : option (Res * Arena) :=
  let ts := TraceSetSingle0 in
  let white := tr_white (ar_trace ar) in
  let res_ar :=
    if RefSetInter white (seg_summary (ar_seg ar i)) =? RefSetEMPTY
    then Some (ResOK, ar)
    else
      let ss := ScanStateInit ar ts rank white in
      match amcSegScan ar i ss with
      | None => None
      | Some (res, wasTotal, ss, ar) =>
          let s := ar_seg ar i in
          let s := if negb (Res_eqb res ResOK) || negb wasTotal
                   then SegSetSummary s (RefSetUnion (seg_summary s) (ScanStateSummary ss))
                   else SegSetSummary s (ScanStateSummary ss) in
          let ar := ar_set_seg ar i s in
          Some (res, ar_set_trace ar (tr_add_segscan (ar_trace ar) (ss_scannedSize ss)))
      end in
  match res_ar with
  | None => None
  | Some (ResOK, ar) =>
      let s := ar_seg ar i in
      Some (ResOK, ar_set_seg ar i (SegSetGrey s (TraceSetDiff (seg_grey s) ts)))
  | Some (res, ar) => Some (res, ar)
  end.

(** Modelled from the spec: a grey segment sits on the grey ring of the
    least rank of its rank set; the rings are taken in segment order. *)
Definition RankSetMin (rs : Z) : option Rank :=
  if RankSetIsMember rs RankAMBIG then Some RankAMBIG
  else if RankSetIsMember rs RankEXACT then Some RankEXACT
  else if RankSetIsMember rs RankWEAK then Some RankWEAK
  else if RankSetIsMember rs RankFINAL then Some RankFINAL
  else None.

Definition OnGreyRing (rank : Rank) (s : Seg) : bool :=
  negb (seg_grey s =? TraceSetEMPTY)
  && match RankSetMin (seg_rankSet s) with Some r => Rank_eqb r rank | None => false end.

Fixpoint find_grey_from (i : nat) (rank : Rank) (segs : list Seg) : option nat :=
  match segs with
  | [] => None
  | s :: segs' =>
      if OnGreyRing rank s && TraceSetIsMember (seg_grey s) 0 then Some i
      else find_grey_from (S i) rank segs'
  end.

(** [traceFindGrey] *)
Definition traceFindGrey (ar : Arena) : option (nat * Rank) :=
  let fix go (ranks : list Rank) :=
    match ranks with
    | [] => None
    | r :: rs => match find_grey_from O r (ar_segs ar) with
                 | Some i => Some (i, r)
                 | None => go rs
                 end
    end in
  go [RankAMBIG; RankEXACT; RankWEAK; RankFINAL].

(** [TraceRun] *)
Definition TraceRun (ar : Arena) : option (Res * Arena) :=
  match traceFindGrey ar with
  | Some (i, rank) => TraceScanSeg ar i rank
  | None => Some (ResOK, ar_set_trace ar (tr_set_state (ar_trace ar) TraceRECLAIM))
  end.

(** [TraceWorkClock] *)
Definition TraceWorkClock (ar : Arena) : Size := tr_segScanSize (ar_trace ar).

(** ** Reclaiming AMC segments (poolamc.c) *)

Fixpoint remove_nth {A} (l : list A) (i : nat) : list A :=
  match l, i with
  | [], _ => []
  | _ :: l', O => l'
  | x :: l', S i' => x :: remove_nth l' i'
  end.

(** Modelled from the spec: [PoolGenFree] returns the segment to the
    arena. *)
Definition PoolGenFree (ar : Arena) (i : nat) : Arena :=
  ar_set_segs ar (remove_nth (ar_segs ar) i).

(** The object walk of [amcSegReclaimNailed]; it returns the final
    [padBase], [padLength], the preserved count and size and the bytes
    reclaimed. *)
Fixpoint amcSegReclaimNailedWalk (fuel : nat) (ar : Arena) (i : nat) (p limit : Addr)
    (padBase padLength : Addr) (count size reclaimed : Z)
  : option (Arena * Addr * Size * Z * Size * Size) :=
  if p <? limit then
    match fuel with
    | O => None
    | S fuel' =>
        let amc := ar_amc ar in
        let h := amc_headerSize amc in
        let s := ar_seg ar i in
        let clientP := p + h in
        let clientQ := FormatSkip (amc_align amc) s clientP in
        let q := clientQ - h in
        let length := q - p in
        let preserve :=
          match seg_board s with
          | Some b => amcPinned amc s b clientP clientQ
          | None => FormatIsMoved s clientP =? 0
          end in
        if preserve then
          let '(ar, reclaimed) :=
            if 0 <? padLength then (FormatPad ar i padBase padLength, reclaimed + padLength)
            else (ar, reclaimed) in
          amcSegReclaimNailedWalk fuel' ar i q limit q 0 (count + 1) (size + length) reclaimed
        else
          amcSegReclaimNailedWalk fuel' ar i q limit padBase (padLength + length)
                                  count size reclaimed
    end
  else Some (ar, padBase, padLength, count, size, reclaimed).

(** [amcSegReclaimNailed] *)
Definition amcSegReclaimNailed (ar : Arena) (i : nat) : option Arena :=
  let s := ar_seg ar i in
  let p := seg_base s in
  let limit := SegBufferScanLimit ar s in
  match amcSegReclaimNailedWalk (S (Z.to_nat (limit - p))) ar i p limit p 0 0 0 0 with
  | None => None
  | Some (ar, padBase, padLength, count, size, reclaimed) =>
      let '(ar, reclaimed) :=
        if 0 <? padLength then (FormatPad ar i padBase padLength, reclaimed + padLength)
        else (ar, reclaimed) in
      let s := ar_seg ar i in
      let s := SegSetNailed s (TraceSetDel (seg_nailed s) 0) in
      let s := SegSetWhite s (TraceSetDel (seg_white s) 0) in
      let s := if (seg_nailed s =? TraceSetEMPTY) && amcSegHasNailboard s
               then SegSetBoard s None else s in
      let ar := ar_set_seg ar i s in
      let ar := ar_set_trace ar (tr_add_reclaim (ar_trace ar) 0 reclaimed) in
      let ar := match SegBuffer ar s with
                | Some (_, b) => GenDescCondemned ar (seg_gen s) (buf_limit b - buf_base b)
                | None => ar
                end in
      let ar := GenDescSurvived ar (seg_gen s) (seg_forwarded s) size in
      if (count =? 0) && negb (match SegBuffer ar s with Some _ => true | None => false end)
         && (seg_nailed s =? TraceSetEMPTY)
      then Some (PoolGenFree ar i)
      else Some ar
  end.

(** [amcSegReclaim] *)
Definition amcSegReclaim (ar : Arena) (i : nat) : option Arena :=
  let amc := ar_amc ar in
  let ar :=
    if RampMode_eqb (amc_rampMode amc) RampCOLLECTING then
      if 0 <? amc_rampCount amc
      then ar_set_amc ar (amc_set_ramp amc (amc_rampCount amc) RampBEGIN)
      else ar_set_amc ar (amc_set_ramp amc (amc_rampCount amc) RampOUTSIDE)
    else ar in
  let s := ar_seg ar i in
  if negb (seg_nailed s =? TraceSetEMPTY) then amcSegReclaimNailed ar i
  else
    let ar := ar_set_trace ar (tr_add_reclaim (ar_trace ar) 0 (SegSize s)) in
    let ar := GenDescSurvived ar (seg_gen s) (seg_forwarded s) 0 in
    Some (PoolGenFree ar i).

(** [SegNext]: the segment following address [base] in the ring, which
    is kept in address order. *)
Fixpoint seg_next_from (i : nat) (segs : list Seg) (base : Addr) : option (nat * Seg) :=
  match segs with
  | [] => None
  | s :: segs' => if base <? seg_base s then Some (i, s) else seg_next_from (S i) segs' base
  end.

Definition SegNext (ar : Arena) (base : Addr) : option (nat * Seg) :=
  seg_next_from O (ar_segs ar) base.

Definition SegFirst (ar : Arena) : option (nat * Seg) :=
  match ar_segs ar with [] => None | s :: _ => Some (O, s) end.

Fixpoint TraceReclaimLoop (fuel : nat) (ar : Arena) (cur : option (nat * Seg))
  : option Arena :=
  match cur with
  | None => Some ar
  | Some (i, s) =>
      match fuel with
      | O => None
      | S fuel' =>
          let base := seg_base s in
          if TraceSetIsMember (seg_white s) 0 then
            let ar := ar_set_trace ar (tr_add_reclaim (ar_trace ar) 1 0) in
            match amcSegReclaim ar i with
            | None => None
            | Some ar => TraceReclaimLoop fuel' ar (SegNext ar base)
            end
          else TraceReclaimLoop fuel' ar (SegNext ar base)
      end
  end.

(** [TraceReclaim] *)
Definition TraceReclaim (ar : Arena) : option Arena :=
  match TraceReclaimLoop (S (length (ar_segs ar))) ar (SegFirst ar) with
  | None => None
  | Some ar => Some (ar_set_trace ar (tr_set_state (ar_trace ar) TraceFINISHED))
  end.

(** [TraceStep]; [NOTREACHED] in the other states does nothing. *)
Definition TraceStep (ar : Arena) : option (Res * Arena) :=
  match tr_state (ar_trace ar) with
  | TraceFLIPPED => TraceRun ar
  | TraceRECLAIM =>
      match TraceReclaim ar with None => None | Some ar => Some (ResOK, ar) end
  | _ => Some (ResOK, ar)
  end.

Definition TraceIsFinished (ar : Arena) : bool :=
  TraceState_eqb (tr_state (ar_trace ar)) TraceFINISHED.

Fixpoint TraceExpediteLoop (fuel : nat) (ar : Arena) : option Arena :=
  if TraceIsFinished ar then Some ar
  else
    match fuel with
    | O => None
    | S fuel' =>
        match TraceStep ar with
        | None => None
        | Some (_, ar) => TraceExpediteLoop fuel' ar
        end
    end.

(** [TraceExpedite] *)
Definition TraceExpedite (ar : Arena) : option Arena :=
  let ar := ar_set_trace ar (tr_set_emergency (ar_trace ar) true) in
  TraceExpediteLoop (S (S (S (TraceWork ar)))) ar.

Fixpoint TracePollLoop (fuel : nat) (pollEnd : Size) (ar : Arena) : option Arena :=
  match fuel with
  | O => None
  | S fuel' =>
      match TraceStep ar with
      | None => None
      | Some (ResOK, ar) =>
          if negb (TraceIsFinished ar) && (TraceWorkClock ar <? pollEnd)
          then TracePollLoop fuel' pollEnd ar
          else Some ar
      | Some (_, ar) => TraceExpedite ar
      end
  end.

(** [TracePoll] *)
Definition TracePoll (ar : Arena) : option Arena :=
  let pollEnd := SizeAdd (TraceWorkClock ar) (tr_rate (ar_trace ar)) in
  TracePollLoop (S (S (S (TraceWork ar)))) pollEnd ar.

(** ** Condemning (poolamc.c, trace.c) *)

(** [amcSegCreateNailboard]; [ar_boardOK] tells whether
    [NailboardCreate] can allocate. *)
Definition amcSegCreateNailboard (ar : Arena) (i : nat) : Res * Arena :=
  let s := ar_seg ar i in
  if ar_boardOK ar then
    (ResOK, ar_set_seg ar i (SegSetBoard s (Some (mkBoard
       (NailboardCreateMarks (amc_align (ar_amc ar)) (seg_base s) (seg_limit s)) false))))
  else (ResMEMORY, ar).

Definition SegNailboardSetRange (ar : Arena) (i : nat) (lo hi : Addr) : Arena :=
  let s := ar_seg ar i in
  match seg_board s with
  | Some b => ar_set_seg ar i (SegSetBoard s (Some (NailboardSetRange
                 (amc_align (ar_amc ar)) (seg_base s) b lo hi)))
  | None => ar
  end.

Definition ar_set_buf_base (ar : Arena) (bi : nat) (base : Addr) : Arena :=
  let b := ar_buf ar bi in
  ar_set_buf ar bi (buf_upd b (buf_seg b) base (buf_init b) (buf_alloc b) (buf_limit b)).

(** The part of [amcSegWhiten] after the buffer has been dealt with;
    [condemned] is the (wrapped) size to subtract for the buffer. *)
Definition amcSegWhitenCondemn (ar : Arena) (i : nat) (condemned : Size) : Res * Arena :=
  let s := ar_seg ar i in
  let g := seg_gen s in
  let s := if negb (seg_old s)
           then SegSetAmcFlags s (seg_forwarded s) true false (seg_deferred s) else s in
  let s := SegSetAmcFlags s 0 (seg_old s) (seg_accountedAsBuffered s) (seg_deferred s) in
  let s := SegSetWhite s (TraceSetAdd (seg_white s) 0) in
  let ar := ar_set_seg ar i s in
  let ar := GenDescCondemned ar g (SizeAdd condemned (SegSize s)) in
  let amc := ar_amc ar in
  if RampMode_eqb (amc_rampMode amc) RampBEGIN && Nat.eqb g (amc_rampGen amc) then
    let fwd := gen_forward (ar_gen ar g) in
    let ar := BufferDetach ar fwd in
    let ar := ar_set_buf ar fwd (amcBufSetGen (ar_buf ar fwd) g) in
    (ResOK, ar_set_amc ar (amc_set_ramp amc (amc_rampCount amc) RampRAMPING))
  else if RampMode_eqb (amc_rampMode amc) RampFINISH && Nat.eqb g (amc_rampGen amc) then
    let fwd := gen_forward (ar_gen ar g) in
    let ar := BufferDetach ar fwd in
    let ar := ar_set_buf ar fwd (amcBufSetGen (ar_buf ar fwd) (amc_afterRampGen amc)) in
    (ResOK, ar_set_amc ar (amc_set_ramp amc (amc_rampCount amc) RampCOLLECTING))
  else (ResOK, ar).

(** [amcSegWhiten] -- condemn the segment for trace 0. *)
Definition amcSegWhiten (ar : Arena) (i : nat) : Res * Arena :=
  let s := ar_seg ar i in
  match SegBuffer ar s with
  | Some (bi, buffer) =>
      if negb (buf_mutator buffer) then
        amcSegWhitenCondemn (BufferDetach ar bi) i 0
      else if BufferScanLimit buffer =? seg_base s then (ResOK, ar)
      else
        let bufferScanLimit := BufferScanLimit buffer in
        let k (ar : Arena) :=
          let ar := ar_set_buf_base ar bi bufferScanLimit in
          let b := ar_buf ar bi in
          amcSegWhitenCondemn ar i (SizeSub 0 (buf_limit b - buf_base b)) in
        if negb (amcSegHasNailboard s) then
          if seg_nailed s =? TraceSetEMPTY then
            match amcSegCreateNailboard ar i with
            | (ResOK, ar) =>
                let ar := if negb (bufferScanLimit =? buf_limit buffer)
                          then SegNailboardSetRange ar i bufferScanLimit (buf_limit buffer)
                          else ar in
                let s := ar_seg ar i in
                k (ar_set_seg ar i (SegSetNailed s TraceSetSingle0))
            | (_, ar) => (ResOK, ar)
            end
          else (ResOK, ar)
        else
          k (ar_set_seg ar i (SegSetNailed s (TraceSetAdd (seg_nailed s) 0)))
  | None => amcSegWhitenCondemn ar i 0
  end.

(** [RefSetOfSeg] *)
Definition RefSetOfSeg (ar : Arena) (s : Seg) : RefSet :=
  RefSetOfRange (ar_zoneShift ar) (seg_base s) (seg_limit s).

(** [TraceAddWhite]; AMC has [AttrMOVINGGC]. *)
Definition TraceAddWhite (ar : Arena) (i : nat) : Res * Arena :=
  match amcSegWhiten ar i with
  | (ResOK, ar) =>
      let s := ar_seg ar i in
      if TraceSetIsMember (seg_white s) 0 then
        let tr := ar_trace ar in
        (ResOK, ar_set_trace ar
           (tr_upd tr (RefSetUnion (tr_white tr) (RefSetOfSeg ar s))
                   (RefSetUnion (tr_mayMove tr) (RefSetOfSeg ar s))
                   (tr_state tr) (tr_emergency tr) (tr_condemned tr)
                   (tr_foundation tr) (tr_rate tr)))
      else (ResOK, ar)
  | (res, ar) => (res, ar)
  end.

(** The segment walk of [TraceCondemnRefSet]: condemning does not add
    or remove segments, so [SegFirst]/[SegNext] visit the positions of
    the ring in order. *)
Fixpoint TraceCondemnLoop (n : nat) (i : nat) (ar : Arena) (condemnedSet : RefSet)
  : Res * Arena :=
  match n with
  | O => (ResOK, ar)
  | S n' =>
      let s := ar_seg ar i in
      if seg_gc s && RefSetSuper condemnedSet (RefSetOfSeg ar s) then
        match TraceAddWhite ar i with
        | (ResOK, ar) => TraceCondemnLoop n' (S i) ar condemnedSet
        | (res, ar) => (res, ar)
        end
      else TraceCondemnLoop n' (S i) ar condemnedSet
  end.

(** [TraceCondemnRefSet] from the segment walk on, without its
    AVERs; [TraceCondemnRefSetChecked] below adds them. *)
Definition TraceCondemnRefSet (ar : Arena) (condemnedSet : RefSet) : Res * Arena :=
  TraceCondemnLoop (length (ar_segs ar)) O ar condemnedSet.

(** ** Starting and flipping (trace.c) *)

Definition ar_root (ar : Arena) (ri : nat) : Root :=
  nth ri (ar_roots ar) (mkRoot RankEXACT 0 [] 0).

Definition ar_set_root (ar : Arena) (ri : nat) (r : Root) : Arena :=
  ar_set_roots ar (list_set (ar_roots ar) ri r).

(** Modelled from the spec: a root is a table of references, scanned
    by [TraceScanArea] (each word goes through [TRACE_FIX1] and, when
    its zone is white, [TRACE_FIX2], which writes the fixed value back). *)
Fixpoint RootScanSlots (fuel : nat) (ar : Arena) (ri : nat) (ss : ScanState) (k : nat)
  : Res * ScanState * Arena :=
  match fuel with
  | O => (ResOK, ss, ar)
  | S fuel' =>
      match nth_error (root_refs (ar_root ar ri)) k with
      | None => (ResOK, ss, ar)
      | Some ref =>
          let zone := RefSetAdd (ar_zoneShift ar) RefSetEMPTY ref in
          let ss := ss_set_unfixed ss (RefSetUnion (ss_unfixedSummary ss) zone) in
          if RefSetInter (ss_white ss) zone =? RefSetEMPTY
          then RootScanSlots fuel' ar ri ss (S k)
          else
            match ScanStateFix ar ss ref with
            | (ResOK, ref', ss, ar) =>
                let r := ar_root ar ri in
                let ar := ar_set_root ar ri (mkRoot (root_rank r) (root_summary r)
                                               (list_set (root_refs r) k ref') (root_grey r)) in
                RootScanSlots fuel' ar ri ss (S k)
            | (res, _, ss, ar) => (res, ss, ar)
            end
      end
  end.

(** [TraceScanRoot] for the trace set {0}. *)
Definition TraceScanRoot (ar : Arena) (ri : nat) (rank : Rank) : Res * Arena :=
  let ss := ScanStateInit ar TraceSetSingle0 rank (tr_white (ar_trace ar)) in
  let '(res, ss, ar) :=
    RootScanSlots (length (root_refs (ar_root ar ri))) ar ri ss O in
  (res, ar_set_trace ar (tr_add_rootscan (ar_trace ar) (ss_scannedSize ss))).

(** [TraceScan] applied to [TraceScanRoot]: on failure the trace enters
    emergency mode and the scan is repeated. *)
Definition TraceScanRootRetry (ar : Arena) (ri : nat) (rank : Rank) : Arena :=
  match TraceScanRoot ar ri rank with
  | (ResOK, ar) => ar
  | (_, ar) =>
      let ar := ar_set_trace ar (tr_set_emergency (ar_trace ar) true) in
      snd (TraceScanRoot ar ri rank)
  end.

Fixpoint TraceFlipRoots (n : nat) (ri : nat) (rank : Rank) (ar : Arena) : Arena :=
  match n with
  | O => ar
  | S n' =>
      let ar := if Rank_eqb (root_rank (ar_root ar ri)) rank
                then TraceScanRootRetry ar ri rank else ar in
      TraceFlipRoots n' (S ri) rank ar
  end.

(** [TraceFlip].  Flipping the buffers, [LDAge] and the shield have no
    counterpart in the model. *)
Definition TraceFlip (ar : Arena) : Arena :=
  let n := length (ar_roots ar) in
  let ar := TraceFlipRoots n O RankAMBIG ar in
  let ar := TraceFlipRoots n O RankEXACT ar in
  let ar := ar_set_trace ar (tr_set_state (ar_trace ar) TraceFLIPPED) in
  ar_set_flipped ar (TraceSetAdd (ar_flippedTraces ar) 0).

(** Modelled from the spec: [PoolGrey] of an AMC segment turns it grey
    for the trace. *)
Definition PoolGrey (s : Seg) : Seg := SegSetGrey s (TraceSetAdd (seg_grey s) 0).

(** The grey-set computation of [TraceStart]: the segment list with the
    greyed segments, and the added foundation. *)
Fixpoint TraceStartGrey (white : RefSet) (segs : list Seg) : list Seg * Size :=
  match segs with
  | [] => ([], 0)
  | s :: segs' =>
      let '(segs'', f) := TraceStartGrey white segs' in
      if negb (seg_rankSet s =? RankSetEMPTY)
         && negb (RefSetInter (seg_summary s) white =? RefSetEMPTY) then
        let s := PoolGrey s in
        (s :: segs'', if TraceSetIsMember (seg_grey s) 0 then SizeAdd (SegSize s) f else f)
      else (s :: segs'', f)
  end.

Definition LONG_MAX : Z := 2 ^ 63 - 1.

Section TraceStart.

(** The polling quantum [ARENA_POLL_MAX] (config.h), in bytes. *)
Variable ARENA_POLL_MAX : Z.

(** [TraceStart].  The floating-point rate computation is done on
    rationals, [mortality] and [finishingTime] given as fractions
    [num / den]. *)
Definition TraceStart (ar : Arena) (mortNum mortDen finNum finDen : Z) : Arena :=
  let tr := ar_trace ar in
  let white := tr_white tr in
  let '(segs, f) := TraceStartGrey white (ar_segs ar) in
  let ar := ar_set_segs ar segs in
  let roots := map (fun r =>
                 if negb (RefSetInter (root_summary r) white =? RefSetEMPTY)
                 then mkRoot (root_rank r) (root_summary r) (root_refs r)
                             (TraceSetAdd (root_grey r) 0)
                 else r) (ar_roots ar) in
  let ar := ar_set_roots ar roots in
  let foundation := SizeAdd (tr_foundation tr) f in
  let sSurvivors := (tr_condemned tr * (mortDen - mortNum)) / mortDen in
  let nPolls := finNum / (finDen * ARENA_POLL_MAX) in
  let nPolls := Z.min (Z.max nPolls 1) LONG_MAX in
  let rate := SizeAdd ((SizeAdd foundation sSurvivors) / nPolls) 1 in
  let ar := ar_set_trace ar (tr_upd tr (tr_white tr) (tr_mayMove tr) TraceUNFLIPPED
                                   (tr_emergency tr) (tr_condemned tr) foundation rate) in
  TraceFlip ar.

End TraceStart.

(** ** Ramps (poolamc.c) *)

(** [AMCRampBegin]; [rampCount] is an unsigned int. *)
Definition AMCRampBegin (ar : Arena) : Arena :=
  let amc := ar_amc ar in
  let count := (amc_rampCount amc + 1) mod (UINT_MAX + 1) in
  let mode := if (count =? 1) && negb (RampMode_eqb (amc_rampMode amc) RampFINISH)
              then RampBEGIN else amc_rampMode amc in
  ar_set_amc ar (amc_set_ramp amc count mode).

(** [AMCRampEnd]; [NOTREACHED] in [RampOUTSIDE] does nothing.  The
    unsigned decrement is written with its wrap-around: the AVER
    [rampCount > 0] is not modelled, and a statement that needs it takes
    it as a hypothesis.  The model carries no pool-generation size
    accounting, so [PoolGenUndefer] (defined outside src) is not
    modelled: only the [deferred] flag is cleared. *)
Definition AMCRampEnd (ar : Arena) : Arena :=
  let amc := ar_amc ar in
  let count := (amc_rampCount amc - 1) mod (UINT_MAX + 1) in
  if count =? 0 then
    let mode := match amc_rampMode amc with
                | RampRAMPING => RampFINISH
                | RampBEGIN => RampOUTSIDE
                | RampCOLLECTING => RampOUTSIDE
                | m => m
                end in
    let rg := amc_rampGen amc in
    let segs := map (fun s =>
                  if Nat.eqb (seg_gen s) rg && seg_deferred s && (seg_white s =? TraceSetEMPTY)
                  then SegSetAmcFlags s (seg_forwarded s) (seg_old s)
                                      (seg_accountedAsBuffered s) false
                  else s) (ar_segs ar) in
    ar_set_amc (ar_set_segs ar segs) (amc_set_ramp amc count mode)
  else ar_set_amc ar (amc_set_ramp amc count (amc_rampMode amc)).

(** ** The ramp invariant checked by [AMCCheck] *)

(** [rampCount] is an unsigned int; [RampOUTSIDE] has a zero count and
    [RampBEGIN] and [RampRAMPING] a non-zero one. *)
Definition AMCRampInv (amc : AMC) : bool :=
  let c := amc_rampCount amc in
  (0 <=? c) && (c <=? UINT_MAX)
  && (negb (RampMode_eqb (amc_rampMode amc) RampOUTSIDE) || (c =? 0))
  && (negb (RampMode_eqb (amc_rampMode amc) RampBEGIN
            || RampMode_eqb (amc_rampMode amc) RampRAMPING) || negb (c =? 0)).

(** ** Example arenas *)

Definition ex_amc : AMC :=
  {| amc_rampCount := 0; amc_rampMode := RampOUTSIDE; amc_rampGen := O;
     amc_afterRampGen := O; amc_extendBy := 4096; amc_largeSize := 8192;
     amc_interior := true; amc_align := 8; amc_headerSize := 0 |}.

Definition ex_trace (white : RefSet) (st : TraceState) : Trace :=
  {| tr_ti := 0; tr_white := white; tr_mayMove := white; tr_state := st;
     tr_emergency := false; tr_condemned := 0; tr_foundation := 0; tr_rate := 0;
     tr_rootScanSize := 0; tr_segScanSize := 0; tr_segScanCount := 0;
     tr_reclaimCount := 0; tr_reclaimSize := 0 |}.

Definition ex_seg (base : Addr) (white grey nailed : TraceSet) (board : option Nailboard)
    (objs : list (Addr * Obj)) : Seg :=
  {| seg_base := base; seg_limit := base + 4096; seg_gc := true;
     seg_white := white; seg_grey := grey; seg_nailed := nailed;
     seg_rankSet := 2; seg_summary := RefSetUNIV; seg_gen := O;
     seg_board := board; seg_forwarded := 0; seg_old := false;
     seg_accountedAsBuffered := false; seg_deferred := false; seg_objs := objs |}.

(** A white segment at 4096 holding an object at 4096 that refers to
    4112 and an object at 4112 already forwarded to 8192; a to-space
    segment at 8192 with the generation's forwarding buffer. *)
Definition ex_arena (s0 : Seg) (bufs : list Buffer) (st : TraceState) : Arena :=
  {| ar_segs := [s0; ex_seg 8192 0 0 0 None [(8192, mkObj 16 [] 0)]];
     ar_bufs := bufs; ar_gens := [mkGen O 0 0]; ar_amc := ex_amc;
     ar_trace := ex_trace (RefSetOfRange 12 4096 8192) st;
     ar_busyTraces := 1; ar_flippedTraces := 1; ar_roots := [];
     ar_zoneShift := 12; ar_grainSize := 4096; ar_commitLimit := 1048576;
     ar_boardOK := true; ar_log := [] |}.

Definition ex_objs : list (Addr * Obj) :=
  [(4096, mkObj 16 [4112] 0); (4112, mkObj 16 [] 8192)].

Definition ex_fwdbuf : Buffer := mkBuf (Some 8192) false 8192 8208 8208 12288 O 2 false.

Definition ex_arena_fwd : Arena :=
  ex_arena (ex_seg 4096 1 0 0 None ex_objs) [ex_fwdbuf] TraceFLIPPED.

(** The same segment, not yet condemned, with a mutator buffer whose
    scan limit is the segment base. *)
Definition ex_mutbuf : Buffer := mkBuf (Some 4096) true 4096 4096 4096 8192 O 2 false.

Definition ex_arena_mut : Arena :=
  ar_set_trace (ex_arena (ex_seg 4096 0 0 0 None ex_objs) [ex_mutbuf; ex_fwdbuf] TraceINIT)
               (ex_trace RefSetEMPTY TraceINIT).

(** The white segment nailed for the trace, without a nailboard. *)
Definition ex_arena_nailed : Arena :=
  ex_arena (ex_seg 4096 1 0 1 None ex_objs) [ex_fwdbuf] TraceFLIPPED.

(** The white segment nailed for the trace, with a nailboard on which
    an ambiguous reference has pinned the object at 4112 (mark 2). *)
Definition ex_board : Nailboard := mkBoard (list_set (repeat false 512) 2 true) false.

Definition ex_arena_boarded : Arena :=
  ex_arena (ex_seg 4096 1 0 1 (Some ex_board) ex_objs) [ex_fwdbuf] TraceFLIPPED.

(** An arena in state RECLAIM with a nailed white segment at 4096 and a
    second segment at 8192. *)
Definition ex_arena_reclaim : Arena :=
  ex_arena (ex_seg 4096 1 0 1 None ex_objs) [ex_fwdbuf] TraceRECLAIM.

(** A freshly created trace: busy, not flipped, in state INIT with an
    empty white set, over a black segment at 4096 and a segment at 8192. *)
Definition ex_arena_init : Arena :=
  ar_set_flipped
    (ar_set_trace (ex_arena (ex_seg 4096 0 0 0 None ex_objs) [ex_fwdbuf] TraceINIT)
                  (ex_trace RefSetEMPTY TraceINIT))
    TraceSetEMPTY.

(** A flipped trace with the white segment at 4096 and a grey to-space
    segment at 8192 whose object refers to the white object at 4096. *)
Definition ex_arena_poll : Arena :=
  ar_set_segs ex_arena_fwd
    [ex_seg 4096 1 0 0 None ex_objs; ex_seg 8192 0 1 0 None [(8192, mkObj 16 [4096] 0)]].

Definition ex_ss (rank : Rank) : ScanState :=
  ScanStateInit ex_arena_fwd TraceSetSingle0 rank (tr_white (ar_trace ex_arena_fwd)).

(** ** Relations used to follow condemnation *)

(** Whether a mutator buffer is attached to the segment at [base]. *)
Definition HasMutatorBuffer (ar : Arena) (base : Addr) : bool :=
  existsb (fun b => buf_mutator b
                    && match buf_seg b with Some x => x =? base | None => false end)
          (ar_bufs ar).

(** A buffer may be detached, and otherwise keeps its segment and kind. *)
Definition buf_step (b b' : Buffer) : Prop :=
  buf_seg b' = None \/ (buf_seg b' = buf_seg b /\ buf_mutator b' = buf_mutator b).

(** A segment keeps its range and pool class, and stays white. *)
Definition seg_step (s s' : Seg) : Prop :=
  seg_base s' = seg_base s /\ seg_limit s' = seg_limit s /\ seg_gc s' = seg_gc s
  /\ (TraceSetIsMember (seg_white s) 0 = true -> TraceSetIsMember (seg_white s') 0 = true).

Definition cond_le (ar ar' : Arena) : Prop :=
  length (ar_segs ar') = length (ar_segs ar) /\ ar_zoneShift ar' = ar_zoneShift ar
  /\ (forall j, seg_step (ar_seg ar j) (ar_seg ar' j))
  /\ Forall2 buf_step (ar_bufs ar) (ar_bufs ar').

(** What root scanning with an empty white set may change. *)
Definition same_but_roots (ar ar' : Arena) : Prop :=
  ar_segs ar' = ar_segs ar /\ tr_white (ar_trace ar') = tr_white (ar_trace ar)
  /\ tr_segScanSize (ar_trace ar') = tr_segScanSize (ar_trace ar)
  /\ tr_state (ar_trace ar') = tr_state (ar_trace ar).

(** Every object of the segment has a positive length, as the format's
    skip method guarantees. *)
Definition ObjsPositive (s : Seg) : Prop :=
  Forall (fun ao => 0 < o_size (snd ao)) (seg_objs s).

(** The segment ring is kept in increasing address order. *)
Definition SegsSorted (segs : list Seg) : Prop :=
  StronglySorted (fun a b => seg_base a < seg_base b) segs.

(** ** Well-formed arenas and the progress of a trace

    A segment of a well-formed arena has a non-empty range above zero,
    objects of positive length, and a nailboard only while it is nailed
    for the trace, with one mark per alignment unit. *)
Definition SegWF (align : Size) (s : Seg) : Prop :=
  0 < seg_base s < seg_limit s /\ ObjsPositive s /\
  match seg_board s with
  | Some b => length (nb_marks b) = seg_nbits align s
              /\ TraceSetIsMember (seg_nailed s) 0 = true
  | None => True
  end.

(** The arena invariants the trace relies on: the ring in address
    order, a positive alignment and grain, a non-negative header, an
    attached buffer allocating above zero, forwarding (non-mutator)
    buffers attached only to segments that are not white, and white
    segments forwarding through non-mutator buffers. *)
Record ArenaWF (ar : Arena) : Prop := {
  wf_sorted : SegsSorted (ar_segs ar);
  wf_align : 0 < amc_align (ar_amc ar);
  wf_header : 0 <= amc_headerSize (ar_amc ar);
  wf_grain : 0 < ar_grainSize ar;
  wf_segs : Forall (SegWF (amc_align (ar_amc ar))) (ar_segs ar);
  wf_alloc : Forall (fun b => buf_seg b <> None -> 0 < buf_alloc b) (ar_bufs ar);
  wf_fwdseg : Forall (fun b => buf_mutator b = false -> forall x, buf_seg b = Some x ->
                        Forall (fun s => seg_base s = x -> TraceSetIsMember (seg_white s) 0 = false)
                               (ar_segs ar))
                     (ar_bufs ar);
  wf_fwdbuf : Forall (fun s => TraceSetIsMember (seg_white s) 0 = true ->
                        buf_mutator (ar_buf ar (gen_forward (ar_gen ar (seg_gen s)))) = false)
                     (ar_segs ar)
}.

(** A segment during scanning keeps its range, colour for condemnation
    and generation, and stays grey once grey. *)
Definition seg_rel (s s' : Seg) : Prop :=
  seg_base s' = seg_base s /\ seg_limit s' = seg_limit s /\ seg_white s' = seg_white s
  /\ seg_gen s' = seg_gen s
  /\ (TraceSetIsMember (seg_grey s) 0 = true -> TraceSetIsMember (seg_grey s') 0 = true).

(** What scanning may change: the ring only grows, at its end. *)
Definition scan_rel (ar ar' : Arena) : Prop :=
  ar_amc ar' = ar_amc ar /\ ar_trace ar' = ar_trace ar
  /\ (length (ar_segs ar) <= length (ar_segs ar'))%nat
  /\ (forall j, (j < length (ar_segs ar))%nat -> seg_rel (ar_seg ar j) (ar_seg ar' j)).

(** Progress of a successful fix: the white work does not grow, nor
    does the trace's work; a change of buffers or a new nail is paid
    for by white work. *)
Definition work_dec (ar ar' : Arena) : Prop :=
  (WhiteWork ar' <= WhiteWork ar)%nat /\ (TraceWork ar' <= TraceWork ar)%nat
  /\ (ar_bufs ar' = ar_bufs ar \/ (WhiteWork ar' < WhiteWork ar)%nat)
  /\ (forall j, SegNewNails ar' j = true ->
                SegNewNails ar j = true \/ (WhiteWork ar' < WhiteWork ar)%nat).

(** A scanning operation in (emergency) mode [em] returning [res]. *)
Definition step_ok (em : bool) (ar ar' : Arena) (res : Res) : Prop :=
  ArenaWF ar' /\ scan_rel ar ar' /\ (res = ResOK -> work_dec ar ar')
  /\ (em = true -> res = ResOK).

Definition ss_rel (ss ss' : ScanState) : Prop :=
  ss_traces ss' = ss_traces ss /\ ss_emergencyFix ss' = ss_emergencyFix ss.

(** An operation that leaves the white segments, the work measures, the
    nails and the kinds of the buffers alone. *)
Record quiet (ar ar' : Arena) : Prop := {
  q_amc : ar_amc ar' = ar_amc ar;
  q_trace : ar_trace ar' = ar_trace ar;
  q_gens : ar_gens ar' = ar_gens ar;
  q_grain : ar_grainSize ar' = ar_grainSize ar;
  q_len : (length (ar_segs ar) <= length (ar_segs ar'))%nat;
  q_rel : forall j, (j < length (ar_segs ar))%nat -> seg_rel (ar_seg ar j) (ar_seg ar' j);
  q_white : WhiteWork ar' = WhiteWork ar;
  q_grey : GreyCount ar' = GreyCount ar;
  q_nails : forall j, SegNewNails ar' j = SegNewNails ar j;
  q_keep : forall j, TraceSetIsMember (seg_white (ar_seg ar j)) 0 = true ->
                     ar_seg ar' j = ar_seg ar j;
  q_new : forall j, (length (ar_segs ar) <= j)%nat ->
                    TraceSetIsMember (seg_white (ar_seg ar' j)) 0 = false;
  q_nbufs : length (ar_bufs ar') = length (ar_bufs ar);
  q_mut : forall bj, buf_mutator (ar_buf ar' bj) = buf_mutator (ar_buf ar bj)
}.

(** The states in which [TracePoll] and [TraceExpedite] step a trace. *)
Definition StepState (ar : Arena) : Prop :=
  tr_state (ar_trace ar) = TraceFLIPPED \/ tr_state (ar_trace ar) = TraceRECLAIM
  \/ tr_state (ar_trace ar) = TraceFINISHED.

(** ** Creating and destroying traces (trace.c) *)

Definition ar_set_busy_flipped (ar : Arena) (busy flipped : TraceSet) : Arena :=
  {| ar_segs := ar_segs ar; ar_bufs := ar_bufs ar; ar_gens := ar_gens ar;
     ar_amc := ar_amc ar; ar_trace := ar_trace ar; ar_busyTraces := busy;
     ar_flippedTraces := flipped; ar_roots := ar_roots ar;
     ar_zoneShift := ar_zoneShift ar; ar_grainSize := ar_grainSize ar;
     ar_commitLimit := ar_commitLimit ar; ar_boardOK := ar_boardOK ar;
     ar_log := ar_log ar |}.

(** [TraceIdCheck] *)
Definition TraceIdCheck (ti : TraceId) : bool := (0 <=? ti) && (ti <? TRACE_MAX).

(** [TraceSetCheck]: a trace set has no member beyond [TRACE_MAX]. *)
Definition TraceSetCheck (ts : TraceSet) : bool :=
  (0 <=? ts) && (ts <? Z.shiftl 1 TRACE_MAX).

(** [TraceCheck] of [arena->trace[ti]], the model's [ar_trace] being
    [arena->trace[0]].  [RefSetCheck] and [BoolCheck] hold of every
    value of the model. *)
Definition TraceCheck (ar : Arena) : bool :=
  let tr := ar_trace ar in
  let ti := tr_ti tr in
  TraceIdCheck ti && (ti =? 0)
  && TraceSetIsMember (ar_busyTraces ar) ti
  && RefSetSub (tr_mayMove tr) (tr_white tr)
  && match tr_state tr with
     | TraceINIT => true
     | TraceUNFLIPPED => negb (TraceSetIsMember (ar_flippedTraces ar) ti)
     | TraceFLIPPED | TraceRECLAIM | TraceFINISHED =>
         TraceSetIsMember (ar_flippedTraces ar) ti
     end.

(** The segment walk of [TraceCondemnRefSet] with the AVERs it makes on
    each segment: the segment is neither grey nor white for the trace.
    [None] is an assertion failure. *)
Fixpoint TraceCondemnLoopChecked (n : nat) (i : nat) (ar : Arena) (condemnedSet : RefSet)
  : option (Res * Arena) :=
  match n with
  | O => Some (ResOK, ar)
  | S n' =>
      let s := ar_seg ar i in
      let ti := tr_ti (ar_trace ar) in
      if TraceSetIsMember (seg_grey s) ti || TraceSetIsMember (seg_white s) ti then None
      else if seg_gc s && RefSetSuper condemnedSet (RefSetOfSeg ar s) then
        match TraceAddWhite ar i with
        | (ResOK, ar) => TraceCondemnLoopChecked n' (S i) ar condemnedSet
        | (res, ar) => Some (res, ar)
        end
      else TraceCondemnLoopChecked n' (S i) ar condemnedSet
  end.

(** [TraceCondemnRefSet] with its AVERs: [AVERT(Trace, trace)],
    [condemnedSet != RefSetEMPTY], [trace->state == TraceINIT],
    [trace->white == RefSetEMPTY], the AVERs of the segment walk, and
    at the end [RefSetSuper(condemnedSet, trace->white)].  [None] is an
    assertion failure. *)
Definition TraceCondemnRefSetChecked (ar : Arena) (condemnedSet : RefSet)
  : option (Res * Arena) :=
  let tr := ar_trace ar in
  if TraceCheck ar && negb (condemnedSet =? RefSetEMPTY)
     && TraceState_eqb (tr_state tr) TraceINIT && (tr_white tr =? RefSetEMPTY)
  then
    match TraceCondemnLoopChecked (length (ar_segs ar)) O ar condemnedSet with
    | Some (ResOK, ar') =>
        if RefSetSuper condemnedSet (tr_white (ar_trace ar')) then Some (ResOK, ar') else None
    | r => r
    end
  else None.

(** [TraceCreate].  With [TRACE_MAX] = 1 the search for a free trace
    identifier looks at 0 only.  The counters of the trace that the
    [Trace] record does not carry, the signature and the shield have no
    counterpart here. *)
Definition TraceCreate (ar : Arena) : Res * Arena :=
  if negb (TraceSetIsMember (ar_busyTraces ar) 0) then
    let ar := ar_set_busy_flipped ar (TraceSetAdd (ar_busyTraces ar) 0)
                                  (ar_flippedTraces ar) in
    let tr := {| tr_ti := 0; tr_white := RefSetEMPTY; tr_mayMove := RefSetEMPTY;
                 tr_state := TraceINIT; tr_emergency := false; tr_condemned := 0;
                 tr_foundation := 0; tr_rate := 0; tr_rootScanSize := 0;
                 tr_segScanSize := 0; tr_segScanCount := 0; tr_reclaimCount := 0;
                 tr_reclaimSize := 0 |} in
    (ResOK, ar_set_trace ar tr)
  else (ResLIMIT, ar).

(** [TraceDestroy]; [None] stands for a failed assertion ([AVERT] of the
    trace, or a trace that is not finished). *)
Definition TraceDestroy (ar : Arena) : option Arena :=
  let tr := ar_trace ar in
  if TraceCheck ar && TraceState_eqb (tr_state tr) TraceFINISHED then
    Some (ar_set_busy_flipped ar (TraceSetDel (ar_busyTraces ar) (tr_ti tr))
                              (TraceSetDel (ar_flippedTraces ar) (tr_ti tr)))
  else None.

(** [TraceSetWhiteUnion] *)
Definition TraceSetWhiteUnion (ts : TraceSet) (ar : Arena) : RefSet :=
  if TraceSetIsMember ts 0 then RefSetUnion RefSetEMPTY (tr_white (ar_trace ar))
  else RefSetEMPTY.

(** ** Trace accounting (trace.c) *)

(** The counters of [TraceStruct] that the [Trace] record does not
    carry. *)
Record TraceCounters := mkCounters {
  tc_rootScanCount : Z;
  tc_rootCopiedSize : Size;
  tc_segCopiedSize : Size;
  tc_singleScanSize : Size;
  tc_singleCopiedSize : Size;
  tc_fixRefCount : Z;
  tc_segRefCount : Z;
  tc_whiteSegRefCount : Z;
  tc_nailCount : Z;
  tc_snapCount : Z;
  tc_forwardCount : Z
}.

Inductive TraceAccountingPhase :=
  TraceAccountingPhaseRootScan | TraceAccountingPhaseSegScan | TraceAccountingPhaseSingleScan.

(** [TraceUpdateCounts] *)
Definition TraceUpdateCounts (tr : Trace) (c : TraceCounters) (ss : ScanState)
    (phase : TraceAccountingPhase) : Trace * TraceCounters :=
  let '(tr, rootScanCount, rootCopied, segCopied, singleScan, singleCopied) :=
    match phase with
    | TraceAccountingPhaseRootScan =>
        (tr_add_rootscan tr (ss_scannedSize ss), tc_rootScanCount c + 1,
         SizeAdd (tc_rootCopiedSize c) (ss_copiedSize ss), tc_segCopiedSize c,
         tc_singleScanSize c, tc_singleCopiedSize c)
    | TraceAccountingPhaseSegScan =>
        (tr_add_segscan tr (ss_scannedSize ss), tc_rootScanCount c,
         tc_rootCopiedSize c, SizeAdd (tc_segCopiedSize c) (ss_copiedSize ss),
         tc_singleScanSize c, tc_singleCopiedSize c)
    | TraceAccountingPhaseSingleScan =>
        (tr, tc_rootScanCount c, tc_rootCopiedSize c, tc_segCopiedSize c,
         SizeAdd (tc_singleScanSize c) (ss_scannedSize ss),
         SizeAdd (tc_singleCopiedSize c) (ss_copiedSize ss))
    end in
  (tr, {| tc_rootScanCount := rootScanCount; tc_rootCopiedSize := rootCopied;
          tc_segCopiedSize := segCopied; tc_singleScanSize := singleScan;
          tc_singleCopiedSize := singleCopied;
          tc_fixRefCount := tc_fixRefCount c + ss_fixRefCount ss;
          tc_segRefCount := tc_segRefCount c + ss_segRefCount ss;
          tc_whiteSegRefCount := tc_whiteSegRefCount c + ss_whiteSegRefCount ss;
          tc_nailCount := tc_nailCount c + ss_nailCount ss;
          tc_snapCount := tc_snapCount c + ss_snapCount ss;
          tc_forwardCount := tc_forwardCount c + ss_forwardedCount ss |}).

(** [TraceSetUpdateCounts] *)
Definition TraceSetUpdateCounts (ts : TraceSet) (tr : Trace) (c : TraceCounters)
    (ss : ScanState) (phase : TraceAccountingPhase) : Trace * TraceCounters :=
  if TraceSetIsMember ts 0 then TraceUpdateCounts tr c ss phase else (tr, c).

(** ** Scanning areas of references (trace.c) *)

(** Modelled from the spec: the scan macros ([TRACE_SCAN_BEGIN],
    [TRACE_FIX1], [TRACE_FIX2], [TRACE_SCAN_END]) copy the zone shift,
    the white set and the unfixed summary of the scan state into locals;
    [TRACE_FIX1] adds the zone of a word to the local summary and tells
    whether the zone is white; [TRACE_FIX2] calls the fix method on the
    word in place; [TRACE_SCAN_END] writes the local summary back, so a
    [return] from inside the block leaves the scan state's summary as it
    was.  The area is the list of words [[base, limit)]; the loops below
    return the result, the area as left in memory and the local
    summary. *)
Fixpoint TraceScanAreaLoop (zs : Z) (white : RefSet) (ar : Arena) (ss : ScanState)
    (ufs : RefSet) (area : list Word) : Res * list Word * RefSet * ScanState * Arena :=
  match area with
  | [] => (ResOK, [], ufs, ss, ar)
  | ref :: rest =>
      let zone := RefSetAdd zs RefSetEMPTY ref in
      let ufs := RefSetUnion ufs zone in
      if RefSetInter white zone =? RefSetEMPTY then
        let '(res, rest', ufs, ss, ar) := TraceScanAreaLoop zs white ar ss ufs rest in
        (res, ref :: rest', ufs, ss, ar)
      else
        match ScanStateFix ar ss ref with
        | (ResOK, ref', ss, ar) =>
            let '(res, rest', ufs, ss, ar) := TraceScanAreaLoop zs white ar ss ufs rest in
            (res, ref' :: rest', ufs, ss, ar)
        | (res, ref', ss, ar) => (res, ref' :: rest, ufs, ss, ar)
        end
  end.

(** [TraceScanArea]; [None] stands for the failed assertion
    [base < limit]. *)
Definition TraceScanArea (ar : Arena) (ss : ScanState) (area : list Word)
  : option (Res * list Word * ScanState * Arena) :=
  match area with
  | [] => None
  | _ =>
      match TraceScanAreaLoop (ar_zoneShift ar) (ss_white ss) ar ss
                              (ss_unfixedSummary ss) area with
      | (ResOK, area, ufs, ss, ar) => Some (ResOK, area, ss_set_unfixed ss ufs, ar)
      | (res, area, _, ss, ar) => Some (res, area, ss, ar)
      end
  end.

(** The loop of [TraceScanAreaMasked]: a word with a bit of [mask] set
    is skipped. *)
Fixpoint TraceScanAreaMaskedLoop (zs : Z) (white : RefSet) (mask : Word) (ar : Arena)
    (ss : ScanState) (ufs : RefSet) (area : list Word)
  : Res * list Word * RefSet * ScanState * Arena :=
  match area with
  | [] => (ResOK, [], ufs, ss, ar)
  | ref :: rest =>
      if negb (Z.land ref mask =? 0) then
        let '(res, rest', ufs, ss, ar) :=
          TraceScanAreaMaskedLoop zs white mask ar ss ufs rest in
        (res, ref :: rest', ufs, ss, ar)
      else
        let zone := RefSetAdd zs RefSetEMPTY ref in
        let ufs := RefSetUnion ufs zone in
        if RefSetInter white zone =? RefSetEMPTY then
          let '(res, rest', ufs, ss, ar) :=
            TraceScanAreaMaskedLoop zs white mask ar ss ufs rest in
          (res, ref :: rest', ufs, ss, ar)
        else
          match ScanStateFix ar ss ref with
          | (ResOK, ref', ss, ar) =>
              let '(res, rest', ufs, ss, ar) :=
                TraceScanAreaMaskedLoop zs white mask ar ss ufs rest in
              (res, ref' :: rest', ufs, ss, ar)
          | (res, ref', ss, ar) => (res, ref' :: rest, ufs, ss, ar)
          end
  end.

(** [TraceScanAreaMasked] *)
Definition TraceScanAreaMasked (ar : Arena) (ss : ScanState) (area : list Word) (mask : Word)
  : option (Res * list Word * ScanState * Arena) :=
  match area with
  | [] => None
  | _ =>
      match TraceScanAreaMaskedLoop (ar_zoneShift ar) (ss_white ss) mask ar ss
                                    (ss_unfixedSummary ss) area with
      | (ResOK, area, ufs, ss, ar) => Some (ResOK, area, ss_set_unfixed ss ufs, ar)
      | (res, area, _, ss, ar) => Some (res, area, ss, ar)
      end
  end.

(** [TraceScanAreaTagged] *)
Definition TraceScanAreaTagged (ar : Arena) (ss : ScanState) (area : list Word)
  : option (Res * list Word * ScanState * Arena) :=
  TraceScanAreaMasked ar ss area 3.

(** The zones of the words an area scan looks at. *)
Fixpoint AreaZones (zs : Z) (mask : Word) (area : list Word) : RefSet :=
  match area with
  | [] => RefSetEMPTY
  | ref :: rest =>
      if Z.land ref mask =? 0
      then RefSetUnion (RefSetAdd zs RefSetEMPTY ref) (AreaZones zs mask rest)
      else AreaZones zs mask rest
  end.

(** ** Scanning a single reference (trace.c) *)

(** Reading slot [k] of the object at client address [p]. *)
Definition SlotGet (s : Seg) (p : Addr) (k : nat) : Addr :=
  match obj_find p (seg_objs s) with Some o => nth k (o_refs o) 0 | None => 0 end.

(** [TraceScanSingleRef] on the closure (segment [j], slot [k] of the
    object at [p]); besides the result it returns the value left in
    [*refIO], the counters of trace 0 and the arena.  [None] stands for
    the failed assertion on the trace set.  [TRACE_FIX] is
    [TRACE_FIX1] followed, on a white zone, by [TRACE_FIX2] (see
    [TraceScanAreaLoop]); a [Ref] is a word of [MPS_WORD_WIDTH] bits. *)
Definition TraceScanSingleRef (ar : Arena) (c : TraceCounters) (ts : TraceSet)
    (rank : Rank) (j : nat) (p : Addr) (k : nat)
  : option (Res * Addr * TraceCounters * Arena) :=
  if negb (TraceSetCheck ts) then None
  else
    let white := TraceSetWhiteUnion ts ar in
    if RefSetInter (seg_summary (ar_seg ar j)) white =? RefSetEMPTY
    then Some (ResOK, SlotGet (ar_seg ar j) p k, c, ar)
    else
      let ss := ScanStateInit ar ts rank white in
      let ref := SlotGet (ar_seg ar j) p k in
      let zone := RefSetAdd (ar_zoneShift ar) RefSetEMPTY ref in
      let ufs := RefSetUnion (ss_unfixedSummary ss) zone in
      let '(res, ref', ss, ar) :=
        if RefSetInter white zone =? RefSetEMPTY then (ResOK, ref, ss, ar)
        else
          let '(res, ref', ss, ar) := ScanStateFix ar ss ref in
          (res, ref', ss, ar_set_seg ar j (SegSetSlot (ar_seg ar j) p k ref')) in
      let ss := ss_set_unfixed ss ufs in
      let ss := ss_set_counts ss (ss_wasMarked ss) (ss_fixRefCount ss) (ss_segRefCount ss)
                  (ss_whiteSegRefCount ss) (ss_nailCount ss) (ss_snapCount ss)
                  (ss_forwardedCount ss) (ss_copiedSize ss) (MPS_WORD_WIDTH / 8) in
      let s := ar_seg ar j in
      let ar := ar_set_seg ar j (SegSetSummary s (RefSetAdd (ar_zoneShift ar) (seg_summary s) ref')) in
      let '(tr, c) := TraceSetUpdateCounts ts (ar_trace ar) c ss TraceAccountingPhaseSingleScan in
      Some (res, ref', c, ar_set_trace ar tr).

(** ** Finding the object at an address (poolamc.c) *)

(** The base of the object after the one at base [b]: [skip] of its
    client address, less the header. *)
Definition amcObjLimit (amc : AMC) (s : Seg) (b : Addr) : Addr :=
  FormatSkip (amc_align amc) s (b + amc_headerSize amc) - amc_headerSize amc.

(** The loop of [amcAddrObjectSearch]; [None] stands for a failed
    assertion, or for running out of the iteration bound. *)
Fixpoint amcAddrObjectSearchLoop (fuel : nat) (amc : AMC) (s : Seg)
    (objBase searchLimit addr : Addr) : option (Res * option Addr) :=
  if objBase <? searchLimit then
    match fuel with
    | O => None
    | S fuel' =>
        let objRef := objBase + amc_headerSize amc in
        let objLimit := amcObjLimit amc s objBase in
        if negb (objBase <? objLimit) then None
        else if addr <? objLimit then
          if negb (objBase <=? addr) then None
          else if FormatIsMoved s objRef =? 0 then Some (ResOK, Some objRef)
          else Some (ResFAIL, None)
        else amcAddrObjectSearchLoop fuel' amc s objLimit searchLimit addr
    end
  else Some (ResFAIL, None).

(** [amcAddrObjectSearch]; the result carries [*pReturn] when it is
    set.  Each step advances [objBase], so [searchLimit - objBase] steps
    bound the loop. *)
Definition amcAddrObjectSearch (amc : AMC) (s : Seg) (objBase searchLimit addr : Addr)
  : option (Res * option Addr) :=
  if negb (objBase <=? searchLimit) then None
  else amcAddrObjectSearchLoop (S (Z.to_nat (searchLimit - objBase))) amc s
                               objBase searchLimit addr.

(** [AMCAddrObject].  Every segment of the model belongs to the AMC
    pool; [BufferGetInit] is the buffer's [init]. *)
Definition AMCAddrObject (ar : Arena) (addr : Addr) : option (Res * option Addr) :=
  match SegOfAddr ar addr with
  | None => Some (ResFAIL, None)
  | Some (_, s) =>
      let limit := match SegBuffer ar s with
                   | Some (_, b) => buf_init b
                   | None => seg_limit s
                   end in
      amcAddrObjectSearch (ar_amc ar) s (seg_base s) limit addr
  end.

(** ** Walking the objects of the pool (poolamc.c) *)

(** The loop of [amcSegWalk]: the client addresses the visitor is
    applied to, in order.  The visitor does not change the heap.  [None]
    stands for a failed assertion (a broken heart, a [skip] that does not
    advance, or a walk that does not end at [limit]). *)
Fixpoint amcSegWalkLoop (fuel : nat) (align : Size) (s : Seg) (object limit : Addr)
  : option (list Addr) :=
  if object <? limit then
    match fuel with
    | O => None
    | S fuel' =>
        if negb (FormatIsMoved s object =? 0) then None
        else
          let nextObject := FormatSkip align s object in
          if negb (object <? nextObject) then None
          else option_map (cons object) (amcSegWalkLoop fuel' align s nextObject limit)
    end
  else if object =? limit then Some [] else None.

(** [amcSegWalk] *)
Definition amcSegWalk (ar : Arena) (s : Seg) : option (list Addr) :=
  if (seg_white s =? TraceSetEMPTY) && (seg_grey s =? TraceSetEMPTY)
     && (seg_nailed s =? TraceSetEMPTY) then
    let h := amc_headerSize (ar_amc ar) in
    let limit := SegBufferScanLimit ar s + h in
    let object := seg_base s + h in
    amcSegWalkLoop (S (Z.to_nat (limit - object))) (amc_align (ar_amc ar)) s object limit
  else Some [].

Fixpoint amcWalkAllLoop (ar : Arena) (segs : list Seg) : option (list Addr) :=
  match segs with
  | [] => Some []
  | s :: segs' =>
      match amcSegWalk ar s with
      | Some l => option_map (app l) (amcWalkAllLoop ar segs')
      | None => None
      end
  end.

(** [amcWalkAll] over the pool's segment ring. *)
Definition amcWalkAll (ar : Arena) : option (list Addr) := amcWalkAllLoop ar (ar_segs ar).

(** [mps_amc_apply]: [mps_amc_apply_iter] passes each address on to the
    client's stepper. *)
Definition mps_amc_apply (ar : Arena) : option (list Addr) := amcWalkAll ar.

(** ** Creating the pool (poolamc.c) *)

(** The keyword arguments [amcInitComm] picks: [None] when absent. *)
Record AMCArgs := mkAMCArgs {
  arg_interior : option bool;
  arg_extendBy : option Size;
  arg_largeSize : option Size
}.

(** The forwarding buffer [amcGenCreate] makes for a generation:
    [AMCBufInit] of a buffer that is not a mutator buffer, with the
    pool's rank set.  Its generation ([NULL] in the source, which has no
    counterpart in [buf_gen]) is set by [amcBufSetGen] before use. *)
Definition amcForwardBuffer (rankSet : Z) : Buffer :=
  mkBuf None false 0 0 0 0 O rankSet false.

(** The generation loop of [amcInitComm]: [amcGenCreate] for
    generations [i], ..., [i + n - 1]; [genCreate] gives the result of
    each creation.  Generation [k]'s forwarding buffer is buffer [k]. *)
Fixpoint amcGenCreateLoop (genCreate : nat -> Res) (rankSet : Z) (i n : nat)
  : Res * list Gen * list Buffer :=
  match n with
  | O => (ResOK, [], [])
  | S n' =>
      match genCreate i with
      | ResOK =>
          let '(res, gens, bufs) := amcGenCreateLoop genCreate rankSet (S i) n' in
          (res, mkGen i 0 0 :: gens, amcForwardBuffer rankSet :: bufs)
      | res => (res, [], [])
      end
  end.

(** [amcBufSetGen(amc->gen[i]->forward, gen)] *)
Definition amcSetForward (gens : list Gen) (bufs : list Buffer) (i g : nat) : list Buffer :=
  let bi := gen_forward (nth i gens dummyGen) in
  list_set bufs bi (amcBufSetGen (nth bi bufs dummyBuf) g).

Section AMCInit.

(** The defaults of config.h. *)
Variable AMC_INTERIOR_DEFAULT : bool.
Variables AMC_EXTEND_BY_DEFAULT AMC_LARGE_SIZE_DEFAULT : Size.

(** [amcInitComm] for a chain of [genCount] generations, an arena of
    grain [grain] and a format of alignment [align] and header
    [header].  [nextInit], [allocGens] and [genCreate] give the results
    of the superclass's init, of the allocation of the generation array
    and of each [amcGenCreate].  The result is [None] for a failed
    assertion or an access out of the generation array, and otherwise the
    result code with, on success, the pool, its generations and their
    forwarding buffers; on failure the generations created are
    destroyed. *)
Definition amcInitComm (nextInit allocGens : Res) (genCreate : nat -> Res)
    (grain align header : Size) (rankSet : Z) (genCount : nat) (args : AMCArgs)
  : option (Res * option (AMC * list Gen * list Buffer)) :=
  let interior := match arg_interior args with Some b => b | None => AMC_INTERIOR_DEFAULT end in
  let extendBy := match arg_extendBy args with Some x => x | None => AMC_EXTEND_BY_DEFAULT end in
  let largeSize := match arg_largeSize args with Some x => x | None => AMC_LARGE_SIZE_DEFAULT end in
  if negb ((0 <? extendBy) && (0 <? largeSize) && (extendBy <=? largeSize)) then None
  else
    match nextInit with
    | ResOK =>
        let amc := {| amc_rampCount := 0; amc_rampMode := RampOUTSIDE;
                      amc_rampGen := O; amc_afterRampGen := O;
                      amc_extendBy := SizeArenaGrains extendBy grain;
                      amc_largeSize := largeSize; amc_interior := interior;
                      amc_align := align; amc_headerSize := header |} in
        match allocGens with
        | ResOK =>
            match amcGenCreateLoop genCreate rankSet O (S genCount) with
            | (ResOK, gens, bufs) =>
                let bufs := fold_left (fun bufs i => amcSetForward gens bufs i (S i))
                                      (seq O genCount) bufs in
                let bufs := amcSetForward gens bufs genCount genCount in
                match genCount with
                | O => None
                | S g =>
                    let amc := {| amc_rampCount := amc_rampCount amc;
                                  amc_rampMode := amc_rampMode amc;
                                  amc_rampGen := g; amc_afterRampGen := genCount;
                                  amc_extendBy := amc_extendBy amc;
                                  amc_largeSize := amc_largeSize amc;
                                  amc_interior := amc_interior amc;
                                  amc_align := amc_align amc;
                                  amc_headerSize := amc_headerSize amc |} in
                    Some (ResOK, Some (amc, gens, bufs))
                end
            | (res, _, _) => Some (res, None)
            end
        | res => Some (res, None)
        end
    | res => Some (res, None)
    end.

End AMCInit.

(** ** Definitions used by the further properties *)

(** The fields of a scan state that the fix methods leave alone. *)
Definition ss_sums (ss : ScanState) : bool * Rank * TraceSet * RefSet * RefSet * RefSet :=
  (ss_emergencyFix ss, ss_rank ss, ss_traces ss, ss_white ss,
   ss_unfixedSummary ss, ss_fixedSummary ss).

(** [ObjChain f a b]: [b] is reached from [a] by steps of [f], each of which advances. *)
Inductive ObjChain (f : Addr -> Addr) : Addr -> Addr -> Prop :=
| oc_refl a : ObjChain f a a
| oc_step a b : a < f a -> ObjChain f (f a) b -> ObjChain f a b.

(** [SkipWalk align s a b l]: [l] lists the unmoved objects from [a]
    to [b], each [skip] advancing. *)
Inductive SkipWalk (align : Size) (s : Seg) : Addr -> Addr -> list Addr -> Prop :=
| sw_nil a : SkipWalk align s a a []
| sw_cons a b l : FormatIsMoved s a = 0 -> a < FormatSkip align s a ->
                  SkipWalk align s (FormatSkip align s a) b l -> SkipWalk align s a b (a :: l).

(** An AMC pool of two generations over 4096-byte grains, asked to extend by 5000 bytes. *)
Definition ex_amc_args : AMCArgs := mkAMCArgs None (Some 5000) None.
Definition ex_init_amc : AMC := mkAMC 0 RampOUTSIDE 1 2 8192 32768 true 8 0.
Definition ex_init_gens : list Gen := map (fun k => mkGen k 0 0) [0; 1; 2]%nat.
Definition ex_init_bufs : list Buffer :=
  map (amcBufSetGen (amcForwardBuffer 2)) [1; 2; 2]%nat.

(** [ar'] keeps the number of segments, the colour of every segment
    and the trace's white set and state. *)
Definition WhiteKeep (ar ar' : Arena) : Prop :=
  length (ar_segs ar') = length (ar_segs ar)
  /\ (forall j, seg_white (ar_seg ar' j) = seg_white (ar_seg ar j))
  /\ tr_white (ar_trace ar') = tr_white (ar_trace ar)
  /\ tr_state (ar_trace ar') = tr_state (ar_trace ar).

(** As [WhiteKeep], except that segment [i] has been condemned for
    trace 0. *)
Definition WhitenedAt (ar : Arena) (i : nat) (ar' : Arena) : Prop :=
  length (ar_segs ar') = length (ar_segs ar)
  /\ (forall j, j <> i -> seg_white (ar_seg ar' j) = seg_white (ar_seg ar j))
  /\ seg_white (ar_seg ar' i) = TraceSetAdd (seg_white (ar_seg ar i)) 0
  /\ tr_white (ar_trace ar') = tr_white (ar_trace ar)
  /\ tr_state (ar_trace ar') = tr_state (ar_trace ar).

(** * Properties *)

(** ** Set operations *)

Lemma testbit_union (a b : Z) (n : Z) :
  Z.testbit (TraceSetUnion a b) n = Z.testbit a n || Z.testbit b n.
Proof. unfold TraceSetUnion. apply Z.lor_spec. Qed.

Lemma testbit_diff (a b : Z) (n : Z) :
  0 <= n -> Z.testbit (TraceSetDiff a b) n = Z.testbit a n && negb (Z.testbit b n).
Proof.
  intros Hn. unfold TraceSetDiff. rewrite Z.land_spec, Z.lnot_spec by exact Hn. reflexivity.
Qed.

(** ** C3 *)

(** C3: for every scan state, [ScanStateSummary] is, bit by bit (zone
    by zone), the union of the fixed summary with the unfixed summary
    minus the white set; and after [ScanStateSetSummary ss s],
    [ScanStateSummary] returns exactly [s]. *)
Theorem ScanStateSummary_spec :
  (forall (ss : ScanState) (zone : Z), 0 <= zone ->
     Z.testbit (ScanStateSummary ss) zone =
     Z.testbit (ss_fixedSummary ss) zone
     || (Z.testbit (ss_unfixedSummary ss) zone && negb (Z.testbit (ss_white ss) zone)))
  /\ (forall (ss : ScanState) (s : RefSet), ScanStateSummary (ScanStateSetSummary ss s) = s).
Proof.
  split.
  - intros ss zone Hz. unfold ScanStateSummary.
    rewrite testbit_union, testbit_diff by exact Hz. reflexivity.
  - intros ss s. unfold ScanStateSummary, ScanStateSetSummary, ss_set_summaries; simpl.
    unfold TraceSetUnion, TraceSetDiff, RefSetEMPTY.
    rewrite ?Z.land_0_l. apply Z.lor_0_r.
Qed.

(** ** Frame lemmas: what leaves the pool structure alone *)

Lemma ar_amc_set_seg ar i s : ar_amc (ar_set_seg ar i s) = ar_amc ar.
Proof. reflexivity. Qed.
Lemma ar_amc_set_segs ar l : ar_amc (ar_set_segs ar l) = ar_amc ar.
Proof. reflexivity. Qed.
Lemma ar_amc_set_buf ar i b : ar_amc (ar_set_buf ar i b) = ar_amc ar.
Proof. reflexivity. Qed.
Lemma ar_amc_set_trace ar t : ar_amc (ar_set_trace ar t) = ar_amc ar.
Proof. reflexivity. Qed.
Lemma ar_amc_log_event ar e : ar_amc (ar_log_event ar e) = ar_amc ar.
Proof. reflexivity. Qed.
Lemma ar_amc_set_amc ar a : ar_amc (ar_set_amc ar a) = a.
Proof. reflexivity. Qed.
Lemma ar_amc_GenDescCondemned ar g n : ar_amc (GenDescCondemned ar g n) = ar_amc ar.
Proof. reflexivity. Qed.
Lemma ar_amc_GenDescSurvived ar g f p : ar_amc (GenDescSurvived ar g f p) = ar_amc ar.
Proof. reflexivity. Qed.
Lemma ar_amc_FormatPad ar i a n : ar_amc (FormatPad ar i a n) = ar_amc ar.
Proof. reflexivity. Qed.
Lemma ar_amc_PoolGenFree ar i : ar_amc (PoolGenFree ar i) = ar_amc ar.
Proof. reflexivity. Qed.
Lemma ar_amc_set_buf_base ar bi b : ar_amc (ar_set_buf_base ar bi b) = ar_amc ar.
Proof. reflexivity. Qed.

Create Rewrite HintDb amc_frame.
#[export] Hint Rewrite ar_amc_set_seg ar_amc_set_segs ar_amc_set_buf ar_amc_set_trace
  ar_amc_log_event ar_amc_set_amc ar_amc_GenDescCondemned ar_amc_GenDescSurvived
  ar_amc_FormatPad ar_amc_PoolGenFree ar_amc_set_buf_base : amc_frame.

Ltac frame_cases :=
  cbv zeta;
  repeat match goal with
         | |- context [match ?x with _ => _ end] => destruct x
         end;
  autorewrite with amc_frame; try reflexivity.

Lemma ar_amc_amcSegBufferEmpty ar i b : ar_amc (amcSegBufferEmpty ar i b) = ar_amc ar.
Proof. unfold amcSegBufferEmpty. frame_cases. Qed.
#[export] Hint Rewrite ar_amc_amcSegBufferEmpty : amc_frame.

Lemma ar_amc_BufferDetach ar bi : ar_amc (BufferDetach ar bi) = ar_amc ar.
Proof. unfold BufferDetach. frame_cases. Qed.
#[export] Hint Rewrite ar_amc_BufferDetach : amc_frame.

Lemma ar_amc_SegNailboardSetRange ar i lo hi : ar_amc (SegNailboardSetRange ar i lo hi) = ar_amc ar.
Proof. unfold SegNailboardSetRange. frame_cases. Qed.
#[export] Hint Rewrite ar_amc_SegNailboardSetRange : amc_frame.

Lemma ar_amc_amcSegCreateNailboard ar i : ar_amc (snd (amcSegCreateNailboard ar i)) = ar_amc ar.
Proof. unfold amcSegCreateNailboard. frame_cases. Qed.

Lemma ar_amc_amcSegReclaimNailedWalk fuel ar i p limit pb pl c sz r ar' pb' pl' c' sz' r' :
  amcSegReclaimNailedWalk fuel ar i p limit pb pl c sz r = Some (ar', pb', pl', c', sz', r') ->
  ar_amc ar' = ar_amc ar.
Proof.
  revert ar p pb pl c sz r.
  induction fuel as [|fuel IH]; intros ar p pb pl c sz r H; simpl in H.
  - destruct (p <? limit); [discriminate | congruence].
  - destruct (p <? limit); [| congruence].
    cbv zeta in H.
    destruct (match seg_board (ar_seg ar i) with
              | Some b => _ | None => _ end).
    + destruct (0 <? pl); apply IH in H; rewrite H; reflexivity.
    + apply IH in H; exact H.
Qed.

Lemma ar_amc_amcSegReclaimNailed ar i ar' :
  amcSegReclaimNailed ar i = Some ar' -> ar_amc ar' = ar_amc ar.
Proof.
  unfold amcSegReclaimNailed. cbv zeta.
  destruct (amcSegReclaimNailedWalk _ _ _ _ _ _ _ _ _ _) as
      [[[[[[ar1 pb] pl] c] sz] r]|] eqn:E; [|discriminate].
  apply ar_amc_amcSegReclaimNailedWalk in E.
  intros H. rewrite <- E.
  destruct (0 <? pl); cbv zeta in H;
  repeat match type of H with
         | context [match ?x with _ => _ end] => destruct x
         end;
  injection H as <-; autorewrite with amc_frame; reflexivity.
Qed.

(** ** The ramp invariant, as a proposition *)

Lemma AMCRampInv_iff amc :
  AMCRampInv amc = true <->
  (0 <= amc_rampCount amc <= UINT_MAX
   /\ (amc_rampMode amc = RampOUTSIDE -> amc_rampCount amc = 0)
   /\ (amc_rampMode amc = RampBEGIN \/ amc_rampMode amc = RampRAMPING ->
       amc_rampCount amc <> 0)).
Proof.
  unfold AMCRampInv.
  destruct amc as [c m rg arg eb ls int al hs]; simpl.
  rewrite !andb_true_iff, Z.leb_le, Z.leb_le.
  destruct m; simpl; rewrite ?orb_true_r, ?orb_false_r, ?negb_true_iff, ?Z.eqb_eq, ?Z.eqb_neq;
    split; intros H; intuition (try discriminate; try lia).
Qed.

Lemma AMCRampInv_set_ramp amc c m :
  AMCRampInv (amc_set_ramp amc c m) = true <->
  (0 <= c <= UINT_MAX /\ (m = RampOUTSIDE -> c = 0)
   /\ (m = RampBEGIN \/ m = RampRAMPING -> c <> 0)).
Proof. apply (AMCRampInv_iff (amc_set_ramp amc c m)). Qed.

Lemma amcSegWhitenCondemn_amc ar i c :
  ar_amc (snd (amcSegWhitenCondemn ar i c)) = ar_amc ar
  \/ (amc_rampMode (ar_amc ar) = RampBEGIN /\
      ar_amc (snd (amcSegWhitenCondemn ar i c)) =
      amc_set_ramp (ar_amc ar) (amc_rampCount (ar_amc ar)) RampRAMPING)
  \/ ar_amc (snd (amcSegWhitenCondemn ar i c)) =
     amc_set_ramp (ar_amc ar) (amc_rampCount (ar_amc ar)) RampCOLLECTING.
Proof.
  unfold amcSegWhitenCondemn. cbv zeta.
  autorewrite with amc_frame.
  destruct (RampMode_eqb (amc_rampMode (ar_amc ar)) RampBEGIN) eqn:EB; simpl.
  - destruct (Nat.eqb _ _); simpl.
    + right; left. split; [destruct (amc_rampMode (ar_amc ar)); try discriminate; reflexivity|].
      reflexivity.
    + destruct (RampMode_eqb (amc_rampMode (ar_amc ar)) RampFINISH && _); simpl; auto.
  - destruct (RampMode_eqb (amc_rampMode (ar_amc ar)) RampFINISH && _); simpl; auto.
Qed.

Lemma AMCRampInv_whitenCondemn ar i c :
  AMCRampInv (ar_amc ar) = true ->
  AMCRampInv (ar_amc (snd (amcSegWhitenCondemn ar i c))) = true.
Proof.
  intros H. pose proof H as H'. apply AMCRampInv_iff in H' as (Hc & Ho & Hb).
  destruct (amcSegWhitenCondemn_amc ar i c) as [E|[[Em E]|E]]; rewrite E.
  - exact H.
  - apply AMCRampInv_set_ramp. split; [lia|]. split; [discriminate|].
    intros _. apply Hb; auto.
  - apply AMCRampInv_set_ramp. split; [lia|]. split; [discriminate|].
    intros [? | ?]; discriminate.
Qed.

Lemma AMCRampInv_amcSegWhiten ar i :
  AMCRampInv (ar_amc ar) = true -> AMCRampInv (ar_amc (snd (amcSegWhiten ar i))) = true.
Proof.
  intros H. unfold amcSegWhiten. cbv zeta.
  destruct (SegBuffer ar (ar_seg ar i)) as [[bi b]|].
  2: apply AMCRampInv_whitenCondemn; exact H.
  destruct (negb (buf_mutator b)).
  { apply AMCRampInv_whitenCondemn. autorewrite with amc_frame. exact H. }
  destruct (BufferScanLimit b =? seg_base (ar_seg ar i)); [exact H|].
  destruct (negb (amcSegHasNailboard (ar_seg ar i))).
  2: { apply AMCRampInv_whitenCondemn. autorewrite with amc_frame. exact H. }
  destruct (seg_nailed (ar_seg ar i) =? TraceSetEMPTY); [|exact H].
  pose proof (ar_amc_amcSegCreateNailboard ar i) as Ec.
  destruct (amcSegCreateNailboard ar i) as [r ar1]; simpl in Ec.
  destruct r; simpl; try (rewrite Ec; exact H).
  apply AMCRampInv_whitenCondemn.
  destruct (negb (BufferScanLimit b =? buf_limit b));
    autorewrite with amc_frame; rewrite Ec; exact H.
Qed.

Lemma AMCRampInv_amcSegReclaim ar i ar' :
  AMCRampInv (ar_amc ar) = true -> amcSegReclaim ar i = Some ar' ->
  AMCRampInv (ar_amc ar') = true.
Proof.
  intros H. pose proof H as H'. apply AMCRampInv_iff in H' as (Hc & Ho & Hb).
  unfold amcSegReclaim. cbv zeta.
  set (ar1 := if RampMode_eqb _ RampCOLLECTING then _ else ar).
  assert (H1 : AMCRampInv (ar_amc ar1) = true).
  { subst ar1.
    destruct (RampMode_eqb (amc_rampMode (ar_amc ar)) RampCOLLECTING); [|exact H].
    destruct (0 <? amc_rampCount (ar_amc ar)) eqn:Ec; rewrite ar_amc_set_amc;
      apply AMCRampInv_set_ramp; rewrite ?Z.ltb_lt, ?Z.ltb_ge in Ec.
    - split; [lia|]. split; [discriminate|]. intros _; lia.
    - split; [lia|]. split; [intros _; lia|]. intros [? | ?]; discriminate. }
  clearbody ar1.
  destruct (negb (seg_nailed (ar_seg ar1 i) =? TraceSetEMPTY)).
  - intros E. apply ar_amc_amcSegReclaimNailed in E. rewrite E. exact H1.
  - intros E. injection E as <-. autorewrite with amc_frame. exact H1.
Qed.

(** C10: the ramp invariant of [AMCCheck] ([rampCount] an unsigned int;
    [RampOUTSIDE] implies a zero count; [RampBEGIN] or [RampRAMPING]
    implies a non-zero count) is preserved by [AMCRampBegin] (under its
    AVER [rampCount < UINT_MAX]), by [AMCRampEnd] (under its AVER
    [rampCount > 0]), by [amcSegWhiten] and by [amcSegReclaim]. *)
Theorem AMCRampInv_preserved (ar : Arena) :
  AMCRampInv (ar_amc ar) = true ->
  (amc_rampCount (ar_amc ar) < UINT_MAX -> AMCRampInv (ar_amc (AMCRampBegin ar)) = true)
  /\ (0 < amc_rampCount (ar_amc ar) -> AMCRampInv (ar_amc (AMCRampEnd ar)) = true)
  /\ (forall i, AMCRampInv (ar_amc (snd (amcSegWhiten ar i))) = true)
  /\ (forall i ar', amcSegReclaim ar i = Some ar' -> AMCRampInv (ar_amc ar') = true).
Proof.
  intros H. pose proof H as H'. apply AMCRampInv_iff in H' as (Hc & Ho & Hb).
  split; [|split; [|split]].
  - intros Hlt. unfold AMCRampBegin. cbv zeta. rewrite ar_amc_set_amc.
    apply AMCRampInv_set_ramp.
    rewrite Z.mod_small by (unfold UINT_MAX in *; lia).
    split; [lia|]. split.
    + destruct (amc_rampCount (ar_amc ar) + 1 =? 1) eqn:E1;
        [rewrite Z.eqb_eq in E1|rewrite Z.eqb_neq in E1].
      * destruct (amc_rampMode (ar_amc ar)); simpl; intros E; discriminate.
      * simpl. intros E. specialize (Ho E). lia.
    + intros _. lia.
  - intros Hgt. unfold AMCRampEnd. cbv zeta.
    rewrite Z.mod_small by (unfold UINT_MAX in *; lia).
    destruct (amc_rampCount (ar_amc ar) - 1 =? 0) eqn:E0;
      [rewrite Z.eqb_eq in E0|rewrite Z.eqb_neq in E0];
      rewrite ar_amc_set_amc; apply AMCRampInv_set_ramp.
    + split; [lia|]. split; [intros _; exact E0|].
      destruct (amc_rampMode (ar_amc ar)); simpl; intros [? | ?]; discriminate.
    + split; [lia|]. split; [intros E; specialize (Ho E); lia|].
      intros _. exact E0.
  - intros i. apply AMCRampInv_amcSegWhiten. exact H.
  - intros i ar'. apply AMCRampInv_amcSegReclaim. exact H.
Qed.

(** The ramp invariant holds of the example arena, which is outside any
    ramp; the four preservation properties apply to it. *)
Lemma AMCRampInv_preserved_witness :
  AMCRampInv (ar_amc ex_arena_fwd) = true /\
  AMCRampInv (ar_amc (AMCRampBegin ex_arena_fwd)) = true.
Proof.
  split; [reflexivity|].
  apply (proj1 (AMCRampInv_preserved ex_arena_fwd (eq_refl true))).
  vm_compute. reflexivity.
Defined.

(** C4: a non-ambiguous fix of a reference whose object is already
    forwarded ([format->isMoved] gives a non-null address) snaps the
    slot out to the forwarding address and returns OK; the arena
    (segment colours and nails, buffers, the log of copies and
    reservations) is unchanged, and only the snap-out count moves. *)
Theorem amcSegFix_snapout (ar : Arena) (i : nat) (ss : ScanState) (ref : Addr) :
  ss_rank ss <> RankAMBIG ->
  FormatIsMoved (ar_seg ar i) ref <> 0 ->
  amcSegFix ar i ss ref = (ResOK, FormatIsMoved (ar_seg ar i) ref, ss_incr_snap ss, ar).
Proof.
  intros Hr Hm. unfold amcSegFix. cbv zeta.
  replace (Rank_eqb (ss_rank ss) RankAMBIG) with false
    by (destruct (ss_rank ss); [contradiction|reflexivity..]).
  apply Z.eqb_neq in Hm. rewrite Hm. reflexivity.
Qed.

(** The object at 4112 of the example is forwarded to 8192. *)
Lemma amcSegFix_snapout_witness :
  ss_rank (ex_ss RankEXACT) <> RankAMBIG /\
  FormatIsMoved (ar_seg ex_arena_fwd 0) 4112 <> 0 /\
  amcSegFix ex_arena_fwd 0 (ex_ss RankEXACT) 4112 =
  (ResOK, FormatIsMoved (ar_seg ex_arena_fwd 0) 4112, ss_incr_snap (ex_ss RankEXACT),
   ex_arena_fwd).
Proof.
  split; [discriminate|]. split; [vm_compute; discriminate|].
  apply amcSegFix_snapout; [discriminate | vm_compute; discriminate].
Defined.

(** C8: when the segment has a mutator buffer attached whose scan limit
    is the segment base, [amcSegWhiten] returns OK and leaves the arena
    as it was: the segment is not made white and no generation's
    condemned size changes. *)
Theorem amcSegWhiten_buffer_spans_segment (ar : Arena) (i : nat) (bi : nat) (b : Buffer) :
  SegBuffer ar (ar_seg ar i) = Some (bi, b) ->
  buf_mutator b = true ->
  BufferScanLimit b = seg_base (ar_seg ar i) ->
  amcSegWhiten ar i = (ResOK, ar).
Proof.
  intros Hb Hm Hl. unfold amcSegWhiten. rewrite Hb, Hm. simpl.
  rewrite Hl, Z.eqb_refl. reflexivity.
Qed.

Lemma amcSegWhiten_buffer_spans_segment_witness :
  SegBuffer ex_arena_mut (ar_seg ex_arena_mut 0) = Some (0%nat, ex_mutbuf) /\
  amcSegWhiten ex_arena_mut 0 = (ResOK, ex_arena_mut).
Proof.
  split; [reflexivity|].
  apply (amcSegWhiten_buffer_spans_segment ex_arena_mut 0 0 ex_mutbuf);
    reflexivity.
Defined.

(** ** Frame lemmas: fixing in place neither copies nor reserves *)

Lemma amcSegFixInPlace_frame ar i ss ref :
  ar_log (amcSegFixInPlace ar i ss ref) = ar_log ar /\
  ar_bufs (amcSegFixInPlace ar i ss ref) = ar_bufs ar.
Proof.
  unfold amcSegFixInPlace. cbv zeta.
  destruct (seg_board (ar_seg ar i)) as [b|].
  - destruct (NailboardSet _ _ b ref) as [wm b'].
    destruct (TraceSetSub _ _ && wm); [split; reflexivity|].
    destruct (negb (seg_rankSet _ =? RankSetEMPTY)); split; reflexivity.
  - destruct (TraceSetSub _ _); [split; reflexivity|].
    destruct (negb (seg_rankSet _ =? RankSetEMPTY)); split; reflexivity.
Qed.

(** C5 (as stated): a fix of a reference into a nailed segment, to an
    object pinned by the nailboard (any object when there is no
    nailboard), leaves the slot unchanged.  Refuted: the object at 4112
    of the examples was forwarded to 8192 before being nailed; an exact
    fix snaps the slot out to 8192, both in the segment nailed without a
    nailboard and in the segment whose nailboard pins the object. *)
Lemma amcSegFix_nailed_counterexample :
  (TraceSetIsMember (seg_white (ar_seg ex_arena_nailed 0)) 0 = true /\
   seg_nailed (ar_seg ex_arena_nailed 0) <> TraceSetEMPTY /\
   seg_board (ar_seg ex_arena_nailed 0) = None /\
   fst (fst (fst (amcSegFix ex_arena_nailed 0 (ex_ss RankEXACT) 4112))) = ResOK /\
   snd (fst (fst (amcSegFix ex_arena_nailed 0 (ex_ss RankEXACT) 4112))) = 8192) /\
  (TraceSetIsMember (seg_white (ar_seg ex_arena_boarded 0)) 0 = true /\
   seg_nailed (ar_seg ex_arena_boarded 0) <> TraceSetEMPTY /\
   seg_board (ar_seg ex_arena_boarded 0) = Some ex_board /\
   amcPinned (ar_amc ex_arena_boarded) (ar_seg ex_arena_boarded 0) ex_board 4112
     (FormatSkip (amc_align (ar_amc ex_arena_boarded)) (ar_seg ex_arena_boarded 0) 4112) = true /\
   fst (fst (fst (amcSegFix ex_arena_boarded 0 (ex_ss RankEXACT) 4112))) = ResOK /\
   snd (fst (fst (amcSegFix ex_arena_boarded 0 (ex_ss RankEXACT) 4112))) = 8192).
Proof. vm_compute. repeat split; discriminate. Qed.

(** C5 (amended): for a reference into a nailed segment whose object is
    pinned by the segment's nailboard (any object when the segment has
    no nailboard), if the reference is ambiguous or the object has not
    been forwarded, then [amcSegFix] and [amcSegFixEmergency] return OK,
    leave the slot unchanged and neither copy nor reserve: the log of
    copies, reservations and pads and the buffers are unchanged. *)
Theorem amcSegFix_nailed_pinned (ar : Arena) (i : nat) (ss : ScanState) (ref : Addr) :
  seg_nailed (ar_seg ar i) <> TraceSetEMPTY ->
  match seg_board (ar_seg ar i) with
  | Some b => amcPinned (ar_amc ar) (ar_seg ar i) b ref
                (FormatSkip (amc_align (ar_amc ar)) (ar_seg ar i) ref) = true
  | None => True
  end ->
  ss_rank ss = RankAMBIG \/ FormatIsMoved (ar_seg ar i) ref = 0 ->
  (exists ss' ar', amcSegFix ar i ss ref = (ResOK, ref, ss', ar')
                   /\ ar_log ar' = ar_log ar /\ ar_bufs ar' = ar_bufs ar)
  /\ (exists ar', amcSegFixEmergency ar i ss ref = (ResOK, ref, ar')
                   /\ ar_log ar' = ar_log ar /\ ar_bufs ar' = ar_bufs ar).
Proof.
  intros Hn Hp Hr.
  assert (Hrm : Rank_eqb (ss_rank ss) RankAMBIG = true \/
                (Rank_eqb (ss_rank ss) RankAMBIG = false /\ FormatIsMoved (ar_seg ar i) ref = 0)).
  { destruct Hr as [Hr|Hr].
    - left. rewrite Hr. reflexivity.
    - destruct (Rank_eqb (ss_rank ss) RankAMBIG); auto. }
  split.
  - unfold amcSegFix. cbv zeta.
    apply Z.eqb_neq in Hn. rewrite Hn.
    destruct Hrm as [Ha|[Ha Hm]]; rewrite Ha.
    + exists ss, (amcSegFixInPlace ar i ss ref). split; [reflexivity|].
      apply amcSegFixInPlace_frame.
    + rewrite Hm, Z.eqb_refl. simpl.
      replace (negb match seg_board (ar_seg ar i) with
                    | Some b => negb (amcPinned (ar_amc ar) (ar_seg ar i) b ref
                                  (FormatSkip (amc_align (ar_amc ar)) (ar_seg ar i) ref))
                    | None => false end) with true
        by (destruct (seg_board (ar_seg ar i)); [rewrite Hp|]; reflexivity).
      destruct (negb (TraceSetSub (ss_traces ss) (seg_nailed (ar_seg ar i)))).
      * eexists ss, _. split; [reflexivity|]. split; reflexivity.
      * exists ss, ar. split; [reflexivity|]. split; reflexivity.
  - unfold amcSegFixEmergency.
    destruct Hrm as [Ha|[Ha Hm]]; rewrite Ha.
    + exists (amcSegFixInPlace ar i ss ref). split; [reflexivity|].
      apply amcSegFixInPlace_frame.
    + cbv zeta. rewrite Hm. simpl.
      exists (amcSegFixInPlace ar i ss ref). split; [reflexivity|].
      apply amcSegFixInPlace_frame.
Qed.

(** An ambiguous fix of the forwarded object of the nailed example. *)
Lemma amcSegFix_nailed_pinned_witness :
  seg_nailed (ar_seg ex_arena_nailed 0) <> TraceSetEMPTY /\
  (exists ss' ar', amcSegFix ex_arena_nailed 0 (ex_ss RankAMBIG) 4112 = (ResOK, 4112, ss', ar')
                   /\ ar_log ar' = ar_log ex_arena_nailed /\ ar_bufs ar' = ar_bufs ex_arena_nailed).
Proof.
  split; [vm_compute; discriminate|].
  apply (amcSegFix_nailed_pinned ex_arena_nailed 0 (ex_ss RankAMBIG) 4112).
  - vm_compute; discriminate.
  - vm_compute. exact I.
  - left. reflexivity.
Defined.

(** ** Condemnation only detaches buffers and whitens segments *)

Lemma length_list_set {A} (l : list A) i x : length (list_set l i x) = length l.
Proof. revert i; induction l as [|y l IH]; intros [|i]; simpl; auto. Qed.

Lemma nth_list_set_eq {A} (l : list A) i x d :
  (i < length l)%nat -> nth i (list_set l i x) d = x.
Proof.
  revert i; induction l as [|y l IH]; intros [|i] H; simpl in *; try lia; auto.
  apply IH. lia.
Qed.

Lemma nth_list_set_neq {A} (l : list A) i j x d :
  j <> i -> nth j (list_set l i x) d = nth j l d.
Proof.
  revert i j; induction l as [|y l IH]; intros [|i] [|j] H; simpl; auto; try congruence.
Qed.

Lemma list_set_out {A} (l : list A) i x : (length l <= i)%nat -> list_set l i x = l.
Proof.
  revert i; induction l as [|y l IH]; intros [|i] H; simpl in *; auto; try lia.
  rewrite IH by lia. reflexivity.
Qed.

Lemma Forall2_list_set {A} (R : A -> A -> Prop) (l : list A) i x d :
  (forall y, R y y) -> R (nth i l d) x -> Forall2 R l (list_set l i x).
Proof.
  intros Hr. revert i; induction l as [|y l IH]; intros [|i] H; simpl in *; constructor; auto.
  clear IH H. induction l; constructor; auto.
Qed.

Lemma Forall2_refl {A} (R : A -> A -> Prop) (l : list A) :
  (forall y, R y y) -> Forall2 R l l.
Proof. intros Hr; induction l; constructor; auto. Qed.

Lemma Forall2_trans {A} (R : A -> A -> Prop) (l1 l2 l3 : list A) :
  (forall x y z, R x y -> R y z -> R x z) -> Forall2 R l1 l2 -> Forall2 R l2 l3 -> Forall2 R l1 l3.
Proof.
  intros Ht H12; revert l3; induction H12; intros l3 H23; inversion H23; subst; constructor; eauto.
Qed.

Lemma buf_step_refl b : buf_step b b.
Proof. right; auto. Qed.

Lemma buf_step_trans a b c : buf_step a b -> buf_step b c -> buf_step a c.
Proof. unfold buf_step. intuition congruence. Qed.

Lemma seg_step_refl s : seg_step s s.
Proof. unfold seg_step; auto. Qed.

Lemma seg_step_trans a b c : seg_step a b -> seg_step b c -> seg_step a c.
Proof. unfold seg_step. intuition congruence. Qed.

Lemma cle_refl a : cond_le a a.
Proof.
  unfold cond_le. split; [reflexivity|]. split; [reflexivity|].
  split; [intros; apply seg_step_refl|]. apply Forall2_refl, buf_step_refl.
Qed.

Lemma cle_trans a b c : cond_le a b -> cond_le b c -> cond_le a c.
Proof.
  intros (L1 & Z1 & S1 & B1) (L2 & Z2 & S2 & B2).
  split; [congruence|]. split; [congruence|].
  split; [intros j; eapply seg_step_trans; eauto|].
  eapply Forall2_trans; eauto. apply buf_step_trans.
Qed.

Lemma cle_same_r a b c :
  cond_le a b -> ar_segs c = ar_segs b -> ar_bufs c = ar_bufs b ->
  ar_zoneShift c = ar_zoneShift b -> cond_le a c.
Proof.
  intros H Hs Hb Hz. eapply cle_trans; [exact H|].
  unfold cond_le, ar_seg. rewrite Hs, Hb, Hz.
  split; [reflexivity|]. split; [reflexivity|].
  split; [intros; apply seg_step_refl|]. apply Forall2_refl, buf_step_refl.
Qed.

Lemma cle_set_seg_r a b i s :
  cond_le a b -> seg_step (ar_seg b i) s -> cond_le a (ar_set_seg b i s).
Proof.
  intros H Hs. eapply cle_trans; [exact H|].
  unfold cond_le, ar_set_seg, ar_set_segs, ar_upd, ar_seg; simpl.
  rewrite length_list_set. split; [reflexivity|]. split; [reflexivity|].
  split; [|apply Forall2_refl, buf_step_refl].
  intros j. destruct (Nat.eq_dec j i) as [->|Hne].
  - destruct (Nat.lt_ge_cases i (length (ar_segs b))) as [Hl|Hl].
    + rewrite nth_list_set_eq by exact Hl. exact Hs.
    + rewrite list_set_out by exact Hl. apply seg_step_refl.
  - rewrite nth_list_set_neq by exact Hne. apply seg_step_refl.
Qed.

Lemma cle_set_buf_r a b i x :
  cond_le a b -> buf_step (ar_buf b i) x -> cond_le a (ar_set_buf b i x).
Proof.
  intros H Hx. eapply cle_trans; [exact H|].
  unfold cond_le, ar_set_buf, ar_set_bufs, ar_upd, ar_seg; simpl.
  split; [reflexivity|]. split; [reflexivity|].
  split; [intros; apply seg_step_refl|].
  eapply Forall2_list_set; [apply buf_step_refl | exact Hx].
Qed.

Lemma cle_set_trace_r a b t : cond_le a b -> cond_le a (ar_set_trace b t).
Proof. intros H; eapply cle_same_r; eauto. Qed.
Lemma cle_log_event_r a b e : cond_le a b -> cond_le a (ar_log_event b e).
Proof. intros H; eapply cle_same_r; eauto. Qed.
Lemma cle_set_amc_r a b m : cond_le a b -> cond_le a (ar_set_amc b m).
Proof. intros H; eapply cle_same_r; eauto. Qed.
Lemma cle_set_gens_r a b l : cond_le a b -> cond_le a (ar_set_gens b l).
Proof. intros H; eapply cle_same_r; eauto. Qed.
Lemma cle_GenDescCondemned_r a b g n : cond_le a b -> cond_le a (GenDescCondemned b g n).
Proof. intros H; eapply cle_same_r; eauto. Qed.
Lemma cle_GenDescSurvived_r a b g f p : cond_le a b -> cond_le a (GenDescSurvived b g f p).
Proof. intros H; eapply cle_same_r; eauto. Qed.

Lemma seg_step_SegSetObjs s t os : seg_step s t -> seg_step s (SegSetObjs t os).
Proof. unfold seg_step; simpl; auto. Qed.
Lemma seg_step_SegSetBoard s t b : seg_step s t -> seg_step s (SegSetBoard t b).
Proof. unfold seg_step; simpl; auto. Qed.
Lemma seg_step_SegSetNailed s t n : seg_step s t -> seg_step s (SegSetNailed t n).
Proof. unfold seg_step; simpl; auto. Qed.
Lemma seg_step_SegSetGrey s t g : seg_step s t -> seg_step s (SegSetGrey t g).
Proof. unfold seg_step; simpl; auto. Qed.
Lemma seg_step_SegSetSummary s t r : seg_step s t -> seg_step s (SegSetSummary t r).
Proof. unfold seg_step; simpl; auto. Qed.
Lemma seg_step_SegSetAmcFlags s t f o a d : seg_step s t -> seg_step s (SegSetAmcFlags t f o a d).
Proof. unfold seg_step; simpl; auto. Qed.

Lemma TraceSetIsMember_Add0 w : TraceSetIsMember (TraceSetAdd w 0) 0 = true.
Proof.
  unfold TraceSetIsMember, TraceSetAdd, TraceSetSingle.
  rewrite Z.lor_spec. simpl. apply orb_true_r.
Qed.

Lemma seg_step_SegSetWhite_add s t : seg_step s t -> seg_step s (SegSetWhite t (TraceSetAdd (seg_white t) 0)).
Proof.
  unfold seg_step; simpl. intros (? & ? & ? & _). repeat split; auto.
  intros _. apply TraceSetIsMember_Add0.
Qed.

Ltac seg_step_solve :=
  repeat first [ apply seg_step_refl
               | apply seg_step_SegSetObjs | apply seg_step_SegSetBoard
               | apply seg_step_SegSetNailed | apply seg_step_SegSetGrey
               | apply seg_step_SegSetSummary | apply seg_step_SegSetAmcFlags
               | apply seg_step_SegSetWhite_add ].

Ltac cle_solve :=
  repeat first [ apply cle_refl
               | apply cle_set_trace_r | apply cle_log_event_r | apply cle_set_amc_r
               | apply cle_GenDescCondemned_r | apply cle_GenDescSurvived_r
               | apply cle_set_gens_r
               | apply cle_set_seg_r; [ | solve [seg_step_solve] ]
               | apply cle_set_buf_r; [ | solve [left; reflexivity | right; split; reflexivity] ] ].

Ltac destruct_matches :=
  repeat match goal with
         | |- context [match ?x with _ => _ end] => destruct x
         end.

Lemma cle_FormatPad_r a b i x n : cond_le a b -> cond_le a (FormatPad b i x n).
Proof. intros H. unfold FormatPad. cle_solve. exact H. Qed.

Lemma cle_amcSegBufferEmpty_r a b i x : cond_le a b -> cond_le a (amcSegBufferEmpty b i x).
Proof.
  intros H. unfold amcSegBufferEmpty. cbv zeta. destruct_matches;
    repeat first [ apply cle_FormatPad_r | progress cle_solve ]; exact H.
Qed.

Lemma cle_BufferDetach_r a b bi : cond_le a b -> cond_le a (BufferDetach b bi).
Proof.
  intros H. unfold BufferDetach. cbv zeta. destruct_matches; try exact H;
    cle_solve; try apply cle_amcSegBufferEmpty_r; exact H.
Qed.

Lemma cle_SegNailboardSetRange_r a b i lo hi : cond_le a b -> cond_le a (SegNailboardSetRange b i lo hi).
Proof. intros H. unfold SegNailboardSetRange. destruct_matches; cle_solve; exact H. Qed.

Lemma cle_set_buf_base_r a b bi x : cond_le a b -> cond_le a (ar_set_buf_base b bi x).
Proof. intros H. unfold ar_set_buf_base. cle_solve. exact H. Qed.

Lemma seg_white_set_seg ar i s :
  (i < length (ar_segs ar))%nat -> ar_seg (ar_set_seg ar i s) i = s.
Proof. intros H. apply nth_list_set_eq. exact H. Qed.

Lemma amcSegWhitenCondemn_cond ar i c :
  fst (amcSegWhitenCondemn ar i c) = ResOK /\ cond_le ar (snd (amcSegWhitenCondemn ar i c)) /\
  ((i < length (ar_segs ar))%nat ->
   TraceSetIsMember (seg_white (ar_seg (snd (amcSegWhitenCondemn ar i c)) i)) 0 = true).
Proof.
  unfold amcSegWhitenCondemn. cbv zeta.
  destruct (negb (seg_old (ar_seg ar i))); cbv beta iota;
  set (ar1 := ar_set_seg ar i _);
  (assert (H1 : cond_le ar ar1)
     by (subst ar1; apply cle_set_seg_r; [apply cle_refl|]; seg_step_solve));
  (assert (Hw : (i < length (ar_segs ar))%nat ->
                TraceSetIsMember (seg_white (ar_seg ar1 i)) 0 = true)
     by (intros Hl; subst ar1; rewrite seg_white_set_seg by exact Hl;
         apply TraceSetIsMember_Add0));
  (assert (Hfin : forall ar2, cond_le ar1 ar2 ->
            cond_le ar ar2 /\ ((i < length (ar_segs ar))%nat ->
                               TraceSetIsMember (seg_white (ar_seg ar2 i)) 0 = true))
     by (intros ar2 H2; split; [eapply cle_trans; eauto|];
         intros Hl; destruct H2 as (_ & _ & S2 & _); apply (S2 i); auto));
  clearbody ar1;
  destruct_matches; cbn [fst snd]; (split; [reflexivity|]); apply Hfin; cle_solve;
    repeat (apply cle_BufferDetach_r || cle_solve).
Qed.

Lemma cle_amcSegCreateNailboard ar i r ar' :
  amcSegCreateNailboard ar i = (r, ar') -> cond_le ar ar'.
Proof.
  unfold amcSegCreateNailboard. destruct (ar_boardOK ar); intros H; injection H as <- <-.
  - cle_solve.
  - apply cle_refl.
Qed.

Lemma amcSegWhitenCondemn_after ar ar' i c :
  cond_le ar ar' ->
  fst (amcSegWhitenCondemn ar' i c) = ResOK /\ cond_le ar (snd (amcSegWhitenCondemn ar' i c)) /\
  ((i < length (ar_segs ar))%nat ->
   TraceSetIsMember (seg_white (ar_seg (snd (amcSegWhitenCondemn ar' i c)) i)) 0 = true).
Proof.
  intros H. destruct (amcSegWhitenCondemn_cond ar' i c) as (Hr & Hc & Hw).
  split; [exact Hr|]. split; [eapply cle_trans; eauto|].
  intros Hl. apply Hw. destruct H as (L & _). congruence.
Qed.

Lemma amcSegWhiten_cond ar i :
  fst (amcSegWhiten ar i) = ResOK /\ cond_le ar (snd (amcSegWhiten ar i)) /\
  ((i < length (ar_segs ar))%nat ->
   TraceSetIsMember (seg_white (ar_seg (snd (amcSegWhiten ar i)) i)) 0 = true
   \/ exists bi b, SegBuffer ar (ar_seg ar i) = Some (bi, b) /\ buf_mutator b = true).
Proof.
  assert (Hw : forall ar', cond_le ar ar' ->
            fst (amcSegWhitenCondemn ar' i 0) = ResOK
            /\ cond_le ar (snd (amcSegWhitenCondemn ar' i 0))
            /\ ((i < length (ar_segs ar))%nat ->
                TraceSetIsMember (seg_white (ar_seg (snd (amcSegWhitenCondemn ar' i 0)) i)) 0 = true
                \/ exists bi b, SegBuffer ar (ar_seg ar i) = Some (bi, b) /\ buf_mutator b = true)).
  { intros ar' H. destruct (amcSegWhitenCondemn_after ar ar' i 0 H) as (? & ? & ?).
    split; [auto|]. split; [auto|]. intros; left; auto. }
  unfold amcSegWhiten. cbv zeta.
  destruct (SegBuffer ar (ar_seg ar i)) as [[bi b]|] eqn:Eb.
  2: apply Hw, cle_refl.
  destruct (buf_mutator b) eqn:Em; cbn [negb].
  2: apply Hw, cle_BufferDetach_r, cle_refl.
  assert (Hm : forall ar', cond_le ar ar' -> forall c,
            fst (amcSegWhitenCondemn ar' i c) = ResOK
            /\ cond_le ar (snd (amcSegWhitenCondemn ar' i c))
            /\ ((i < length (ar_segs ar))%nat ->
                TraceSetIsMember (seg_white (ar_seg (snd (amcSegWhitenCondemn ar' i c)) i)) 0 = true
                \/ exists bi0 b0, Some (bi, b) = Some (bi0, b0) /\ buf_mutator b0 = true)).
  { intros ar' H c. destruct (amcSegWhitenCondemn_after ar ar' i c H) as (? & ? & ?).
    split; [auto|]. split; [auto|]. intros _; right; eauto. }
  assert (Hs : forall ar', cond_le ar ar' ->
            fst (ResOK, ar') = ResOK /\ cond_le ar (snd (ResOK, ar'))
            /\ ((i < length (ar_segs ar))%nat ->
                TraceSetIsMember (seg_white (ar_seg (snd (ResOK, ar')) i)) 0 = true
                \/ exists bi0 b0, Some (bi, b) = Some (bi0, b0) /\ buf_mutator b0 = true)).
  { intros ar' H. split; [reflexivity|]. split; [exact H|]. intros _; right; eauto. }
  destruct (BufferScanLimit b =? seg_base (ar_seg ar i)).
  { apply Hs, cle_refl. }
  destruct (negb (amcSegHasNailboard (ar_seg ar i))).
  2: { apply Hm. cle_solve. }
  destruct (seg_nailed (ar_seg ar i) =? TraceSetEMPTY).
  2: { apply Hs, cle_refl. }
  destruct (amcSegCreateNailboard ar i) as [r ar1] eqn:Ec.
  apply cle_amcSegCreateNailboard in Ec.
  destruct r; try (apply Hs; exact Ec).
  apply Hm. apply cle_set_buf_base_r. cle_solve.
  destruct (negb _); [apply cle_SegNailboardSetRange_r|]; exact Ec.
Qed.

Lemma TraceAddWhite_cond ar i :
  fst (TraceAddWhite ar i) = ResOK /\ cond_le ar (snd (TraceAddWhite ar i)) /\
  ((i < length (ar_segs ar))%nat ->
   TraceSetIsMember (seg_white (ar_seg (snd (TraceAddWhite ar i)) i)) 0 = true
   \/ exists bi b, SegBuffer ar (ar_seg ar i) = Some (bi, b) /\ buf_mutator b = true).
Proof.
  destruct (amcSegWhiten_cond ar i) as (Hr & Hc & Hw).
  unfold TraceAddWhite.
  destruct (amcSegWhiten ar i) as [r ar1]; simpl in Hr, Hc, Hw; subst r.
  cbv zeta. destruct (TraceSetIsMember _ 0); cbn [fst snd].
  - split; [reflexivity|]. split; [apply cle_set_trace_r; exact Hc|]. exact Hw.
  - split; [reflexivity|]. split; [exact Hc|]. exact Hw.
Qed.

Lemma find_buf_from_In i bs base bi b :
  find_buf_from i bs base = Some (bi, b) -> In b bs /\ buf_seg b = Some base.
Proof.
  revert i; induction bs as [|b' bs IH]; intros i H; simpl in H; [discriminate|].
  destruct (buf_seg b') as [x|] eqn:Ex.
  - destruct (x =? base) eqn:E.
    + injection H as <- <-. apply Z.eqb_eq in E. subst. simpl; auto.
    + apply IH in H as [? ?]. simpl; auto.
  - apply IH in H as [? ?]. simpl; auto.
Qed.

Lemma SegBuffer_HasMutatorBuffer ar s bi b :
  SegBuffer ar s = Some (bi, b) -> buf_mutator b = true ->
  HasMutatorBuffer ar (seg_base s) = true.
Proof.
  intros H Hm. apply find_buf_from_In in H as [Hin Hs].
  unfold HasMutatorBuffer. apply existsb_exists. exists b. split; [exact Hin|].
  rewrite Hm, Hs, Z.eqb_refl. reflexivity.
Qed.

Lemma Forall2_In_r {A} (R : A -> A -> Prop) l1 l2 y :
  Forall2 R l1 l2 -> In y l2 -> exists x, In x l1 /\ R x y.
Proof.
  intros H; induction H as [|x y' l1 l2 Hxy _ IH]; simpl; [tauto|].
  intros [<-|Hin]; [exists x; auto|]. destruct (IH Hin) as (x' & ? & ?). exists x'; auto.
Qed.

Lemma cle_HasMutatorBuffer ar0 ar x :
  cond_le ar0 ar -> HasMutatorBuffer ar x = true -> HasMutatorBuffer ar0 x = true.
Proof.
  intros (_ & _ & _ & Hb) H. unfold HasMutatorBuffer in *.
  apply existsb_exists in H as (b' & Hin & Hp).
  destruct (Forall2_In_r _ _ _ _ Hb Hin) as (b & Hin0 & [Hn|[Hs Hm]]).
  - rewrite Hn in Hp. rewrite andb_false_r in Hp. discriminate.
  - apply existsb_exists. exists b. split; [exact Hin0|]. rewrite <- Hs, <- Hm. exact Hp.
Qed.

Lemma RefSetOfRange_bounds zs base limit :
  0 < RefSetOfRange zs base limit < WORD_MOD.
Proof.
  unfold RefSetOfRange, RefSetUNIV, WORD_MOD, MPS_WORD_WIDTH. cbv zeta.
  destruct (64 <=? _); [lia|].
  set (zb := Z.shiftr base zs mod 64).
  set (zl := (Z.shiftr (limit - 1) zs + 1) mod 64).
  assert (Hb : 0 <= zb < 64) by (apply Z.mod_pos_bound; lia).
  assert (Hl : 0 <= zl < 64) by (apply Z.mod_pos_bound; lia).
  rewrite !Z.shiftl_1_l.
  destruct (zb <? zl) eqn:E.
  - apply Z.ltb_lt in E.
    assert (2 ^ zb < 2 ^ zl) by (apply Z.pow_lt_mono_r; lia).
    assert (2 ^ zl <= 2 ^ 64) by (apply Z.pow_le_mono_r; lia).
    assert (0 < 2 ^ zb) by (apply Z.pow_pos_nonneg; lia).
    lia.
  - apply Z.ltb_ge in E.
    assert (2 ^ zl <= 2 ^ zb) by (apply Z.pow_le_mono_r; lia).
    assert (2 ^ zb <= 2 ^ 63) by (apply Z.pow_le_mono_r; lia).
    assert (0 < 2 ^ zl) by (apply Z.pow_pos_nonneg; lia).
    rewrite Z.lnot_eq_pred_opp.
    set (x := 2 ^ zb - 2 ^ zl).
    assert (Hx : 0 <= x < 2 ^ 63) by (subst x; lia).
    rewrite <- (Z.mod_unique (- x - 1) (2 ^ 64) (-1) (2 ^ 64 - x - 1)).
    + assert (2 ^ 64 = 2 * 2 ^ 63) by reflexivity. lia.
    + left. assert (2 ^ 64 = 2 * 2 ^ 63) by reflexivity. lia.
    + lia.
Qed.

Lemma RefSetSuper_UNIV x : 0 <= x < WORD_MOD -> RefSetSuper RefSetUNIV x = true.
Proof.
  intros Hx. unfold RefSetSuper, RefSetUNIV, WORD_MOD in *.
  replace (2 ^ MPS_WORD_WIDTH - 1) with (Z.ones 64)
    by (rewrite Z.ones_equiv; reflexivity).
  rewrite <- Z.ldiff_land, Z.ldiff_ones_r by lia.
  rewrite Z.shiftr_div_pow2, Z.div_small by (unfold MPS_WORD_WIDTH in Hx; lia).
  reflexivity.
Qed.

Lemma RefSetSuper_EMPTY x : 0 < x -> RefSetSuper RefSetEMPTY x = false.
Proof.
  intros Hx. unfold RefSetSuper, RefSetEMPTY. rewrite Z.land_m1_r.
  apply Z.eqb_neq. lia.
Qed.

Lemma TraceCondemnLoop_univ ar0 n : forall i ar res ar',
  cond_le ar0 ar -> (i + n = length (ar_segs ar0))%nat ->
  TraceCondemnLoop n i ar RefSetUNIV = (res, ar') ->
  res = ResOK /\ cond_le ar ar' /\
  forall j, (i <= j < i + n)%nat -> seg_gc (ar_seg ar0 j) = true ->
    TraceSetIsMember (seg_white (ar_seg ar' j)) 0 = true
    \/ HasMutatorBuffer ar0 (seg_base (ar_seg ar0 j)) = true.
Proof.
  induction n as [|n IH]; intros i ar res ar' H0 Hn H; simpl in H.
  - injection H as <- <-. split; [reflexivity|]. split; [apply cle_refl|]. intros; lia.
  - rewrite RefSetSuper_UNIV in H
      by (pose proof (RefSetOfRange_bounds (ar_zoneShift ar) (seg_base (ar_seg ar i))
                                           (seg_limit (ar_seg ar i)));
          unfold RefSetOfSeg; lia).
    rewrite andb_true_r in H.
    pose proof H0 as (HL & _ & HS & _).
    destruct (seg_gc (ar_seg ar i)) eqn:Eg.
    + destruct (TraceAddWhite_cond ar i) as (Hr & Hc & Hw).
      destruct (TraceAddWhite ar i) as [r ar1]; cbn [fst snd] in Hr, Hc, Hw; subst r.
      destruct (IH (S i) ar1 res ar' (cle_trans _ _ _ H0 Hc) ltac:(lia) H)
        as (Hres & Hc' & Hj).
      split; [exact Hres|]. split; [eapply cle_trans; eauto|].
      intros j Hji Hg. destruct (Nat.eq_dec j i) as [->|Hne].
      * destruct (Hw ltac:(lia)) as [Hwh|(bi & b & Hb & Hm)].
        -- left. destruct Hc' as (_ & _ & S' & _). apply (S' i). exact Hwh.
        -- right. apply (cle_HasMutatorBuffer ar0 ar); [exact H0|].
           destruct (HS i) as (Hbase & _). rewrite <- Hbase.
           eapply SegBuffer_HasMutatorBuffer; eauto.
      * apply Hj; [lia | exact Hg].
    + destruct (IH (S i) ar res ar' H0 ltac:(lia) H) as (Hres & Hc' & Hj).
      split; [exact Hres|]. split; [exact Hc'|].
      intros j Hji Hg. destruct (Nat.eq_dec j i) as [->|Hne].
      * destruct (HS i) as (_ & _ & Hgc & _). congruence.
      * apply Hj; [lia | exact Hg].
Qed.

(** C6 (as stated): condemning with the universal set makes every
    collectable segment white.  Refuted: the example's first segment
    carries a mutator buffer whose scan limit is the segment base, and
    [amcSegWhiten] declines to condemn it. *)
Lemma TraceCondemnRefSet_univ_counterexample :
  tr_state (ar_trace ex_arena_mut) = TraceINIT /\
  tr_white (ar_trace ex_arena_mut) = RefSetEMPTY /\
  seg_gc (ar_seg ex_arena_mut 0) = true /\
  fst (TraceCondemnRefSet ex_arena_mut RefSetUNIV) = ResOK /\
  TraceSetIsMember (seg_white (ar_seg (snd (TraceCondemnRefSet ex_arena_mut RefSetUNIV)) 0)) 0
  = false.
Proof. vm_compute. repeat split. Qed.

(** C6 (amended): condemning with the universal set returns OK, and
    afterwards every collectable segment is white for the trace unless
    a mutator buffer was attached to it. *)
Theorem TraceCondemnRefSet_univ (ar : Arena) (res : Res) (ar' : Arena) :
  TraceCondemnRefSet ar RefSetUNIV = (res, ar') ->
  res = ResOK /\
  forall i, (i < length (ar_segs ar))%nat -> seg_gc (ar_seg ar i) = true ->
    TraceSetIsMember (seg_white (ar_seg ar' i)) 0 = true
    \/ HasMutatorBuffer ar (seg_base (ar_seg ar i)) = true.
Proof.
  intros H. unfold TraceCondemnRefSet in H.
  destruct (TraceCondemnLoop_univ ar _ O ar res ar' (cle_refl ar) eq_refl H)
    as (Hr & _ & Hj).
  split; [exact Hr|]. intros i Hi Hg. apply Hj; [lia | exact Hg].
Qed.

Lemma TraceCondemnRefSet_univ_witness :
  TraceCondemnRefSet ex_arena_mut RefSetUNIV
  = (ResOK, snd (TraceCondemnRefSet ex_arena_mut RefSetUNIV)) /\
  forall i, (i < length (ar_segs ex_arena_mut))%nat -> seg_gc (ar_seg ex_arena_mut i) = true ->
    TraceSetIsMember (seg_white (ar_seg (snd (TraceCondemnRefSet ex_arena_mut RefSetUNIV)) i)) 0
    = true
    \/ HasMutatorBuffer ex_arena_mut (seg_base (ar_seg ex_arena_mut i)) = true.
Proof.
  assert (E : TraceCondemnRefSet ex_arena_mut RefSetUNIV
              = (ResOK, snd (TraceCondemnRefSet ex_arena_mut RefSetUNIV)))
    by (vm_compute; reflexivity).
  split; [exact E|].
  apply (TraceCondemnRefSet_univ ex_arena_mut ResOK _ E).
Defined.

(** ** Condemning nothing *)

Lemma TraceCondemnLoop_empty n : forall i ar, TraceCondemnLoop n i ar RefSetEMPTY = (ResOK, ar).
Proof.
  induction n as [|n IH]; intros i ar; simpl; [reflexivity|].
  rewrite RefSetSuper_EMPTY by (apply RefSetOfRange_bounds).
  rewrite andb_false_r. apply IH.
Qed.

Lemma TraceStartGrey_empty segs : TraceStartGrey RefSetEMPTY segs = (segs, 0).
Proof.
  induction segs as [|s segs IH]; simpl; [reflexivity|].
  rewrite IH. unfold RefSetInter, RefSetEMPTY. rewrite Z.land_0_r. simpl.
  rewrite andb_false_r. reflexivity.
Qed.

Lemma RootScanSlots_nowhite fuel : forall ar ri ss k,
  ss_white ss = RefSetEMPTY -> exists ss', RootScanSlots fuel ar ri ss k = (ResOK, ss', ar).
Proof.
  induction fuel as [|fuel IH]; intros ar ri ss k Hw; simpl; [eauto|].
  destruct (nth_error (root_refs (ar_root ar ri)) k) as [ref|]; [|eauto].
  cbv zeta. unfold ss_set_unfixed at 1. simpl ss_white. rewrite Hw.
  unfold RefSetInter, RefSetEMPTY. rewrite Z.land_0_l. simpl.
  apply IH. exact Hw.
Qed.

Lemma same_but_roots_trans a b c : same_but_roots a b -> same_but_roots b c -> same_but_roots a c.
Proof. unfold same_but_roots. intuition congruence. Qed.

Lemma same_but_roots_refl a : same_but_roots a a.
Proof. unfold same_but_roots. auto. Qed.

Lemma TraceScanRoot_nowhite ar ri rank :
  tr_white (ar_trace ar) = RefSetEMPTY ->
  fst (TraceScanRoot ar ri rank) = ResOK /\ same_but_roots ar (snd (TraceScanRoot ar ri rank)).
Proof.
  intros Hw. unfold TraceScanRoot. cbv zeta.
  destruct (RootScanSlots_nowhite (length (root_refs (ar_root ar ri))) ar ri
              (ScanStateInit ar TraceSetSingle0 rank (tr_white (ar_trace ar))) O Hw)
    as (ss' & ->).
  split; [reflexivity|]. unfold same_but_roots. simpl. auto.
Qed.

Lemma TraceScanRootRetry_nowhite ar ri rank :
  tr_white (ar_trace ar) = RefSetEMPTY -> same_but_roots ar (TraceScanRootRetry ar ri rank).
Proof.
  intros Hw. unfold TraceScanRootRetry.
  destruct (TraceScanRoot_nowhite ar ri rank Hw) as (Hr & Hs).
  destruct (TraceScanRoot ar ri rank) as [r ar1]; simpl in Hr, Hs; subst r. exact Hs.
Qed.

Lemma TraceFlipRoots_nowhite n : forall ri rank ar,
  tr_white (ar_trace ar) = RefSetEMPTY -> same_but_roots ar (TraceFlipRoots n ri rank ar).
Proof.
  induction n as [|n IH]; intros ri rank ar Hw; simpl; [apply same_but_roots_refl|].
  set (ar1 := if Rank_eqb _ rank then _ else ar).
  assert (H1 : same_but_roots ar ar1).
  { subst ar1. destruct (Rank_eqb _ rank);
      [apply TraceScanRootRetry_nowhite; exact Hw | apply same_but_roots_refl]. }
  eapply same_but_roots_trans; [exact H1|]. apply IH.
  destruct H1 as (_ & W & _). congruence.
Qed.

Lemma find_grey_from_none i rank segs :
  forallb (fun s => negb (TraceSetIsMember (seg_grey s) 0)) segs = true ->
  find_grey_from i rank segs = None.
Proof.
  revert i; induction segs as [|s segs IH]; intros i H; [reflexivity|].
  cbn [forallb] in H. apply andb_true_iff in H as [H1 H2]. cbn [find_grey_from].
  destruct (TraceSetIsMember (seg_grey s) 0); [discriminate|].
  rewrite andb_false_r. apply IH. exact H2.
Qed.

(** C7 (as stated): condemning with the empty set leaves the white set
    empty, and starting the trace then moves it to RECLAIM.  Refuted:
    for a freshly created trace, [TraceCondemnRefSet] with the empty set
    fails its AVER [condemnedSet != RefSetEMPTY]; and [TraceStart] from
    an empty white set ends by flipping, leaving the trace FLIPPED. *)
Lemma TraceStart_empty_counterexample :
  TraceCheck ex_arena_init = true /\
  tr_state (ar_trace ex_arena_init) = TraceINIT /\
  tr_white (ar_trace ex_arena_init) = RefSetEMPTY /\
  TraceCondemnRefSetChecked ex_arena_init RefSetEMPTY = None /\
  tr_state (ar_trace (TraceStart 65536 ex_arena_init 1 2 1 1)) = TraceFLIPPED.
Proof. vm_compute. repeat split. Qed.

(** C7 (amended): [TraceCondemnRefSet] with the empty set is an
    assertion failure.  When condemning returns OK but leaves the white
    set empty (no collectable segment lies in the condemned set),
    [TraceStart] greys no segment, does no segment scanning and leaves
    the trace FLIPPED; the next [TraceStep] finds no grey segment and
    moves the trace to RECLAIM without scanning. *)
Theorem TraceCondemnRefSet_empty_start (APM : Z) (ar : Arena) (cs : RefSet) (ar' : Arena)
    (mN mD fN fD : Z) :
  TraceCondemnRefSetChecked ar cs = Some (ResOK, ar') ->
  tr_white (ar_trace ar') = RefSetEMPTY ->
  forallb (fun s => negb (TraceSetIsMember (seg_grey s) 0)) (ar_segs ar') = true ->
  TraceCondemnRefSetChecked ar RefSetEMPTY = None /\
  tr_state (ar_trace (TraceStart APM ar' mN mD fN fD)) = TraceFLIPPED /\
  ar_segs (TraceStart APM ar' mN mD fN fD) = ar_segs ar' /\
  tr_white (ar_trace (TraceStart APM ar' mN mD fN fD)) = RefSetEMPTY /\
  tr_segScanSize (ar_trace (TraceStart APM ar' mN mD fN fD)) = tr_segScanSize (ar_trace ar') /\
  TraceStep (TraceStart APM ar' mN mD fN fD)
  = Some (ResOK, ar_set_trace (TraceStart APM ar' mN mD fN fD)
                   (tr_set_state (ar_trace (TraceStart APM ar' mN mD fN fD)) TraceRECLAIM)).
Proof.
  intros _ Hw Hg.
  split; [unfold TraceCondemnRefSetChecked; destruct (TraceCheck ar); reflexivity|].
  clear ar. rename ar' into ar.
  unfold TraceStart. cbv zeta. rewrite Hw, TraceStartGrey_empty.
  set (ar0 := ar_set_trace (ar_set_roots (ar_set_segs ar (ar_segs ar)) _) _).
  assert (H0 : ar_segs ar0 = ar_segs ar /\ tr_white (ar_trace ar0) = RefSetEMPTY
               /\ tr_segScanSize (ar_trace ar0) = tr_segScanSize (ar_trace ar)).
  { subst ar0. simpl. auto. }
  clearbody ar0. destruct H0 as (S0 & W0 & C0).
  unfold TraceFlip. cbv zeta.
  set (ar1 := TraceFlipRoots _ O RankAMBIG ar0).
  assert (H1 : same_but_roots ar0 ar1) by (apply TraceFlipRoots_nowhite; exact W0).
  set (ar2 := TraceFlipRoots _ O RankEXACT ar1).
  assert (H2 : same_but_roots ar1 ar2).
  { apply TraceFlipRoots_nowhite. destruct H1 as (_ & W1 & _). congruence. }
  pose proof (same_but_roots_trans _ _ _ H1 H2) as (S2 & W2 & C2 & _).
  clearbody ar1 ar2.
  split; [reflexivity|]. simpl. split; [congruence|]. split; [congruence|].
  split; [congruence|].
  unfold TraceStep. simpl. unfold TraceRun, traceFindGrey. simpl.
  rewrite !find_grey_from_none by congruence. reflexivity.
Qed.

Lemma TraceCondemnRefSet_empty_start_witness :
  TraceCondemnRefSetChecked ex_arena_init 1 = Some (ResOK, ex_arena_init) /\
  TraceCondemnRefSetChecked ex_arena_init RefSetEMPTY = None /\
  tr_state (ar_trace (TraceStart 65536 ex_arena_init 1 2 1 1)) = TraceFLIPPED.
Proof.
  assert (Hc : TraceCondemnRefSetChecked ex_arena_init 1 = Some (ResOK, ex_arena_init))
    by (vm_compute; reflexivity).
  split; [exact Hc|].
  destruct (TraceCondemnRefSet_empty_start 65536 ex_arena_init 1 ex_arena_init 1 2 1 1 Hc
              ltac:(vm_compute; reflexivity) ltac:(vm_compute; reflexivity))
    as (E & F & _).
  split; [exact E | exact F].
Defined.

(** ** Filling a buffer *)

Lemma SizeArenaGrains_mono a b g : 0 < g -> a <= b -> SizeArenaGrains a g <= SizeArenaGrains b g.
Proof.
  intros Hg Hab. unfold SizeArenaGrains.
  apply Z.mul_le_mono_nonneg_r; [lia|]. apply Z.div_le_mono; lia.
Qed.

Lemma SizeArenaGrains_ge a g : 0 < g -> a <= SizeArenaGrains a g.
Proof.
  intros Hg. unfold SizeArenaGrains.
  pose proof (Z.div_mod (a + g - 1) g ltac:(lia)).
  pose proof (Z.mod_pos_bound (a + g - 1) g Hg). nia.
Qed.

Lemma SizeArenaGrains_idem a g : 0 < g -> SizeArenaGrains (SizeArenaGrains a g) g = SizeArenaGrains a g.
Proof.
  intros Hg. unfold SizeArenaGrains at 1.
  set (k := (a + g - 1) / g). unfold SizeArenaGrains; fold k.
  replace (k * g + g - 1) with ((g - 1) + k * g) by lia.
  rewrite Z.div_add by lia. rewrite Z.div_small by lia. lia.
Qed.

(** With [extendBy] the rounded-up value of a request no larger than
    [largeSize] (as [AMCInit] sets it up), a large request's segment is
    its size rounded up to whole grains. *)
Lemma AMCBufferFill_grainsSize size extendBy raw largeSize g :
  0 < g -> 0 < raw <= largeSize -> extendBy = SizeArenaGrains raw g -> largeSize <= size ->
  (if size <? extendBy then extendBy else SizeArenaGrains size g) = SizeArenaGrains size g.
Proof.
  intros Hg Hr He Hs. destruct (size <? extendBy) eqn:E; [|reflexivity].
  apply Z.ltb_lt in E. subst extendBy. apply Z.le_antisymm.
  - apply SizeArenaGrains_mono; lia.
  - rewrite <- (SizeArenaGrains_idem raw g Hg). apply SizeArenaGrains_mono; lia.
Qed.

Lemma nth_app_last {A} (l : list A) x d : nth (length l) (l ++ [x]) d = x.
Proof. apply nth_middle. Qed.

Lemma AMCBufferFill_OK ar bi size base limit ar' :
  AMCBufferFill ar bi size = (ResOK, base, limit, ar') ->
  let grainsSize := if size <? amc_extendBy (ar_amc ar) then amc_extendBy (ar_amc ar)
                    else SizeArenaGrains size (ar_grainSize ar) in
  let s := ar_seg ar' (length (ar_segs ar)) in
  length (ar_segs ar') = S (length (ar_segs ar)) /\ seg_base s = base /\
  SegSize s = grainsSize /\
  (amc_largeSize (ar_amc ar) <= size ->
     limit = base + size /\
     (size < grainsSize ->
      obj_find (limit + amc_headerSize (ar_amc ar)) (seg_objs s) = Some (PadObj (grainsSize - size)))) /\
  (size < amc_largeSize (ar_amc ar) -> limit = seg_limit s).
Proof.
  unfold AMCBufferFill. cbv zeta.
  set (g := if size <? amc_extendBy (ar_amc ar) then amc_extendBy (ar_amc ar)
            else SizeArenaGrains size (ar_grainSize ar)).
  unfold PoolGenAlloc.
  destruct (ar_commitLimit ar <? ArenaCommitted ar + g); [intros H; discriminate H|].
  set (n := length (ar_segs ar)).
  set (ar1 := ar_set_segs ar _).
  assert (L1 : length (ar_segs ar1) = S n)
    by (subst ar1 n; simpl; rewrite length_app; simpl; lia).
  assert (N1 : nth n (ar_segs ar1) (NewSeg 0 0 O)
               = NewSeg (ArenaFreshBase ar) g (buf_gen (ar_buf ar bi)))
    by (subst ar1 n; apply nth_app_last).
  assert (A1 : ar_amc ar1 = ar_amc ar) by (subst ar1; reflexivity).
  clearbody ar1. rewrite N1.
  set (s2 := if (_ : bool) then SegSetAmcFlags _ _ _ _ _ else (_ : Seg)).
  assert (B2 : seg_base s2 = ArenaFreshBase ar /\ seg_limit s2 = ArenaFreshBase ar + g
               /\ seg_objs s2 = []).
  { subst s2. destruct_matches; simpl; auto. }
  clearbody s2.
  set (ar2 := ar_set_seg ar1 n s2).
  assert (L2 : length (ar_segs ar2) = S n) by (subst ar2; simpl; rewrite length_list_set; exact L1).
  assert (N2 : nth n (ar_segs ar2) (NewSeg 0 0 O) = s2)
    by (subst ar2; apply nth_list_set_eq; lia).
  assert (A2 : ar_amc ar2 = ar_amc ar) by (subst ar2; simpl; exact A1).
  clearbody ar2.
  destruct B2 as (B2 & Lim2 & O2).
  unfold ar_seg, SegSize.
  destruct (size <? amc_largeSize (ar_amc ar)) eqn:El.
  - intros H. injection H as <- <- <-. simpl. rewrite length_list_set.
    rewrite nth_list_set_eq by lia. simpl. rewrite N2.
    apply Z.ltb_lt in El.
    split; [exact L2|]. split; [reflexivity|]. split; [lia|].
    split; [intros; lia|]. intros _. lia.
  - apply Z.ltb_ge in El.
    set (ar3 := if 0 <? g - size then _ else ar2).
    assert (L3 : length (ar_segs ar3) = S n /\
                 seg_base (nth n (ar_segs ar3) (NewSeg 0 0 O)) = seg_base s2 /\
                 seg_limit (nth n (ar_segs ar3) (NewSeg 0 0 O)) = seg_limit s2 /\
                 (size < g -> obj_find (seg_base s2 + size + amc_headerSize (ar_amc ar))
                      (seg_objs (nth n (ar_segs ar3) (NewSeg 0 0 O))) = Some (PadObj (g - size)))).
    { subst ar3. destruct (0 <? g - size) eqn:Ep.
      - unfold FormatPad. simpl. rewrite length_list_set, L2.
        rewrite nth_list_set_eq by lia. simpl. rewrite N2, O2, A2. simpl.
        rewrite Z.eqb_refl. auto.
      - apply Z.ltb_ge in Ep. rewrite L2, N2. split; [reflexivity|].
        split; [reflexivity|]. split; [reflexivity|]. intros; lia. }
    clearbody ar3. destruct L3 as (L3 & B3 & Lim3 & P3).
    intros H. injection H as <- <- <-. simpl. rewrite length_list_set.
    rewrite nth_list_set_eq by lia. simpl.
    split; [exact L3|]. split; [exact B3|]. split; [lia|].
    split; [|intros; lia].
    intros _. split; [reflexivity|]. exact P3.
Qed.

(** C9: with [extendBy] and [largeSize] as [AMCInit] sets them up
    ([extendBy] the grain-rounded value of a positive size at most
    [largeSize]), a successful [AMCBufferFill] of [size] bytes appends a
    fresh segment whose base is the returned base.  For a large request
    ([size >= largeSize]) the buffer gets exactly [base, base + size),
    the segment is [size] rounded up to whole arena grains, and the
    slack from the buffer limit to the segment limit is a padding
    object; for a smaller request the buffer gets the whole segment. *)
Theorem AMCBufferFill_large_request (ar : Arena) (bi : nat) (size base limit : Addr)
    (ar' : Arena) (raw : Size) :
  0 < ar_grainSize ar -> 0 < raw <= amc_largeSize (ar_amc ar) ->
  amc_extendBy (ar_amc ar) = SizeArenaGrains raw (ar_grainSize ar) ->
  AMCBufferFill ar bi size = (ResOK, base, limit, ar') ->
  length (ar_segs ar') = S (length (ar_segs ar)) /\
  seg_base (ar_seg ar' (length (ar_segs ar))) = base /\
  (amc_largeSize (ar_amc ar) <= size ->
     limit = base + size /\
     SegSize (ar_seg ar' (length (ar_segs ar))) = SizeArenaGrains size (ar_grainSize ar) /\
     (size < SegSize (ar_seg ar' (length (ar_segs ar))) ->
      obj_find (limit + amc_headerSize (ar_amc ar)) (seg_objs (ar_seg ar' (length (ar_segs ar))))
      = Some (PadObj (seg_limit (ar_seg ar' (length (ar_segs ar))) - limit)))) /\
  (size < amc_largeSize (ar_amc ar) -> limit = seg_limit (ar_seg ar' (length (ar_segs ar)))).
Proof.
  intros Hg Hr He H.
  destruct (AMCBufferFill_OK ar bi size base limit ar' H) as (L & B & Sz & Lg & Sm).
  split; [exact L|]. split; [exact B|]. split; [|exact Sm].
  intros Hl. destruct (Lg Hl) as (Hlim & Hpad).
  rewrite (AMCBufferFill_grainsSize size _ raw _ _ Hg Hr He Hl) in Sz, Hpad.
  split; [exact Hlim|]. split; [exact Sz|].
  intros Hs. rewrite Sz in Hs. rewrite (Hpad Hs). f_equal. f_equal.
  unfold SegSize in Sz. lia.
Qed.

(** A request of 10000 bytes, above the example's [largeSize] of 8192,
    gets a segment of 12288 bytes padded from 10000 on. *)
Lemma AMCBufferFill_large_request_witness :
  AMCBufferFill ex_arena_fwd 0 10000 =
  (ResOK, snd (fst (fst (AMCBufferFill ex_arena_fwd 0 10000))),
   snd (fst (AMCBufferFill ex_arena_fwd 0 10000)), snd (AMCBufferFill ex_arena_fwd 0 10000)) /\
  seg_base (ar_seg (snd (AMCBufferFill ex_arena_fwd 0 10000)) 2)
  = snd (fst (fst (AMCBufferFill ex_arena_fwd 0 10000))).
Proof.
  assert (E : AMCBufferFill ex_arena_fwd 0 10000 =
    (ResOK, snd (fst (fst (AMCBufferFill ex_arena_fwd 0 10000))),
     snd (fst (AMCBufferFill ex_arena_fwd 0 10000)), snd (AMCBufferFill ex_arena_fwd 0 10000)))
    by (vm_compute; reflexivity).
  split; [exact E|].
  exact (proj1 (proj2 (AMCBufferFill_large_request ex_arena_fwd 0 10000
    (snd (fst (fst (AMCBufferFill ex_arena_fwd 0 10000))))
    (snd (fst (AMCBufferFill ex_arena_fwd 0 10000)))
    (snd (AMCBufferFill ex_arena_fwd 0 10000)) 4096
    eq_refl ltac:(simpl; lia) eq_refl E))).
Defined.

(** ** Reclaim clears the white set of every segment it visits *)

Lemma list_set_middle {A} (pre post : list A) x y :
  list_set (pre ++ x :: post) (length pre) y = pre ++ y :: post.
Proof. induction pre as [|a pre IH]; simpl; [reflexivity | now rewrite IH]. Qed.

Lemma remove_nth_middle {A} (pre post : list A) x :
  remove_nth (pre ++ x :: post) (length pre) = pre ++ post.
Proof. induction pre as [|a pre IH]; simpl; [reflexivity | now rewrite IH]. Qed.

Lemma ar_segs_set_trace ar t : ar_segs (ar_set_trace ar t) = ar_segs ar.
Proof. reflexivity. Qed.
Lemma ar_segs_set_amc ar a : ar_segs (ar_set_amc ar a) = ar_segs ar.
Proof. reflexivity. Qed.
Lemma ar_segs_set_seg ar i s : ar_segs (ar_set_seg ar i s) = list_set (ar_segs ar) i s.
Proof. reflexivity. Qed.
Lemma ar_segs_GenDescCondemned ar g n : ar_segs (GenDescCondemned ar g n) = ar_segs ar.
Proof. reflexivity. Qed.
Lemma ar_segs_GenDescSurvived ar g f p : ar_segs (GenDescSurvived ar g f p) = ar_segs ar.
Proof. reflexivity. Qed.
Lemma ar_segs_PoolGenFree ar i : ar_segs (PoolGenFree ar i) = remove_nth (ar_segs ar) i.
Proof. reflexivity. Qed.

Create Rewrite HintDb amc_segs.
#[export] Hint Rewrite ar_segs_set_trace ar_segs_set_amc ar_segs_set_seg
  ar_segs_GenDescCondemned ar_segs_GenDescSurvived ar_segs_PoolGenFree : amc_segs.

Lemma SegSetObjs_id s : SegSetObjs s (seg_objs s) = s.
Proof. destruct s; reflexivity. Qed.

Lemma SegSetObjs_twice s os os' : SegSetObjs (SegSetObjs s os) os' = SegSetObjs s os'.
Proof. reflexivity. Qed.

Lemma obj_set_pos a o os :
  0 < o_size o -> Forall (fun ao => 0 < o_size (snd ao)) os ->
  Forall (fun ao => 0 < o_size (snd ao)) (obj_set a o os).
Proof.
  intros Ho. induction os as [|[b o'] os IH]; simpl; intros H.
  - constructor; auto.
  - inversion H; subst. destruct (a =? b); constructor; auto.
Qed.

Lemma obj_find_pos a os o :
  obj_find a os = Some o -> Forall (fun ao => 0 < o_size (snd ao)) os -> 0 < o_size o.
Proof.
  induction os as [|[b o'] os IH]; simpl; intros E H; [discriminate|].
  inversion H; subst. destruct (a =? b); [injection E as <-; assumption | auto].
Qed.

Lemma ObjAt_pos align s a :
  0 < align -> ObjsPositive s -> 0 < o_size (ObjAt align s a).
Proof.
  unfold ObjAt. intros Ha Hs.
  destruct (obj_find a (seg_objs s)) eqn:E; simpl; [|exact Ha].
  exact (obj_find_pos _ _ _ E Hs).
Qed.

Lemma ar_seg_middle ar pre s post :
  ar_segs ar = pre ++ s :: post -> ar_seg ar (length pre) = s.
Proof. unfold ar_seg. intros ->. apply nth_middle. Qed.

Lemma FormatPad_middle ar pre s post a n :
  ar_segs ar = pre ++ s :: post ->
  ar_segs (FormatPad ar (length pre) a n)
  = pre ++ SegSetObjs s (obj_set (a + amc_headerSize (ar_amc ar)) (PadObj n) (seg_objs s)) :: post.
Proof.
  intros E. unfold FormatPad. simpl. rewrite E, nth_middle, list_set_middle. reflexivity.
Qed.

Lemma amcSegReclaimNailedWalk_ok fuel : forall ar pre s post p limit pb pl c sz r,
  ar_segs ar = pre ++ s :: post ->
  ObjsPositive s -> 0 < amc_align (ar_amc ar) ->
  (Z.to_nat (limit - p) < fuel)%nat ->
  exists ar' pb' pl' c' sz' r' os,
    amcSegReclaimNailedWalk fuel ar (length pre) p limit pb pl c sz r
    = Some (ar', pb', pl', c', sz', r') /\
    ar_segs ar' = pre ++ SegSetObjs s os :: post /\
    ObjsPositive (SegSetObjs s os) /\ ar_amc ar' = ar_amc ar.
Proof.
  induction fuel as [|fuel IH]; intros ar pre s post p limit pb pl c sz r Hs Hp Ha Hf;
    [lia|].
  simpl. destruct (p <? limit) eqn:Hpl.
  2:{ exists ar, pb, pl, c, sz, r, (seg_objs s). rewrite SegSetObjs_id.
      repeat split; auto. }
  apply Z.ltb_lt in Hpl.
  assert (Hq : 0 < o_size (ObjAt (amc_align (ar_amc ar)) (ar_seg ar (length pre))
                                  (p + amc_headerSize (ar_amc ar)))).
  { rewrite (ar_seg_middle _ _ _ _ Hs). apply ObjAt_pos; assumption. }
  cbv zeta. unfold FormatSkip.
  set (q := p + amc_headerSize (ar_amc ar) +
            o_size (ObjAt (amc_align (ar_amc ar)) (ar_seg ar (length pre))
                          (p + amc_headerSize (ar_amc ar))) - amc_headerSize (ar_amc ar)).
  assert (Hfq : (Z.to_nat (limit - q) < fuel)%nat) by (unfold q; lia).
  clearbody q.
  destruct (match seg_board (ar_seg ar (length pre)) with Some b => _ | None => _ end).
  - destruct (0 <? pl) eqn:Hpad.
    + apply Z.ltb_lt in Hpad.
      destruct (IH (FormatPad ar (length pre) pb pl) pre
                   (SegSetObjs s (obj_set (pb + amc_headerSize (ar_amc ar)) (PadObj pl) (seg_objs s)))
                   post q limit q 0 (c + 1) (sz + (q - p)) (r + pl))
        as (ar' & pb' & pl' & c' & sz' & r' & os & E & E1 & E2 & E3).
      * apply FormatPad_middle; exact Hs.
      * apply obj_set_pos; [exact Hpad | exact Hp].
      * exact Ha.
      * exact Hfq.
      * exists ar', pb', pl', c', sz', r', os. rewrite <- SegSetObjs_twice with (os := obj_set (pb + amc_headerSize (ar_amc ar)) (PadObj pl) (seg_objs s)).
        repeat split; auto.
    + destruct (IH ar pre s post q limit q 0 (c + 1) (sz + (q - p)) r Hs Hp Ha Hfq)
        as (ar' & pb' & pl' & c' & sz' & r' & os & E & E1 & E2 & E3).
      exists ar', pb', pl', c', sz', r', os. auto.
  - exact (IH ar pre s post q limit pb (pl + (q - p)) c sz r Hs Hp Ha Hfq).
Qed.

Lemma TraceSetIsMember_Del0 w : TraceSetIsMember (TraceSetDel w 0) 0 = false.
Proof.
  unfold TraceSetIsMember, TraceSetDel, TraceSetSingle.
  rewrite Z.land_spec, Z.lnot_spec by lia. simpl. apply andb_false_r.
Qed.

(** After [amcSegReclaimNailed] the segment is either freed or kept with
    the trace removed from its white set. *)
Lemma amcSegReclaimNailed_ok ar pre s post :
  ar_segs ar = pre ++ s :: post ->
  ObjsPositive s -> 0 < amc_align (ar_amc ar) ->
  exists ar', amcSegReclaimNailed ar (length pre) = Some ar' /\
    (ar_segs ar' = pre ++ post \/
     exists s', ar_segs ar' = pre ++ s' :: post /\ seg_base s' = seg_base s /\
                TraceSetIsMember (seg_white s') 0 = false /\ ObjsPositive s').
Proof.
  intros Hs Hp Ha. unfold amcSegReclaimNailed. cbv zeta.
  rewrite (ar_seg_middle _ _ _ _ Hs).
  destruct (amcSegReclaimNailedWalk_ok (S (Z.to_nat (SegBufferScanLimit ar s - seg_base s)))
              ar pre s post (seg_base s) (SegBufferScanLimit ar s) (seg_base s) 0 0 0 0 Hs Hp Ha
              ltac:(lia))
    as (ar1 & pb & pl & c & sz & r & os & E & E1 & E2 & E3).
  rewrite E.
  assert (H3 : exists ar3 s3, ar_segs ar3 = pre ++ s3 :: post /\ seg_base s3 = seg_base s /\
             ObjsPositive s3 /\
             ar3 = fst (if 0 <? pl then (FormatPad ar1 (length pre) pb pl, r + pl) else (ar1, r))).
  { destruct (0 <? pl) eqn:Hpad.
    - apply Z.ltb_lt in Hpad.
      eexists _, _. split; [apply FormatPad_middle; exact E1|].
      split; [reflexivity|]. split; [apply obj_set_pos; [exact Hpad | exact E2]|reflexivity].
    - exists ar1, (SegSetObjs s os). auto. }
  destruct H3 as (ar3 & s3 & F1 & F2 & F3 & F4).
  replace (let '(ar, reclaimed) := if 0 <? pl then (FormatPad ar1 (length pre) pb pl, r + pl)
                                   else (ar1, r) in _)
    with (let '(ar, reclaimed) := (ar3, snd (if 0 <? pl then (FormatPad ar1 (length pre) pb pl, r + pl)
                                            else (ar1, r))) in
          let s := ar_seg ar (length pre) in
          let s := SegSetNailed s (TraceSetDel (seg_nailed s) 0) in
          let s := SegSetWhite s (TraceSetDel (seg_white s) 0) in
          let s := if (seg_nailed s =? TraceSetEMPTY) && amcSegHasNailboard s
                   then SegSetBoard s None else s in
          let ar := ar_set_seg ar (length pre) s in
          let ar := ar_set_trace ar (tr_add_reclaim (ar_trace ar) 0 reclaimed) in
          let ar := match SegBuffer ar s with
                    | Some (_, b) => GenDescCondemned ar (seg_gen s) (buf_limit b - buf_base b)
                    | None => ar
                    end in
          let ar := GenDescSurvived ar (seg_gen s) (seg_forwarded s) sz in
          if (c =? 0) && negb (match SegBuffer ar s with Some _ => true | None => false end)
             && (seg_nailed s =? TraceSetEMPTY)
          then Some (PoolGenFree ar (length pre))
          else Some ar)
    by (rewrite F4; destruct (0 <? pl); reflexivity).
  cbv zeta beta iota. rewrite (ar_seg_middle _ _ _ _ F1).
  repeat match goal with
         | |- context [match ?x with _ => _ end] => destruct x
         end;
  eexists; (split; [reflexivity|]); autorewrite with amc_segs;
  rewrite F1, list_set_middle; try rewrite remove_nth_middle;
  first [left; reflexivity
        | right; eexists; split; [reflexivity|]; simpl;
          split; [exact F2|]; split; [apply TraceSetIsMember_Del0 | exact F3]].
Qed.

Lemma amcSegReclaim_ok ar pre s post :
  ar_segs ar = pre ++ s :: post ->
  ObjsPositive s -> 0 < amc_align (ar_amc ar) ->
  exists ar', amcSegReclaim ar (length pre) = Some ar' /\
    amc_align (ar_amc ar') = amc_align (ar_amc ar) /\
    (ar_segs ar' = pre ++ post \/
     exists s', ar_segs ar' = pre ++ s' :: post /\ seg_base s' = seg_base s /\
                TraceSetIsMember (seg_white s') 0 = false /\ ObjsPositive s').
Proof.
  intros Hs Hp Ha. unfold amcSegReclaim. cbv zeta.
  assert (H1 : exists ar1, ar_segs ar1 = ar_segs ar /\
                 amc_align (ar_amc ar1) = amc_align (ar_amc ar) /\
                 ar1 = if RampMode_eqb (amc_rampMode (ar_amc ar)) RampCOLLECTING then
                         if 0 <? amc_rampCount (ar_amc ar)
                         then ar_set_amc ar (amc_set_ramp (ar_amc ar) (amc_rampCount (ar_amc ar)) RampBEGIN)
                         else ar_set_amc ar (amc_set_ramp (ar_amc ar) (amc_rampCount (ar_amc ar)) RampOUTSIDE)
                       else ar).
  { eexists. split; [|split; [|reflexivity]];
    destruct (RampMode_eqb _ _); try destruct (0 <? _); reflexivity. }
  destruct H1 as (ar1 & E1 & E2 & E3). rewrite <- E3.
  rewrite <- E1 in Hs. rewrite <- E2 in Ha.
  rewrite (ar_seg_middle _ _ _ _ Hs).
  destruct (negb (seg_nailed s =? TraceSetEMPTY)).
  - destruct (amcSegReclaimNailed_ok ar1 pre s post Hs Hp Ha) as (ar' & F1 & F2).
    exists ar'. split; [exact F1|]. split; [|exact F2].
    rewrite (ar_amc_amcSegReclaimNailed _ _ _ F1). exact E2.
  - eexists. split; [reflexivity|]. split; [exact E2|]. left.
    autorewrite with amc_segs. rewrite Hs. apply remove_nth_middle.
Qed.

Lemma seg_next_from_some k l b i s :
  seg_next_from k l b = Some (i, s) ->
  exists pre post, l = pre ++ s :: post /\ i = (k + length pre)%nat /\
    Forall (fun t => seg_base t <= b) pre /\ b < seg_base s.
Proof.
  revert k; induction l as [|t l IH]; intros k; simpl; [discriminate|].
  destruct (b <? seg_base t) eqn:Hb.
  - intros H. injection H as <- <-. exists [], l. apply Z.ltb_lt in Hb.
    simpl. repeat split; auto.
  - intros H. destruct (IH (S k) H) as (pre & post & -> & -> & Hpre & Hs).
    apply Z.ltb_ge in Hb.
    exists (t :: pre), post. simpl. repeat split; auto; lia.
Qed.

Lemma seg_next_from_none k l b :
  seg_next_from k l b = None -> Forall (fun t => seg_base t <= b) l.
Proof.
  revert k; induction l as [|t l IH]; intros k; simpl; [constructor|].
  destruct (b <? seg_base t) eqn:Hb; [discriminate|].
  intros H. apply Z.ltb_ge in Hb. constructor; [exact Hb | exact (IH _ H)].
Qed.

Lemma StronglySorted_app_r {A} (R : A -> A -> Prop) l1 l2 :
  StronglySorted R (l1 ++ l2) -> StronglySorted R l2.
Proof.
  induction l1 as [|a l1 IH]; simpl; [auto|].
  intros H. apply StronglySorted_inv in H. apply IH, H.
Qed.

Lemma SegsSorted_post pre s post :
  SegsSorted (pre ++ s :: post) -> Forall (fun t => seg_base s < seg_base t) post.
Proof.
  intros H. apply StronglySorted_app_r in H. apply StronglySorted_inv in H. apply H.
Qed.

Lemma SegsSorted_replace pre s s' post :
  seg_base s' = seg_base s -> SegsSorted (pre ++ s :: post) -> SegsSorted (pre ++ s' :: post).
Proof.
  unfold SegsSorted. intros Hb.
  induction pre as [|a pre IH]; simpl; intros H; apply StronglySorted_inv in H;
    destruct H as [H1 H2]; constructor; auto.
  - rewrite Hb. exact H2.
  - apply Forall_app in H2. destruct H2 as [H2 H3]. inversion H3; subst.
    apply Forall_app. split; [exact H2|]. constructor; [lia | assumption].
Qed.

Lemma SegsSorted_remove pre s post :
  SegsSorted (pre ++ s :: post) -> SegsSorted (pre ++ post).
Proof.
  unfold SegsSorted.
  induction pre as [|a pre IH]; simpl; intros H; apply StronglySorted_inv in H;
    destruct H as [H1 H2]; [exact H1|]. constructor; auto.
  apply Forall_app in H2. destruct H2 as [H2 H3]. inversion H3; subst.
  apply Forall_app. auto.
Qed.

Lemma filter_seg_le c l :
  Forall (fun t => seg_base t <= c) l -> filter (fun t => c <? seg_base t) l = [].
Proof.
  induction l as [|t l IH]; simpl; intros H; [reflexivity|]. inversion H; subst.
  destruct (c <? seg_base t) eqn:E; [apply Z.ltb_lt in E; lia | auto].
Qed.

Lemma filter_seg_gt c l :
  Forall (fun t => c < seg_base t) l -> filter (fun t => c <? seg_base t) l = l.
Proof.
  induction l as [|t l IH]; simpl; intros H; [reflexivity|]. inversion H; subst.
  destruct (c <? seg_base t) eqn:E; [f_equal; auto | apply Z.ltb_ge in E; lia].
Qed.

Lemma filter_length_le' {A} (f : A -> bool) l : (length (filter f l) <= length l)%nat.
Proof. induction l as [|a l IH]; simpl; [lia|]. destruct (f a); simpl; lia. Qed.

Lemma Forall_le_mono c c' l :
  c <= c' -> Forall (fun t => seg_base t <= c) l -> Forall (fun t => seg_base t <= c') l.
Proof. intros Hc. apply Forall_impl. intros t; lia. Qed.

Lemma count_after c l1 l2 :
  Forall (fun t => seg_base t <= c) l1 -> Forall (fun t => c < seg_base t) l2 ->
  length (filter (fun t => c <? seg_base t) (l1 ++ l2)) = length l2.
Proof.
  intros H1 H2. rewrite filter_app, filter_seg_le, filter_seg_gt by assumption. reflexivity.
Qed.

(** The reclaim loop, from the segment after address [b] on. *)
Lemma TraceReclaimLoop_ok (fuel : nat) : forall ar b,
  SegsSorted (ar_segs ar) -> 0 < amc_align (ar_amc ar) -> Forall ObjsPositive (ar_segs ar) ->
  Forall (fun t => seg_base t <= b -> TraceSetIsMember (seg_white t) 0 = false) (ar_segs ar) ->
  (length (filter (fun t => (b <? seg_base t)%Z) (ar_segs ar)) < fuel)%nat ->
  exists ar', TraceReclaimLoop fuel ar (SegNext ar b) = Some ar' /\
    Forall (fun t => TraceSetIsMember (seg_white t) 0 = false) (ar_segs ar').
Proof.
  induction fuel as [|fuel IH]; intros ar b Hsort Ha Hpos Hw Hf; [lia|].
  unfold SegNext at 1. destruct (seg_next_from O (ar_segs ar) b) as [[i s]|] eqn:En.
  2:{ exists ar. split; [reflexivity|].
      apply seg_next_from_none in En. rewrite Forall_forall in *.
      intros t Ht. apply Hw; auto. }
  destruct (seg_next_from_some _ _ _ _ _ En) as (pre & post & Hs & -> & Hpre & Hbs).
  simpl (O + length pre)%nat.
  pose proof (SegsSorted_post pre s post ltac:(rewrite <- Hs; exact Hsort)) as Hpost.
  assert (Hcount : length (filter (fun t => b <? seg_base t) (ar_segs ar)) = S (length post)).
  { rewrite Hs, filter_app, filter_seg_le by exact Hpre. simpl.
    destruct (b <? seg_base s) eqn:E; [|apply Z.ltb_ge in E; lia]. simpl.
    rewrite filter_seg_gt; [reflexivity|].
    eapply Forall_impl; [|exact Hpost]. intros t; simpl; lia. }
  rewrite Hcount in Hf. rewrite Hs in Hsort.
  rewrite Hs, Forall_app in Hw, Hpos. destruct Hw as [Hwpre Hwpost]. destruct Hpos as [Hppre Hppost].
  inversion Hppost as [|? ? Hps Hppost']; subst.
  assert (Hpre' : Forall (fun t => seg_base t <= seg_base s) pre)
    by (eapply Forall_le_mono; [|exact Hpre]; lia).
  assert (Hcl : Forall (fun t => seg_base t <= seg_base s -> TraceSetIsMember (seg_white t) 0 = false) pre).
  { rewrite Forall_forall in *. intros t Ht _. apply Hwpre; auto. }
  assert (Hpost' : Forall (fun t => seg_base t <= seg_base s -> TraceSetIsMember (seg_white t) 0 = false) post).
  { eapply Forall_impl; [|exact Hpost]. cbv beta. intros t Ht Hle. lia. }
  cbn [TraceReclaimLoop]. cbv zeta.
  destruct (TraceSetIsMember (seg_white s) 0) eqn:Hw0.
  - set (ar1 := ar_set_trace ar (tr_add_reclaim (ar_trace ar) 1 0)).
    assert (Hs1 : ar_segs ar1 = pre ++ s :: post) by exact Hs.
    destruct (amcSegReclaim_ok ar1 pre s post Hs1 Hps Ha) as (ar2 & E2 & A2 & S2).
    rewrite E2. apply IH.
    + destruct S2 as [S2 | (s' & S2 & B2 & W2 & P2)]; rewrite S2;
        [eapply SegsSorted_remove | eapply SegsSorted_replace]; eauto.
    + rewrite A2. exact Ha.
    + destruct S2 as [S2 | (s' & S2 & B2 & W2 & P2)]; rewrite S2, Forall_app; auto.
    + destruct S2 as [S2 | (s' & S2 & B2 & W2 & P2)]; rewrite S2, Forall_app; auto.
    + destruct S2 as [S2 | (s' & S2 & B2 & W2 & P2)]; rewrite S2.
      * rewrite count_after by assumption. lia.
      * replace (pre ++ s' :: post) with ((pre ++ [s']) ++ post) by (rewrite <- app_assoc; reflexivity).
        rewrite count_after; [lia| |assumption].
        apply Forall_app. split; [exact Hpre'|]. constructor; [lia | constructor].
  - apply IH.
    + rewrite Hs. exact Hsort.
    + exact Ha.
    + rewrite Hs, Forall_app. auto.
    + rewrite Hs, Forall_app. split; [exact Hcl|]. constructor; auto.
    + rewrite Hs. replace (pre ++ s :: post) with ((pre ++ [s]) ++ post) by (rewrite <- app_assoc; reflexivity).
      rewrite count_after; [lia| |assumption].
      apply Forall_app. split; [exact Hpre'|]. constructor; [lia | constructor].
Qed.

(** C2: on an arena whose segment ring is in address order, whose pool
    alignment is positive and whose objects all have positive length,
    [TraceReclaim] terminates; stepping a trace in state RECLAIM returns
    OK; afterwards the trace is FINISHED and no segment of the arena has
    the trace in its white set. *)
Theorem TraceReclaim_no_white (ar : Arena) :
  SegsSorted (ar_segs ar) -> 0 < amc_align (ar_amc ar) -> Forall ObjsPositive (ar_segs ar) ->
  exists ar', TraceReclaim ar = Some ar' /\
    (tr_state (ar_trace ar) = TraceRECLAIM -> TraceStep ar = Some (ResOK, ar')) /\
    tr_state (ar_trace ar') = TraceFINISHED /\
    Forall (fun s => TraceSetIsMember (seg_white s) 0 = false) (ar_segs ar').
Proof.
  intros Hsort Ha Hpos.
  assert (L : exists ar1, TraceReclaimLoop (S (length (ar_segs ar))) ar (SegFirst ar) = Some ar1 /\
            Forall (fun s => TraceSetIsMember (seg_white s) 0 = false) (ar_segs ar1)).
  { destruct (ar_segs ar) as [|s0 rest] eqn:Hs.
    - exists ar. unfold SegFirst. rewrite Hs. split; [reflexivity | constructor].
    - assert (F : SegFirst ar = SegNext ar (seg_base s0 - 1)).
      { unfold SegFirst, SegNext. rewrite Hs. simpl.
        replace (seg_base s0 - 1 <? seg_base s0) with true by (symmetry; apply Z.ltb_lt; lia).
        reflexivity. }
      rewrite F. apply TraceReclaimLoop_ok.
      + rewrite Hs. exact Hsort.
      + exact Ha.
      + rewrite Hs. exact Hpos.
      + rewrite Hs. unfold SegsSorted in Hsort. apply StronglySorted_inv in Hsort.
        destruct Hsort as [_ Hr]. constructor; [intros; lia|].
        eapply Forall_impl; [|exact Hr]. cbv beta. intros t Ht Hle. lia.
      + rewrite Hs. pose proof (filter_length_le' (fun t => (seg_base s0 - 1 <? seg_base t)%Z) (s0 :: rest)).
        simpl length in *. lia. }
  destruct L as (ar1 & E1 & W1).
  assert (E : TraceReclaim ar = Some (ar_set_trace ar1 (tr_set_state (ar_trace ar1) TraceFINISHED)))
    by (unfold TraceReclaim; rewrite E1; reflexivity).
  eexists. split; [exact E|]. split.
  - intros Hst. unfold TraceStep. rewrite Hst, E. reflexivity.
  - split; [reflexivity | exact W1].
Qed.

Lemma TraceReclaim_no_white_witness :
  exists ar', TraceReclaim ex_arena_reclaim = Some ar' /\
    (tr_state (ar_trace ex_arena_reclaim) = TraceRECLAIM ->
     TraceStep ex_arena_reclaim = Some (ResOK, ar')) /\
    tr_state (ar_trace ar') = TraceFINISHED /\
    Forall (fun s => TraceSetIsMember (seg_white s) 0 = false) (ar_segs ar').
Proof.
  apply TraceReclaim_no_white.
  - unfold SegsSorted. simpl. repeat constructor; simpl; lia.
  - simpl. lia.
  - simpl. repeat constructor; simpl; lia.
Defined.


(** ** C1: progress of a trace *)

(** *** Lists updated in place *)

Lemma In_list_set {A} (l : list A) i x y : In y (list_set l i x) -> y = x \/ In y l.
Proof.
  revert i; induction l as [|z l IH]; intros [|i]; simpl; intros H; auto.
  - destruct H as [H|H]; auto.
  - destruct H as [H|H]; auto. destruct (IH i H); auto.
Qed.

Lemma Forall_list_set {A} (P : A -> Prop) (l : list A) i x d :
  Forall P l -> (P (nth i l d) -> P x) -> Forall P (list_set l i x).
Proof.
  revert i; induction l as [|y l IH]; intros [|i] H Hx; simpl in *; auto.
  - inversion H; subst. constructor; auto.
  - inversion H; subst. constructor; auto.
Qed.

Lemma nth_list_set_cases {A} (l : list A) i j x d :
  nth j (list_set l i x) d = nth j l d \/ (j = i /\ (i < length l)%nat /\ nth j (list_set l i x) d = x).
Proof.
  destruct (Nat.eq_dec j i) as [->|Hne].
  - destruct (Nat.lt_ge_cases i (length l)) as [Hl|Hl].
    + right. split; [reflexivity|]. split; [exact Hl|]. apply nth_list_set_eq, Hl.
    + left. rewrite list_set_out by exact Hl. reflexivity.
  - left. apply nth_list_set_neq, Hne.
Qed.

Lemma fold_sum_list_set (f : Seg -> nat) (l : list Seg) i x :
  (i < length l)%nat ->
  (fold_right (fun s acc => Nat.add (f s) acc) O (list_set l i x) + f (nth i l dummySeg)
   = fold_right (fun s acc => Nat.add (f s) acc) O l + f x)%nat.
Proof.
  revert i; induction l as [|y l IH]; intros [|i] H; simpl in *; try lia.
  specialize (IH i ltac:(lia)). lia.
Qed.

Lemma fold_sum_app (f : Seg -> nat) l x :
  fold_right (fun s acc => Nat.add (f s) acc) O (l ++ [x])
  = (fold_right (fun s acc => Nat.add (f s) acc) O l + f x)%nat.
Proof. induction l as [|y l IH]; simpl; lia. Qed.

(** *** The measures under segment updates *)

Lemma ar_seg_set_seg_eq ar i s :
  (i < length (ar_segs ar))%nat -> ar_seg (ar_set_seg ar i s) i = s.
Proof. intros H. unfold ar_seg. apply nth_list_set_eq, H. Qed.

Lemma ar_seg_set_seg_neq ar i j s : j <> i -> ar_seg (ar_set_seg ar i s) j = ar_seg ar j.
Proof. intros H. unfold ar_seg. apply nth_list_set_neq, H. Qed.

Lemma ar_set_seg_out ar i s :
  (length (ar_segs ar) <= i)%nat -> ar_segs (ar_set_seg ar i s) = ar_segs ar.
Proof. intros H. apply list_set_out, H. Qed.

Lemma WhiteWork_set_seg ar i s :
  (i < length (ar_segs ar))%nat ->
  (WhiteWork (ar_set_seg ar i s) + seg_work (amc_align (ar_amc ar)) (ar_seg ar i)
   = WhiteWork ar + seg_work (amc_align (ar_amc ar)) s)%nat.
Proof. intros H. unfold WhiteWork, ar_seg. apply (fold_sum_list_set (seg_work _)), H. Qed.

Lemma GreyCount_set_seg ar i s :
  (i < length (ar_segs ar))%nat ->
  (GreyCount (ar_set_seg ar i s)
   + (if TraceSetIsMember (seg_grey (ar_seg ar i)) 0%Z then S O else O)
   = GreyCount ar + (if TraceSetIsMember (seg_grey s) 0%Z then S O else O))%nat.
Proof.
  intros H. unfold GreyCount, ar_seg.
  apply (fold_sum_list_set (fun s => if TraceSetIsMember (seg_grey s) 0 then S O else O)), H.
Qed.

Lemma seg_work_nonwhite align s :
  TraceSetIsMember (seg_white s) 0 = false -> seg_work align s = O.
Proof. unfold seg_work. intros ->. reflexivity. Qed.

(** *** Well-formedness under the arena updates *)

Lemma WF_same ar ar' :
  ArenaWF ar -> ar_segs ar' = ar_segs ar -> ar_bufs ar' = ar_bufs ar ->
  ar_gens ar' = ar_gens ar -> ar_amc ar' = ar_amc ar -> ar_grainSize ar' = ar_grainSize ar ->
  ArenaWF ar'.
Proof.
  intros [] Hs Hb Hg Ha Hgr.
  constructor; unfold ar_buf, ar_gen in *; rewrite ?Hs, ?Hb, ?Hg, ?Ha, ?Hgr; assumption.
Qed.

Lemma SegsSorted_list_set l i s :
  seg_base s = seg_base (nth i l dummySeg) -> SegsSorted l -> SegsSorted (list_set l i s).
Proof.
  unfold SegsSorted. revert i; induction l as [|y l IH]; intros [|i] Hb H; simpl in *; auto.
  - apply StronglySorted_inv in H. destruct H as [H1 H2]. constructor; [exact H1|].
    rewrite Hb. exact H2.
  - apply StronglySorted_inv in H. destruct H as [H1 H2]. constructor; [apply IH; auto|].
    eapply (Forall_list_set _ _ _ _ dummySeg); [exact H2|]. rewrite Hb. auto.
Qed.

Lemma WF_set_seg ar i s :
  ArenaWF ar -> SegWF (amc_align (ar_amc ar)) s -> seg_base s = seg_base (ar_seg ar i) ->
  seg_white s = seg_white (ar_seg ar i) -> seg_gen s = seg_gen (ar_seg ar i) ->
  ArenaWF (ar_set_seg ar i s).
Proof.
  intros [Hso Hal Hh Hgr Hsg Hall Hfs Hfb] Hs Hb Hw Hg. unfold ar_seg in *.
  constructor; cbn [ar_set_seg ar_set_segs ar_upd ar_segs ar_bufs ar_gens ar_amc ar_grainSize];
    try assumption.
  - apply SegsSorted_list_set; assumption.
  - eapply (Forall_list_set _ _ _ _ dummySeg); [exact Hsg|]. intros _. exact Hs.
  - eapply Forall_impl; [|exact Hfs]. cbv beta. intros b Hb' Hm x Hx.
    specialize (Hb' Hm x Hx). eapply (Forall_list_set _ _ _ _ dummySeg); [exact Hb'|].
    rewrite Hb, Hw. auto.
  - unfold ar_buf, ar_gen in *. cbn [ar_set_seg ar_set_segs ar_upd ar_segs ar_bufs ar_gens].
    eapply (Forall_list_set _ _ _ _ dummySeg); [exact Hfb|]. rewrite Hw, Hg. auto.
Qed.

Lemma buf_mutator_list_set l bi b k :
  buf_mutator b = buf_mutator (nth bi l dummyBuf) ->
  buf_mutator (nth k (list_set l bi b) dummyBuf) = buf_mutator (nth k l dummyBuf).
Proof.
  intros H. destruct (nth_list_set_cases l bi k b dummyBuf) as [E | (-> & _ & E)];
    rewrite E; auto.
Qed.

Lemma WF_set_buf ar bi b :
  ArenaWF ar -> buf_mutator b = buf_mutator (ar_buf ar bi) ->
  (buf_seg b <> None -> 0 < buf_alloc b) ->
  (buf_mutator b = false -> forall x, buf_seg b = Some x ->
     Forall (fun s => seg_base s = x -> TraceSetIsMember (seg_white s) 0 = false) (ar_segs ar)) ->
  ArenaWF (ar_set_buf ar bi b).
Proof.
  intros [Hso Hal Hh Hgr Hsg Hall Hfs Hfb] Hm Ha Hf.
  constructor; cbn [ar_set_buf ar_set_bufs ar_upd ar_segs ar_bufs ar_gens ar_amc ar_grainSize];
    try assumption.
  - eapply (Forall_list_set _ _ _ _ dummyBuf); [exact Hall|]. intros _. exact Ha.
  - eapply (Forall_list_set _ _ _ _ dummyBuf); [exact Hfs|]. intros _. exact Hf.
  - unfold ar_buf, ar_gen in *. cbn [ar_set_buf ar_set_bufs ar_upd ar_segs ar_bufs ar_gens].
    eapply Forall_impl; [|exact Hfb]. cbv beta. intros s Hs Hw.
    rewrite buf_mutator_list_set by exact Hm. auto.
Qed.

Lemma StronglySorted_snoc l s :
  SegsSorted l -> Forall (fun t => seg_base t < seg_base s) l -> SegsSorted (l ++ [s]).
Proof.
  unfold SegsSorted. induction l as [|y l IH]; simpl; intros H Hl.
  - constructor; constructor.
  - apply StronglySorted_inv in H. destruct H as [H1 H2]. inversion Hl; subst.
    constructor; [auto|]. apply Forall_app. split; [exact H2|]. constructor; [lia|constructor].
Qed.

Lemma WF_append ar s :
  ArenaWF ar -> SegWF (amc_align (ar_amc ar)) s ->
  Forall (fun t => seg_base t < seg_base s) (ar_segs ar) ->
  TraceSetIsMember (seg_white s) 0 = false ->
  ArenaWF (ar_set_segs ar (ar_segs ar ++ [s])).
Proof.
  intros [Hso Hal Hh Hgr Hsg Hall Hfs Hfb] Hs Hlt Hw.
  constructor; cbn [ar_set_segs ar_upd ar_segs ar_bufs ar_gens ar_amc ar_grainSize];
    try assumption.
  - apply StronglySorted_snoc; assumption.
  - apply Forall_app. split; [exact Hsg|]. constructor; [exact Hs|constructor].
  - eapply Forall_impl; [|exact Hfs]. cbv beta. intros b Hb' Hm x Hx.
    apply Forall_app. split; [exact (Hb' Hm x Hx)|]. constructor; [auto|constructor].
  - unfold ar_buf, ar_gen in *. cbn [ar_set_segs ar_upd ar_segs ar_bufs ar_gens].
    apply Forall_app. split; [exact Hfb|]. constructor; [|constructor].
    rewrite Hw. discriminate.
Qed.

(** *** Quiet operations *)

Lemma seg_rel_refl s : seg_rel s s.
Proof. unfold seg_rel. repeat split; auto. Qed.

Lemma seg_rel_trans a b c : seg_rel a b -> seg_rel b c -> seg_rel a c.
Proof. unfold seg_rel. intuition congruence. Qed.

Ltac seg_rel_solve :=
  unfold seg_rel;
  cbn [seg_base seg_limit seg_white seg_gen seg_grey SegSetObjs SegSetAmcFlags SegSetSummary
       SegSetBoard SegSetNailed SegSetGrey SegSetRankAndSummary seg_upd];
  repeat split; auto.

Lemma ar_seg_overflow ar j : (length (ar_segs ar) <= j)%nat -> ar_seg ar j = dummySeg.
Proof. intros H. unfold ar_seg. apply nth_overflow, H. Qed.

Lemma ar_seg_In ar j : (j < length (ar_segs ar))%nat -> In (ar_seg ar j) (ar_segs ar).
Proof. intros H. unfold ar_seg. apply nth_In, H. Qed.

Lemma white_dummySeg : TraceSetIsMember (seg_white dummySeg) 0 = false.
Proof. reflexivity. Qed.

Lemma ar_seg_white_in ar j :
  TraceSetIsMember (seg_white (ar_seg ar j)) 0 = true -> (j < length (ar_segs ar))%nat.
Proof.
  intros H. destruct (Nat.lt_ge_cases j (length (ar_segs ar))) as [Hl|Hl]; [exact Hl|].
  rewrite ar_seg_overflow in H by exact Hl. discriminate.
Qed.

Lemma quiet_refl ar : quiet ar ar.
Proof.
  constructor; auto.
  - intros; apply seg_rel_refl.
  - intros j Hj. rewrite ar_seg_overflow by exact Hj. reflexivity.
Qed.

Lemma quiet_trans a b c : quiet a b -> quiet b c -> quiet a c.
Proof.
  intros [A1 T1 G1 R1 L1 S1 W1 Y1 N1 K1 E1 B1 M1] [A2 T2 G2 R2 L2 S2 W2 Y2 N2 K2 E2 B2 M2].
  constructor.
  - congruence.
  - congruence.
  - congruence.
  - congruence.
  - lia.
  - intros j Hj. eapply seg_rel_trans; [apply S1, Hj|]. apply S2. lia.
  - congruence.
  - congruence.
  - intros j. rewrite N2. apply N1.
  - intros j Hj. rewrite (K2 j); [apply K1, Hj|]. rewrite K1 by exact Hj. exact Hj.
  - intros j Hj. destruct (Nat.lt_ge_cases j (length (ar_segs b))) as [Hb|Hb].
    + destruct (S2 j Hb) as (_ & _ & Hw & _). rewrite Hw. apply E1, Hj.
    + apply E2, Hb.
  - congruence.
  - intros bj. rewrite M2. apply M1.
Qed.

Lemma quiet_same ar ar' :
  ar_segs ar' = ar_segs ar -> ar_bufs ar' = ar_bufs ar -> ar_gens ar' = ar_gens ar ->
  ar_amc ar' = ar_amc ar -> ar_trace ar' = ar_trace ar -> ar_grainSize ar' = ar_grainSize ar ->
  quiet ar ar'.
Proof.
  intros Hs Hb Hg Ha Ht Hgr.
  constructor; unfold ar_seg, WhiteWork, GreyCount, SegNewNails, ar_seg, ar_buf;
    rewrite ?Hs, ?Hb, ?Ha; auto.
  - intros; apply seg_rel_refl.
  - intros j Hj. rewrite nth_overflow by exact Hj. reflexivity.
Qed.

Lemma quiet_log_event ar e : quiet ar (ar_log_event ar e).
Proof. apply quiet_same; reflexivity. Qed.

Lemma WF_log_event ar e : ArenaWF ar -> ArenaWF (ar_log_event ar e).
Proof. intros H. eapply WF_same; [exact H | reflexivity ..]. Qed.

Lemma quiet_set_seg ar i s :
  seg_rel (ar_seg ar i) s -> TraceSetIsMember (seg_white (ar_seg ar i)) 0 = false ->
  TraceSetIsMember (seg_grey s) 0 = TraceSetIsMember (seg_grey (ar_seg ar i)) 0 ->
  seg_board s = seg_board (ar_seg ar i) ->
  quiet ar (ar_set_seg ar i s).
Proof.
  intros Hr Hw Hg Hb.
  destruct (Nat.lt_ge_cases i (length (ar_segs ar))) as [Hi|Hi].
  2:{ apply quiet_same; try reflexivity. apply ar_set_seg_out, Hi. }
  assert (Hl : length (ar_segs (ar_set_seg ar i s)) = length (ar_segs ar))
    by apply length_list_set.
  assert (Hw' : TraceSetIsMember (seg_white s) 0 = false)
    by (destruct Hr as (_ & _ & -> & _); exact Hw).
  constructor; try reflexivity.
  - lia.
  - intros j Hj. destruct (Nat.eq_dec j i) as [->|Hne].
    + rewrite ar_seg_set_seg_eq by exact Hi. exact Hr.
    + rewrite ar_seg_set_seg_neq by exact Hne. apply seg_rel_refl.
  - pose proof (WhiteWork_set_seg ar i s Hi) as E.
    rewrite !seg_work_nonwhite in E by assumption. lia.
  - pose proof (GreyCount_set_seg ar i s Hi) as E. rewrite Hg in E. lia.
  - intros j. unfold SegNewNails. destruct (Nat.eq_dec j i) as [->|Hne].
    + rewrite ar_seg_set_seg_eq, Hb by exact Hi. reflexivity.
    + rewrite ar_seg_set_seg_neq by exact Hne. reflexivity.
  - intros j Hj. destruct (Nat.eq_dec j i) as [->|Hne]; [congruence|].
    apply ar_seg_set_seg_neq, Hne.
  - intros j Hj. rewrite ar_seg_overflow by lia. reflexivity.
Qed.

Lemma quiet_set_buf ar bi b :
  buf_mutator b = buf_mutator (ar_buf ar bi) -> quiet ar (ar_set_buf ar bi b).
Proof.
  intros Hm. constructor; [reflexivity .. | apply Nat.le_refl | intros; apply seg_rel_refl
                          | reflexivity | reflexivity | intros; reflexivity | intros; reflexivity
                          | | | ].
  - intros j Hj. rewrite ar_seg_overflow by exact Hj. reflexivity.
  - apply length_list_set.
  - intros bj. unfold ar_buf. apply buf_mutator_list_set, Hm.
Qed.

Lemma nth_snoc_cases (l : list Seg) s j :
  (j < length l /\ nth j (l ++ [s]) dummySeg = nth j l dummySeg)%nat
  \/ (j = length l /\ nth j (l ++ [s]) dummySeg = s)
  \/ (length l < j /\ nth j (l ++ [s]) dummySeg = dummySeg)%nat.
Proof.
  destruct (Nat.lt_ge_cases j (length l)) as [H|H].
  - left. split; [exact H|]. apply app_nth1, H.
  - rewrite app_nth2 by exact H. destruct (j - length l)%nat as [|k] eqn:E.
    + right; left. split; [lia|reflexivity].
    + right; right. split; [lia|]. destruct k; reflexivity.
Qed.

Lemma quiet_append ar s :
  TraceSetIsMember (seg_white s) 0 = false -> TraceSetIsMember (seg_grey s) 0 = false ->
  seg_board s = None -> quiet ar (ar_set_segs ar (ar_segs ar ++ [s])).
Proof.
  intros Hw Hg Hb.
  constructor; try reflexivity.
  - cbn [ar_set_segs ar_upd ar_segs]. rewrite length_app. simpl. lia.
  - intros j Hj. unfold ar_seg. cbn [ar_set_segs ar_upd ar_segs].
    rewrite app_nth1 by exact Hj. apply seg_rel_refl.
  - unfold WhiteWork. cbn [ar_set_segs ar_upd ar_segs ar_amc].
    rewrite fold_sum_app, seg_work_nonwhite by exact Hw. lia.
  - unfold GreyCount. cbn [ar_set_segs ar_upd ar_segs].
    rewrite fold_sum_app, Hg. lia.
  - intros j. unfold SegNewNails, ar_seg. cbn [ar_set_segs ar_upd ar_segs].
    destruct (nth_snoc_cases (ar_segs ar) s j) as [(H & ->) | [(-> & ->) | (H & ->)]];
      [reflexivity| |]; rewrite ?Hb, nth_overflow by lia; reflexivity.
  - intros j Hj. unfold ar_seg. cbn [ar_set_segs ar_upd ar_segs].
    apply app_nth1. apply (ar_seg_white_in ar j Hj).
  - intros j Hj. unfold ar_seg. cbn [ar_set_segs ar_upd ar_segs].
    destruct (nth_snoc_cases (ar_segs ar) s j) as [(H & ->) | [(-> & ->) | (H & ->)]];
      [lia | exact Hw | reflexivity].
Qed.

(** *** Segments of a well-formed arena *)

Lemma SegWF_at ar j :
  ArenaWF ar -> (j < length (ar_segs ar))%nat -> SegWF (amc_align (ar_amc ar)) (ar_seg ar j).
Proof.
  intros Hwf Hj. pose proof (wf_segs _ Hwf) as H. rewrite Forall_forall in H.
  apply H, ar_seg_In, Hj.
Qed.

Lemma SegWF_SegSetObjs align s os :
  SegWF align s -> Forall (fun ao => 0 < o_size (snd ao)) os -> SegWF align (SegSetObjs s os).
Proof. unfold SegWF. simpl. intros (Hb & _ & Hbd) Hos. auto. Qed.

Lemma SegWF_SegSetAmcFlags align s f o a d : SegWF align s -> SegWF align (SegSetAmcFlags s f o a d).
Proof. unfold SegWF. simpl. auto. Qed.

Lemma SegWF_SegSetGrey align s g : SegWF align s -> SegWF align (SegSetGrey s g).
Proof. unfold SegWF. simpl. auto. Qed.

Lemma SegWF_SegSetSummary align s r : SegWF align s -> SegWF align (SegSetSummary s r).
Proof. unfold SegWF. simpl. auto. Qed.

Lemma SegWF_SegSetRankAndSummary align s rs r : SegWF align s -> SegWF align (SegSetRankAndSummary s rs r).
Proof. unfold SegWF. simpl. auto. Qed.

Lemma SegWF_SegSetNailed align s n :
  TraceSetIsMember n 0 = true -> SegWF align s -> SegWF align (SegSetNailed s n).
Proof.
  unfold SegWF. simpl. intros Hn (Hb & Hp & Hbd). split; [exact Hb|]. split; [exact Hp|].
  destruct (seg_board s); [|exact I]. destruct Hbd as [Hl _]. auto.
Qed.

Lemma SegWF_SegSetBoard align s b :
  SegWF align s -> length (nb_marks b) = seg_nbits align s ->
  TraceSetIsMember (seg_nailed s) 0 = true -> SegWF align (SegSetBoard s (Some b)).
Proof. unfold SegWF, seg_nbits. simpl. intros (Hb & Hp & _) Hl Hn. auto. Qed.

Lemma SegWF_seg_upd_none align s w g n sm os :
  SegWF align s -> seg_board s = None -> Forall (fun ao => 0 < o_size (snd ao)) os ->
  SegWF align (seg_upd s w g n sm None os).
Proof. unfold SegWF. simpl. intros (Hb & _ & _) _ Hos. auto. Qed.

Lemma FormatPad_ok ar k a len :
  ArenaWF ar -> 0 < len -> TraceSetIsMember (seg_white (ar_seg ar k)) 0 = false ->
  ArenaWF (FormatPad ar k a len) /\ quiet ar (FormatPad ar k a len).
Proof.
  intros Hwf Hlen Hw. unfold FormatPad.
  change (nth k (ar_segs ar) (NewSeg 0 0 O)) with (ar_seg ar k).
  set (s' := SegSetObjs (ar_seg ar k) _).
  destruct (Nat.lt_ge_cases k (length (ar_segs ar))) as [Hk|Hk].
  - split.
    + apply WF_log_event, WF_set_seg; try reflexivity; [exact Hwf|].
      apply SegWF_SegSetObjs; [apply SegWF_at; assumption|].
      apply obj_set_pos; [exact Hlen|]. apply (SegWF_at ar k Hwf Hk).
    + eapply quiet_trans; [|apply quiet_log_event].
      apply quiet_set_seg; try reflexivity; [unfold s'; seg_rel_solve | exact Hw].
  - assert (E : ar_segs (ar_set_seg ar k s') = ar_segs ar) by (apply ar_set_seg_out, Hk).
    split.
    + apply WF_log_event. eapply WF_same; [exact Hwf|exact E|reflexivity..].
    + eapply quiet_trans; [|apply quiet_log_event]. apply quiet_same; try reflexivity. exact E.
Qed.

Lemma quiet_white_false ar ar' k :
  quiet ar ar' -> TraceSetIsMember (seg_white (ar_seg ar k)) 0 = false ->
  TraceSetIsMember (seg_white (ar_seg ar' k)) 0 = false.
Proof.
  intros Q Hw. destruct (Nat.lt_ge_cases k (length (ar_segs ar))) as [Hk|Hk].
  - destruct (q_rel _ _ Q k Hk) as (_ & _ & -> & _). exact Hw.
  - apply (q_new _ _ Q k Hk).
Qed.

Lemma set_seg_nonwhite_ok ar k s :
  ArenaWF ar -> TraceSetIsMember (seg_white (ar_seg ar k)) 0 = false ->
  seg_rel (ar_seg ar k) s ->
  TraceSetIsMember (seg_grey s) 0 = TraceSetIsMember (seg_grey (ar_seg ar k)) 0 ->
  seg_board s = seg_board (ar_seg ar k) ->
  (SegWF (amc_align (ar_amc ar)) (ar_seg ar k) -> SegWF (amc_align (ar_amc ar)) s) ->
  ArenaWF (ar_set_seg ar k s) /\ quiet ar (ar_set_seg ar k s).
Proof.
  intros Hwf Hw Hr Hg Hb Hs. split; [|apply quiet_set_seg; assumption].
  destruct (Nat.lt_ge_cases k (length (ar_segs ar))) as [Hk|Hk].
  - destruct Hr as (Eb & _ & Ew & Eg & _).
    apply WF_set_seg; try assumption. apply Hs, SegWF_at; assumption.
  - eapply WF_same; [exact Hwf | apply ar_set_seg_out, Hk | reflexivity ..].
Qed.

Lemma seg_index_from_some k l x i :
  seg_index_from k l x = Some i ->
  (k <= i)%nat /\ (i - k < length l)%nat /\ seg_base (nth (i - k) l dummySeg) = x.
Proof.
  revert k; induction l as [|s l IH]; intros k; simpl; [discriminate|].
  destruct (seg_base s =? x) eqn:E.
  - intros H. injection H as <-. apply Z.eqb_eq in E. rewrite Nat.sub_diag. simpl. lia.
  - intros H. destruct (IH (S k) H) as (H1 & H2 & H3).
    replace (i - k)%nat with (S (i - S k)) by lia. simpl. split; [lia|]. split; [lia|exact H3].
Qed.

Lemma SegIndexOfBase_some ar x j :
  SegIndexOfBase ar x = Some j -> (j < length (ar_segs ar))%nat /\ seg_base (ar_seg ar j) = x.
Proof.
  unfold SegIndexOfBase, ar_seg. intros H. apply seg_index_from_some in H.
  rewrite Nat.sub_0_r in H. tauto.
Qed.

Lemma ar_buf_cases ar bi : In (ar_buf ar bi) (ar_bufs ar) \/ ar_buf ar bi = dummyBuf.
Proof.
  unfold ar_buf. destruct (Nat.lt_ge_cases bi (length (ar_bufs ar))) as [H|H].
  - left. apply nth_In, H.
  - right. apply nth_overflow, H.
Qed.

Lemma fwdseg_at ar bi x :
  ArenaWF ar -> buf_mutator (ar_buf ar bi) = false -> buf_seg (ar_buf ar bi) = Some x ->
  Forall (fun s => seg_base s = x -> TraceSetIsMember (seg_white s) 0 = false) (ar_segs ar).
Proof.
  intros Hwf Hm Hx. destruct (ar_buf_cases ar bi) as [Hin|Hd]; [|rewrite Hd in Hx; discriminate].
  pose proof (wf_fwdseg _ Hwf) as H. rewrite Forall_forall in H. exact (H _ Hin Hm x Hx).
Qed.

Lemma fwdseg_index ar bi x j :
  ArenaWF ar -> buf_mutator (ar_buf ar bi) = false -> buf_seg (ar_buf ar bi) = Some x ->
  SegIndexOfBase ar x = Some j ->
  (j < length (ar_segs ar))%nat /\ TraceSetIsMember (seg_white (ar_seg ar j)) 0 = false.
Proof.
  intros Hwf Hm Hx Hj. destruct (SegIndexOfBase_some _ _ _ Hj) as [Hl Hb].
  split; [exact Hl|]. pose proof (fwdseg_at _ _ _ Hwf Hm Hx) as H.
  rewrite Forall_forall in H. apply H; [apply ar_seg_In, Hl | exact Hb].
Qed.

Lemma alloc_at ar bi :
  ArenaWF ar -> buf_seg (ar_buf ar bi) <> None -> 0 < buf_alloc (ar_buf ar bi).
Proof.
  intros Hwf Hs. destruct (ar_buf_cases ar bi) as [Hin|Hd]; [|rewrite Hd in Hs; exfalso; apply Hs; reflexivity].
  pose proof (wf_alloc _ Hwf) as H. rewrite Forall_forall in H. exact (H _ Hin Hs).
Qed.

Lemma amcSegBufferEmpty_ok ar k b :
  ArenaWF ar -> TraceSetIsMember (seg_white (ar_seg ar k)) 0 = false ->
  ArenaWF (amcSegBufferEmpty ar k b) /\ quiet ar (amcSegBufferEmpty ar k b).
Proof.
  intros Hwf Hw. unfold amcSegBufferEmpty. cbv zeta.
  assert (H1 : exists ar1, (if buf_init b <? buf_limit b
                            then FormatPad ar k (buf_init b) (buf_limit b - buf_init b) else ar) = ar1
                           /\ ArenaWF ar1 /\ quiet ar ar1).
  { destruct (buf_init b <? buf_limit b) eqn:E.
    - apply Z.ltb_lt in E. eexists. split; [reflexivity|]. apply FormatPad_ok; auto; lia.
    - eexists. split; [reflexivity|]. split; [exact Hwf | apply quiet_refl]. }
  destruct H1 as (ar1 & -> & W1 & Q1).
  change (nth k (ar_segs ar1) (NewSeg 0 0 O)) with (ar_seg ar1 k).
  pose proof (quiet_white_false _ _ _ Q1 Hw) as Hw1. rewrite Hw1.
  change (nth k (ar_segs ar1) (NewSeg 0 0 O)) with (ar_seg ar1 k).
  destruct (seg_accountedAsBuffered (ar_seg ar1 k)).
  - destruct (set_seg_nonwhite_ok ar1 k
                (SegSetAmcFlags (ar_seg ar1 k) (seg_forwarded (ar_seg ar1 k))
                   (seg_old (ar_seg ar1 k)) false (seg_deferred (ar_seg ar1 k))))
      as [W2 Q2]; auto; try (seg_rel_solve; fail); try (apply SegWF_SegSetAmcFlags; fail).
    split; [exact W2 | eapply quiet_trans; eauto].
  - auto.
Qed.

Lemma BufferDetach_ok ar bi :
  ArenaWF ar -> buf_mutator (ar_buf ar bi) = false ->
  ArenaWF (BufferDetach ar bi) /\ quiet ar (BufferDetach ar bi).
Proof.
  intros Hwf Hm. unfold BufferDetach.
  destruct (buf_seg (ar_buf ar bi)) as [x|] eqn:Hx; [|split; [exact Hwf | apply quiet_refl]].
  assert (H1 : exists ar1, (match SegIndexOfBase ar x with
                            | Some i => amcSegBufferEmpty ar i (ar_buf ar bi)
                            | None => ar end) = ar1 /\ ArenaWF ar1 /\ quiet ar ar1).
  { destruct (SegIndexOfBase ar x) as [j|] eqn:Hj.
    - destruct (fwdseg_index _ _ _ _ Hwf Hm Hx Hj) as [_ Hw].
      eexists. split; [reflexivity|]. apply amcSegBufferEmpty_ok; assumption.
    - eexists. split; [reflexivity|]. split; [exact Hwf | apply quiet_refl]. }
  destruct H1 as (ar1 & -> & W1 & Q1).
  assert (Hm1 : buf_mutator (buf_upd (ar_buf ar bi) None 0 0 0 0) = buf_mutator (ar_buf ar1 bi))
    by (simpl; rewrite (q_mut _ _ Q1); reflexivity).
  split.
  - apply WF_set_buf; [exact W1 | exact Hm1 | simpl; congruence | simpl; discriminate].
  - eapply quiet_trans; [exact Q1|]. apply quiet_set_buf, Hm1.
Qed.

Lemma fold_max_ge (l : list Seg) init :
  init <= fold_right (fun s acc => Z.max (seg_limit s) acc) init l
  /\ Forall (fun t => seg_limit t <= fold_right (fun s acc => Z.max (seg_limit s) acc) init l) l.
Proof.
  induction l as [|s l [IH1 IH2]]; simpl; [split; [lia | constructor]|].
  split; [lia|]. constructor; [lia|]. eapply Forall_impl; [|exact IH2]. cbv beta. intros t; lia.
Qed.

Lemma ArenaFreshBase_gt ar :
  ArenaWF ar ->
  0 < ArenaFreshBase ar /\ Forall (fun t => seg_base t < ArenaFreshBase ar) (ar_segs ar).
Proof.
  intros Hwf. unfold ArenaFreshBase.
  destruct (fold_max_ge (ar_segs ar) (ar_grainSize ar)) as [H1 H2].
  set (M := fold_right _ _ _) in *.
  pose proof (SizeArenaGrains_ge M (ar_grainSize ar) (wf_grain _ Hwf)) as H3.
  pose proof (wf_grain _ Hwf). split; [lia|].
  pose proof (wf_segs _ Hwf) as Hs. rewrite Forall_forall in *.
  intros t Ht. destruct (Hs t Ht) as [[_ Hbl] _]. specialize (H2 t Ht). lia.
Qed.

Lemma list_set_snoc {A} (l : list A) x y : list_set (l ++ [x]) (length l) y = l ++ [y].
Proof. exact (list_set_middle l [] x y). Qed.

Lemma append_like_ok ar ar' s :
  ArenaWF ar -> ar_segs ar' = ar_segs ar ++ [s] -> ar_bufs ar' = ar_bufs ar ->
  ar_gens ar' = ar_gens ar -> ar_amc ar' = ar_amc ar -> ar_trace ar' = ar_trace ar ->
  ar_grainSize ar' = ar_grainSize ar ->
  SegWF (amc_align (ar_amc ar)) s -> Forall (fun t => seg_base t < seg_base s) (ar_segs ar) ->
  TraceSetIsMember (seg_white s) 0 = false -> TraceSetIsMember (seg_grey s) 0 = false ->
  seg_board s = None ->
  ArenaWF ar' /\ quiet ar ar'.
Proof.
  intros Hwf Hs Hb Hg Ha Ht Hgr Hsw Hlt Hw Hgy Hbd. split.
  - eapply WF_same; [apply (WF_append ar s Hwf Hsw Hlt Hw) | | ..]; simpl; auto.
  - eapply quiet_trans; [apply (quiet_append ar s Hw Hgy Hbd)|].
    apply quiet_same; simpl; auto.
Qed.

Lemma ar_segs_FormatPad X i a len :
  ar_segs (FormatPad X i a len)
  = list_set (ar_segs X) i
      (SegSetObjs (nth i (ar_segs X) (NewSeg 0 0 O))
         (obj_set (a + amc_headerSize (ar_amc X)) (PadObj len)
            (seg_objs (nth i (ar_segs X) (NewSeg 0 0 O))))).
Proof. reflexivity. Qed.

Lemma Forall_by_index (P : Seg -> Prop) l :
  (forall j, (j < length l)%nat -> P (nth j l dummySeg)) -> Forall P l.
Proof.
  intros H. rewrite Forall_forall. intros x Hx.
  destruct (In_nth l x dummySeg Hx) as (j & Hj & <-). auto.
Qed.

Lemma fresh_forall ar ar' base :
  quiet ar ar' -> Forall (fun t => seg_base t < base) (ar_segs ar) ->
  Forall (fun t => seg_base t = base -> TraceSetIsMember (seg_white t) 0 = false) (ar_segs ar').
Proof.
  intros Q Hlt. apply Forall_by_index. intros j Hj Hb.
  change (nth j (ar_segs ar') dummySeg) with (ar_seg ar' j) in *.
  destruct (Nat.lt_ge_cases j (length (ar_segs ar))) as [Hk|Hk].
  - destruct (q_rel _ _ Q j Hk) as (Eb & _).
    rewrite Forall_forall in Hlt. pose proof (Hlt _ (ar_seg_In _ _ Hk)). lia.
  - apply (q_new _ _ Q j Hk).
Qed.

Lemma AMCBufferFill_final ar ar3 n base :
  ArenaWF ar3 -> quiet ar ar3 -> TraceSetIsMember (seg_white (ar_seg ar3 n)) 0 = false ->
  Forall (fun t => seg_base t < base) (ar_segs ar) -> 0 < base ->
  let ar4 := ar_set_seg ar3 n
               (SegSetAmcFlags (nth n (ar_segs ar3) (NewSeg 0 0 O))
                  (seg_forwarded (nth n (ar_segs ar3) (NewSeg 0 0 O)))
                  (seg_old (nth n (ar_segs ar3) (NewSeg 0 0 O))) true
                  (seg_deferred (nth n (ar_segs ar3) (NewSeg 0 0 O)))) in
  ArenaWF ar4 /\ quiet ar ar4 /\ (ResOK = ResOK -> 0 < base /\
     Forall (fun t => seg_base t = base -> TraceSetIsMember (seg_white t) 0 = false) (ar_segs ar4)).
Proof.
  intros W3 Q3 Hw3 Hlt Hb. cbv zeta.
  change (nth n (ar_segs ar3) (NewSeg 0 0 O)) with (ar_seg ar3 n).
  destruct (set_seg_nonwhite_ok ar3 n
              (SegSetAmcFlags (ar_seg ar3 n) (seg_forwarded (ar_seg ar3 n))
                 (seg_old (ar_seg ar3 n)) true (seg_deferred (ar_seg ar3 n))))
    as [W4 Q4]; auto; try (seg_rel_solve; fail); try (apply SegWF_SegSetAmcFlags; fail).
  assert (Q : quiet ar (ar_set_seg ar3 n
              (SegSetAmcFlags (ar_seg ar3 n) (seg_forwarded (ar_seg ar3 n))
                 (seg_old (ar_seg ar3 n)) true (seg_deferred (ar_seg ar3 n)))))
    by (eapply quiet_trans; eauto).
  split; [exact W4|]. split; [exact Q|]. intros _. split; [exact Hb|].
  eapply fresh_forall; eauto.
Qed.

Lemma AMCBufferFill_ok ar bi size :
  ArenaWF ar -> 0 < size ->
  let '(res, base, limit, ar') := AMCBufferFill ar bi size in
  ArenaWF ar' /\ quiet ar ar' /\
  (res = ResOK -> 0 < base /\
     Forall (fun t => seg_base t = base -> TraceSetIsMember (seg_white t) 0 = false) (ar_segs ar')).
Proof.
  intros Hwf Hsize. unfold AMCBufferFill. cbv zeta.
  set (g := if size <? amc_extendBy (ar_amc ar) then amc_extendBy (ar_amc ar)
            else SizeArenaGrains size (ar_grainSize ar)).
  assert (Hg : 0 < g).
  { subst g. destruct (size <? amc_extendBy (ar_amc ar)) eqn:E; [apply Z.ltb_lt in E; lia|].
    pose proof (SizeArenaGrains_ge size (ar_grainSize ar) (wf_grain _ Hwf)). lia. }
  clearbody g.
  destruct (ArenaFreshBase_gt ar Hwf) as [Hf0 Hflt].
  unfold PoolGenAlloc.
  destruct (ar_commitLimit ar <? ArenaCommitted ar + g).
  { split; [exact Hwf|]. split; [apply quiet_refl | discriminate]. }
  set (n := length (ar_segs ar)).
  set (ar1 := ar_set_segs ar _).
  assert (N1 : nth n (ar_segs ar1) (NewSeg 0 0 O)
               = NewSeg (ArenaFreshBase ar) g (buf_gen (ar_buf ar bi)))
    by (subst ar1 n; apply nth_app_last).
  rewrite N1.
  set (s2 := if (_ : bool) then SegSetAmcFlags _ _ _ _ _ else (_ : Seg)).
  assert (B2 : seg_base s2 = ArenaFreshBase ar /\ seg_limit s2 = ArenaFreshBase ar + g
               /\ seg_objs s2 = [] /\ TraceSetIsMember (seg_white s2) 0 = false
               /\ TraceSetIsMember (seg_grey s2) 0 = false /\ seg_board s2 = None).
  { subst s2. destruct_matches; simpl; repeat split; reflexivity. }
  clearbody s2. destruct B2 as (Hb2 & Hl2 & Ho2 & Hw2 & Hgy2 & Hbd2).
  assert (S2 : ar_segs (ar_set_seg ar1 n s2) = ar_segs ar ++ [s2])
    by (subst ar1 n; apply list_set_snoc).
  assert (Sw2 : SegWF (amc_align (ar_amc ar)) s2).
  { unfold SegWF, ObjsPositive. rewrite Hb2, Hl2, Ho2, Hbd2.
    split; [lia|]. split; [constructor | exact I]. }
  assert (Hlt2 : Forall (fun t => seg_base t < seg_base s2) (ar_segs ar)) by (rewrite Hb2; exact Hflt).
  destruct (append_like_ok ar (ar_set_seg ar1 n s2) s2 Hwf S2 eq_refl eq_refl eq_refl eq_refl
              eq_refl Sw2 Hlt2 Hw2 Hgy2 Hbd2) as [W2 Q2].
  assert (N2 : ar_seg (ar_set_seg ar1 n s2) n = s2)
    by (unfold ar_seg; rewrite S2; apply nth_app_last).
  set (ar2 := ar_set_seg ar1 n s2) in *. clearbody ar2.
  rewrite Hb2 in *.
  assert (Hw2' : TraceSetIsMember (seg_white (ar_seg ar2 n)) 0 = false) by (rewrite N2; exact Hw2).
  destruct (size <? amc_largeSize (ar_amc ar)).
  - apply AMCBufferFill_final; assumption.
  - assert (H3 : exists ar3, (if 0 <? g - size
                              then FormatPad ar2 n (ArenaFreshBase ar + size) (g - size) else ar2) = ar3
                             /\ ArenaWF ar3 /\ quiet ar2 ar3).
    { destruct (0 <? g - size) eqn:Ep.
      - apply Z.ltb_lt in Ep. eexists. split; [reflexivity|]. apply FormatPad_ok; auto.
      - eexists. split; [reflexivity|]. split; [exact W2 | apply quiet_refl]. }
    destruct H3 as (ar3 & -> & W3 & Q3).
    apply AMCBufferFill_final; auto.
    + eapply quiet_trans; eauto.
    + eapply quiet_white_false; eauto.
Qed.

Lemma BufferFill_ok ar bi size :
  ArenaWF ar -> 0 < size -> buf_mutator (ar_buf ar bi) = false ->
  let '(res, base, ar') := BufferFill ar bi size in
  ArenaWF ar' /\ quiet ar ar' /\ (res = ResOK -> 0 < base).
Proof.
  intros Hwf Hsize Hm. unfold BufferFill. cbv zeta.
  destruct (BufferDetach_ok ar bi Hwf Hm) as [W1 Q1].
  pose proof (AMCBufferFill_ok (BufferDetach ar bi) bi size W1 Hsize) as H.
  destruct (AMCBufferFill (BufferDetach ar bi) bi size) as [[[res base] limit] ar2].
  destruct H as (W2 & Q2 & Hok).
  assert (Q12 : quiet ar ar2) by (eapply quiet_trans; eauto).
  destruct res;
    try (split; [exact W2 | split; [exact Q12 | discriminate]]).
  destruct (Hok eq_refl) as [Hb Hf].
  assert (Hm2 : buf_mutator (buf_upd (ar_buf ar2 bi) (Some base) base base (base + size) limit)
                = buf_mutator (ar_buf ar2 bi)) by reflexivity.
  split; [|split; [eapply quiet_trans; [exact Q12 | apply quiet_set_buf, Hm2] | intros _; exact Hb]].
  apply WF_set_buf; [exact W2 | exact Hm2 | simpl; intros _; lia |].
  simpl. intros _ x Hx. injection Hx as <-. exact Hf.
Qed.

Lemma BUFFER_RESERVE_ok ar bi size :
  ArenaWF ar -> 0 < size -> buf_mutator (ar_buf ar bi) = false ->
  let '(res, newBase, ar') := BUFFER_RESERVE ar bi size in
  ArenaWF ar' /\ quiet ar ar' /\ (res = ResOK -> 0 < newBase).
Proof.
  intros Hwf Hsize Hm. unfold BUFFER_RESERVE. cbv zeta.
  set (ar1 := ar_log_event ar (EvReserve bi size)).
  assert (W1 : ArenaWF ar1) by (apply WF_log_event, Hwf).
  assert (Q1 : quiet ar ar1) by apply quiet_log_event.
  assert (B1 : ar_buf ar1 bi = ar_buf ar bi) by reflexivity.
  assert (Hfill : let '(res, base, ar') := BufferFill ar1 bi size in
                  ArenaWF ar' /\ quiet ar ar' /\ (res = ResOK -> 0 < base)).
  { pose proof (BufferFill_ok ar1 bi size W1 Hsize ltac:(rewrite B1; exact Hm)) as H.
    destruct (BufferFill ar1 bi size) as [[res base] ar']. destruct H as (W & Q & P).
    split; [exact W | split; [eapply quiet_trans; eauto | exact P]]. }
  clearbody ar1.
  destruct (buf_seg (ar_buf ar1 bi)) as [x|] eqn:Hx; [|exact Hfill].
  destruct (buf_alloc (ar_buf ar1 bi) + size <=? buf_limit (ar_buf ar1 bi)); [|exact Hfill].
  assert (Ha : 0 < buf_alloc (ar_buf ar1 bi)) by (apply alloc_at; [exact W1 | congruence]).
  set (b' := buf_upd _ _ _ _ _ _).
  assert (Hm' : buf_mutator b' = buf_mutator (ar_buf ar1 bi)) by reflexivity.
  split; [|split; [eapply quiet_trans; [exact Q1 | apply quiet_set_buf, Hm'] | intros _; exact Ha]].
  apply WF_set_buf; [exact W1 | exact Hm' | simpl; intros _; lia |].
  simpl. intros Hm1 y Hy. injection Hy as <-.
  apply (fwdseg_at ar1 bi x W1); [rewrite B1; exact Hm | exact Hx].
Qed.

Lemma BUFFER_COMMIT_ok ar bi :
  ArenaWF ar -> ArenaWF (snd (BUFFER_COMMIT ar bi)) /\ quiet ar (snd (BUFFER_COMMIT ar bi)).
Proof.
  intros Hwf. unfold BUFFER_COMMIT. cbn [snd].
  set (b' := buf_upd _ _ _ _ _ _).
  assert (Hm' : buf_mutator b' = buf_mutator (ar_buf ar bi)) by reflexivity.
  split; [|apply quiet_set_buf, Hm'].
  apply WF_set_buf; [exact Hwf | exact Hm' | apply alloc_at, Hwf |].
  simpl. intros Hm x Hx. exact (fwdseg_at ar bi x Hwf Hm Hx).
Qed.

(** *** Trace sets of the single trace *)

Lemma land_1_bit0 n : Z.land n 1 = if Z.testbit n 0 then 1 else 0.
Proof.
  assert (E : Z.land n 1 = n mod 2) by exact (Z.land_ones n 1 ltac:(lia)).
  rewrite E.
  destruct (Z.Even_or_Odd n) as [[k Hk]|[k Hk]]; subst n.
  - rewrite Z.testbit_even_0. rewrite Z.mul_comm, Z.mod_mul by lia. reflexivity.
  - rewrite Z.testbit_odd_0. rewrite Z.add_comm, Z.mul_comm, Z.mod_add by lia. reflexivity.
Qed.

Lemma TraceSetSub_single0 n : TraceSetSub TraceSetSingle0 n = TraceSetIsMember n 0.
Proof.
  unfold TraceSetSub, TraceSetIsMember. change TraceSetSingle0 with 1.
  rewrite Z.land_comm, land_1_bit0, Z.lnot_spec by lia.
  destruct (Z.testbit n 0); reflexivity.
Qed.

Lemma TraceSetInter_single0 n :
  negb (TraceSetInter n TraceSetSingle0 =? TraceSetEMPTY) = TraceSetIsMember n 0.
Proof.
  unfold TraceSetInter, TraceSetIsMember. change TraceSetSingle0 with 1.
  rewrite land_1_bit0. destruct (Z.testbit n 0); reflexivity.
Qed.

Lemma member_union_single0 n : TraceSetIsMember (TraceSetUnion n TraceSetSingle0) 0 = true.
Proof. unfold TraceSetIsMember. rewrite testbit_union. apply orb_true_r. Qed.

Lemma member_union_single0_iff n m :
  TraceSetIsMember (TraceSetUnion n m) 0 = TraceSetIsMember n 0 || TraceSetIsMember m 0.
Proof. unfold TraceSetIsMember. apply testbit_union. Qed.

Lemma member_empty : TraceSetIsMember TraceSetEMPTY 0 = false.
Proof. reflexivity. Qed.

(** *** The work measure under one segment's update *)

Lemma count_unmoved_ext s s' a n :
  (forall x, FormatIsMoved s' x = FormatIsMoved s x) -> count_unmoved s' a n = count_unmoved s a n.
Proof.
  intros H. revert a; induction n as [|n IH]; intros a; simpl; [reflexivity|].
  rewrite H, IH. reflexivity.
Qed.

Lemma seg_unmoved_ext s s' :
  seg_base s' = seg_base s -> seg_limit s' = seg_limit s -> seg_objs s' = seg_objs s ->
  seg_unmoved s' = seg_unmoved s.
Proof.
  intros Hb Hl Ho. unfold seg_unmoved. rewrite Hb, Hl.
  apply count_unmoved_ext. intros x. unfold FormatIsMoved. rewrite Ho. reflexivity.
Qed.

Lemma count_unmoved_ext_from s s' a n :
  (forall x, a <= x -> FormatIsMoved s' x = FormatIsMoved s x) ->
  count_unmoved s' a n = count_unmoved s a n.
Proof.
  revert a; induction n as [|n IH]; intros a H; simpl; [reflexivity|].
  rewrite H by lia. rewrite IH; [reflexivity|]. intros x Hx. apply H. lia.
Qed.

Lemma count_unmoved_change s s' a n r :
  a <= r < a + Z.of_nat n ->
  (forall x, x <> r -> FormatIsMoved s' x = FormatIsMoved s x) ->
  FormatIsMoved s r = 0 -> FormatIsMoved s' r <> 0 ->
  (count_unmoved s' a n + 1 = count_unmoved s a n)%nat.
Proof.
  intros Hr Hx H0 H1. revert a Hr; induction n as [|n IH]; intros a Hr; [lia|].
  simpl. destruct (Z.eq_dec a r) as [->|Hne].
  - rewrite H0. apply Z.eqb_neq in H1. rewrite H1. simpl.
    rewrite (count_unmoved_ext_from s s'); [lia|].
    intros x Hxr. apply Hx. lia.
  - rewrite Hx by exact Hne. specialize (IH (a + 1) ltac:(lia)). lia.
Qed.

Lemma obj_find_set a b o os : obj_find a (obj_set b o os) = if a =? b then Some o else obj_find a os.
Proof.
  induction os as [|[c o'] os IH]; simpl.
  - reflexivity.
  - destruct (b =? c) eqn:E1; simpl.
    + apply Z.eqb_eq in E1. subst c. destruct (a =? b); reflexivity.
    + rewrite IH. destruct (a =? b) eqn:E2; [|reflexivity].
      apply Z.eqb_eq in E2. subst a. rewrite E1. reflexivity.
Qed.

Lemma count_false_repeat n : count_false (repeat false n) = n.
Proof. induction n as [|n IH]; simpl; [reflexivity | rewrite IH; reflexivity]. Qed.

Lemma count_false_set l i :
  (i < length l)%nat -> nth i l false = false ->
  (count_false (list_set l i true) + 1 = count_false l)%nat.
Proof.
  revert i; induction l as [|x l IH]; intros [|i] Hi Hn; simpl in *; try lia.
  - subst x. lia.
  - specialize (IH i ltac:(lia) Hn). lia.
Qed.

Lemma nbits_idx align s ref :
  0 < align -> seg_base s <= ref < seg_limit s ->
  (NailboardIndex align (seg_base s) ref < seg_nbits align s)%nat.
Proof.
  intros Ha Hr. unfold NailboardIndex, seg_nbits.
  assert (H1 : (ref - seg_base s) / align <= (seg_limit s - seg_base s - 1) / align)
    by (apply Z.div_le_mono; lia).
  assert (H2 : (seg_limit s - seg_base s + align - 1) / align
               = (seg_limit s - seg_base s - 1) / align + 1).
  { replace (seg_limit s - seg_base s + align - 1) with ((seg_limit s - seg_base s - 1) + 1 * align)
      by ring. rewrite Z.div_add by lia. reflexivity. }
  assert (H3 : 0 <= (ref - seg_base s) / align) by (apply Z.div_pos; lia).
  rewrite H2. apply Z2Nat.inj_lt; lia.
Qed.

Lemma grey_bit_le (s : Seg) : ((if TraceSetIsMember (seg_grey s) 0%Z then S O else O) <= 1)%nat.
Proof. destruct (TraceSetIsMember (seg_grey s) 0); lia. Qed.

Lemma work_dec_refl ar : work_dec ar ar.
Proof. unfold work_dec. repeat split; auto. Qed.

Lemma work_dec_trans a b c : work_dec a b -> work_dec b c -> work_dec a c.
Proof.
  unfold work_dec. intros (W1 & T1 & B1 & N1) (W2 & T2 & B2 & N2).
  split; [lia|]. split; [lia|]. split.
  - destruct B2 as [B2|B2]; [destruct B1 as [B1|B1]; [left; congruence | right; lia] | right; lia].
  - intros j Hj. destruct (N2 j Hj) as [H|H]; [|right; lia].
    destruct (N1 j H) as [H'|H']; [left; exact H' | right; lia].
Qed.

Lemma work_dec_lt ar ar' :
  (WhiteWork ar' < WhiteWork ar)%nat -> (TraceWork ar' <= TraceWork ar)%nat -> work_dec ar ar'.
Proof. unfold work_dec. intros H1 H2. repeat split; auto; lia. Qed.

Lemma scan_rel_refl ar : scan_rel ar ar.
Proof. unfold scan_rel. repeat split; auto; intros; apply seg_rel_refl. Qed.

Lemma scan_rel_trans a b c : scan_rel a b -> scan_rel b c -> scan_rel a c.
Proof.
  unfold scan_rel. intros (A1 & T1 & L1 & R1) (A2 & T2 & L2 & R2).
  split; [congruence|]. split; [congruence|]. split; [lia|].
  intros j Hj. eapply seg_rel_trans; [apply R1, Hj | apply R2; lia].
Qed.

Lemma quiet_scan_rel ar ar' : quiet ar ar' -> scan_rel ar ar'.
Proof. intros Q. unfold scan_rel. split; [apply Q|]. split; [apply Q|]. split; [apply Q | apply Q]. Qed.

Lemma scan_rel_set_seg ar i s :
  seg_rel (ar_seg ar i) s -> scan_rel ar (ar_set_seg ar i s).
Proof.
  intros Hr. unfold scan_rel. split; [reflexivity|]. split; [reflexivity|].
  assert (Hl : length (ar_segs (ar_set_seg ar i s)) = length (ar_segs ar)) by apply length_list_set.
  split; [lia|]. intros j Hj.
  destruct (Nat.eq_dec j i) as [->|Hne].
  - rewrite ar_seg_set_seg_eq by exact Hj. exact Hr.
  - rewrite ar_seg_set_seg_neq by exact Hne. apply seg_rel_refl.
Qed.

Lemma set_seg_lt_ok ar i s :
  ArenaWF ar -> (i < length (ar_segs ar))%nat -> seg_rel (ar_seg ar i) s ->
  SegWF (amc_align (ar_amc ar)) s ->
  (seg_work (amc_align (ar_amc ar)) s < seg_work (amc_align (ar_amc ar)) (ar_seg ar i))%nat ->
  ArenaWF (ar_set_seg ar i s) /\ scan_rel ar (ar_set_seg ar i s)
  /\ (WhiteWork (ar_set_seg ar i s) < WhiteWork ar)%nat
  /\ (TraceWork (ar_set_seg ar i s) <= TraceWork ar)%nat.
Proof.
  intros Hwf Hi Hr Hs Hlt. split; [|split; [apply scan_rel_set_seg, Hr|]].
  - destruct Hr as (Hb & _ & Hw & Hg & _). apply WF_set_seg; assumption.
  - pose proof (WhiteWork_set_seg ar i s Hi). pose proof (GreyCount_set_seg ar i s Hi).
    pose proof (grey_bit_le s). unfold TraceWork. split; lia.
Qed.

Lemma set_seg_eq_ok ar i s :
  ArenaWF ar -> (i < length (ar_segs ar))%nat -> seg_rel (ar_seg ar i) s ->
  SegWF (amc_align (ar_amc ar)) s ->
  seg_work (amc_align (ar_amc ar)) s = seg_work (amc_align (ar_amc ar)) (ar_seg ar i) ->
  TraceSetIsMember (seg_grey s) 0 = TraceSetIsMember (seg_grey (ar_seg ar i)) 0 ->
  seg_board s = seg_board (ar_seg ar i) ->
  ArenaWF (ar_set_seg ar i s) /\ scan_rel ar (ar_set_seg ar i s) /\ work_dec ar (ar_set_seg ar i s).
Proof.
  intros Hwf Hi Hr Hs Hw Hg Hb. split; [|split; [apply scan_rel_set_seg, Hr|]].
  - destruct Hr as (Hb' & _ & Hw' & Hg' & _). apply WF_set_seg; assumption.
  - pose proof (WhiteWork_set_seg ar i s Hi). pose proof (GreyCount_set_seg ar i s Hi).
    rewrite Hg in *. unfold work_dec, TraceWork. split; [lia|]. split; [lia|]. split.
    + left. reflexivity.
    + intros j Hj. left. unfold SegNewNails in *.
      destruct (Nat.eq_dec j i) as [->|Hne].
      * rewrite ar_seg_set_seg_eq in Hj by exact Hi. rewrite Hb in Hj. exact Hj.
      * rewrite ar_seg_set_seg_neq in Hj by exact Hne. exact Hj.
Qed.

Lemma seg_unmoved_SegSetGrey x g : seg_unmoved (SegSetGrey x g) = seg_unmoved x.
Proof. apply seg_unmoved_ext; reflexivity. Qed.
Lemma seg_unmoved_SegSetNailed x n : seg_unmoved (SegSetNailed x n) = seg_unmoved x.
Proof. apply seg_unmoved_ext; reflexivity. Qed.
Lemma seg_unmoved_SegSetBoard x b : seg_unmoved (SegSetBoard x b) = seg_unmoved x.
Proof. apply seg_unmoved_ext; reflexivity. Qed.
Lemma seg_unmoved_SegSetSummary x r : seg_unmoved (SegSetSummary x r) = seg_unmoved x.
Proof. apply seg_unmoved_ext; reflexivity. Qed.
Lemma seg_unmoved_SegSetAmcFlags x f o a d : seg_unmoved (SegSetAmcFlags x f o a d) = seg_unmoved x.
Proof. apply seg_unmoved_ext; reflexivity. Qed.

Create Rewrite HintDb seg_unmoved_db.
#[export] Hint Rewrite seg_unmoved_SegSetGrey seg_unmoved_SegSetNailed seg_unmoved_SegSetBoard
  seg_unmoved_SegSetSummary seg_unmoved_SegSetAmcFlags : seg_unmoved_db.

Ltac seg_simpl :=
  cbn [seg_base seg_limit seg_white seg_grey seg_nailed seg_board seg_objs seg_rankSet seg_gen
       SegSetBoard SegSetNailed SegSetGrey SegSetObjs SegSetAmcFlags SegSetSummary seg_upd
       nb_marks nb_newNails] in *.

Lemma SegSetBoard_id s : SegSetBoard s (seg_board s) = s.
Proof. destruct s; reflexivity. Qed.

Lemma fix_result_refl ar : ArenaWF ar -> ArenaWF ar /\ scan_rel ar ar /\ work_dec ar ar.
Proof. intros H. split; [exact H|]. split; [apply scan_rel_refl | apply work_dec_refl]. Qed.

Lemma fix_result_lt ar ar' :
  ArenaWF ar' /\ scan_rel ar ar' /\ (WhiteWork ar' < WhiteWork ar)%nat
  /\ (TraceWork ar' <= TraceWork ar)%nat ->
  ArenaWF ar' /\ scan_rel ar ar' /\ work_dec ar ar'.
Proof.
  intros (W & R & H1 & H2). split; [exact W|]. split; [exact R|]. apply work_dec_lt; assumption.
Qed.

Ltac grey_mono :=
  match goal with
  | |- seg_rel _ _ =>
      seg_rel_solve;
      try (intros _; apply member_union_single0);
      try (intros ?Hg; rewrite ?member_union_single0_iff, ?Hg; reflexivity)
  end.

Ltac segwf_chain Hs :=
  match goal with
  | |- SegWF _ _ =>
      repeat first [ apply SegWF_SegSetGrey | apply SegWF_SegSetSummary | apply SegWF_SegSetAmcFlags
                   | apply SegWF_SegSetNailed; [apply member_union_single0|] ];
      try exact Hs
  end.

Lemma amcSegFixInPlace_ok ar i ss ref :
  ArenaWF ar -> (i < length (ar_segs ar))%nat ->
  TraceSetIsMember (seg_white (ar_seg ar i)) 0 = true ->
  seg_base (ar_seg ar i) <= ref < seg_limit (ar_seg ar i) ->
  ss_traces ss = TraceSetSingle0 ->
  ArenaWF (amcSegFixInPlace ar i ss ref) /\ scan_rel ar (amcSegFixInPlace ar i ss ref)
  /\ work_dec ar (amcSegFixInPlace ar i ss ref).
Proof.
  intros Hwf Hi Hw Hr Ht. unfold amcSegFixInPlace. cbv beta zeta. rewrite Ht.
  pose proof (SegWF_at ar i Hwf Hi) as Hs.
  pose proof (wf_align _ Hwf) as Hal.
  set (al := amc_align (ar_amc ar)) in *.
  set (s := ar_seg ar i) in *.
  destruct (seg_board s) as [b|] eqn:Hb.
  - pose proof Hs as Hs'. unfold SegWF in Hs'. rewrite Hb in Hs'.
    destruct Hs' as (Hbl & Hop & Hlen & Hn).
    unfold NailboardSet.
    pose proof (nbits_idx al s ref Hal Hr) as Hidx.
    set (idx := NailboardIndex al (seg_base s) ref) in *.
    destruct (nth idx (nb_marks b) false) eqn:Hm; cbv beta iota.
    + seg_simpl. rewrite TraceSetSub_single0, Hn. cbn [andb].
      rewrite <- Hb, SegSetBoard_id.
      apply set_seg_eq_ok; auto; apply seg_rel_refl.
    + rewrite andb_false_r.
      apply fix_result_lt.
      assert (Hc : (count_false (list_set (nb_marks b) idx true) + 1 = count_false (nb_marks b))%nat)
        by (apply count_false_set; [lia | exact Hm]).
      assert (Hs1 : SegWF al (SegSetBoard s (Some (mkBoard (list_set (nb_marks b) idx true) true))))
        by (apply SegWF_SegSetBoard; [exact Hs | simpl; rewrite length_list_set; exact Hlen | exact Hn]).
      seg_simpl. destruct (negb (seg_rankSet s =? RankSetEMPTY));
        apply set_seg_lt_ok; change (ar_seg ar i) with s; try exact Hwf; try exact Hi; try grey_mono; try segwf_chain Hs1;
        unfold seg_work, seg_nailwork; seg_simpl; rewrite Hw, member_union_single0, Hb, Hn;
        autorewrite with seg_unmoved_db; lia.
  - rewrite TraceSetSub_single0.
    destruct (TraceSetIsMember (seg_nailed s) 0) eqn:Hn; [apply fix_result_refl, Hwf|].
    apply fix_result_lt.
    seg_simpl. destruct (negb (seg_rankSet s =? RankSetEMPTY));
      apply set_seg_lt_ok; change (ar_seg ar i) with s; try exact Hwf; try exact Hi; try grey_mono; try segwf_chain Hs;
      unfold seg_work, seg_nailwork; seg_simpl; rewrite Hw, member_union_single0, Hb, Hn;
      autorewrite with seg_unmoved_db; lia.
Qed.

Lemma ss_rel_refl ss : ss_rel ss ss.
Proof. split; reflexivity. Qed.

Lemma ss_rel_trans a b c : ss_rel a b -> ss_rel b c -> ss_rel a c.
Proof. unfold ss_rel. intros [H1 H2] [H3 H4]. split; congruence. Qed.

Lemma ar_seg_log_event ar e j : ar_seg (ar_log_event ar e) j = ar_seg ar j.
Proof. reflexivity. Qed.

Lemma WhiteWork_log_event ar e : WhiteWork (ar_log_event ar e) = WhiteWork ar.
Proof. reflexivity. Qed.

Lemma GreyCount_log_event ar e : GreyCount (ar_log_event ar e) = GreyCount ar.
Proof. reflexivity. Qed.

Lemma set_nonwhite_ok ar j t :
  ArenaWF ar -> (j < length (ar_segs ar))%nat ->
  TraceSetIsMember (seg_white (ar_seg ar j)) 0 = false ->
  seg_rel (ar_seg ar j) t -> SegWF (amc_align (ar_amc ar)) t ->
  ArenaWF (ar_set_seg ar j t) /\ scan_rel ar (ar_set_seg ar j t)
  /\ WhiteWork (ar_set_seg ar j t) = WhiteWork ar
  /\ (GreyCount (ar_set_seg ar j t) <= S (GreyCount ar))%nat.
Proof.
  intros Hwf Hj Hw Hr Hs. split; [|split; [apply scan_rel_set_seg, Hr|]].
  - destruct Hr as (Hb & _ & Hw' & Hg & _). apply WF_set_seg; assumption.
  - pose proof (WhiteWork_set_seg ar j t Hj). pose proof (GreyCount_set_seg ar j t Hj).
    pose proof (grey_bit_le t). pose proof (grey_bit_le (ar_seg ar j)).
    assert (Hwt : TraceSetIsMember (seg_white t) 0 = false)
      by (destruct Hr as (_ & _ & -> & _); exact Hw).
    rewrite (seg_work_nonwhite _ _ Hw), (seg_work_nonwhite _ _ Hwt) in *. split; lia.
Qed.

Lemma set_nonwhite_log_ok ar j t e i s :
  ArenaWF ar -> (j < length (ar_segs ar))%nat ->
  TraceSetIsMember (seg_white (ar_seg ar j)) 0 = false ->
  seg_rel (ar_seg ar j) t -> SegWF (amc_align (ar_amc ar)) t ->
  ar_seg ar i = s -> TraceSetIsMember (seg_white s) 0 = true -> (i < length (ar_segs ar))%nat ->
  ArenaWF (ar_log_event (ar_set_seg ar j t) e)
  /\ scan_rel ar (ar_log_event (ar_set_seg ar j t) e)
  /\ ar_seg (ar_log_event (ar_set_seg ar j t) e) i = s
  /\ WhiteWork (ar_log_event (ar_set_seg ar j t) e) = WhiteWork ar
  /\ (GreyCount (ar_log_event (ar_set_seg ar j t) e) <= S (GreyCount ar))%nat
  /\ (i < length (ar_segs (ar_log_event (ar_set_seg ar j t) e)))%nat.
Proof.
  intros Hwf Hj Hjw Hr Hs Hsi Hw Hi.
  assert (Hji : j <> i) by (intros ->; rewrite Hsi in Hjw; congruence).
  destruct (set_nonwhite_ok ar j t Hwf Hj Hjw Hr Hs) as (W2 & R2 & E2 & G2).
  split; [apply WF_log_event, W2|].
  split; [eapply scan_rel_trans; [exact R2 | apply quiet_scan_rel, quiet_log_event]|].
  split; [rewrite ar_seg_log_event, ar_seg_set_seg_neq by congruence; exact Hsi|].
  split; [rewrite WhiteWork_log_event; exact E2|].
  split; [rewrite GreyCount_log_event; exact G2|].
  cbn [ar_log_event ar_set_seg ar_set_segs ar_upd ar_segs]. rewrite length_list_set. exact Hi.
Qed.

Lemma fwdbuf_at ar i :
  ArenaWF ar -> (i < length (ar_segs ar))%nat ->
  TraceSetIsMember (seg_white (ar_seg ar i)) 0 = true ->
  buf_mutator (ar_buf ar (gen_forward (ar_gen ar (seg_gen (ar_seg ar i))))) = false.
Proof.
  intros Hwf Hi Hw. pose proof (wf_fwdbuf _ Hwf) as H. rewrite Forall_forall in H.
  exact (H _ (ar_seg_In _ _ Hi) Hw).
Qed.

Lemma amcSegForward_ok ar i ss ref :
  ArenaWF ar -> (i < length (ar_segs ar))%nat ->
  TraceSetIsMember (seg_white (ar_seg ar i)) 0 = true ->
  seg_base (ar_seg ar i) <= ref < seg_limit (ar_seg ar i) ->
  FormatIsMoved (ar_seg ar i) ref = 0 ->
  let '(res, newRef, ss', ar') := amcSegForward ar i ss ref in
  ArenaWF ar' /\ scan_rel ar ar' /\ (res = ResOK -> work_dec ar ar') /\ ss_rel ss ss'.
Proof.
  intros Hwf Hi Hw Hr Hmv. unfold amcSegForward. cbv zeta.
  pose proof (SegWF_at ar i Hwf Hi) as Hs.
  pose proof (wf_align _ Hwf) as Hal.
  pose proof (wf_header _ Hwf) as Hh.
  set (s := ar_seg ar i) in *.
  set (o := ObjAt (amc_align (ar_amc ar)) s ref).
  assert (Ho : 0 < o_size o) by (apply ObjAt_pos; [exact Hal | apply Hs]).
  assert (Hm : buf_mutator (ar_buf ar (gen_forward (ar_gen ar (seg_gen s)))) = false)
    by (apply fwdbuf_at; assumption).
  set (bi := gen_forward (ar_gen ar (seg_gen s))) in *.
  assert (Hlen : 0 < ref + o_size o - ref) by lia.
  pose proof (BUFFER_RESERVE_ok ar bi (ref + o_size o - ref) Hwf Hlen Hm) as HR.
  destruct (BUFFER_RESERVE ar bi (ref + o_size o - ref)) as [[res newBase] ar1].
  destruct HR as (W1 & Q1 & P1).
  destruct res;
    [| split; [exact W1|]; split; [apply quiet_scan_rel, Q1|];
       split; [discriminate | split; reflexivity] ..].
  specialize (P1 eq_refl).
  assert (Hs1 : ar_seg ar1 i = s) by (apply (q_keep _ _ Q1), Hw).
  assert (Hi1 : (i < length (ar_segs ar1))%nat) by (pose proof (q_len _ _ Q1); lia).
  assert (Hm1 : buf_mutator (ar_buf ar1 bi) = false) by (rewrite (q_mut _ _ Q1); exact Hm).
  set (ar2 := (match buf_seg (ar_buf ar1 bi) with Some _ => _ | None => _ end : Arena)).
  assert (H2 : ArenaWF ar2 /\ scan_rel ar1 ar2 /\ ar_seg ar2 i = s
               /\ WhiteWork ar2 = WhiteWork ar1 /\ (GreyCount ar2 <= S (GreyCount ar1))%nat
               /\ (i < length (ar_segs ar2))%nat).
  { subst ar2.
    destruct (buf_seg (ar_buf ar1 bi)) as [x|] eqn:Hx;
      [destruct (SegIndexOfBase ar1 x) as [j|] eqn:Hj|];
      [| split; [apply WF_log_event, W1|]; split; [apply quiet_scan_rel, quiet_log_event|];
         split; [exact Hs1|]; split; [reflexivity|]; split; [rewrite GreyCount_log_event; lia | exact Hi1] ..].
    destruct (fwdseg_index ar1 bi x j W1 Hm1 Hx Hj) as [Hjl Hjw].
    assert (Hji : j <> i) by (intros ->; rewrite Hs1 in Hjw; congruence).
    pose proof (SegWF_at ar1 j W1 Hjl) as Hsj.
    rewrite (q_amc _ _ Q1) in Hsj.
    assert (Hpos : forall os, Forall (fun ao => 0 < o_size (snd ao)) os ->
               Forall (fun ao => 0 < o_size (snd ao))
                 (obj_set (newBase + amc_headerSize (ar_amc ar)) (mkObj (o_size o) (o_refs o) 0) os))
      by (intros os Hos; apply obj_set_pos; [exact Ho | exact Hos]).
    destruct (negb (seg_rankSet (ar_seg ar1 i) =? RankSetEMPTY)); cbv iota;
      (eapply set_nonwhite_log_ok;
       [ exact W1 | exact Hjl | exact Hjw | grey_mono | | exact Hs1 | exact Hw | exact Hi1 ]);
      rewrite (q_amc _ _ Q1); apply SegWF_SegSetObjs;
      [ repeat first [apply SegWF_SegSetGrey | apply SegWF_SegSetSummary]; exact Hsj
      | apply Hpos; seg_simpl; apply Hsj
      | repeat first [apply SegWF_SegSetGrey | apply SegWF_SegSetSummary]; exact Hsj
      | apply Hpos; seg_simpl; apply Hsj ]. }
  clearbody ar2. destruct H2 as (W2 & R2 & Hs2 & E2 & G2 & Hi2).
  destruct (BUFFER_COMMIT_ok ar2 bi W2) as [W3 Q3].
  destruct (BUFFER_COMMIT ar2 bi) as [c ar3]. cbn [snd] in W3, Q3.
  assert (Hs3 : ar_seg ar3 i = s) by (rewrite (q_keep _ _ Q3); [exact Hs2 | rewrite Hs2; exact Hw]).
  assert (Hi3 : (i < length (ar_segs ar3))%nat) by (pose proof (q_len _ _ Q3); lia).
  rewrite Hs3.
  set (newRef := newBase + amc_headerSize (ar_amc ar1)).
  assert (HnR : 0 < newRef) by (unfold newRef; rewrite (q_amc _ _ Q1); lia).
  set (s4 := SegSetObjs _ _).
  assert (Hr4 : seg_rel (ar_seg ar3 i) s4) by (rewrite Hs3; subst s4; seg_rel_solve).
  assert (Hwf4 : SegWF (amc_align (ar_amc ar3)) s4).
  { subst s4. rewrite (q_amc _ _ Q3).
    assert (A3 : ar_amc ar2 = ar_amc ar) by (destruct R2 as [A _]; rewrite A; exact (q_amc _ _ Q1)).
    rewrite A3. apply SegWF_SegSetObjs; [apply SegWF_SegSetAmcFlags, Hs|].
    apply obj_set_pos; [exact Ho | apply Hs]. }
  assert (Hwk : (seg_work (amc_align (ar_amc ar3)) s4 + 1 = seg_work (amc_align (ar_amc ar3)) s)%nat).
  { subst s4. unfold seg_work, seg_nailwork, seg_nbits. seg_simpl. rewrite Hw.
    match goal with
    | |- (seg_unmoved ?x + _ + 1 = _)%nat => enough (seg_unmoved x + 1 = seg_unmoved s)%nat by lia
    end.
    unfold seg_unmoved. seg_simpl.
    apply count_unmoved_change with (r := ref); [rewrite Z2Nat.id by lia; lia | | exact Hmv |].
    - intros x Hxr. unfold FormatIsMoved. seg_simpl. rewrite obj_find_set.
      apply Z.eqb_neq in Hxr. rewrite Hxr. reflexivity.
    - unfold FormatIsMoved. seg_simpl. rewrite obj_find_set, Z.eqb_refl. simpl. lia. }
  pose proof (WhiteWork_set_seg ar3 i s4 Hi3) as EW4.
  pose proof (GreyCount_set_seg ar3 i s4 Hi3) as EG4.
  rewrite Hs3 in EW4, EG4.
  assert (Hg4 : seg_grey s4 = seg_grey s) by reflexivity. rewrite Hg4 in EG4.
  split; [|split; [|split; [intros _ | split; reflexivity]]].
  - destruct Hr4 as (Hb4 & _ & Hw4 & Hgn4 & _). apply WF_set_seg; assumption.
  - eapply scan_rel_trans; [apply quiet_scan_rel, Q1|].
    eapply scan_rel_trans; [exact R2|].
    eapply scan_rel_trans; [apply quiet_scan_rel, Q3|].
    apply scan_rel_set_seg, Hr4.
  - pose proof (q_white _ _ Q1). pose proof (q_grey _ _ Q1).
    pose proof (q_white _ _ Q3). pose proof (q_grey _ _ Q3).
    apply work_dec_lt; unfold TraceWork; lia.
Qed.

Lemma board_none_of_unnailed al s :
  SegWF al s -> TraceSetIsMember (seg_nailed s) 0 = false -> seg_board s = None.
Proof.
  unfold SegWF. intros (_ & _ & Hb) Hn. destruct (seg_board s); [|reflexivity].
  destruct Hb as [_ Hb]. congruence.
Qed.

Ltac fix_unchanged Hwf :=
  split; [exact Hwf|]; split; [apply scan_rel_refl|];
  split; [intros _; apply work_dec_refl | split; reflexivity].

Lemma amcSegFix_ok ar i ss ref :
  ArenaWF ar -> (i < length (ar_segs ar))%nat ->
  TraceSetIsMember (seg_white (ar_seg ar i)) 0 = true ->
  seg_base (ar_seg ar i) <= ref < seg_limit (ar_seg ar i) ->
  ss_traces ss = TraceSetSingle0 ->
  let '(res, ref', ss', ar') := amcSegFix ar i ss ref in
  ArenaWF ar' /\ scan_rel ar ar' /\ (res = ResOK -> work_dec ar ar') /\ ss_rel ss ss'.
Proof.
  intros Hwf Hi Hw Hr Ht. unfold amcSegFix. cbv zeta.
  pose proof (SegWF_at ar i Hwf Hi) as Hs.
  set (s := ar_seg ar i) in *.
  destruct (Rank_eqb (ss_rank ss) RankAMBIG).
  - destruct (seg_nailed s =? TraceSetEMPTY) eqn:En.
    + destruct (negb (ar_boardOK ar)).
      { split; [exact Hwf|]. split; [apply scan_rel_refl|]. split; [discriminate | split; reflexivity]. }
      apply Z.eqb_eq in En.
      assert (Hn0 : TraceSetIsMember (seg_nailed s) 0 = false) by (rewrite En; reflexivity).
      assert (Hb0 : seg_board s = None) by exact (board_none_of_unnailed _ _ Hs Hn0).
      set (ss1 := ss_incr_nail ss).
      assert (Ht1 : ss_traces ss1 = TraceSetSingle0) by exact Ht.
      set (s1 := SegSetNailed _ _).
      assert (Hs1 : SegWF (amc_align (ar_amc ar)) s1).
      { subst s1. unfold SegWF, ObjsPositive, seg_nbits, NailboardCreateMarks. seg_simpl.
        destruct Hs as (Hb & Hp & _). split; [exact Hb|]. split; [exact Hp|].
        split; [rewrite repeat_length; reflexivity | rewrite Ht1; apply member_union_single0]. }
      assert (Hwk : (seg_work (amc_align (ar_amc ar)) s1 + 1 = seg_work (amc_align (ar_amc ar)) s)%nat).
      { subst s1. unfold seg_work, seg_nailwork, NailboardCreateMarks. seg_simpl.
        autorewrite with seg_unmoved_db. rewrite Hw, Hb0, Hn0, Ht1, member_union_single0.
        rewrite count_false_repeat. unfold seg_nbits. seg_simpl. lia. }
      assert (Hlt1 : (seg_work (amc_align (ar_amc ar)) s1 < seg_work (amc_align (ar_amc ar)) (ar_seg ar i))%nat)
        by (change (ar_seg ar i) with s; lia).
      destruct (set_seg_lt_ok ar i s1 Hwf Hi ltac:(subst s1; grey_mono) Hs1 Hlt1)
        as (W1 & R1 & Lw1 & Lt1).
      assert (Hs1i : ar_seg (ar_set_seg ar i s1) i = s1) by (apply ar_seg_set_seg_eq, Hi).
      destruct (amcSegFixInPlace_ok (ar_set_seg ar i s1) i ss1 ref W1)
        as (W2 & R2 & D2);
        [ cbn [ar_set_seg ar_set_segs ar_upd ar_segs]; rewrite length_list_set; exact Hi | rewrite Hs1i; exact Hw | rewrite Hs1i; exact Hr | exact Ht1 | ].
      split; [exact W2|]. split; [eapply scan_rel_trans; eauto|].
      split; [intros _; eapply work_dec_trans; [apply work_dec_lt; eassumption | exact D2]|].
      split; reflexivity.
    + destruct (amcSegFixInPlace_ok ar i ss ref Hwf Hi Hw Hr Ht) as (W2 & R2 & D2).
      split; [exact W2|]. split; [exact R2|]. split; [intros _; exact D2 | split; reflexivity].
  - destruct (FormatIsMoved s ref =? 0) eqn:Emv; [|fix_unchanged Hwf].
    destruct (negb (seg_nailed s =? TraceSetEMPTY) && _).
    + rewrite Ht, TraceSetSub_single0.
      destruct (TraceSetIsMember (seg_nailed s) 0) eqn:Hn; cbn [negb]; [fix_unchanged Hwf|].
      assert (Hb0 : seg_board s = None) by exact (board_none_of_unnailed _ _ Hs Hn).
      destruct (negb (seg_rankSet s =? RankSetEMPTY));
        (match goal with |- context [ar_set_seg _ _ ?s'] =>
           edestruct (set_seg_lt_ok ar i s') as (W1 & R1 & Lw1 & Lt1) end;
         [ exact Hwf | exact Hi | grey_mono
         | repeat first [apply SegWF_SegSetGrey | apply SegWF_SegSetNailed; [apply member_union_single0|]];
           exact Hs
         | change (ar_seg ar i) with s; unfold seg_work, seg_nailwork; seg_simpl; autorewrite with seg_unmoved_db;
           rewrite Hw, Hb0, Hn, member_union_single0; lia
         | ]);
        (split; [exact W1|]; split; [exact R1|];
         split; [intros _; apply work_dec_lt; assumption | split; reflexivity]).
    + destruct (Rank_eqb (ss_rank ss) RankWEAK); [fix_unchanged Hwf|].
      apply Z.eqb_eq in Emv.
      pose proof (amcSegForward_ok ar i ss ref Hwf Hi Hw Hr Emv) as H.
      destruct (amcSegForward ar i ss ref) as [[[res r'] ss'] ar']. exact H.
Qed.

Lemma seg_of_addr_from_ok a : forall segs k i s,
  seg_of_addr_from k segs a = Some (i, s) ->
  (k <= i)%nat /\ (i - k < length segs)%nat /\ nth (i - k) segs dummySeg = s
  /\ seg_base s <= a < seg_limit s.
Proof.
  induction segs as [|x segs IH]; intros k i s H; cbn [seg_of_addr_from] in H; [discriminate|].
  destruct ((seg_base x <=? a) && (a <? seg_limit x)) eqn:E.
  - injection H as <- <-. apply andb_prop in E as [E1 E2].
    apply Z.leb_le in E1. apply Z.ltb_lt in E2.
    rewrite Nat.sub_diag. cbn [length nth]. repeat split; lia.
  - destruct (IH (S k) i s H) as (Hk & Hl & Hn & Hr).
    replace (i - k)%nat with (S (i - S k)) by lia.
    cbn [length nth]. repeat split; try lia; assumption.
Qed.

Lemma SegOfAddr_ok ar a i s :
  SegOfAddr ar a = Some (i, s) ->
  (i < length (ar_segs ar))%nat /\ ar_seg ar i = s /\ seg_base s <= a < seg_limit s.
Proof.
  unfold SegOfAddr, ar_seg. intros H.
  destruct (seg_of_addr_from_ok a _ _ _ _ H) as (_ & Hl & Hn & Hr).
  rewrite Nat.sub_0_r in Hl, Hn. auto.
Qed.

Lemma amcSegFixEmergency_ok ar i ss ref :
  ArenaWF ar -> (i < length (ar_segs ar))%nat ->
  TraceSetIsMember (seg_white (ar_seg ar i)) 0 = true ->
  seg_base (ar_seg ar i) <= ref < seg_limit (ar_seg ar i) ->
  ss_traces ss = TraceSetSingle0 ->
  let '(res, ref', ar') := amcSegFixEmergency ar i ss ref in
  res = ResOK /\ ArenaWF ar' /\ scan_rel ar ar' /\ work_dec ar ar'.
Proof.
  intros Hwf Hi Hw Hr Ht. unfold amcSegFixEmergency.
  destruct (Rank_eqb (ss_rank ss) RankAMBIG);
    [split; [reflexivity | apply amcSegFixInPlace_ok; assumption]|].
  destruct (negb (FormatIsMoved (ar_seg ar i) ref =? 0));
    (split; [reflexivity|]); [apply fix_result_refl, Hwf | apply amcSegFixInPlace_ok; assumption].
Qed.

Lemma TraceFix_ok ar ss ref :
  ArenaWF ar -> ss_traces ss = TraceSetSingle0 ->
  let '(res, ref', ss', ar') := TraceFix ar ss ref in
  ArenaWF ar' /\ scan_rel ar ar' /\ (res = ResOK -> work_dec ar ar') /\ ss_rel ss ss'.
Proof.
  intros Hwf Ht. unfold TraceFix. cbv zeta.
  destruct (SegOfAddr ar ref) as [[i s]|] eqn:Ho;
    [|split; [exact Hwf|]; split; [apply scan_rel_refl|];
      split; [intros _; apply work_dec_refl | split; reflexivity]].
  destruct (SegOfAddr_ok ar ref i s Ho) as (Hi & Hs & Hr).
  cbn [ss_bump ss_set_counts ss_traces]. rewrite Ht, TraceSetInter_single0.
  destruct (TraceSetIsMember (seg_white s) 0) eqn:Hw; cbn [negb];
    [|split; [exact Hwf|]; split; [apply scan_rel_refl|];
      split; [intros _; apply work_dec_refl | split; reflexivity]].
  subst s.
  match goal with |- context [amcSegFix ar i ?ss0 ref] =>
    pose proof (amcSegFix_ok ar i ss0 ref Hwf Hi Hw Hr Ht) as Hf;
    destruct (amcSegFix ar i ss0 ref) as [[[res r'] ss'] ar']
  end.
  destruct Hf as (W & R & D & S).
  assert (S' : ss_rel ss ss') by (eapply ss_rel_trans; [|exact S]; split; reflexivity).
  destruct res; (split; [exact W|]; split; [exact R|]; split; [exact D|]);
    first [exact S' | eapply ss_rel_trans; [exact S' | split; reflexivity]].
Qed.

Lemma TraceFixEmergency_ok ar ss ref :
  ArenaWF ar -> ss_traces ss = TraceSetSingle0 ->
  let '(res, ref', ss', ar') := TraceFixEmergency ar ss ref in
  res = ResOK /\ ArenaWF ar' /\ scan_rel ar ar' /\ work_dec ar ar' /\ ss_rel ss ss'.
Proof.
  intros Hwf Ht. unfold TraceFixEmergency. cbv zeta.
  destruct (SegOfAddr ar ref) as [[i s]|] eqn:Ho;
    [|split; [reflexivity|]; split; [exact Hwf|]; split; [apply scan_rel_refl|];
      split; [apply work_dec_refl | split; reflexivity]].
  destruct (SegOfAddr_ok ar ref i s Ho) as (Hi & Hs & Hr).
  cbn [ss_bump ss_set_counts ss_traces]. rewrite Ht, TraceSetInter_single0.
  destruct (TraceSetIsMember (seg_white s) 0) eqn:Hw; cbn [negb];
    [|split; [reflexivity|]; split; [exact Hwf|]; split; [apply scan_rel_refl|];
      split; [apply work_dec_refl | split; reflexivity]].
  subst s.
  match goal with |- context [amcSegFixEmergency ar i ?ss0 ref] =>
    pose proof (amcSegFixEmergency_ok ar i ss0 ref Hwf Hi Hw Hr Ht) as Hf;
    destruct (amcSegFixEmergency ar i ss0 ref) as [[res r'] ar']
  end.
  destruct Hf as (_ & W & R & D).
  split; [reflexivity|]. split; [exact W|]. split; [exact R|]. split; [exact D|].
  split; reflexivity.
Qed.

Lemma ScanStateFix_ok ar ss ref :
  ArenaWF ar -> ss_traces ss = TraceSetSingle0 ->
  let '(res, ref', ss', ar') := ScanStateFix ar ss ref in
  step_ok (ss_emergencyFix ss) ar ar' res /\ ss_rel ss ss'.
Proof.
  intros Hwf Ht. unfold ScanStateFix, step_ok.
  destruct (ss_emergencyFix ss) eqn:He.
  - pose proof (TraceFixEmergency_ok ar ss ref Hwf Ht) as H.
    destruct (TraceFixEmergency ar ss ref) as [[[res r'] ss'] ar'].
    destruct H as (-> & W & R & D & S).
    split; [|exact S]. split; [exact W|]. split; [exact R|]. split; intros _; [exact D | reflexivity].
  - pose proof (TraceFix_ok ar ss ref Hwf Ht) as H.
    destruct (TraceFix ar ss ref) as [[[res r'] ss'] ar'].
    destruct H as (W & R & D & S).
    split; [|exact S]. split; [exact W|]. split; [exact R|]. split; [exact D|]. discriminate.
Qed.

(** *** Scanning *)

Lemma step_ok_refl em ar : ArenaWF ar -> step_ok em ar ar ResOK.
Proof.
  intros H. split; [exact H|]. split; [apply scan_rel_refl|].
  split; [intros _; apply work_dec_refl | intros _; reflexivity].
Qed.

Lemma step_ok_trans em a b c r : step_ok em a b ResOK -> step_ok em b c r -> step_ok em a c r.
Proof.
  intros (_ & R1 & D1 & _) (W2 & R2 & D2 & E2).
  split; [exact W2|]. split; [eapply scan_rel_trans; eauto|].
  split; [intros Hr; eapply work_dec_trans; [apply D1; reflexivity | apply D2, Hr] | exact E2].
Qed.

Lemma FormatIsMoved_SegSetSlot s p k v x :
  FormatIsMoved (SegSetSlot s p k v) x = FormatIsMoved s x.
Proof.
  unfold SegSetSlot. destruct (obj_find p (seg_objs s)) as [o|] eqn:Ep; [|reflexivity].
  unfold FormatIsMoved. cbn [seg_objs SegSetObjs seg_upd]. rewrite obj_find_set.
  destruct (x =? p) eqn:Ex; [|reflexivity].
  apply Z.eqb_eq in Ex. subst x. rewrite Ep. reflexivity.
Qed.

Lemma SegSetSlot_fields s p k v :
  seg_base (SegSetSlot s p k v) = seg_base s /\ seg_limit (SegSetSlot s p k v) = seg_limit s
  /\ seg_white (SegSetSlot s p k v) = seg_white s /\ seg_gen (SegSetSlot s p k v) = seg_gen s
  /\ seg_grey (SegSetSlot s p k v) = seg_grey s /\ seg_nailed (SegSetSlot s p k v) = seg_nailed s
  /\ seg_board (SegSetSlot s p k v) = seg_board s.
Proof. unfold SegSetSlot. destruct (obj_find p (seg_objs s)); repeat split. Qed.

Lemma SegWF_SegSetSlot al s p k v : SegWF al s -> SegWF al (SegSetSlot s p k v).
Proof.
  intros Hs. unfold SegSetSlot. destruct (obj_find p (seg_objs s)) as [o|] eqn:Ep; [|exact Hs].
  apply SegWF_SegSetObjs; [exact Hs|]. destruct Hs as (_ & Hpos & _).
  apply obj_set_pos; [cbn [o_size]; exact (obj_find_pos _ _ _ Ep Hpos) | exact Hpos].
Qed.

Lemma seg_work_SegSetSlot al s p k v : seg_work al (SegSetSlot s p k v) = seg_work al s.
Proof.
  destruct (SegSetSlot_fields s p k v) as (Hb & Hl & Hw & _ & _ & Hn & Hbd).
  unfold seg_work, seg_nailwork, seg_nbits, seg_unmoved.
  rewrite Hb, Hl, Hw, Hn, Hbd.
  rewrite (count_unmoved_ext s (SegSetSlot s p k v)) by apply FormatIsMoved_SegSetSlot.
  reflexivity.
Qed.

Lemma ar_set_seg_out_id ar i s : (length (ar_segs ar) <= i)%nat -> ar_set_seg ar i s = ar.
Proof. intros H. unfold ar_set_seg. rewrite list_set_out by exact H. destruct ar; reflexivity. Qed.

Lemma set_slot_ok em ar i p k v :
  ArenaWF ar -> step_ok em ar (ar_set_seg ar i (SegSetSlot (ar_seg ar i) p k v)) ResOK.
Proof.
  intros Hwf. destruct (Nat.lt_ge_cases i (length (ar_segs ar))) as [Hi|Hi];
    [|rewrite ar_set_seg_out_id by exact Hi; apply step_ok_refl, Hwf].
  destruct (SegSetSlot_fields (ar_seg ar i) p k v) as (Hb & Hl & Hw & Hg & Hgr & _ & Hbd).
  destruct (set_seg_eq_ok ar i (SegSetSlot (ar_seg ar i) p k v)) as (W & R & D); try assumption.
  - unfold seg_rel. rewrite Hb, Hl, Hw, Hg, Hgr. auto.
  - apply SegWF_SegSetSlot, SegWF_at; assumption.
  - apply seg_work_SegSetSlot.
  - rewrite Hgr. reflexivity.
  - split; [exact W|]. split; [exact R|]. split; [intros _; exact D | intros _; reflexivity].
Qed.

Lemma FormatScanSlots_ok fuel i : forall ar ss p k,
  ArenaWF ar -> ss_traces ss = TraceSetSingle0 ->
  let '(res, ss', ar') := FormatScanSlots fuel ar i ss p k in
  step_ok (ss_emergencyFix ss) ar ar' res /\ ss_rel ss ss'.
Proof.
  induction fuel as [|fuel IH]; intros ar ss p k Hwf Ht; cbn [FormatScanSlots];
    [split; [apply step_ok_refl, Hwf | apply ss_rel_refl]|].
  destruct (nth_error _ k) as [ref|]; [|split; [apply step_ok_refl, Hwf | apply ss_rel_refl]].
  cbv zeta.
  set (ss1 := ss_set_unfixed ss _).
  assert (S1 : ss_rel ss ss1) by (split; reflexivity).
  assert (Ht1 : ss_traces ss1 = TraceSetSingle0) by exact Ht.
  assert (E1 : ss_emergencyFix ss1 = ss_emergencyFix ss) by reflexivity.
  destruct (_ =? RefSetEMPTY).
  - pose proof (IH ar ss1 p (S k) Hwf Ht1) as H.
    destruct (FormatScanSlots fuel ar i ss1 p (S k)) as [[res ss'] ar'].
    destruct H as [H S2]. rewrite E1 in H. split; [exact H | eapply ss_rel_trans; [exact S1 | exact S2]].
  - pose proof (ScanStateFix_ok ar ss1 ref Hwf Ht1) as H.
    destruct (ScanStateFix ar ss1 ref) as [[[res ref'] ss2] ar2].
    destruct H as [H S2]. rewrite E1 in H.
    destruct res; [|split; [exact H | eapply ss_rel_trans; [exact S1 | exact S2]] ..].
    assert (Ht2 : ss_traces ss2 = TraceSetSingle0) by (destruct S2 as [-> _]; exact Ht1).
    pose proof (set_slot_ok (ss_emergencyFix ss) ar2 i p k ref' (proj1 H)) as H3.
    pose proof (IH _ ss2 p (S k) (proj1 H3) Ht2) as H4.
    destruct (FormatScanSlots fuel _ i ss2 p (S k)) as [[res ss'] ar'].
    destruct H4 as [H4 S4].
    assert (E2 : ss_emergencyFix ss2 = ss_emergencyFix ss) by (destruct S2 as [_ ->]; exact E1).
    rewrite E2 in H4. split.
    + eapply step_ok_trans; [exact H|]. eapply step_ok_trans; [exact H3 | exact H4].
    + eapply ss_rel_trans; [exact S1|]. eapply ss_rel_trans; [exact S2 | exact S4].
Qed.

Lemma ObjsPositive_seg ar i : ArenaWF ar -> ObjsPositive (ar_seg ar i).
Proof.
  intros Hwf. destruct (Nat.lt_ge_cases i (length (ar_segs ar))) as [Hi|Hi].
  - exact (proj1 (proj2 (SegWF_at ar i Hwf Hi))).
  - unfold ar_seg. rewrite nth_overflow by exact Hi. constructor.
Qed.

Lemma FormatSkip_gt ar i p :
  ArenaWF ar -> p < FormatSkip (amc_align (ar_amc ar)) (ar_seg ar i) p.
Proof.
  intros Hwf. unfold FormatSkip.
  pose proof (ObjAt_pos _ _ p (wf_align _ Hwf) (ObjsPositive_seg ar i Hwf)). lia.
Qed.

Lemma FormatScanArea_ok fuel i : forall ar ss p limit,
  ArenaWF ar -> ss_traces ss = TraceSetSingle0 -> (Z.to_nat (limit - p) < fuel)%nat ->
  exists res ss' ar', FormatScanArea fuel ar i ss p limit = Some (res, ss', ar')
    /\ step_ok (ss_emergencyFix ss) ar ar' res /\ ss_rel ss ss'.
Proof.
  induction fuel as [|fuel IH]; intros ar ss p limit Hwf Ht Hf; [lia|].
  cbn [FormatScanArea].
  destruct (p <? limit) eqn:Hp;
    [|do 3 eexists; split; [reflexivity|]; split; [apply step_ok_refl, Hwf | apply ss_rel_refl]].
  apply Z.ltb_lt in Hp.
  pose proof (FormatSkip_gt ar i p Hwf) as Hq.
  set (q := FormatSkip _ _ p) in *. clearbody q.
  match goal with |- context [FormatScanSlots ?n ar i ss p O] =>
    pose proof (FormatScanSlots_ok n i ar ss p O Hwf Ht) as H;
    destruct (FormatScanSlots n ar i ss p O) as [[res ss2] ar2]
  end.
  destruct H as [H S2].
  destruct res; [|do 3 eexists; split; [reflexivity|]; split; [exact H | exact S2] ..].
  assert (Ht2 : ss_traces ss2 = TraceSetSingle0) by (destruct S2 as [-> _]; exact Ht).
  destruct (IH ar2 ss2 q limit (proj1 H) Ht2 ltac:(lia)) as (res & ss' & ar' & E & H' & S').
  exists res, ss', ar'. split; [exact E|].
  assert (E2 : ss_emergencyFix ss2 = ss_emergencyFix ss) by (destruct S2 as [_ ->]; reflexivity).
  rewrite E2 in H'. split; [eapply step_ok_trans; eauto | eapply ss_rel_trans; eauto].
Qed.

Lemma TraceScanFormat_ok ar i ss base limit :
  ArenaWF ar -> ss_traces ss = TraceSetSingle0 ->
  exists res ss' ar', TraceScanFormat ar i ss base limit = Some (res, ss', ar')
    /\ step_ok (ss_emergencyFix ss) ar ar' res /\ ss_rel ss ss'.
Proof.
  intros Hwf Ht. unfold TraceScanFormat.
  destruct (FormatScanArea_ok (S (Z.to_nat (limit - base))) i ar (ss_add_scanned ss (limit - base))
              base limit Hwf Ht ltac:(lia)) as (res & ss' & ar' & E & H & S).
  exists res, ss', ar'. split; [exact E|]. split; [exact H|].
  eapply ss_rel_trans; [|exact S]. split; reflexivity.
Qed.

Lemma amcSegScanNailedRange_ok fuel i : forall ar ss total p cl,
  ArenaWF ar -> ss_traces ss = TraceSetSingle0 -> (Z.to_nat (cl - p) < fuel)%nat ->
  exists res total' ss' ar', amcSegScanNailedRange fuel ar i ss total p cl = Some (res, total', ss', ar')
    /\ step_ok (ss_emergencyFix ss) ar ar' res /\ ss_rel ss ss'.
Proof.
  induction fuel as [|fuel IH]; intros ar ss total p cl Hwf Ht Hf; [lia|].
  cbn [amcSegScanNailedRange].
  destruct (p <? cl) eqn:Hp;
    [|do 4 eexists; split; [reflexivity|]; split; [apply step_ok_refl, Hwf | apply ss_rel_refl]].
  apply Z.ltb_lt in Hp.
  pose proof (FormatSkip_gt ar i p Hwf) as Hq.
  set (q := FormatSkip _ _ p) in *. clearbody q.
  destruct (SegPinned ar i p q); [|apply IH; [exact Hwf | exact Ht | lia]].
  destruct (TraceScanFormat_ok ar i ss p q Hwf Ht) as (res & ss2 & ar2 & E & H & S2).
  rewrite E.
  destruct res; [|do 4 eexists; split; [reflexivity|]; split; [exact H | exact S2] ..].
  assert (Ht2 : ss_traces ss2 = TraceSetSingle0) by (destruct S2 as [-> _]; exact Ht).
  destruct (IH ar2 ss2 total q cl (proj1 H) Ht2 ltac:(lia)) as (res & t' & ss' & ar' & E' & H' & S').
  exists res, t', ss', ar'. split; [exact E'|].
  assert (E2 : ss_emergencyFix ss2 = ss_emergencyFix ss) by (destruct S2 as [_ ->]; reflexivity).
  rewrite E2 in H'. split; [eapply step_ok_trans; eauto | eapply ss_rel_trans; eauto].
Qed.

Lemma amcSegScanNailedRange'_ok ar i ss total base limit :
  ArenaWF ar -> ss_traces ss = TraceSetSingle0 ->
  exists res total' ss' ar', amcSegScanNailedRange' ar i ss total base limit = Some (res, total', ss', ar')
    /\ step_ok (ss_emergencyFix ss) ar ar' res /\ ss_rel ss ss'.
Proof.
  intros Hwf Ht. unfold amcSegScanNailedRange'. apply amcSegScanNailedRange_ok; [exact Hwf | exact Ht | lia].
Qed.

Lemma SegBuffer_same ar ar' s s' :
  ar_bufs ar' = ar_bufs ar -> seg_base s' = seg_base s -> SegBuffer ar' s' = SegBuffer ar s.
Proof. unfold SegBuffer. intros -> ->. reflexivity. Qed.

Lemma scan_rel_base ar ar' i :
  scan_rel ar ar' -> (i < length (ar_segs ar))%nat ->
  seg_base (ar_seg ar' i) = seg_base (ar_seg ar i) /\ (i < length (ar_segs ar'))%nat.
Proof. intros (_ & _ & Hl & Hr) Hi. split; [apply (Hr i Hi) | lia]. Qed.

(** After a step that returned OK, a buffer of the segment scanned up to
    [limit] has moved past it only if the white work went down. *)
Lemma buffer_moved ar ar' i bi b fuel :
  scan_rel ar ar' -> work_dec ar ar' -> (i < length (ar_segs ar))%nat ->
  SegBuffer ar (ar_seg ar i) = Some (bi, b) -> (WhiteWork ar < S fuel)%nat ->
  forall bi2 b2, SegBuffer ar' (ar_seg ar' i) = Some (bi2, b2) ->
  BufferScanLimit b < BufferScanLimit b2 -> (WhiteWork ar' < fuel)%nat.
Proof.
  intros R (Dw & _ & Db & _) Hi Hb Hf bi2 b2 Hb2 Hlt.
  destruct Db as [Db|Db]; [|lia].
  rewrite (SegBuffer_same ar ar' (ar_seg ar i) (ar_seg ar' i) Db (proj1 (scan_rel_base _ _ _ R Hi))) in Hb2.
  rewrite Hb in Hb2. injection Hb2 as _ <-. lia.
Qed.

Lemma amcSegScanNailedOnceLoop_ok fuel i : forall ar ss total p,
  ArenaWF ar -> ss_traces ss = TraceSetSingle0 -> (i < length (ar_segs ar))%nat ->
  (forall bi b, SegBuffer ar (ar_seg ar i) = Some (bi, b) -> p < BufferScanLimit b ->
                (WhiteWork ar < fuel)%nat) ->
  exists res total' more ss' ar',
    amcSegScanNailedOnceLoop fuel ar i ss total p = Some (res, total', more, ss', ar')
    /\ step_ok (ss_emergencyFix ss) ar ar' res /\ ss_rel ss ss'
    /\ (res = ResOK -> more = SegNewNails ar' i).
Proof.
  induction fuel as [|fuel IH]; intros ar ss total p Hwf Ht Hi Hf; cbn [amcSegScanNailedOnceLoop].
  - destruct (SegBuffer ar (ar_seg ar i)) as [[bi b]|] eqn:Hb.
    + destruct (BufferScanLimit b <=? p) eqn:Hl;
        [|apply Z.leb_gt in Hl; specialize (Hf bi b eq_refl Hl); lia].
      do 5 eexists. split; [reflexivity|].
      split; [apply step_ok_refl, Hwf|]. split; [apply ss_rel_refl | reflexivity].
    + destruct (amcSegScanNailedRange'_ok ar i ss total p (seg_limit (ar_seg ar i)) Hwf Ht)
        as (res & t' & ss' & ar' & E & H & S).
      rewrite E. destruct res; do 5 eexists; (split; [reflexivity|]); split; try exact H;
        split; try exact S; try reflexivity; discriminate.
  - destruct (SegBuffer ar (ar_seg ar i)) as [[bi b]|] eqn:Hb.
    + destruct (BufferScanLimit b <=? p) eqn:Hl.
      { do 5 eexists. split; [reflexivity|].
        split; [apply step_ok_refl, Hwf|]. split; [apply ss_rel_refl | reflexivity]. }
      apply Z.leb_gt in Hl. pose proof (Hf bi b eq_refl Hl) as Hw.
      destruct (amcSegScanNailedRange'_ok ar i ss total p (BufferScanLimit b) Hwf Ht)
        as (res & t2 & ss2 & ar2 & E & H & S2).
      rewrite E.
      destruct res; [|do 5 eexists; (split; [reflexivity|]); split; try exact H;
                      split; try exact S2; discriminate ..].
      assert (Ht2 : ss_traces ss2 = TraceSetSingle0) by (destruct S2 as [-> _]; exact Ht).
      destruct H as (W2 & R2 & D2 & M2).
      destruct (IH ar2 ss2 t2 (BufferScanLimit b) W2 Ht2 (proj2 (scan_rel_base _ _ _ R2 Hi))
                   (buffer_moved ar ar2 i bi b fuel R2 (D2 eq_refl) Hi Hb Hw))
        as (res & t' & more & ss' & ar' & E' & H' & S' & M').
      exists res, t', more, ss', ar'. split; [exact E'|].
      assert (E2 : ss_emergencyFix ss2 = ss_emergencyFix ss) by (destruct S2 as [_ ->]; reflexivity).
      rewrite E2 in H'. split; [|split; [eapply ss_rel_trans; eauto | exact M']].
      eapply step_ok_trans; [|exact H']. split; [exact W2|]. split; [exact R2|]. split; assumption.
    + destruct (amcSegScanNailedRange'_ok ar i ss total p (seg_limit (ar_seg ar i)) Hwf Ht)
        as (res & t' & ss' & ar' & E & H & S).
      rewrite E. destruct res; do 5 eexists; (split; [reflexivity|]); split; try exact H;
        split; try exact S; try reflexivity; discriminate.
Qed.

Lemma SegClearNewNails_ok em ar i :
  ArenaWF ar -> (i < length (ar_segs ar))%nat ->
  step_ok em ar (SegClearNewNails ar i) ResOK /\ SegNewNails (SegClearNewNails ar i) i = false
  /\ WhiteWork (SegClearNewNails ar i) = WhiteWork ar.
Proof.
  intros Hwf Hi. unfold SegClearNewNails.
  pose proof (SegWF_at ar i Hwf Hi) as Hs.
  set (s := ar_seg ar i) in *.
  destruct (seg_board s) as [b|] eqn:Hb.
  2:{ split; [apply step_ok_refl, Hwf|]. split; [|reflexivity].
      unfold SegNewNails. fold s. rewrite Hb. reflexivity. }
  pose proof Hs as Hs'. unfold SegWF in Hs'. rewrite Hb in Hs'. destruct Hs' as (_ & _ & Hl & Hn).
  set (s' := SegSetBoard s (Some (NailboardClearNewNails b))).
  assert (Hw : seg_work (amc_align (ar_amc ar)) s' = seg_work (amc_align (ar_amc ar)) s).
  { unfold s', seg_work, seg_nailwork, seg_nbits. seg_simpl. rewrite Hb.
    autorewrite with seg_unmoved_db. reflexivity. }
  assert (Hr : seg_rel (ar_seg ar i) s') by (unfold s'; seg_rel_solve).
  assert (Hs1 : SegWF (amc_align (ar_amc ar)) s') by (apply SegWF_SegSetBoard; assumption).
  pose proof (WhiteWork_set_seg ar i s' Hi) as WW. pose proof (GreyCount_set_seg ar i s' Hi) as GC.
  change (ar_seg ar i) with s in WW, GC. rewrite Hw in WW.
  assert (Hg : seg_grey s' = seg_grey s) by reflexivity. rewrite Hg in GC.
  assert (Hnn : SegNewNails (ar_set_seg ar i s') i = false).
  { unfold SegNewNails. rewrite ar_seg_set_seg_eq by exact Hi. reflexivity. }
  split; [|split; [exact Hnn | lia]].
  split; [destruct Hr as (Hb' & _ & Hw' & Hg' & _); apply WF_set_seg; assumption|].
  split; [apply scan_rel_set_seg, Hr|].
  split; [|intros _; reflexivity]. intros _.
  unfold work_dec, TraceWork. split; [lia|]. split; [lia|]. split; [left; reflexivity|].
  intros j Hj. left. destruct (Nat.eq_dec j i) as [->|Hne]; [congruence|].
  unfold SegNewNails in *. rewrite ar_seg_set_seg_neq in Hj by exact Hne. exact Hj.
Qed.

Lemma amcSegScanNailedOnce_ok ar i ss :
  ArenaWF ar -> ss_traces ss = TraceSetSingle0 -> (i < length (ar_segs ar))%nat ->
  exists res total more ss' ar',
    amcSegScanNailedOnce ar i ss = Some (res, total, more, ss', ar')
    /\ step_ok (ss_emergencyFix ss) ar ar' res /\ ss_rel ss ss'
    /\ (res = ResOK -> more = true -> (WhiteWork ar' < WhiteWork ar)%nat).
Proof.
  intros Hwf Ht Hi. unfold amcSegScanNailedOnce.
  destruct (SegClearNewNails_ok (ss_emergencyFix ss) ar i Hwf Hi) as (H1 & N1 & W1).
  set (ar1 := SegClearNewNails ar i) in *.
  destruct H1 as (Wf1 & R1 & D1 & _).
  destruct (amcSegScanNailedOnceLoop_ok (S (S (WhiteWork ar1))) i ar1 ss true (seg_base (ar_seg ar1 i))
              Wf1 Ht (proj2 (scan_rel_base _ _ _ R1 Hi)) ltac:(intros; lia))
    as (res & t & more & ss' & ar' & E & H & S & M).
  exists res, t, more, ss', ar'. split; [exact E|].
  split; [eapply step_ok_trans; [|exact H]; split; [exact Wf1|]; split; [exact R1|];
          split; [exact D1 | reflexivity]|].
  split; [exact S|]. intros Hr Hm. rewrite (M Hr) in Hm.
  destruct H as (_ & _ & D & _). destruct (D Hr) as (_ & _ & _ & Dn).
  destruct (Dn i Hm) as [Hc|Hc]; [congruence | lia].
Qed.

Lemma amcSegScanNailedLoop_ok fuel i : forall loops ar ss,
  ArenaWF ar -> ss_traces ss = TraceSetSingle0 -> (i < length (ar_segs ar))%nat ->
  (WhiteWork ar < fuel)%nat ->
  exists res total loops' ss' ar',
    amcSegScanNailedLoop fuel loops ar i ss = Some (res, total, loops', ss', ar')
    /\ step_ok (ss_emergencyFix ss) ar ar' res /\ ss_rel ss ss'.
Proof.
  induction fuel as [|fuel IH]; intros loops ar ss Hwf Ht Hi Hf; [lia|].
  cbn [amcSegScanNailedLoop].
  destruct (amcSegScanNailedOnce_ok ar i ss Hwf Ht Hi) as (res & t & more & ss2 & ar2 & E & H & S2 & M).
  rewrite E.
  destruct res; [|do 5 eexists; (split; [reflexivity|]); split; [exact H | exact S2] ..].
  destruct more; [|do 5 eexists; (split; [reflexivity|]); split; [exact H | exact S2]].
  assert (Ht2 : ss_traces ss2 = TraceSetSingle0) by (destruct S2 as [-> _]; exact Ht).
  pose proof (M eq_refl eq_refl) as Hlt.
  destruct (IH (S loops) ar2 ss2 (proj1 H) Ht2 (proj2 (scan_rel_base _ _ _ (proj1 (proj2 H)) Hi))
              ltac:(lia)) as (res & t' & l' & ss' & ar' & E' & H' & S').
  exists res, t', l', ss', ar'. split; [exact E'|].
  assert (E2 : ss_emergencyFix ss2 = ss_emergencyFix ss) by (destruct S2 as [_ ->]; reflexivity).
  rewrite E2 in H'. split; [eapply step_ok_trans; eauto | eapply ss_rel_trans; eauto].
Qed.

Lemma amcSegScanNailed_ok ar i ss :
  ArenaWF ar -> ss_traces ss = TraceSetSingle0 -> (i < length (ar_segs ar))%nat ->
  exists res total ss' ar', amcSegScanNailed ar i ss = Some (res, total, ss', ar')
    /\ step_ok (ss_emergencyFix ss) ar ar' res /\ ss_rel ss ss'.
Proof.
  intros Hwf Ht Hi. unfold amcSegScanNailed.
  destruct (amcSegScanNailedLoop_ok (S (S (WhiteWork ar))) i O ar ss Hwf Ht Hi ltac:(lia))
    as (res & t & l & ss' & ar' & E & H & S).
  rewrite E. destruct res; do 4 eexists; (split; [reflexivity|]); split; try exact H; try exact S.
  destruct (Nat.ltb 1 l); [|exact S]. eapply ss_rel_trans; [exact S | split; reflexivity].
Qed.

Lemma amcSegScanLoop_ok fuel i : forall ar ss base,
  ArenaWF ar -> ss_traces ss = TraceSetSingle0 -> (i < length (ar_segs ar))%nat ->
  (forall bi b, SegBuffer ar (ar_seg ar i) = Some (bi, b) ->
                base < BufferScanLimit b + amc_headerSize (ar_amc ar) -> (WhiteWork ar < fuel)%nat) ->
  exists res total ss' ar', amcSegScanLoop fuel ar i ss base = Some (res, total, ss', ar')
    /\ step_ok (ss_emergencyFix ss) ar ar' res /\ ss_rel ss ss'.
Proof.
  induction fuel as [|fuel IH]; intros ar ss base Hwf Ht Hi Hf; cbn [amcSegScanLoop]; cbv zeta.
  - destruct (SegBuffer ar (ar_seg ar i)) as [[bi b]|] eqn:Hb.
    + destruct (_ <=? base) eqn:Hl;
        [|apply Z.leb_gt in Hl; specialize (Hf bi b eq_refl Hl); lia].
      do 4 eexists. split; [reflexivity|]. split; [apply step_ok_refl, Hwf | apply ss_rel_refl].
    + destruct (base <? _);
        [|do 4 eexists; split; [reflexivity|]; split; [apply step_ok_refl, Hwf | apply ss_rel_refl]].
      match goal with |- context [TraceScanFormat ar i ss base ?l] =>
        destruct (TraceScanFormat_ok ar i ss base l Hwf Ht) as (res & ss' & ar' & E & H & S) end.
      rewrite E. destruct res; do 4 eexists; (split; [reflexivity|]); (split; [exact H | exact S]).
  - destruct (SegBuffer ar (ar_seg ar i)) as [[bi b]|] eqn:Hb.
    + destruct (_ <=? base) eqn:Hl.
      { do 4 eexists. split; [reflexivity|]. split; [apply step_ok_refl, Hwf | apply ss_rel_refl]. }
      apply Z.leb_gt in Hl. pose proof (Hf bi b eq_refl Hl) as Hw.
      match goal with |- context [TraceScanFormat ar i ss base ?l] =>
        destruct (TraceScanFormat_ok ar i ss base l Hwf Ht) as (res & ss2 & ar2 & E & H & S2) end.
      rewrite E.
      destruct res; [|do 4 eexists; (split; [reflexivity|]); split; [exact H | exact S2] ..].
      assert (Ht2 : ss_traces ss2 = TraceSetSingle0) by (destruct S2 as [-> _]; exact Ht).
      destruct H as (W2 & R2 & D2 & M2).
      pose proof (buffer_moved ar ar2 i bi b fuel R2 (D2 eq_refl) Hi Hb Hw) as Hm.
      assert (Hh : amc_headerSize (ar_amc ar2) = amc_headerSize (ar_amc ar))
        by (destruct R2 as [-> _]; reflexivity).
      destruct (IH ar2 ss2 (BufferScanLimit b + amc_headerSize (ar_amc ar)) W2 Ht2
                   (proj2 (scan_rel_base _ _ _ R2 Hi))
                   ltac:(intros bi2 b2 Hb2 Hlt; apply (Hm bi2 b2 Hb2); lia))
        as (res & t' & ss' & ar' & E' & H' & S').
      exists res, t', ss', ar'. split; [exact E'|].
      assert (E2 : ss_emergencyFix ss2 = ss_emergencyFix ss) by (destruct S2 as [_ ->]; reflexivity).
      rewrite E2 in H'. split; [|eapply ss_rel_trans; eauto].
      eapply step_ok_trans; [|exact H']. split; [exact W2|]. split; [exact R2|]. split; assumption.
    + destruct (base <? _);
        [|do 4 eexists; split; [reflexivity|]; split; [apply step_ok_refl, Hwf | apply ss_rel_refl]].
      match goal with |- context [TraceScanFormat ar i ss base ?l] =>
        destruct (TraceScanFormat_ok ar i ss base l Hwf Ht) as (res & ss' & ar' & E & H & S) end.
      rewrite E. destruct res; do 4 eexists; (split; [reflexivity|]); (split; [exact H | exact S]).
Qed.

Lemma amcSegScan_ok ar i ss :
  ArenaWF ar -> ss_traces ss = TraceSetSingle0 -> (i < length (ar_segs ar))%nat ->
  exists res total ss' ar', amcSegScan ar i ss = Some (res, total, ss', ar')
    /\ step_ok (ss_emergencyFix ss) ar ar' res /\ ss_rel ss ss'.
Proof.
  intros Hwf Ht Hi. unfold amcSegScan.
  destruct (amcSegHasNailboard (ar_seg ar i)); [apply amcSegScanNailed_ok; assumption|].
  apply amcSegScanLoop_ok; try assumption. intros; lia.
Qed.

(** *** Scanning a grey segment *)

Lemma WF_set_trace ar t : ArenaWF ar -> ArenaWF (ar_set_trace ar t).
Proof. intros H. apply (WF_same ar); auto. Qed.

Lemma TraceWork_set_trace ar t : TraceWork (ar_set_trace ar t) = TraceWork ar.
Proof. reflexivity. Qed.

Lemma ungrey_ok ar i :
  ArenaWF ar -> (i < length (ar_segs ar))%nat ->
  TraceSetIsMember (seg_grey (ar_seg ar i)) 0 = true ->
  let s := ar_seg ar i in
  let ar' := ar_set_seg ar i (SegSetGrey s (TraceSetDiff (seg_grey s) TraceSetSingle0)) in
  ArenaWF ar' /\ (TraceWork ar' < TraceWork ar)%nat /\ ar_trace ar' = ar_trace ar.
Proof.
  intros Hwf Hi Hg. cbv zeta. set (s := ar_seg ar i) in *.
  set (s' := SegSetGrey s (TraceSetDiff (seg_grey s) TraceSetSingle0)).
  assert (Hg' : TraceSetIsMember (seg_grey s') 0 = false).
  { unfold s', TraceSetIsMember. seg_simpl. rewrite testbit_diff by lia.
    unfold TraceSetIsMember in Hg. fold s in Hg. rewrite Hg. reflexivity. }
  assert (Hw : seg_work (amc_align (ar_amc ar)) s' = seg_work (amc_align (ar_amc ar)) s).
  { unfold s', seg_work, seg_nailwork, seg_nbits. seg_simpl. autorewrite with seg_unmoved_db.
    reflexivity. }
  pose proof (WhiteWork_set_seg ar i s' Hi) as WW. pose proof (GreyCount_set_seg ar i s' Hi) as GC.
  change (ar_seg ar i) with s in WW, GC. rewrite Hw in WW. rewrite Hg, Hg' in GC.
  split; [|split; [unfold TraceWork; lia | reflexivity]].
  apply WF_set_seg; [exact Hwf | | reflexivity ..].
  apply SegWF_SegSetGrey, SegWF_at; assumption.
Qed.

Lemma summary_ok ar i r :
  ArenaWF ar -> (i < length (ar_segs ar))%nat ->
  let ar' := ar_set_seg ar i (SegSetSummary (ar_seg ar i) r) in
  ArenaWF ar' /\ TraceWork ar' = TraceWork ar /\ ar_trace ar' = ar_trace ar
  /\ (i < length (ar_segs ar'))%nat
  /\ seg_grey (ar_seg ar' i) = seg_grey (ar_seg ar i).
Proof.
  intros Hwf Hi. cbv zeta.
  set (s := ar_seg ar i). set (s' := SegSetSummary s r).
  assert (Hw : seg_work (amc_align (ar_amc ar)) s' = seg_work (amc_align (ar_amc ar)) s).
  { unfold s', seg_work, seg_nailwork, seg_nbits. seg_simpl. autorewrite with seg_unmoved_db.
    reflexivity. }
  pose proof (WhiteWork_set_seg ar i s' Hi) as WW. pose proof (GreyCount_set_seg ar i s' Hi) as GC.
  change (ar_seg ar i) with s in WW, GC. rewrite Hw in WW.
  assert (Hl : length (ar_segs (ar_set_seg ar i s')) = length (ar_segs ar)) by apply length_list_set.
  split; [apply WF_set_seg; [exact Hwf | apply SegWF_SegSetSummary, SegWF_at; assumption | reflexivity ..]|].
  split; [unfold TraceWork; cbn [seg_grey SegSetSummary seg_upd s'] in GC; lia|].
  split; [reflexivity|]. split; [lia|].
  rewrite ar_seg_set_seg_eq by exact Hi. reflexivity.
Qed.

Lemma TraceScanSeg_ok ar i rank :
  ArenaWF ar -> (i < length (ar_segs ar))%nat ->
  TraceSetIsMember (seg_grey (ar_seg ar i)) 0 = true ->
  exists res ar', TraceScanSeg ar i rank = Some (res, ar')
    /\ ArenaWF ar'
    /\ tr_state (ar_trace ar') = tr_state (ar_trace ar)
    /\ tr_emergency (ar_trace ar') = tr_emergency (ar_trace ar)
    /\ (res = ResOK -> (TraceWork ar' < TraceWork ar)%nat)
    /\ (tr_emergency (ar_trace ar) = true -> res = ResOK).
Proof.
  intros Hwf Hi Hg. unfold TraceScanSeg. cbv zeta.
  assert (B : exists res ar4,
    (if RefSetInter (tr_white (ar_trace ar)) (seg_summary (ar_seg ar i)) =? RefSetEMPTY
     then Some (ResOK, ar)
     else match amcSegScan ar i (ScanStateInit ar TraceSetSingle0 rank (tr_white (ar_trace ar))) with
          | Some (res, wasTotal, ss, ar0) =>
              Some (res, ar_set_trace
                  (ar_set_seg ar0 i
                     (if negb (Res_eqb res ResOK) || negb wasTotal
                      then SegSetSummary (ar_seg ar0 i)
                             (RefSetUnion (seg_summary (ar_seg ar0 i)) (ScanStateSummary ss))
                      else SegSetSummary (ar_seg ar0 i) (ScanStateSummary ss)))
                  (tr_add_segscan
                     (ar_trace (ar_set_seg ar0 i
                        (if negb (Res_eqb res ResOK) || negb wasTotal
                         then SegSetSummary (ar_seg ar0 i)
                                (RefSetUnion (seg_summary (ar_seg ar0 i)) (ScanStateSummary ss))
                         else SegSetSummary (ar_seg ar0 i) (ScanStateSummary ss))))
                     (ss_scannedSize ss)))
          | None => None
          end) = Some (res, ar4)
    /\ ArenaWF ar4 /\ (i < length (ar_segs ar4))%nat
    /\ tr_state (ar_trace ar4) = tr_state (ar_trace ar)
    /\ tr_emergency (ar_trace ar4) = tr_emergency (ar_trace ar)
    /\ (res = ResOK -> (TraceWork ar4 <= TraceWork ar)%nat
                       /\ TraceSetIsMember (seg_grey (ar_seg ar4 i)) 0 = true)
    /\ (tr_emergency (ar_trace ar) = true -> res = ResOK)).
  { destruct (_ =? RefSetEMPTY).
    - exists ResOK, ar. split; [reflexivity|]. split; [exact Hwf|]. split; [exact Hi|].
      split; [reflexivity|]. split; [reflexivity|]. split; [intros _; split; [lia | exact Hg]|].
      intros _; reflexivity.
    - destruct (amcSegScan_ok ar i (ScanStateInit ar TraceSetSingle0 rank (tr_white (ar_trace ar)))
                  Hwf eq_refl Hi) as (res & t & ss & ar2 & E & H & _).
      rewrite E. destruct H as (W2 & R2 & D2 & M2).
      destruct (scan_rel_base _ _ _ R2 Hi) as [_ Hi2].
      destruct R2 as (_ & Tr2 & _ & Rel2).
      match goal with |- context [if ?c then SegSetSummary ?x ?r1 else SegSetSummary ?x ?r2] =>
        assert (Hr : exists r, (if c then SegSetSummary x r1 else SegSetSummary x r2)
                               = SegSetSummary x r) by (destruct c; eexists; reflexivity);
        destruct Hr as [r Hr]; rewrite Hr
      end.
      destruct (summary_ok ar2 i r W2 Hi2) as (W3 & T3 & Tr3 & Hi3 & G3).
      set (ar3 := ar_set_seg ar2 i (SegSetSummary (ar_seg ar2 i) r)) in *.
      eexists _, _. split; [reflexivity|].
      split; [apply WF_set_trace, W3|]. split; [exact Hi3|].
      cbn [ar_set_trace ar_upd ar_trace tr_add_segscan tr_set_counts tr_state tr_emergency].
      rewrite Tr3, Tr2. split; [reflexivity|]. split; [reflexivity|].
      split; [|exact M2].
      intros Hok. destruct (D2 Hok) as (_ & Dt & _).
      split; [rewrite TraceWork_set_trace; lia|].
      change (TraceSetIsMember (seg_grey (ar_seg ar3 i)) 0 = true). rewrite G3.
      exact (proj2 (proj2 (proj2 (proj2 (Rel2 i Hi)))) Hg). }
  destruct B as (res & ar4 & E & W4 & Hi4 & St4 & Em4 & D4 & M4).
  rewrite E. destruct res;
    [|do 2 eexists; split; [reflexivity|]; split; [exact W4|];
      split; [exact St4|]; split; [exact Em4|]; split; [discriminate | exact M4] ..].
  destruct (D4 eq_refl) as [Dt Hg4].
  destruct (ungrey_ok ar4 i W4 Hi4 Hg4) as (W5 & T5 & Tr5).
  do 2 eexists. split; [reflexivity|]. split; [exact W5|].
  rewrite Tr5. split; [exact St4|]. split; [exact Em4|]. split; [intros _; lia | exact M4].
Qed.

(** *** Trace steps *)

Lemma find_grey_from_ok rank : forall segs k j,
  find_grey_from k rank segs = Some j ->
  (k <= j)%nat /\ (j - k < length segs)%nat
  /\ TraceSetIsMember (seg_grey (nth (j - k) segs dummySeg)) 0 = true.
Proof.
  induction segs as [|s segs IH]; intros k j H; cbn [find_grey_from] in H; [discriminate|].
  destruct (OnGreyRing rank s && TraceSetIsMember (seg_grey s) 0) eqn:E.
  - injection H as <-. apply andb_prop in E as [_ E]. rewrite Nat.sub_diag.
    cbn [length nth]. repeat split; [lia | lia | exact E].
  - destruct (IH (S k) j H) as (Hk & Hl & Hg).
    replace (j - k)%nat with (S (j - S k)) by lia. cbn [length nth]. repeat split; [lia | lia | exact Hg].
Qed.

Lemma traceFindGrey_ok ar i rank :
  traceFindGrey ar = Some (i, rank) ->
  (i < length (ar_segs ar))%nat /\ TraceSetIsMember (seg_grey (ar_seg ar i)) 0 = true.
Proof.
  unfold traceFindGrey.
  assert (G : forall ranks, (fix go (ranks : list Rank) : option (nat * Rank) :=
                match ranks with
                | [] => None
                | r :: rs => match find_grey_from O r (ar_segs ar) with
                             | Some i => Some (i, r)
                             | None => go rs
                             end
                end) ranks = Some (i, rank) ->
              (i < length (ar_segs ar))%nat /\ TraceSetIsMember (seg_grey (ar_seg ar i)) 0 = true).
  { induction ranks as [|r rs IH]; intros H; [discriminate|].
    destruct (find_grey_from O r (ar_segs ar)) as [j|] eqn:E; [|exact (IH H)].
    injection H as <- _. destruct (find_grey_from_ok r _ _ _ E) as (_ & Hl & Hg).
    rewrite Nat.sub_0_r in Hl, Hg. split; [exact Hl | exact Hg]. }
  intros H. exact (G [RankAMBIG; RankEXACT; RankWEAK; RankFINAL] H).
Qed.

Lemma TraceRun_ok ar :
  ArenaWF ar -> tr_state (ar_trace ar) = TraceFLIPPED ->
  exists res ar', TraceRun ar = Some (res, ar')
    /\ ArenaWF ar'
    /\ tr_emergency (ar_trace ar') = tr_emergency (ar_trace ar)
    /\ (tr_emergency (ar_trace ar) = true -> res = ResOK)
    /\ ((tr_state (ar_trace ar') = TraceFLIPPED
         /\ (res = ResOK -> (TraceWork ar' < TraceWork ar)%nat))
        \/ (res = ResOK /\ tr_state (ar_trace ar') = TraceRECLAIM)).
Proof.
  intros Hwf Hst. unfold TraceRun.
  destruct (traceFindGrey ar) as [[i rank]|] eqn:Ef.
  - destruct (traceFindGrey_ok ar i rank Ef) as [Hi Hg].
    destruct (TraceScanSeg_ok ar i rank Hwf Hi Hg) as (res & ar' & E & W & St & Em & D & M).
    exists res, ar'. split; [exact E|]. split; [exact W|]. split; [exact Em|].
    split; [exact M|]. left. split; [congruence | exact D].
  - do 2 eexists. split; [reflexivity|]. split; [apply WF_set_trace, Hwf|].
    split; [reflexivity|]. split; [intros _; reflexivity|]. right. split; reflexivity.
Qed.

Lemma TraceReclaim_finishes ar :
  ArenaWF ar ->
  exists ar', TraceReclaim ar = Some ar' /\ tr_state (ar_trace ar') = TraceFINISHED.
Proof.
  intros Hwf.
  pose proof (wf_sorted _ Hwf) as Hsort. pose proof (wf_align _ Hwf) as Ha.
  assert (Hpos : Forall ObjsPositive (ar_segs ar)).
  { eapply Forall_impl; [|exact (wf_segs _ Hwf)]. intros s Hs. exact (proj1 (proj2 Hs)). }
  assert (L : exists ar1, TraceReclaimLoop (S (length (ar_segs ar))) ar (SegFirst ar) = Some ar1).
  { destruct (ar_segs ar) as [|s0 rest] eqn:Hs.
    - exists ar. unfold SegFirst. rewrite Hs. reflexivity.
    - assert (F : SegFirst ar = SegNext ar (seg_base s0 - 1)).
      { unfold SegFirst, SegNext. rewrite Hs. cbn [seg_next_from].
        replace (seg_base s0 - 1 <? seg_base s0) with true by (symmetry; apply Z.ltb_lt; lia).
        reflexivity. }
      rewrite F.
      destruct (TraceReclaimLoop_ok (S (length (s0 :: rest))) ar (seg_base s0 - 1))
        as (ar1 & E1 & _).
      + rewrite Hs. exact Hsort.
      + exact Ha.
      + rewrite Hs. exact Hpos.
      + rewrite Hs. unfold SegsSorted in Hsort.
        apply StronglySorted_inv in Hsort.
        destruct Hsort as [_ Hr]. constructor; [intros; lia|].
        eapply Forall_impl; [|exact Hr]. cbv beta. intros t Ht Hle. lia.
      + rewrite Hs. pose proof (filter_length_le' (fun t => (seg_base s0 - 1 <? seg_base t)%Z) (s0 :: rest)).
        lia.
      + exists ar1. exact E1. }
  destruct L as (ar1 & E1).
  eexists. unfold TraceReclaim. rewrite E1. split; reflexivity.
Qed.

Lemma TraceIsFinished_state ar st :
  tr_state (ar_trace ar) = st -> TraceIsFinished ar = TraceState_eqb st TraceFINISHED.
Proof. intros H. unfold TraceIsFinished. rewrite H. reflexivity. Qed.

Lemma TraceStep_ok ar :
  ArenaWF ar -> StepState ar ->
  exists res ar', TraceStep ar = Some (res, ar')
    /\ (tr_emergency (ar_trace ar) = true -> res = ResOK)
    /\ ((tr_state (ar_trace ar) = TraceFINISHED /\ ar' = ar /\ res = ResOK)
        \/ (tr_state (ar_trace ar) = TraceRECLAIM /\ res = ResOK
            /\ tr_state (ar_trace ar') = TraceFINISHED)
        \/ (tr_state (ar_trace ar) = TraceFLIPPED /\ ArenaWF ar'
            /\ tr_emergency (ar_trace ar') = tr_emergency (ar_trace ar)
            /\ ((tr_state (ar_trace ar') = TraceFLIPPED
                 /\ (res = ResOK -> (TraceWork ar' < TraceWork ar)%nat))
                \/ (res = ResOK /\ tr_state (ar_trace ar') = TraceRECLAIM)))).
Proof.
  intros Hwf [Hst|[Hst|Hst]]; unfold TraceStep; rewrite Hst.
  - destruct (TraceRun_ok ar Hwf Hst) as (res & ar' & E & W & Em & M & P).
    exists res, ar'. split; [exact E|]. split; [exact M|]. right; right. auto.
  - destruct (TraceReclaim_finishes ar Hwf) as (ar' & E & F).
    rewrite E. exists ResOK, ar'. split; [reflexivity|]. split; [intros _; reflexivity|].
    right; left. auto.
  - exists ResOK, ar. split; [reflexivity|]. split; [intros _; reflexivity|]. left. auto.
Qed.

Lemma TraceExpediteLoop_ok fuel : forall ar,
  ArenaWF ar -> StepState ar -> tr_emergency (ar_trace ar) = true ->
  (tr_state (ar_trace ar) = TraceFLIPPED -> (TraceWork ar + 2 <= fuel)%nat) ->
  (tr_state (ar_trace ar) = TraceRECLAIM -> (1 <= fuel)%nat) ->
  exists ar', TraceExpediteLoop fuel ar = Some ar' /\ TraceIsFinished ar' = true.
Proof.
  induction fuel as [|fuel IH]; intros ar Hwf Hss Hem Hf Hr.
  - destruct Hss as [Hst|[Hst|Hst]]; [specialize (Hf Hst); lia | specialize (Hr Hst); lia|].
    exists ar. cbn [TraceExpediteLoop]. rewrite (TraceIsFinished_state ar _ Hst). auto.
  - cbn [TraceExpediteLoop].
    destruct (TraceIsFinished ar) eqn:Efin; [exists ar; auto|].
    destruct (TraceStep_ok ar Hwf Hss) as (res & ar' & E & M & P). rewrite E.
    destruct P as [(Hst & _ & _)|[(Hst & _ & Hst')|(Hst & W' & Em' & Q)]].
    + rewrite (TraceIsFinished_state ar _ Hst) in Efin. discriminate.
    + destruct fuel; cbn [TraceExpediteLoop]; rewrite (TraceIsFinished_state ar' _ Hst');
        cbn [TraceState_eqb]; exists ar'; (split; [reflexivity | exact (TraceIsFinished_state ar' _ Hst')]).
    + pose proof (M Hem) as ->. specialize (Hf Hst).
      destruct Q as [(Hst' & Hlt)|(_ & Hst')]; specialize (IH ar' W');
        (apply IH; [ | congruence | ..]); try (intros; congruence).
      * left. exact Hst'.
      * intros _. specialize (Hlt eq_refl). lia.
      * right; left. exact Hst'.
      * intros _. lia.
Qed.

Lemma TraceExpedite_ok ar :
  ArenaWF ar -> StepState ar ->
  exists ar', TraceExpedite ar = Some ar' /\ TraceIsFinished ar' = true.
Proof.
  intros Hwf Hss. unfold TraceExpedite.
  apply TraceExpediteLoop_ok.
  - apply WF_set_trace, Hwf.
  - exact Hss.
  - reflexivity.
  - intros _. rewrite TraceWork_set_trace. lia.
  - intros _. lia.
Qed.

Lemma TracePollLoop_ok fuel pollEnd : forall ar,
  ArenaWF ar -> StepState ar ->
  (tr_state (ar_trace ar) = TraceFLIPPED -> (TraceWork ar + 2 < fuel)%nat) ->
  (0 < fuel)%nat ->
  exists ar', TracePollLoop fuel pollEnd ar = Some ar'
    /\ (TraceIsFinished ar' = true \/ pollEnd <= TraceWorkClock ar').
Proof.
  induction fuel as [|fuel IH]; intros ar Hwf Hss Hf H0; [lia|].
  cbn [TracePollLoop].
  destruct (TraceStep_ok ar Hwf Hss) as (res & ar' & E & M & P). rewrite E.
  assert (Hexit : TraceIsFinished ar' = true ->
            exists ar'', (if negb (TraceIsFinished ar') && (TraceWorkClock ar' <? pollEnd)
                          then TracePollLoop fuel pollEnd ar' else Some ar') = Some ar''
              /\ (TraceIsFinished ar'' = true \/ pollEnd <= TraceWorkClock ar'')).
  { intros Hfin. rewrite Hfin. cbn [negb andb]. eauto. }
  destruct P as [(Hst & -> & ->)|[(Hst & -> & Hst')|(Hst & W' & Em' & Q)]].
  - apply Hexit. rewrite (TraceIsFinished_state ar _ Hst). reflexivity.
  - apply Hexit. rewrite (TraceIsFinished_state ar' _ Hst'). reflexivity.
  - specialize (Hf Hst).
    destruct Q as [(Hst' & Hlt)|(-> & Hst')].
    + destruct res; [|destruct (TraceExpedite_ok ar' W' (or_introl Hst')) as (a & Ea & Fa);
                      exists a; split; [exact Ea | left; exact Fa] ..].
      rewrite (TraceIsFinished_state ar' _ Hst'). cbn [negb andb TraceState_eqb].
      destruct (TraceWorkClock ar' <? pollEnd) eqn:Ec.
      * apply IH; [exact W' | left; exact Hst' | intros _; specialize (Hlt eq_refl); lia | lia].
      * exists ar'. split; [reflexivity|]. right. apply Z.ltb_ge in Ec. exact Ec.
    + rewrite (TraceIsFinished_state ar' _ Hst'). cbn [negb andb TraceState_eqb].
      destruct (TraceWorkClock ar' <? pollEnd) eqn:Ec.
      * apply IH; [exact W' | right; left; exact Hst' | intros Hc; congruence | lia].
      * exists ar'. split; [reflexivity|]. right. apply Z.ltb_ge in Ec. exact Ec.
Qed.

(** ** C1 *)

(** C1: on a well-formed arena whose trace is FLIPPED, RECLAIM or
    FINISHED: a step taken in emergency mode returns OK and leaves the
    trace finished or again well formed, in a stepping state and in
    emergency mode; when a step inside [TracePoll] returns an error,
    [TracePoll] is [TraceExpedite] of the arena after that step, which
    sets the emergency flag and steps the trace until it is FINISHED;
    [TraceExpedite] terminates with the trace FINISHED; and [TracePoll]
    terminates, with the trace FINISHED or its work clock at least its
    value at entry plus the trace's rate. *)
Theorem TracePoll_terminates (ar : Arena) :
  ArenaWF ar -> StepState ar ->
  (tr_emergency (ar_trace ar) = true ->
   exists ar2, TraceStep ar = Some (ResOK, ar2)
     /\ (TraceIsFinished ar2 = true
         \/ (ArenaWF ar2 /\ StepState ar2 /\ tr_emergency (ar_trace ar2) = true)))
  /\ (forall res ar1, TraceStep ar = Some (res, ar1) -> res <> ResOK ->
        TracePoll ar = TraceExpedite ar1
        /\ exists ar', TraceExpedite ar1 = Some ar' /\ TraceIsFinished ar' = true)
  /\ (exists ar', TraceExpedite ar = Some ar' /\ TraceIsFinished ar' = true)
  /\ (exists ar', TracePoll ar = Some ar'
        /\ (TraceIsFinished ar' = true
            \/ SizeAdd (TraceWorkClock ar) (tr_rate (ar_trace ar)) <= TraceWorkClock ar')).
Proof.
  intros Hwf Hss.
  destruct (TraceStep_ok ar Hwf Hss) as (res & ar1 & E & M & P).
  split; [|split; [|split]].
  - intros Hem. rewrite (M Hem) in E. exists ar1. split; [exact E|].
    destruct P as [(Hst & -> & _)|[(_ & _ & Hst')|(Hst & W' & Em' & Q)]].
    + left. exact (TraceIsFinished_state ar _ Hst).
    + left. exact (TraceIsFinished_state ar1 _ Hst').
    + right. split; [exact W'|]. split; [|congruence].
      destruct Q as [(Hst' & _)|(_ & Hst')]; [left | right; left]; exact Hst'.
  - intros res' ar1' E' Hne. rewrite E in E'. injection E' as <- <-.
    split.
    + unfold TracePoll. cbn [TracePollLoop]. rewrite E.
      destruct res; [contradiction | reflexivity ..].
    + destruct P as [(_ & _ & Hr)|[(_ & Hr & _)|(Hst & W' & _ & Q)]]; [contradiction | contradiction|].
      destruct Q as [(Hst' & _)|(Hr & _)]; [|contradiction].
      apply TraceExpedite_ok; [exact W' | left; exact Hst'].
  - apply TraceExpedite_ok; assumption.
  - unfold TracePoll. apply TracePollLoop_ok; [exact Hwf | exact Hss | intros _; lia | lia].
Qed.

Lemma TracePoll_terminates_witness :
  ArenaWF ex_arena_poll /\ StepState ex_arena_poll /\
  (exists ar', TracePoll ex_arena_poll = Some ar'
     /\ (TraceIsFinished ar' = true
         \/ SizeAdd (TraceWorkClock ex_arena_poll) (tr_rate (ar_trace ex_arena_poll))
            <= TraceWorkClock ar')).
Proof.
  assert (Hwf : ArenaWF ex_arena_poll).
  { constructor; cbn.
    - unfold SegsSorted. repeat constructor; cbn; lia.
    - lia.
    - lia.
    - lia.
    - repeat constructor; cbn; lia.
    - repeat constructor; cbn; intros; lia.
    - constructor; [|constructor]. cbn. intros _ x Hx. injection Hx as <-.
      repeat constructor; cbn; intros; first [lia | reflexivity].
    - repeat constructor. }
  assert (Hss : StepState ex_arena_poll) by (left; reflexivity).
  split; [exact Hwf|]. split; [exact Hss|].
  exact (proj2 (proj2 (proj2 (TracePoll_terminates ex_arena_poll Hwf Hss)))).
Defined.

(** * Further properties of the tracer and the AMC pool *)

Ltac destruct_inner :=
  repeat (cbn beta iota zeta;
          match goal with
          | |- context [match ?x with _ => _ end] =>
              lazymatch x with
              | context [match _ with _ => _ end] => fail
              | _ => destruct x
              end
          end).

(** ** The zone shift and the scan state's summaries across a fix *)

Lemma zs_amcSegBufferEmpty ar i b : ar_zoneShift (amcSegBufferEmpty ar i b) = ar_zoneShift ar.
Proof. unfold amcSegBufferEmpty. cbv zeta. destruct_matches; reflexivity. Qed.

Lemma zs_BufferDetach ar bi : ar_zoneShift (BufferDetach ar bi) = ar_zoneShift ar.
Proof.
  unfold BufferDetach. cbv zeta. destruct_matches; simpl; try reflexivity;
  apply zs_amcSegBufferEmpty.
Qed.

Lemma zs_AMCBufferFill ar bi size :
  let '(_, _, _, ar') := AMCBufferFill ar bi size in ar_zoneShift ar' = ar_zoneShift ar.
Proof.
  unfold AMCBufferFill, PoolGenAlloc. cbv zeta.
  destruct_inner; reflexivity.
Qed.

Lemma zs_BufferFill ar bi size :
  let '(_, _, ar') := BufferFill ar bi size in ar_zoneShift ar' = ar_zoneShift ar.
Proof.
  unfold BufferFill.
  pose proof (zs_AMCBufferFill (BufferDetach ar bi) bi size) as H.
  destruct (AMCBufferFill (BufferDetach ar bi) bi size) as [[[r b] l] ar1].
  rewrite zs_BufferDetach in H.
  destruct r; simpl; exact H.
Qed.

Lemma zs_BUFFER_RESERVE ar bi size :
  let '(_, _, ar') := BUFFER_RESERVE ar bi size in ar_zoneShift ar' = ar_zoneShift ar.
Proof.
  unfold BUFFER_RESERVE. cbv zeta.
  destruct (buf_seg _) as [x|].
  - destruct (_ <=? _); [reflexivity|].
    apply (zs_BufferFill (ar_log_event ar (EvReserve bi size)) bi size).
  - apply (zs_BufferFill (ar_log_event ar (EvReserve bi size)) bi size).
Qed.

Lemma amcSegForward_sums ar i ss ref :
  let '(_, _, ss', ar') := amcSegForward ar i ss ref in
  ss_sums ss' = ss_sums ss /\ ar_zoneShift ar' = ar_zoneShift ar.
Proof.
  unfold amcSegForward, BUFFER_COMMIT. cbv zeta.
  pose proof (zs_BUFFER_RESERVE ar (gen_forward (ar_gen ar (seg_gen (ar_seg ar i))))
               (ref + o_size (ObjAt (amc_align (ar_amc ar)) (ar_seg ar i) ref) - ref)) as H.
  destruct (BUFFER_RESERVE _ _ _) as [[r nb] ar1].
  destruct r; destruct_inner; split; try reflexivity; simpl; exact H.
Qed.

Lemma amcSegFixInPlace_zs ar i ss ref :
  ar_zoneShift (amcSegFixInPlace ar i ss ref) = ar_zoneShift ar.
Proof. unfold amcSegFixInPlace. cbv zeta. destruct_matches; reflexivity. Qed.

Lemma amcSegFix_sums ar i ss ref :
  let '(_, _, ss', ar') := amcSegFix ar i ss ref in
  ss_sums ss' = ss_sums ss /\ ar_zoneShift ar' = ar_zoneShift ar.
Proof.
  unfold amcSegFix. cbv zeta.
  destruct (Rank_eqb _ _).
  - destruct (_ =? _); [destruct (negb _)|]; split; try reflexivity;
    rewrite amcSegFixInPlace_zs; reflexivity.
  - destruct (FormatIsMoved _ _ =? 0); [|split; reflexivity].
    destruct (negb _ && negb _); [destruct (negb _); [destruct (negb _)|]; split; reflexivity|].
    destruct (Rank_eqb _ _); [split; reflexivity|].
    apply amcSegForward_sums.
Qed.

Lemma amcSegFixEmergency_zs ar i ss ref :
  let '(_, _, ar') := amcSegFixEmergency ar i ss ref in ar_zoneShift ar' = ar_zoneShift ar.
Proof.
  unfold amcSegFixEmergency. cbv zeta.
  destruct (Rank_eqb _ _); [apply amcSegFixInPlace_zs|].
  destruct (negb _); [reflexivity | apply amcSegFixInPlace_zs].
Qed.

Lemma RefSetSub_spec a b :
  RefSetSub a b = true <-> (forall n, Z.testbit a n = true -> Z.testbit b n = true).
Proof.
  unfold RefSetSub, RefSetSuper. rewrite Z.eqb_eq. split.
  - intros H n Ha.
    destruct (Z.ltb_spec n 0) as [Hn|Hn].
    + rewrite Z.testbit_neg_r in Ha by exact Hn. discriminate.
    + destruct (Z.testbit b n) eqn:Hb; [reflexivity|].
      assert (Z.testbit (Z.land a (Z.lnot b)) n = true) as Hc
        by (rewrite Z.land_spec, Z.lnot_spec, Ha, Hb by exact Hn; reflexivity).
      rewrite H, Z.bits_0 in Hc. discriminate.
  - intros H. apply Z.bits_inj_0. intros n.
    destruct (Z.ltb_spec n 0) as [Hn|Hn]; [apply Z.testbit_neg_r; exact Hn|].
    rewrite Z.land_spec, Z.lnot_spec by exact Hn.
    destruct (Z.testbit a n) eqn:Ha; [rewrite (H n Ha); reflexivity | reflexivity].
Qed.

Lemma RefSetSub_refl a : RefSetSub a a = true.
Proof. apply RefSetSub_spec; auto. Qed.

Lemma RefSetSub_trans a b c : RefSetSub a b = true -> RefSetSub b c = true -> RefSetSub a c = true.
Proof. rewrite !RefSetSub_spec. auto. Qed.

Lemma RefSetSub_union_l a b : RefSetSub a (RefSetUnion a b) = true.
Proof.
  apply RefSetSub_spec. intros n H. unfold RefSetUnion. rewrite Z.lor_spec, H. reflexivity.
Qed.

Lemma RefSetSub_union_r a b : RefSetSub b (RefSetUnion a b) = true.
Proof.
  apply RefSetSub_spec. intros n H. unfold RefSetUnion. rewrite Z.lor_spec, H.
  apply orb_true_r.
Qed.

Lemma RefSetAdd_union zs rs a : RefSetAdd zs rs a = RefSetUnion rs (RefSetAdd zs RefSetEMPTY a).
Proof. reflexivity. Qed.

Lemma RefSetSub_Add_zone zs rs a : RefSetSub (RefSetAdd zs RefSetEMPTY a) (RefSetAdd zs rs a) = true.
Proof. rewrite (RefSetAdd_union zs rs). apply RefSetSub_union_r. Qed.

Lemma RefSetSub_Add_mono zs rs a : RefSetSub rs (RefSetAdd zs rs a) = true.
Proof. rewrite (RefSetAdd_union zs rs). apply RefSetSub_union_l. Qed.

(** What a fix method does to the scan state: the summaries and the
    white set are kept, except that the fixed summary grows, and on
    success takes the zone of the fixed reference. *)
Lemma ScanStateFix_sums ar ss ref :
  let '(res, ref', ss', ar') := ScanStateFix ar ss ref in
  ar_zoneShift ar' = ar_zoneShift ar
  /\ ss_emergencyFix ss' = ss_emergencyFix ss /\ ss_rank ss' = ss_rank ss
  /\ ss_traces ss' = ss_traces ss /\ ss_white ss' = ss_white ss
  /\ ss_unfixedSummary ss' = ss_unfixedSummary ss
  /\ RefSetSub (ss_fixedSummary ss) (ss_fixedSummary ss') = true
  /\ (res = ResOK ->
      RefSetSub (RefSetAdd (ar_zoneShift ar) RefSetEMPTY ref') (ss_fixedSummary ss') = true).
Proof.
  unfold ScanStateFix. destruct (ss_emergencyFix ss) eqn:Em.
  - unfold TraceFixEmergency. cbv zeta.
    destruct (SegOfAddr ar ref) as [[i s]|].
    + destruct (negb _).
      * pose proof (amcSegFixEmergency_zs ar i
                     (ss_bump (ss_bump (ss_bump ss 1 0 0) 0 1 0) 0 0 1) ref) as H.
        destruct (amcSegFixEmergency _ _ _ _) as [[r ref'] ar'].
        cbn [ss_fixedSummary ss_unfixedSummary ss_white ss_traces ss_rank ss_emergencyFix
             ss_set_fixed ss_set_summaries ss_bump ss_set_counts].
        repeat split; try exact H; try exact Em; try apply RefSetSub_Add_mono.
        intros _. rewrite <- H. apply RefSetSub_Add_zone.
      * cbn [ss_fixedSummary ss_unfixedSummary ss_white ss_traces ss_rank ss_emergencyFix
             ss_set_fixed ss_set_summaries ss_bump ss_set_counts].
        repeat split; try exact Em; auto using RefSetSub_Add_mono, RefSetSub_Add_zone.
    + cbn [ss_fixedSummary ss_unfixedSummary ss_white ss_traces ss_rank ss_emergencyFix
           ss_set_fixed ss_set_summaries ss_bump ss_set_counts].
      repeat split; try exact Em; auto using RefSetSub_Add_mono, RefSetSub_Add_zone.
  - unfold TraceFix. cbv zeta.
    destruct (SegOfAddr ar ref) as [[i s]|].
    + destruct (negb _).
      * pose proof (amcSegFix_sums ar i (ss_bump (ss_bump (ss_bump ss 1 0 0) 0 1 0) 0 0 1) ref)
          as H.
        destruct (amcSegFix _ _ _ _) as [[[r ref'] ss'] ar'].
        destruct H as [Hs Hz]. unfold ss_sums in Hs.
        cbn [ss_fixedSummary ss_unfixedSummary ss_white ss_traces ss_rank ss_emergencyFix
             ss_bump ss_set_counts] in Hs.
        inversion Hs as [[H1 H2 H3 H4 H5 H6]].
        destruct r; cbn [ss_fixedSummary ss_unfixedSummary ss_white ss_traces ss_rank
                         ss_emergencyFix ss_set_fixed ss_set_summaries];
          rewrite ?H1, ?H2, ?H3, ?H4, ?H5, ?H6;
          repeat split; auto using RefSetSub_Add_mono, RefSetSub_Add_zone, RefSetSub_refl;
          try (rewrite Hz; apply RefSetSub_Add_zone);
          try (intro; discriminate).
        intros _. rewrite Hz. apply RefSetSub_Add_zone.
      * cbn [ss_fixedSummary ss_unfixedSummary ss_white ss_traces ss_rank ss_emergencyFix
             ss_set_fixed ss_set_summaries ss_bump ss_set_counts].
        repeat split; try exact Em; auto using RefSetSub_Add_mono, RefSetSub_Add_zone.
    + cbn [ss_fixedSummary ss_unfixedSummary ss_white ss_traces ss_rank ss_emergencyFix
           ss_set_fixed ss_set_summaries ss_bump ss_set_counts].
      repeat split; try exact Em; auto using RefSetSub_Add_mono, RefSetSub_Add_zone.
Qed.

(** ** Area scanning *)

Lemma TraceScanAreaMaskedLoop_zero zs white ar ss ufs area :
  TraceScanAreaMaskedLoop zs white 0 ar ss ufs area = TraceScanAreaLoop zs white ar ss ufs area.
Proof.
  revert ar ss ufs. induction area as [|ref rest IH]; intros ar ss ufs; [reflexivity|].
  cbn [TraceScanAreaMaskedLoop TraceScanAreaLoop]. rewrite Z.land_0_r. cbn [Z.eqb negb].
  destruct (RefSetInter _ _ =? _); [rewrite IH; reflexivity|].
  destruct (ScanStateFix ar ss ref) as [[[r ref'] ss'] ar'].
  destruct r; try reflexivity; rewrite IH; reflexivity.
Qed.

Lemma TraceScanAreaMaskedLoop_shape zs white mask ar ss ufs area :
  let '(_, area', _, _, _) := TraceScanAreaMaskedLoop zs white mask ar ss ufs area in
  length area' = length area
  /\ forall n ref, nth_error area n = Some ref -> Z.land ref mask <> 0 ->
                   nth_error area' n = Some ref.
Proof.
  revert ar ss ufs. induction area as [|ref rest IH]; intros ar ss ufs.
  - split; [reflexivity | intros [|n] r H; discriminate].
  - cbn [TraceScanAreaMaskedLoop].
    destruct (Z.land ref mask =? 0) eqn:Em; cbn [negb].
    + destruct (RefSetInter _ _ =? _).
      * pose proof (IH ar ss (RefSetUnion ufs (RefSetAdd zs RefSetEMPTY ref))) as H.
        destruct (TraceScanAreaMaskedLoop _ _ _ _ _ _ rest) as [[[[r rest'] u] s'] a'].
        destruct H as [Hl Hn]. split; [cbn; congruence|].
        intros [|n] r0 H0 H1; cbn in *.
        -- injection H0 as <-. apply Z.eqb_eq in Em. contradiction.
        -- apply Hn; assumption.
      * destruct (ScanStateFix ar ss ref) as [[[r1 ref1] ss1] ar1].
        assert (Hhead : forall n r0, nth_error (ref :: rest) n = Some r0 -> Z.land r0 mask <> 0 ->
                          n <> O).
        { intros [|n] r0 H0 H1; [|discriminate]. cbn in H0. injection H0 as <-.
          apply Z.eqb_eq in Em. contradiction. }
        destruct r1;
          [| split; [reflexivity|];
             intros [|n] r0 H0 H1; [exfalso; exact (Hhead O r0 H0 H1 eq_refl) | exact H0] ..].
        pose proof (IH ar1 ss1 (RefSetUnion ufs (RefSetAdd zs RefSetEMPTY ref))) as H.
        destruct (TraceScanAreaMaskedLoop _ _ _ _ _ _ rest) as [[[[r rest'] u] s'] a'].
        destruct H as [Hl Hn]. split; [cbn; congruence|].
        intros [|n] r0 H0 H1; [exfalso; exact (Hhead O r0 H0 H1 eq_refl)|].
        cbn in *. apply Hn; assumption.
    + pose proof (IH ar ss ufs) as H.
      destruct (TraceScanAreaMaskedLoop _ _ _ _ _ _ rest) as [[[[r rest'] u] s'] a'].
      destruct H as [Hl Hn]. split; [cbn; congruence|].
      intros [|n] r0 H0 H1; cbn in *; [exact H0 | apply Hn; assumption].
Qed.

Lemma RefSetSub_union_fixed a f x : RefSetSub a f = true -> RefSetSub a (RefSetUnion f x) = true.
Proof. intros H. eapply RefSetSub_trans; [exact H | apply RefSetSub_union_l]. Qed.

Lemma RefSetSub_cover_unfixed z ufs white fixed :
  RefSetInter white z = RefSetEMPTY -> RefSetSub z ufs = true ->
  RefSetSub z (RefSetUnion fixed (RefSetDiff ufs white)) = true.
Proof.
  rewrite !RefSetSub_spec. intros Hw Hs n Hz.
  unfold RefSetUnion, RefSetDiff, RefSetInter, RefSetEMPTY in *.
  destruct (Z.neg_nonneg_cases n) as [Hn|Hn]; [rewrite Z.testbit_neg_r in Hz; [discriminate|exact Hn]|].
  assert (Hb : Z.testbit (Z.land white z) n = false) by (rewrite Hw; apply Z.testbit_0_l).
  rewrite Z.land_spec, Hz, andb_true_r in Hb.
  rewrite Z.lor_spec, Z.land_spec, Z.lnot_spec by exact Hn. rewrite Hs, Hb by exact Hz.
  apply orb_true_r.
Qed.

Lemma RefSetSub_union_both a b c : RefSetSub a c = true -> RefSetSub b c = true ->
  RefSetSub (RefSetUnion a b) c = true.
Proof.
  rewrite !RefSetSub_spec. intros Ha Hb n. unfold RefSetUnion. rewrite Z.lor_spec.
  intros H. apply orb_true_iff in H as [H|H]; auto.
Qed.

Lemma TraceScanAreaMaskedLoop_sums zs white mask ar ss ufs area :
  zs = ar_zoneShift ar -> white = ss_white ss ->
  let '(res, area', ufs', ss', ar') := TraceScanAreaMaskedLoop zs white mask ar ss ufs area in
  ar_zoneShift ar' = zs /\ ss_white ss' = white
  /\ ss_unfixedSummary ss' = ss_unfixedSummary ss
  /\ RefSetSub (ss_fixedSummary ss) (ss_fixedSummary ss') = true
  /\ (res = ResOK ->
      ufs' = RefSetUnion ufs (AreaZones zs mask area)
      /\ forall n ref ref', nth_error area n = Some ref -> Z.land ref mask = 0 ->
           nth_error area' n = Some ref' ->
           RefSetSub (RefSetAdd zs RefSetEMPTY ref')
                     (RefSetUnion (ss_fixedSummary ss') (RefSetDiff ufs' white)) = true).
Proof.
  revert ar ss ufs. induction area as [|ref rest IH]; intros ar ss ufs Hz Hw.
  - cbn. split; [congruence|]. split; [congruence|]. split; [reflexivity|].
    split; [apply RefSetSub_refl|]. intros _. split.
    + unfold RefSetUnion, RefSetEMPTY. rewrite Z.lor_0_r. reflexivity.
    + intros [|n] r r' H; discriminate.
  - cbn [TraceScanAreaMaskedLoop AreaZones].
    set (zone := RefSetAdd zs RefSetEMPTY ref).
    destruct (Z.land ref mask =? 0) eqn:Em; cbn [negb].
    + assert (Hu : forall u, RefSetUnion (RefSetUnion ufs zone) u
                             = RefSetUnion ufs (RefSetUnion zone u))
        by (intros; unfold RefSetUnion; rewrite Z.lor_assoc; reflexivity).
      destruct (RefSetInter white zone =? RefSetEMPTY) eqn:Ew.
      * pose proof (IH ar ss (RefSetUnion ufs zone) Hz Hw) as H.
        destruct (TraceScanAreaMaskedLoop _ _ _ _ _ _ rest) as [[[[r rest'] u] s'] a'].
        destruct H as (H1 & H2 & H3 & H4 & H5).
        do 4 (split; [assumption|]). intros Hr. destruct (H5 Hr) as [Hu' Hc].
        split; [rewrite Hu', Hu; reflexivity|].
        intros [|n] r0 r0' E0 M0 E0'; cbn in E0, E0'; [|exact (Hc n r0 r0' E0 M0 E0')].
        injection E0 as <-. injection E0' as <-.
        apply RefSetSub_cover_unfixed; [apply Z.eqb_eq; exact Ew|].
        rewrite Hu'. eapply RefSetSub_trans; [apply RefSetSub_union_r | apply RefSetSub_union_l].
      * pose proof (ScanStateFix_sums ar ss ref) as HF.
        destruct (ScanStateFix ar ss ref) as [[[r1 ref1] ss1] ar1].
        destruct HF as (F1 & _ & _ & _ & F5 & F6 & F7 & F8).
        destruct r1;
          [| split; [congruence|]; split; [congruence|]; split; [exact F6|];
             split; [exact F7 | intro; discriminate] ..].
        pose proof (IH ar1 ss1 (RefSetUnion ufs zone) ltac:(congruence) ltac:(congruence)) as H.
        destruct (TraceScanAreaMaskedLoop _ _ _ _ _ _ rest) as [[[[r rest'] u] s'] a'].
        destruct H as (H1 & H2 & H3 & H4 & H5).
        split; [assumption|]. split; [congruence|]. split; [congruence|].
        split; [eapply RefSetSub_trans; eassumption|].
        intros Hr. destruct (H5 Hr) as [Hu' Hc].
        split; [rewrite Hu', Hu; reflexivity|].
        intros [|n] r0 r0' E0 M0 E0'; cbn in E0, E0'; [|exact (Hc n r0 r0' E0 M0 E0')].
        injection E0' as <-. apply RefSetSub_union_fixed.
        eapply RefSetSub_trans; [|exact H4]. rewrite Hz. apply F8. reflexivity.
    + pose proof (IH ar ss ufs Hz Hw) as H.
      destruct (TraceScanAreaMaskedLoop _ _ _ _ _ _ rest) as [[[[r rest'] u] s'] a'].
      destruct H as (H1 & H2 & H3 & H4 & H5).
      do 4 (split; [assumption|]). intros Hr. destruct (H5 Hr) as [Hu' Hc].
      split; [exact Hu'|].
      intros [|n] r0 r0' E0 M0 E0'; cbn in E0, E0'; [|exact (Hc n r0 r0' E0 M0 E0')].
      injection E0 as <-. rewrite M0 in Em. discriminate.
Qed.

Lemma TraceScanAreaMaskedLoop_ok zs white mask ar ss ufs area :
  ArenaWF ar -> ss_traces ss = TraceSetSingle0 ->
  let '(res, _, _, ss', ar') := TraceScanAreaMaskedLoop zs white mask ar ss ufs area in
  step_ok (ss_emergencyFix ss) ar ar' res /\ ss_rel ss ss'.
Proof.
  revert ar ss ufs. induction area as [|ref rest IH]; intros ar ss ufs Hwf Ht.
  - split; [apply step_ok_refl; exact Hwf | apply ss_rel_refl].
  - cbn [TraceScanAreaMaskedLoop].
    destruct (negb _); [|destruct (RefSetInter _ _ =? _)].
    1,2: pose proof (IH ar ss (RefSetUnion ufs (RefSetAdd zs RefSetEMPTY ref)) Hwf Ht) as H1;
         pose proof (IH ar ss ufs Hwf Ht) as H2.
    1: clear H1; destruct (TraceScanAreaMaskedLoop _ _ _ _ _ _ rest) as [[[[r rest'] u] s'] a'];
       exact H2.
    1: clear H2; destruct (TraceScanAreaMaskedLoop _ _ _ _ _ _ rest) as [[[[r rest'] u] s'] a'];
       exact H1.
    pose proof (ScanStateFix_ok ar ss ref Hwf Ht) as HF.
    destruct (ScanStateFix ar ss ref) as [[[r1 ref1] ss1] ar1].
    destruct HF as [S1 R1].
    destruct r1; [|exact (conj S1 R1) ..].
    assert (Ht1 : ss_traces ss1 = TraceSetSingle0) by (destruct R1; congruence).
    pose proof (IH ar1 ss1 (RefSetUnion ufs (RefSetAdd zs RefSetEMPTY ref)) (proj1 S1) Ht1) as H.
    destruct (TraceScanAreaMaskedLoop _ _ _ _ _ _ rest) as [[[[r rest'] u] s'] a'].
    destruct H as [S2 R2].
    assert (He : ss_emergencyFix ss1 = ss_emergencyFix ss) by (destruct R1; assumption).
    rewrite He in S2.
    split; [eapply step_ok_trans; eassumption | eapply ss_rel_trans; eassumption].
Qed.

Lemma RefSetInter_union_empty w a b :
  RefSetInter w (RefSetUnion a b) = RefSetEMPTY ->
  RefSetInter w a = RefSetEMPTY /\ RefSetInter w b = RefSetEMPTY.
Proof.
  unfold RefSetInter, RefSetUnion, RefSetEMPTY. rewrite Z.land_lor_distr_r.
  apply Z.lor_eq_0_iff.
Qed.

Lemma TraceScanAreaMaskedLoop_unwhite zs white mask ar ss ufs area :
  RefSetInter white (AreaZones zs mask area) = RefSetEMPTY ->
  TraceScanAreaMaskedLoop zs white mask ar ss ufs area
  = (ResOK, area, RefSetUnion ufs (AreaZones zs mask area), ss, ar).
Proof.
  revert ufs. induction area as [|ref rest IH]; intros ufs H.
  - cbn. unfold RefSetUnion, RefSetEMPTY. rewrite Z.lor_0_r. reflexivity.
  - cbn [TraceScanAreaMaskedLoop]. cbn [AreaZones] in H |- *.
    destruct (Z.land ref mask =? 0); cbn [negb].
    + apply RefSetInter_union_empty in H as [Hz Hr].
      rewrite Hz, Z.eqb_refl, IH by exact Hr. cbn beta iota zeta.
      unfold RefSetUnion. rewrite Z.lor_assoc. reflexivity.
    + rewrite IH by exact H. reflexivity.
Qed.

(** X3: [TraceScanAreaMasked] with a zero mask is [TraceScanArea]: no
    word is tagged, so every word is scanned. *)
Theorem TraceScanAreaMasked_mask0 ar ss area :
  TraceScanAreaMasked ar ss area 0 = TraceScanArea ar ss area.
Proof.
  unfold TraceScanAreaMasked, TraceScanArea. destruct area as [|w ws]; [reflexivity|].
  rewrite TraceScanAreaMaskedLoop_zero. reflexivity.
Qed.

(** X4: [TraceScanAreaMasked] fails only on an empty area (the AVER on
    [base < limit]); otherwise the area keeps its length and every
    tagged word (one with a bit of the mask set) is left unchanged at
    its index. *)
Theorem TraceScanAreaMasked_words ar ss area mask :
  match TraceScanAreaMasked ar ss area mask with
  | None => area = []
  | Some (_, area', _, _) =>
      length area' = length area
      /\ forall n ref, nth_error area n = Some ref -> Z.land ref mask <> 0 ->
                       nth_error area' n = Some ref
  end.
Proof.
  unfold TraceScanAreaMasked. destruct area as [|w ws]; [reflexivity|].
  pose proof (TraceScanAreaMaskedLoop_shape (ar_zoneShift ar) (ss_white ss) mask ar ss
                (ss_unfixedSummary ss) (w :: ws)) as H.
  destruct (TraceScanAreaMaskedLoop _ _ _ _ _ _ _) as [[[[r a'] u] s'] ar'].
  destruct r; exact H.
Qed.

(** X5: scanning an area keeps the zone shift and the white set; on
    success the unfixed summary grows by the zones of the untagged words
    and the new value of every untagged word lies in the scan state's
    summary; on failure the unfixed summary is unchanged. *)
Theorem TraceScanAreaMasked_summary ar ss area mask :
  match TraceScanAreaMasked ar ss area mask with
  | None => area = []
  | Some (res, area', ss', ar') =>
      ar_zoneShift ar' = ar_zoneShift ar /\ ss_white ss' = ss_white ss
      /\ (res = ResOK ->
          ss_unfixedSummary ss'
            = RefSetUnion (ss_unfixedSummary ss) (AreaZones (ar_zoneShift ar) mask area)
          /\ forall n ref ref', nth_error area n = Some ref -> Z.land ref mask = 0 ->
               nth_error area' n = Some ref' ->
               RefSetSub (RefSetAdd (ar_zoneShift ar) RefSetEMPTY ref')
                         (ScanStateSummary ss') = true)
      /\ (res <> ResOK -> ss_unfixedSummary ss' = ss_unfixedSummary ss)
  end.
Proof.
  unfold TraceScanAreaMasked. destruct area as [|w ws]; [reflexivity|].
  pose proof (TraceScanAreaMaskedLoop_sums (ar_zoneShift ar) (ss_white ss) mask ar ss
                (ss_unfixedSummary ss) (w :: ws) eq_refl eq_refl) as H.
  destruct (TraceScanAreaMaskedLoop _ _ _ _ _ _ _) as [[[[r a'] u] s'] ar'].
  destruct H as (H1 & H2 & H3 & H4 & H5).
  destruct r; (split; [exact H1|]); (split; [exact H2|]);
    [|split; [intro; discriminate | intros _; exact H3] ..].
  split; [|intro Hr; contradiction Hr; reflexivity].
  intros _. destruct (H5 eq_refl) as [Hu Hc]. split; [exact Hu|].
  intros n r0 r0' E0 M0 E0'. unfold ScanStateSummary. cbn. rewrite H2.
  exact (Hc n r0 r0' E0 M0 E0').
Qed.

(** X6: for a well-formed arena and a scan state for trace 0, scanning
    an area keeps the arena well formed, only forwards or nails
    ([scan_rel]), decreases the work left on success, cannot fail in
    emergency mode, and keeps the scan state's traces and emergency
    flag. *)
Theorem TraceScanAreaMasked_ok ar ss area mask :
  ArenaWF ar -> ss_traces ss = TraceSetSingle0 ->
  match TraceScanAreaMasked ar ss area mask with
  | None => area = []
  | Some (res, _, ss', ar') =>
      ArenaWF ar' /\ scan_rel ar ar'
      /\ (res = ResOK -> work_dec ar ar')
      /\ (ss_emergencyFix ss = true -> res = ResOK)
      /\ ss_emergencyFix ss' = ss_emergencyFix ss /\ ss_traces ss' = ss_traces ss
  end.
Proof.
  intros Hwf Ht. unfold TraceScanAreaMasked. destruct area as [|w ws]; [reflexivity|].
  pose proof (TraceScanAreaMaskedLoop_ok (ar_zoneShift ar) (ss_white ss) mask ar ss
                (ss_unfixedSummary ss) (w :: ws) Hwf Ht) as H.
  destruct (TraceScanAreaMaskedLoop _ _ _ _ _ _ _) as [[[[r a'] u] s'] ar'].
  destruct H as [(W & R & D & E) [T F]].
  unfold ss_set_unfixed, ss_set_summaries.
  destruct r; cbn [ss_emergencyFix ss_traces]; refine (conj W (conj R (conj D (conj E (conj F T))))). 
Qed.

(** X7: a non-empty area none of whose untagged words is in a white
    zone is scanned without change: the area and the arena come back as
    they were, and only the unfixed summary grows by the area's zones. *)
Theorem TraceScanAreaMasked_unwhite ar ss area mask :
  area <> [] ->
  RefSetInter (ss_white ss) (AreaZones (ar_zoneShift ar) mask area) = RefSetEMPTY ->
  TraceScanAreaMasked ar ss area mask
  = Some (ResOK, area,
          ss_set_unfixed ss (RefSetUnion (ss_unfixedSummary ss)
                                         (AreaZones (ar_zoneShift ar) mask area)), ar).
Proof.
  intros Hne H. unfold TraceScanAreaMasked. destruct area as [|w ws]; [contradiction|].
  rewrite TraceScanAreaMaskedLoop_unwhite by exact H. reflexivity.
Qed.

Lemma TraceScanAreaMasked_ok_witness :
  ArenaWF ex_arena_fwd /\ ss_traces (ex_ss RankEXACT) = TraceSetSingle0 /\
  match TraceScanAreaMasked ex_arena_fwd (ex_ss RankEXACT) [4112; 4096; 5] 3 with
  | None => [4112; 4096; 5] = []
  | Some (res, _, ss', ar') =>
      ArenaWF ar' /\ scan_rel ex_arena_fwd ar'
      /\ (res = ResOK -> work_dec ex_arena_fwd ar')
      /\ (ss_emergencyFix (ex_ss RankEXACT) = true -> res = ResOK)
      /\ ss_emergencyFix ss' = ss_emergencyFix (ex_ss RankEXACT)
      /\ ss_traces ss' = ss_traces (ex_ss RankEXACT)
  end.
Proof.
  assert (Hwf : ArenaWF ex_arena_fwd).
  { constructor; cbn.
    - unfold SegsSorted. repeat constructor; cbn; lia.
    - lia.
    - lia.
    - lia.
    - repeat constructor; cbn; lia.
    - repeat constructor; cbn; intros; lia.
    - constructor; [|constructor]. cbn. intros _ x Hx. injection Hx as <-.
      repeat constructor; cbn; intros; first [lia | reflexivity].
    - repeat constructor. }
  assert (Ht : ss_traces (ex_ss RankEXACT) = TraceSetSingle0) by reflexivity.
  split; [exact Hwf|]. split; [exact Ht|].
  exact (TraceScanAreaMasked_ok ex_arena_fwd (ex_ss RankEXACT) [4112; 4096; 5] 3 Hwf Ht).
Defined.

Lemma TraceScanAreaMasked_unwhite_witness :
  [8192; 8200] <> [] /\
  RefSetInter (ss_white (ex_ss RankEXACT)) (AreaZones (ar_zoneShift ex_arena_fwd) 0 [8192; 8200])
    = RefSetEMPTY /\
  TraceScanAreaMasked ex_arena_fwd (ex_ss RankEXACT) [8192; 8200] 0
  = Some (ResOK, [8192; 8200],
          ss_set_unfixed (ex_ss RankEXACT)
            (RefSetUnion (ss_unfixedSummary (ex_ss RankEXACT))
                         (AreaZones (ar_zoneShift ex_arena_fwd) 0 [8192; 8200])), ex_arena_fwd).
Proof.
  assert (Hne : [8192; 8200] <> []) by discriminate.
  assert (Hw : RefSetInter (ss_white (ex_ss RankEXACT))
                 (AreaZones (ar_zoneShift ex_arena_fwd) 0 [8192; 8200]) = RefSetEMPTY)
    by (vm_compute; reflexivity).
  split; [exact Hne|]. split; [exact Hw|].
  exact (TraceScanAreaMasked_unwhite ex_arena_fwd (ex_ss RankEXACT) [8192; 8200] 0 Hne Hw).
Defined.

Lemma TraceScanSingleRef_tail ar0 ar2 j c ss ref' :
  ArenaWF ar2 -> ar_trace ar2 = ar_trace ar0 -> ar_zoneShift ar2 = ar_zoneShift ar0 ->
  (j < length (ar_segs ar2))%nat ->
  let s := ar_seg ar2 j in
  let ar3 := ar_set_seg ar2 j (SegSetSummary s (RefSetAdd (ar_zoneShift ar2) (seg_summary s) ref')) in
  let '(tr, c') := TraceSetUpdateCounts TraceSetSingle0 (ar_trace ar3) c ss
                     TraceAccountingPhaseSingleScan in
  ArenaWF (ar_set_trace ar3 tr) /\ ar_trace (ar_set_trace ar3 tr) = ar_trace ar0
  /\ RefSetSub (RefSetAdd (ar_zoneShift ar0) RefSetEMPTY ref')
               (seg_summary (ar_seg (ar_set_trace ar3 tr) j)) = true
  /\ tc_singleScanSize c' = SizeAdd (tc_singleScanSize c) (ss_scannedSize ss).
Proof.
  intros Hwf Ht Hz Hj. cbv zeta.
  destruct (summary_ok ar2 j (RefSetAdd (ar_zoneShift ar2) (seg_summary (ar_seg ar2 j)) ref') Hwf Hj)
    as (W & _ & T & _ & _).
  cbv zeta in W, T.
  unfold TraceSetUpdateCounts. replace (TraceSetIsMember TraceSetSingle0 0) with true by reflexivity.
  unfold TraceUpdateCounts. cbn beta iota zeta.
  split; [apply WF_set_trace; exact W|].
  split; [cbn; rewrite ?T; exact Ht|].
  split; [|reflexivity].
  assert (E : forall a t, ar_seg (ar_set_trace a t) j = ar_seg a j) by reflexivity.
  rewrite E, ar_seg_set_seg_eq by exact Hj. cbn. rewrite Hz. apply RefSetSub_Add_zone.
Qed.

(** X8: [TraceScanSingleRef] for trace 0 of a well-formed arena passes
    its AVERs, keeps the arena well formed and the trace, cannot fail in
    emergency mode, and, when the segment's summary meets the white set,
    leaves the zone of the slot's new value in the segment's summary and
    accounts one word of single-reference scanning. *)
Theorem TraceScanSingleRef_ok ar c rank j p k :
  ArenaWF ar -> (j < length (ar_segs ar))%nat ->
  match TraceScanSingleRef ar c TraceSetSingle0 rank j p k with
  | None => False
  | Some (res, ref', c', ar') =>
      ArenaWF ar' /\ ar_trace ar' = ar_trace ar
      /\ (tr_emergency (ar_trace ar) = true -> res = ResOK)
      /\ (RefSetInter (seg_summary (ar_seg ar j)) (tr_white (ar_trace ar)) <> RefSetEMPTY ->
          RefSetSub (RefSetAdd (ar_zoneShift ar) RefSetEMPTY ref')
                    (seg_summary (ar_seg ar' j)) = true
          /\ tc_singleScanSize c' = SizeAdd (tc_singleScanSize c) (MPS_WORD_WIDTH / 8))
  end.
Proof.
  intros Hwf Hj. unfold TraceScanSingleRef.
  assert (Hm : TraceSetIsMember TraceSetSingle0 0 = true) by reflexivity.
  assert (Hwu : TraceSetWhiteUnion TraceSetSingle0 ar = tr_white (ar_trace ar)).
  { unfold TraceSetWhiteUnion. rewrite Hm. unfold RefSetUnion, RefSetEMPTY. apply Z.lor_0_l. }
  rewrite Hwu. replace (TraceSetCheck TraceSetSingle0) with true by reflexivity.
  cbn [negb]. cbv zeta.
  destruct (RefSetInter (seg_summary (ar_seg ar j)) (tr_white (ar_trace ar)) =? RefSetEMPTY) eqn:Es.
  { split; [exact Hwf|]. split; [reflexivity|]. split; [reflexivity|].
    intros Hne. apply Z.eqb_eq in Es. contradiction. }
  set (ss0 := ScanStateInit ar TraceSetSingle0 rank (tr_white (ar_trace ar))).
  assert (He : ss_emergencyFix ss0 = tr_emergency (ar_trace ar)) by reflexivity.
  assert (Ht : ss_traces ss0 = TraceSetSingle0) by reflexivity.
  destruct (RefSetInter _ (RefSetAdd _ _ (SlotGet _ p k)) =? RefSetEMPTY).
  - pose proof (TraceScanSingleRef_tail ar ar j c
                  (ss_set_counts (ss_set_unfixed ss0 (RefSetUnion (ss_unfixedSummary ss0)
                      (RefSetAdd (ar_zoneShift ar) RefSetEMPTY (SlotGet (ar_seg ar j) p k))))
                      (ss_wasMarked ss0) (ss_fixRefCount ss0) (ss_segRefCount ss0)
                      (ss_whiteSegRefCount ss0) (ss_nailCount ss0) (ss_snapCount ss0)
                      (ss_forwardedCount ss0) (ss_copiedSize ss0) (MPS_WORD_WIDTH / 8))
                  (SlotGet (ar_seg ar j) p k) Hwf eq_refl eq_refl Hj) as H.
    cbv zeta in H.
    destruct (TraceSetUpdateCounts _ _ _ _ _) as [tr c'].
    destruct H as (W & T & S & C).
    split; [exact W|]. split; [exact T|]. split; [reflexivity|].
    intros _. split; [exact S | exact C].
  - pose proof (ScanStateFix_ok ar ss0 (SlotGet (ar_seg ar j) p k) Hwf Ht) as HF.
    pose proof (ScanStateFix_sums ar ss0 (SlotGet (ar_seg ar j) p k)) as HS.
    destruct (ScanStateFix ar ss0 _) as [[[r1 ref1] ss1] ar1].
    destruct HF as [(W1 & R1 & _ & E1) _]. destruct HS as (Z1 & _).
    rewrite He in E1.
    destruct (set_slot_ok (tr_emergency (ar_trace ar)) ar1 j p k ref1 W1) as (W2 & R2 & _).
    set (ar2 := ar_set_seg ar1 j (SegSetSlot (ar_seg ar1 j) p k ref1)) in *.
    assert (T2 : ar_trace ar2 = ar_trace ar) by (destruct R1 as (_ & T1 & _); exact T1).
    assert (Z2 : ar_zoneShift ar2 = ar_zoneShift ar) by exact Z1.
    assert (L2 : (j < length (ar_segs ar2))%nat).
    { destruct R1 as (_ & _ & L1 & _). destruct R2 as (_ & _ & L2' & _). lia. }
    lazymatch goal with
    | |- context [TraceSetUpdateCounts TraceSetSingle0 _ c ?ssx _] =>
        pose proof (TraceScanSingleRef_tail ar ar2 j c ssx ref1 W2 T2 Z2 L2) as H
    end.
    cbv zeta in H.
    destruct (TraceSetUpdateCounts _ _ _ _ _) as [tr c'].
    destruct H as (W & T & S & C).
    split; [exact W|]. split; [exact T|]. split; [exact E1|].
    intros _. split; [exact S | exact C].
Qed.

Lemma ObjChain_le f a b : ObjChain f a b -> a <= b.
Proof. induction 1; lia. Qed.

Lemma amcAddrObjectSearchLoop_sound fuel amc s b L addr p :
  amcAddrObjectSearchLoop fuel amc s b L addr = Some (ResOK, Some p) ->
  ObjChain (amcObjLimit amc s) b (p - amc_headerSize amc)
  /\ p - amc_headerSize amc <= addr < amcObjLimit amc s (p - amc_headerSize amc)
  /\ p - amc_headerSize amc < L
  /\ FormatIsMoved s p = 0.
Proof.
  revert b. induction fuel as [|fuel IH]; intros b H; cbn in H.
  - destruct (b <? L); discriminate.
  - destruct (b <? L) eqn:EL; [|discriminate].
    destruct (b <? amcObjLimit amc s b) eqn:E1; cbn [negb] in H; [|discriminate].
    destruct (addr <? amcObjLimit amc s b) eqn:E2.
    + destruct (b <=? addr) eqn:E3; cbn [negb] in H; [|discriminate].
      destruct (FormatIsMoved s (b + amc_headerSize amc) =? 0) eqn:E4; [|discriminate].
      injection H as <-.
      replace (b + amc_headerSize amc - amc_headerSize amc) with b by lia.
      apply Z.ltb_lt in EL, E1, E2. apply Z.leb_le in E3. apply Z.eqb_eq in E4.
      split; [constructor|]. split; [lia|]. split; [lia | exact E4].
    + destruct (IH _ H) as (C & R & Lt & M).
      apply Z.ltb_lt in E1.
      split; [apply oc_step; assumption|]. auto.
Qed.

Lemma amcAddrObjectSearchLoop_complete amc s L addr x : forall fuel b,
  ObjChain (amcObjLimit amc s) b x -> x < L -> x <= addr < amcObjLimit amc s x ->
  (Z.to_nat (L - b) < fuel)%nat ->
  amcAddrObjectSearchLoop fuel amc s b L addr
  = Some (if FormatIsMoved s (x + amc_headerSize amc) =? 0
          then (ResOK, Some (x + amc_headerSize amc)) else (ResFAIL, None)).
Proof.
  intros fuel b C. revert fuel. induction C as [a|a b Ha C IH]; intros fuel HL Hx Hf.
  - destruct fuel as [|fuel]; [lia|]. cbn.
    replace (a <? L) with true by (symmetry; apply Z.ltb_lt; lia).
    replace (a <? amcObjLimit amc s a) with true by (symmetry; apply Z.ltb_lt; lia).
    replace (addr <? amcObjLimit amc s a) with true by (symmetry; apply Z.ltb_lt; lia).
    replace (a <=? addr) with true by (symmetry; apply Z.leb_le; lia).
    cbn [negb]. destruct (_ =? 0); reflexivity.
  - pose proof (ObjChain_le _ _ _ C) as Hle.
    destruct fuel as [|fuel]; [lia|]. cbn [amcAddrObjectSearchLoop].
    replace (a <? L) with true by (symmetry; apply Z.ltb_lt; lia).
    replace (a <? amcObjLimit amc s a) with true by (symmetry; apply Z.ltb_lt; lia).
    replace (addr <? amcObjLimit amc s a) with false by (symmetry; apply Z.ltb_ge; lia).
    cbn [negb]. apply IH; [exact HL | exact Hx | lia].
Qed.

(** X10: when [AMCAddrObject] finds an object [p], [addr] lies in a
    segment, the object's base [p - header] is reached from the
    segment's base by stepping from object to object, [addr] lies in
    that object, the object starts below the scan limit and it has not
    been moved. *)
Theorem AMCAddrObject_sound ar addr p :
  AMCAddrObject ar addr = Some (ResOK, Some p) ->
  exists i s, SegOfAddr ar addr = Some (i, s)
    /\ ObjChain (amcObjLimit (ar_amc ar) s) (seg_base s) (p - amc_headerSize (ar_amc ar))
    /\ p - amc_headerSize (ar_amc ar) <= addr
       < amcObjLimit (ar_amc ar) s (p - amc_headerSize (ar_amc ar))
    /\ p - amc_headerSize (ar_amc ar)
       < match SegBuffer ar s with Some (_, b) => buf_init b | None => seg_limit s end
    /\ FormatIsMoved s p = 0.
Proof.
  unfold AMCAddrObject. destruct (SegOfAddr ar addr) as [[i s]|]; [|discriminate].
  unfold amcAddrObjectSearch. intros H.
  destruct (negb _); [discriminate|].
  exists i, s. split; [reflexivity|]. exact (amcAddrObjectSearchLoop_sound _ _ _ _ _ _ _ H).
Qed.

(** X11: conversely, for an address inside an object reached from the
    segment's base and starting below the scan limit, [AMCAddrObject]
    returns that object when it is unmoved, and [ResFAIL] when it has
    been forwarded. *)
Theorem AMCAddrObject_complete ar addr i s x :
  SegOfAddr ar addr = Some (i, s) ->
  ObjChain (amcObjLimit (ar_amc ar) s) (seg_base s) x ->
  x < match SegBuffer ar s with Some (_, b) => buf_init b | None => seg_limit s end ->
  x <= addr < amcObjLimit (ar_amc ar) s x ->
  AMCAddrObject ar addr
  = Some (if FormatIsMoved s (x + amc_headerSize (ar_amc ar)) =? 0
          then (ResOK, Some (x + amc_headerSize (ar_amc ar))) else (ResFAIL, None)).
Proof.
  intros Hs C HL Hx. unfold AMCAddrObject. rewrite Hs. cbv zeta.
  pose proof (ObjChain_le _ _ _ C) as Hle.
  unfold amcAddrObjectSearch.
  destruct (SegBuffer ar s) as [[bi b]|];
    (replace (seg_base s <=? _) with true by (symmetry; apply Z.leb_le; lia)); cbn [negb];
    (apply amcAddrObjectSearchLoop_complete; [exact C | exact HL | exact Hx | lia]).
Qed.

Lemma AMCAddrObject_sound_witness :
  AMCAddrObject ex_arena_fwd 4100 = Some (ResOK, Some 4096) /\
  exists i s, SegOfAddr ex_arena_fwd 4100 = Some (i, s)
    /\ ObjChain (amcObjLimit (ar_amc ex_arena_fwd) s) (seg_base s)
                (4096 - amc_headerSize (ar_amc ex_arena_fwd))
    /\ 4096 - amc_headerSize (ar_amc ex_arena_fwd) <= 4100
       < amcObjLimit (ar_amc ex_arena_fwd) s (4096 - amc_headerSize (ar_amc ex_arena_fwd))
    /\ 4096 - amc_headerSize (ar_amc ex_arena_fwd)
       < match SegBuffer ex_arena_fwd s with Some (_, b) => buf_init b | None => seg_limit s end
    /\ FormatIsMoved s 4096 = 0.
Proof.
  assert (H : AMCAddrObject ex_arena_fwd 4100 = Some (ResOK, Some 4096)) by (vm_compute; reflexivity).
  split; [exact H|]. exact (AMCAddrObject_sound ex_arena_fwd 4100 4096 H).
Defined.

Lemma AMCAddrObject_complete_witness :
  SegOfAddr ex_arena_fwd 4120 = Some (O, ar_seg ex_arena_fwd O) /\
  ObjChain (amcObjLimit (ar_amc ex_arena_fwd) (ar_seg ex_arena_fwd O))
           (seg_base (ar_seg ex_arena_fwd O)) 4112 /\
  AMCAddrObject ex_arena_fwd 4120 = Some (ResFAIL, None).
Proof.
  assert (Hs : SegOfAddr ex_arena_fwd 4120 = Some (O, ar_seg ex_arena_fwd O))
    by (vm_compute; reflexivity).
  assert (C : ObjChain (amcObjLimit (ar_amc ex_arena_fwd) (ar_seg ex_arena_fwd O))
                       (seg_base (ar_seg ex_arena_fwd O)) 4112).
  { apply oc_step; [vm_compute; reflexivity|]. vm_compute. apply oc_refl. }
  split; [exact Hs|]. split; [exact C|].
  exact (AMCAddrObject_complete ex_arena_fwd 4120 O (ar_seg ex_arena_fwd O) 4112 Hs C
           ltac:(vm_compute; reflexivity) ltac:(vm_compute; split; congruence)).
Defined.

Lemma SkipWalk_bounds align s a b l :
  SkipWalk align s a b l -> a <= b /\ (Z.of_nat (length l) <= b - a).
Proof. induction 1; cbn [length]; lia. Qed.

Lemma SkipWalk_in align s a b l x :
  SkipWalk align s a b l -> In x l -> a <= x < b /\ FormatIsMoved s x = 0.
Proof.
  induction 1 as [a|a b l M Lt W IH]; intros Hx; [contradiction|].
  pose proof (SkipWalk_bounds _ _ _ _ _ W) as [Hb _].
  destruct Hx as [<-|Hx]; [split; [lia | exact M]|].
  destruct (IH Hx). split; [lia | assumption].
Qed.

Lemma amcSegWalkLoop_sound fuel align s object limit l :
  amcSegWalkLoop fuel align s object limit = Some l -> SkipWalk align s object limit l.
Proof.
  revert object l. induction fuel as [|fuel IH]; intros object l H; cbn in H.
  - destruct (object <? limit); [discriminate|].
    destruct (object =? limit) eqn:E; [|discriminate]. injection H as <-.
    apply Z.eqb_eq in E. subst. constructor.
  - destruct (object <? limit).
    + destruct (FormatIsMoved s object =? 0) eqn:E1; cbn [negb] in H; [|discriminate].
      destruct (object <? FormatSkip align s object) eqn:E2; cbn [negb] in H; [|discriminate].
      destruct (amcSegWalkLoop fuel align s (FormatSkip align s object) limit) eqn:E3;
        cbn in H; [|discriminate].
      injection H as <-. apply Z.eqb_eq in E1. apply Z.ltb_lt in E2.
      constructor; [exact E1 | exact E2 | apply IH, E3].
    + destruct (object =? limit) eqn:E; [|discriminate]. injection H as <-.
      apply Z.eqb_eq in E. subst. constructor.
Qed.

Lemma amcSegWalkLoop_complete align s object limit l fuel :
  SkipWalk align s object limit l -> (length l < fuel)%nat ->
  amcSegWalkLoop fuel align s object limit = Some l.
Proof.
  intros W. revert fuel. induction W as [a|a b l M Lt W IH]; intros fuel Hf.
  - destruct fuel as [|fuel]; [lia|]. cbn. rewrite Z.ltb_irrefl, Z.eqb_refl. reflexivity.
  - pose proof (SkipWalk_bounds _ _ _ _ _ W) as [Hb _].
    destruct fuel as [|fuel]; [cbn in Hf; lia|]. cbn [amcSegWalkLoop].
    replace (a <? b) with true by (symmetry; apply Z.ltb_lt; lia).
    rewrite M, Z.eqb_refl. cbn [negb].
    replace (a <? FormatSkip align s a) with true by (symmetry; apply Z.ltb_lt; lia).
    cbn [negb]. rewrite IH by (cbn [length] in Hf; lia). reflexivity.
Qed.

Lemma amcSegWalk_iff ar s l :
  amcSegWalk ar s = Some l <->
  if (seg_white s =? TraceSetEMPTY) && (seg_grey s =? TraceSetEMPTY)
     && (seg_nailed s =? TraceSetEMPTY)
  then SkipWalk (amc_align (ar_amc ar)) s (seg_base s + amc_headerSize (ar_amc ar))
                (SegBufferScanLimit ar s + amc_headerSize (ar_amc ar)) l
  else l = [].
Proof.
  unfold amcSegWalk. destruct (_ && _ && _); cbv zeta.
  - split; [apply amcSegWalkLoop_sound|].
    intros W. apply amcSegWalkLoop_complete; [exact W|].
    pose proof (SkipWalk_bounds _ _ _ _ _ W) as [_ Hl]. lia.
  - split; [intros H; injection H as <-; reflexivity | intros ->; reflexivity].
Qed.

(** X12: [amcSegWalk] visits exactly the unmoved objects from the
    segment's base to its scan limit, stepping by [skip], when the
    segment is neither white, grey nor nailed, and visits nothing
    otherwise. *)
Theorem amcSegWalk_spec ar s l :
  amcSegWalk ar s = Some l <->
  if (seg_white s =? TraceSetEMPTY) && (seg_grey s =? TraceSetEMPTY)
     && (seg_nailed s =? TraceSetEMPTY)
  then SkipWalk (amc_align (ar_amc ar)) s (seg_base s + amc_headerSize (ar_amc ar))
                (SegBufferScanLimit ar s + amc_headerSize (ar_amc ar)) l
  else l = [].
Proof. exact (amcSegWalk_iff ar s l). Qed.

(** X13: every object that [mps_amc_apply] visits is an unmoved object
    of a segment of the arena that is neither white, grey nor nailed,
    between the segment's base and its scan limit. *)
Theorem mps_amc_apply_visits ar l :
  mps_amc_apply ar = Some l ->
  forall x, In x l ->
  exists s, In s (ar_segs ar)
    /\ seg_white s = TraceSetEMPTY /\ seg_grey s = TraceSetEMPTY /\ seg_nailed s = TraceSetEMPTY
    /\ seg_base s + amc_headerSize (ar_amc ar) <= x
       < SegBufferScanLimit ar s + amc_headerSize (ar_amc ar)
    /\ FormatIsMoved s x = 0.
Proof.
  unfold mps_amc_apply, amcWalkAll. revert l. generalize (ar_segs ar) as segs.
  induction segs as [|s segs IH]; intros l H x Hx; cbn in H.
  - injection H as <-. contradiction.
  - destruct (amcSegWalk ar s) as [l1|] eqn:E1; [|discriminate].
    destruct (amcWalkAllLoop ar segs) as [l2|] eqn:E2; cbn in H; [|discriminate].
    injection H as <-. apply in_app_or in Hx as [Hx|Hx].
    + apply amcSegWalk_iff in E1.
      destruct (seg_white s =? TraceSetEMPTY) eqn:Ew; cbn [andb] in E1; [|subst; contradiction].
      destruct (seg_grey s =? TraceSetEMPTY) eqn:Eg; cbn [andb] in E1; [|subst; contradiction].
      destruct (seg_nailed s =? TraceSetEMPTY) eqn:En; cbn [andb] in E1; [|subst; contradiction].
      destruct (SkipWalk_in _ _ _ _ _ _ E1 Hx) as [B M].
      apply Z.eqb_eq in Ew, Eg, En.
      exists s. split; [left; reflexivity|]. auto.
    + destruct (IH l2 eq_refl x Hx) as (s' & Hin & R). exists s'. split; [right; exact Hin | exact R].
Qed.

Lemma TraceScanSingleRef_ok_witness :
  ArenaWF ex_arena_fwd /\ (0 < length (ar_segs ex_arena_fwd))%nat /\
  match TraceScanSingleRef ex_arena_fwd (mkCounters 0 0 0 0 0 0 0 0 0 0 0)
          TraceSetSingle0 RankEXACT 0 4096 0 with
  | None => False
  | Some (res, ref', c', ar') =>
      ArenaWF ar' /\ ar_trace ar' = ar_trace ex_arena_fwd
      /\ (tr_emergency (ar_trace ex_arena_fwd) = true -> res = ResOK)
      /\ (RefSetInter (seg_summary (ar_seg ex_arena_fwd 0)) (tr_white (ar_trace ex_arena_fwd))
            <> RefSetEMPTY ->
          RefSetSub (RefSetAdd (ar_zoneShift ex_arena_fwd) RefSetEMPTY ref')
                    (seg_summary (ar_seg ar' 0)) = true
          /\ tc_singleScanSize c' = SizeAdd 0 (MPS_WORD_WIDTH / 8))
  end.
Proof.
  assert (Hwf : ArenaWF ex_arena_fwd).
  { constructor; cbn.
    - unfold SegsSorted. repeat constructor; cbn; lia.
    - lia.
    - lia.
    - lia.
    - repeat constructor; cbn; lia.
    - repeat constructor; cbn; intros; lia.
    - constructor; [|constructor]. cbn. intros _ x Hx. injection Hx as <-.
      repeat constructor; cbn; intros; first [lia | reflexivity].
    - repeat constructor. }
  assert (Hj : (0 < length (ar_segs ex_arena_fwd))%nat) by (cbn; lia).
  split; [exact Hwf|]. split; [exact Hj|].
  exact (TraceScanSingleRef_ok ex_arena_fwd (mkCounters 0 0 0 0 0 0 0 0 0 0 0)
           RankEXACT 0 4096 0 Hwf Hj).
Defined.

Lemma mps_amc_apply_visits_witness :
  mps_amc_apply ex_arena_fwd = Some [8192] /\
  exists s, In s (ar_segs ex_arena_fwd)
    /\ seg_white s = TraceSetEMPTY /\ seg_grey s = TraceSetEMPTY /\ seg_nailed s = TraceSetEMPTY
    /\ seg_base s + amc_headerSize (ar_amc ex_arena_fwd) <= 8192
       < SegBufferScanLimit ex_arena_fwd s + amc_headerSize (ar_amc ex_arena_fwd)
    /\ FormatIsMoved s 8192 = 0.
Proof.
  assert (H : mps_amc_apply ex_arena_fwd = Some [8192]) by (vm_compute; reflexivity).
  split; [exact H|].
  exact (mps_amc_apply_visits ex_arena_fwd [8192] H 8192 (or_introl eq_refl)).
Defined.

Lemma amcGenCreateLoop_spec gc rs n : forall i,
  let '(res, gens, bufs) := amcGenCreateLoop gc rs i n in
  (res = ResOK <-> forall k, (i <= k < i + n)%nat -> gc k = ResOK)
  /\ (res = ResOK -> gens = map (fun k => mkGen k 0 0) (seq i n)
                     /\ bufs = repeat (amcForwardBuffer rs) n).
Proof.
  induction n as [|n IH]; intros i; cbn [amcGenCreateLoop].
  - split; [split; [intros _ k Hk; lia | reflexivity] | intros _; split; reflexivity].
  - destruct (gc i) eqn:E.
    all: try (split; [split; [discriminate | intros H; rewrite <- E; apply H; lia]
                     | discriminate]).
    pose proof (IH (S i)) as H.
    destruct (amcGenCreateLoop gc rs (S i) n) as [[res gens] bufs].
    destruct H as [H1 H2]. split.
    + rewrite H1. split.
      * intros H k Hk. destruct (Nat.eq_dec k i) as [->|Hne]; [exact E|]. apply H. lia.
      * intros H k Hk. apply H. lia.
    + intros Hr. destruct (H2 Hr) as [-> ->]. split; reflexivity.
Qed.

Lemma nth_amc_gens G i :
  (i <= G)%nat -> nth i (map (fun k => mkGen k 0 0) (seq 0 (S G))) dummyGen = mkGen i 0 0.
Proof.
  intros Hi. rewrite (nth_indep _ dummyGen ((fun k => mkGen k 0 0) O))
    by (rewrite length_map, length_seq; lia).
  rewrite (map_nth (fun k => mkGen k 0 0) (seq 0 (S G)) O i), seq_nth by lia. reflexivity.
Qed.

Lemma amcInit_forward_fold rs G n :
  (n <= G)%nat ->
  let gens := map (fun k => mkGen k 0 0) (seq 0 (S G)) in
  let bufs := fold_left (fun bufs i => amcSetForward gens bufs i (S i)) (seq 0 n)
                        (repeat (amcForwardBuffer rs) (S G)) in
  length bufs = S G
  /\ forall k, (k <= G)%nat ->
       nth k bufs dummyBuf = if (k <? n)%nat then amcBufSetGen (amcForwardBuffer rs) (S k)
                             else amcForwardBuffer rs.
Proof.
  induction n as [|n IH]; intros Hn; cbv zeta.
  - cbn [seq fold_left]. split; [apply repeat_length|].
    intros k Hk. cbn [Nat.ltb Nat.leb]. apply nth_repeat_lt; lia.
  - rewrite (seq_S n 0), fold_left_app. cbn [fold_left Nat.add].
    destruct (IH ltac:(lia)) as [L F]. cbv zeta in L, F.
    set (B := fold_left _ (seq 0 n) _) in *.
    unfold amcSetForward. rewrite nth_amc_gens by lia. cbn [gen_forward].
    split; [rewrite length_list_set; exact L|].
    intros k Hk. destruct (Nat.eq_dec k n) as [->|Hne].
    + rewrite nth_list_set_eq by lia. rewrite F by lia.
      replace (n <? n)%nat with false by (symmetry; apply Nat.ltb_irrefl).
      replace (n <? S n)%nat with true by (symmetry; apply Nat.ltb_lt; lia). reflexivity.
    + rewrite nth_list_set_neq by exact Hne. rewrite F by exact Hk.
      destruct (Nat.ltb_spec k n), (Nat.ltb_spec k (S n)); try reflexivity; lia.
Qed.

Lemma amcInitComm_shape dI dE dL nextInit allocGens genCreate grain align header rankSet
    genCount args amc gens bufs :
  amcInitComm dI dE dL nextInit allocGens genCreate grain align header rankSet genCount args
    = Some (ResOK, Some (amc, gens, bufs)) ->
  let e := match arg_extendBy args with Some x => x | None => dE end in
  let l := match arg_largeSize args with Some x => x | None => dL end in
  nextInit = ResOK /\ allocGens = ResOK
  /\ (forall k, (k <= genCount)%nat -> genCreate k = ResOK)
  /\ 0 < e /\ 0 < l /\ e <= l
  /\ amc_rampCount amc = 0 /\ amc_rampMode amc = RampOUTSIDE
  /\ S (amc_rampGen amc) = genCount /\ amc_afterRampGen amc = genCount
  /\ amc_extendBy amc = SizeArenaGrains e grain /\ amc_largeSize amc = l
  /\ gens = map (fun k => mkGen k 0 0) (seq 0 (S genCount))
  /\ length bufs = S genCount
  /\ forall k, (k <= genCount)%nat ->
       nth k bufs dummyBuf = amcBufSetGen (amcForwardBuffer rankSet) (Nat.min (S k) genCount).
Proof.
  unfold amcInitComm. cbv zeta.
  set (e := match arg_extendBy args with Some x => x | None => dE end).
  set (l := match arg_largeSize args with Some x => x | None => dL end).
  destruct ((0 <? e) && (0 <? l) && (e <=? l)) eqn:A; cbn [negb]; [|discriminate].
  apply andb_true_iff in A as [A A3]. apply andb_true_iff in A as [A1 A2].
  apply Z.ltb_lt in A1, A2. apply Z.leb_le in A3.
  destruct nextInit; try discriminate. destruct allocGens; try discriminate.
  pose proof (amcGenCreateLoop_spec genCreate rankSet (S genCount) O) as HL.
  destruct (amcGenCreateLoop genCreate rankSet O (S genCount)) as [[res gs] bs].
  destruct res; try discriminate. destruct HL as [H1 H2].
  destruct (H2 eq_refl) as [-> ->].
  pose proof (amcInit_forward_fold rankSet genCount genCount (le_n _)) as HF. cbv zeta in HF.
  set (B := fold_left _ (seq 0 genCount) _) in *. destruct HF as [LB FB].
  unfold amcSetForward at 1. rewrite nth_amc_gens by lia. cbn [gen_forward].
  destruct genCount as [|g]; [discriminate|].
  intros H. injection H as <- <- <-.
  split; [reflexivity|]. split; [reflexivity|].
  split; [intros k Hk; apply H1; [reflexivity | lia]|].
  do 3 (split; [lia|]).
  do 6 (split; [reflexivity|]). split; [reflexivity|].
  split; [rewrite length_list_set; exact LB|].
  intros k Hk. destruct (Nat.eq_dec k (S g)) as [->|Hne].
  - rewrite nth_list_set_eq by lia. rewrite FB by lia. rewrite Nat.ltb_irrefl.
    rewrite Nat.min_r by lia. reflexivity.
  - rewrite nth_list_set_neq by exact Hne. rewrite FB by exact Hk.
    replace (k <? S g)%nat with true by (symmetry; apply Nat.ltb_lt; lia).
    rewrite Nat.min_l by lia. reflexivity.
Qed.

(** X14: a successful [amcInitComm] leaves the pool outside a ramp with
    the ramp invariant, the ramp generation the last of the [genCount]
    generations and [afterRampGen] the dynamic generation, and creates
    [genCount + 1] generations, each forwarding to a buffer of its own:
    a detached, non-mutator buffer of the pool's rank set that promotes
    to the next generation (the top one to itself). *)
Theorem amcInitComm_ok dI dE dL nextInit allocGens genCreate grain align header rankSet
    genCount args amc gens bufs :
  amcInitComm dI dE dL nextInit allocGens genCreate grain align header rankSet genCount args
    = Some (ResOK, Some (amc, gens, bufs)) ->
  AMCRampInv amc = true /\ amc_rampMode amc = RampOUTSIDE
  /\ S (amc_rampGen amc) = genCount /\ amc_afterRampGen amc = genCount
  /\ length gens = S genCount /\ length bufs = S genCount
  /\ forall k, (k <= genCount)%nat ->
       gen_forward (nth k gens dummyGen) = k
       /\ buf_mutator (nth k bufs dummyBuf) = false
       /\ buf_seg (nth k bufs dummyBuf) = None
       /\ buf_rankSet (nth k bufs dummyBuf) = rankSet
       /\ buf_gen (nth k bufs dummyBuf) = Nat.min (S k) genCount.
Proof.
  intros H. apply amcInitComm_shape in H. cbv zeta in H.
  destruct H as (_ & _ & _ & _ & _ & _ & C & M & R & AR & _ & _ & G & L & B).
  split; [unfold AMCRampInv; rewrite C, M; reflexivity|].
  split; [exact M|]. split; [exact R|]. split; [exact AR|].
  split; [rewrite G, length_map, length_seq; reflexivity|]. split; [exact L|].
  intros k Hk. rewrite B by exact Hk. rewrite G, nth_amc_gens by exact Hk.
  repeat split.
Qed.

(** X15: after a successful [amcInitComm], following the forwarding
    buffers [n] times from generation 0 reaches generation
    [min n genCount]: objects move up one generation per collection
    until the dynamic generation. *)
Theorem amcInitComm_promote dI dE dL nextInit allocGens genCreate grain align header rankSet
    genCount args amc gens bufs :
  amcInitComm dI dE dL nextInit allocGens genCreate grain align header rankSet genCount args
    = Some (ResOK, Some (amc, gens, bufs)) ->
  forall n, Nat.iter n (fun g => buf_gen (nth (gen_forward (nth g gens dummyGen)) bufs dummyBuf)) O
            = Nat.min n genCount.
Proof.
  intros H. apply amcInitComm_shape in H. cbv zeta in H.
  destruct H as (_ & _ & _ & _ & _ & _ & _ & _ & _ & _ & _ & _ & G & _ & B).
  induction n as [|n IH]; [reflexivity|].
  rewrite Nat.iter_succ, IH, G, nth_amc_gens by lia. cbn [gen_forward].
  rewrite B by lia. cbn [buf_gen amcBufSetGen]. lia.
Qed.

Lemma SizeArenaGrains_bounds e g :
  0 < g -> e <= SizeArenaGrains e g < e + g /\ SizeArenaGrains e g mod g = 0.
Proof.
  intros Hg. unfold SizeArenaGrains.
  pose proof (Z.div_mod (e + g - 1) g ltac:(lia)) as D.
  pose proof (Z.mod_pos_bound (e + g - 1) g Hg) as M.
  split; [lia|]. apply Z.mod_mul. lia.
Qed.

(** X16: with a positive grain, a successful [amcInitComm] had a
    positive extend size no larger than the large size, and rounds it
    up to whole grains, by less than one grain. *)
Theorem amcInitComm_extendBy dI dE dL nextInit allocGens genCreate grain align header rankSet
    genCount args amc gens bufs :
  amcInitComm dI dE dL nextInit allocGens genCreate grain align header rankSet genCount args
    = Some (ResOK, Some (amc, gens, bufs)) ->
  0 < grain ->
  let e := match arg_extendBy args with Some x => x | None => dE end in
  0 < e <= amc_largeSize amc
  /\ e <= amc_extendBy amc < e + grain /\ amc_extendBy amc mod grain = 0.
Proof.
  intros H Hg. apply amcInitComm_shape in H. cbv zeta in H |- *.
  destruct H as (_ & _ & _ & E0 & _ & EL & _ & _ & _ & _ & X & Lg & _).
  rewrite X, Lg. pose proof (SizeArenaGrains_bounds
    (match arg_extendBy args with Some x => x | None => dE end) grain Hg) as S.
  destruct S as [S1 S2]. split; [lia | split; [exact S1 | exact S2]].
Qed.

(** X17: [amcInitComm] stops on its AVERs (a positive extend size no
    larger than the large size, and at least one generation);
    otherwise it succeeds exactly when the pool initialisation, the
    generation array allocation and the creation of every generation
    succeed, and it returns a pool exactly when it succeeds. *)
Theorem amcInitComm_result dI dE dL nextInit allocGens genCreate grain align header rankSet
    genCount args :
  let e := match arg_extendBy args with Some x => x | None => dE end in
  let l := match arg_largeSize args with Some x => x | None => dL end in
  match amcInitComm dI dE dL nextInit allocGens genCreate grain align header rankSet genCount args with
  | None => ~ (0 < e /\ 0 < l /\ e <= l) \/ genCount = O
  | Some (res, p) =>
      (res = ResOK <-> nextInit = ResOK /\ allocGens = ResOK
                       /\ forall k, (k <= genCount)%nat -> genCreate k = ResOK)
      /\ (res = ResOK <-> p <> None)
  end.
Proof.
  cbv zeta. unfold amcInitComm. cbv zeta.
  set (e := match arg_extendBy args with Some x => x | None => dE end).
  set (l := match arg_largeSize args with Some x => x | None => dL end).
  destruct ((0 <? e) && (0 <? l) && (e <=? l)) eqn:A; cbn [negb].
  2: { left. intros (A1 & A2 & A3). apply Z.ltb_lt in A1, A2. apply Z.leb_le in A3.
       rewrite A1, A2, A3 in A. discriminate. }
  assert (Hnone : forall r, r <> ResOK ->
            (r = ResOK <-> nextInit = ResOK /\ allocGens = ResOK
                           /\ forall k, (k <= genCount)%nat -> genCreate k = ResOK) ->
            (r = ResOK <-> nextInit = ResOK /\ allocGens = ResOK
                           /\ forall k, (k <= genCount)%nat -> genCreate k = ResOK)
            /\ (r = ResOK <-> @None (AMC * list Gen * list Buffer) <> None)).
  { intros r Hr Hi. split; [exact Hi|]. split; [intro; contradiction | intros N; contradiction N; reflexivity]. }
  destruct nextInit;
    try (apply Hnone; [discriminate | split; [discriminate | intros (H & _); discriminate]]).
  destruct allocGens;
    try (apply Hnone; [discriminate | split; [discriminate | intros (_ & H & _); discriminate]]).
  pose proof (amcGenCreateLoop_spec genCreate rankSet (S genCount) O) as HL.
  destruct (amcGenCreateLoop genCreate rankSet O (S genCount)) as [[res gs] bs].
  destruct HL as [H1 _].
  destruct res;
    try (apply Hnone; [discriminate | split; [discriminate |
           intros (_ & _ & H); apply H1; intros k Hk; apply H; lia]]).
  - destruct genCount as [|g]; [right; reflexivity|].
    split; [split; [intros _; split; [reflexivity|]; split; [reflexivity|];
                    intros k Hk; apply H1; [reflexivity | lia] | intros _; reflexivity]|].
    split; [intros _; discriminate | intros _; reflexivity].
Qed.

Lemma amcInitComm_ok_witness :
  amcInitComm true 4096 32768 ResOK ResOK (fun _ => ResOK) 4096 8 0 2 2 ex_amc_args
    = Some (ResOK, Some (ex_init_amc, ex_init_gens, ex_init_bufs)) /\
  AMCRampInv ex_init_amc = true /\ amc_rampMode ex_init_amc = RampOUTSIDE
  /\ S (amc_rampGen ex_init_amc) = 2%nat /\ amc_afterRampGen ex_init_amc = 2%nat
  /\ length ex_init_gens = 3%nat /\ length ex_init_bufs = 3%nat
  /\ forall k, (k <= 2)%nat ->
       gen_forward (nth k ex_init_gens dummyGen) = k
       /\ buf_mutator (nth k ex_init_bufs dummyBuf) = false
       /\ buf_seg (nth k ex_init_bufs dummyBuf) = None
       /\ buf_rankSet (nth k ex_init_bufs dummyBuf) = 2
       /\ buf_gen (nth k ex_init_bufs dummyBuf) = Nat.min (S k) 2.
Proof.
  assert (H : amcInitComm true 4096 32768 ResOK ResOK (fun _ => ResOK) 4096 8 0 2 2 ex_amc_args
                = Some (ResOK, Some (ex_init_amc, ex_init_gens, ex_init_bufs)))
    by (vm_compute; reflexivity).
  split; [exact H|]. exact (amcInitComm_ok _ _ _ _ _ _ _ _ _ _ _ _ _ _ _ H).
Defined.

Lemma amcInitComm_promote_witness :
  amcInitComm true 4096 32768 ResOK ResOK (fun _ => ResOK) 4096 8 0 2 2 ex_amc_args
    = Some (ResOK, Some (ex_init_amc, ex_init_gens, ex_init_bufs)) /\
  forall n, Nat.iter n (fun g => buf_gen (nth (gen_forward (nth g ex_init_gens dummyGen))
                                              ex_init_bufs dummyBuf)) O = Nat.min n 2.
Proof.
  assert (H : amcInitComm true 4096 32768 ResOK ResOK (fun _ => ResOK) 4096 8 0 2 2 ex_amc_args
                = Some (ResOK, Some (ex_init_amc, ex_init_gens, ex_init_bufs)))
    by (vm_compute; reflexivity).
  split; [exact H|]. exact (amcInitComm_promote _ _ _ _ _ _ _ _ _ _ _ _ _ _ _ H).
Defined.

Lemma amcInitComm_extendBy_witness :
  amcInitComm true 4096 32768 ResOK ResOK (fun _ => ResOK) 4096 8 0 2 2 ex_amc_args
    = Some (ResOK, Some (ex_init_amc, ex_init_gens, ex_init_bufs)) /\ 0 < 4096 /\
  0 < 5000 <= amc_largeSize ex_init_amc
  /\ 5000 <= amc_extendBy ex_init_amc < 5000 + 4096 /\ amc_extendBy ex_init_amc mod 4096 = 0.
Proof.
  assert (H : amcInitComm true 4096 32768 ResOK ResOK (fun _ => ResOK) 4096 8 0 2 2 ex_amc_args
                = Some (ResOK, Some (ex_init_amc, ex_init_gens, ex_init_bufs)))
    by (vm_compute; reflexivity).
  assert (Hg : 0 < 4096) by lia.
  split; [exact H|]. split; [exact Hg|].
  exact (amcInitComm_extendBy _ _ _ _ _ _ _ _ _ _ _ _ _ _ _ H Hg).
Defined.

Lemma AMCRampBegin_iter ar k :
  amc_rampCount (ar_amc ar) = 0 -> amc_rampMode (ar_amc ar) = RampOUTSIDE ->
  (1 <= k)%nat -> Z.of_nat k <= UINT_MAX ->
  Nat.iter k AMCRampBegin ar = ar_set_amc ar (amc_set_ramp (ar_amc ar) (Z.of_nat k) RampBEGIN).
Proof.
  intros Hc Hm. induction k as [|k IH]; intros Hk Hu; [lia|].
  rewrite Nat.iter_succ. destruct (Nat.eq_dec k O) as [->|Hk0].
  - change (Nat.iter 0 AMCRampBegin ar) with ar. unfold AMCRampBegin. cbv zeta.
    rewrite Hc, Hm. reflexivity.
  - rewrite IH by lia. unfold AMCRampBegin. cbv zeta.
    cbn [ar_amc ar_set_amc ar_upd amc_set_ramp amc_rampCount amc_rampMode].
    rewrite Z.mod_small by (unfold UINT_MAX in *; lia).
    replace (Z.of_nat k + 1 =? 1) with false by (symmetry; apply Z.eqb_neq; lia).
    rewrite Nat2Z.inj_succ, <- Z.add_1_r. reflexivity.
Qed.

Lemma AMCRampEnd_iter ar k j :
  (j < k)%nat -> Z.of_nat k <= UINT_MAX ->
  Nat.iter j AMCRampEnd (ar_set_amc ar (amc_set_ramp (ar_amc ar) (Z.of_nat k) RampBEGIN))
  = ar_set_amc ar (amc_set_ramp (ar_amc ar) (Z.of_nat (k - j)) RampBEGIN).
Proof.
  induction j as [|j IH]; intros Hj Hu; [rewrite Nat.sub_0_r; reflexivity|].
  rewrite Nat.iter_succ, IH by lia. unfold AMCRampEnd. cbv zeta.
  cbn [ar_amc ar_set_amc ar_upd amc_set_ramp amc_rampCount amc_rampMode].
  rewrite Z.mod_small by (unfold UINT_MAX in *; lia).
  replace (Z.of_nat (k - j) - 1 =? 0) with false by (symmetry; apply Z.eqb_neq; lia).
  replace (Z.of_nat (k - j) - 1) with (Z.of_nat (k - S j)) by lia. reflexivity.
Qed.

Lemma AMCRamp_begin_end_arena ar n :
  amc_rampCount (ar_amc ar) = 0 -> amc_rampMode (ar_amc ar) = RampOUTSIDE ->
  (1 <= n)%nat -> Z.of_nat n <= UINT_MAX ->
  Nat.iter n AMCRampEnd (Nat.iter n AMCRampBegin ar)
  = ar_set_segs ar (map (fun s =>
        if Nat.eqb (seg_gen s) (amc_rampGen (ar_amc ar)) && seg_deferred s
           && (seg_white s =? TraceSetEMPTY)
        then SegSetAmcFlags s (seg_forwarded s) (seg_old s) (seg_accountedAsBuffered s) false
        else s) (ar_segs ar)).
Proof.
  intros Hc Hm Hn Hu. rewrite AMCRampBegin_iter by assumption.
  destruct n as [|n]; [lia|]. rewrite Nat.iter_succ, AMCRampEnd_iter by lia.
  replace (S n - n)%nat with 1%nat by lia.
  unfold AMCRampEnd. cbv zeta.
  cbn [ar_amc ar_set_amc ar_upd amc_set_ramp amc_rampCount amc_rampMode Z.of_nat].
  replace ((1 - 1) mod (UINT_MAX + 1)) with 0 by reflexivity. cbn [Z.eqb].
  unfold ar_set_segs, ar_set_amc, ar_upd. cbn.
  destruct ar as [segs bufs gens amc tr bt ft rs zs gs cl bok lg]; cbn in *.
  destruct amc; cbn in *. subst. reflexivity.
Qed.

(** X18: from outside a ramp with a zero ramp count, [n] nested
    [AMCRampBegin]s followed by [n] [AMCRampEnd]s give back the pool
    structure (ramp count, ramp mode and the other fields), and change
    the segments only by clearing the deferred flag of the ramp
    generation's deferred segments that are not white. *)
Theorem AMCRamp_begin_end ar n :
  amc_rampCount (ar_amc ar) = 0 -> amc_rampMode (ar_amc ar) = RampOUTSIDE ->
  (1 <= n)%nat -> Z.of_nat n <= UINT_MAX ->
  ar_amc (Nat.iter n AMCRampEnd (Nat.iter n AMCRampBegin ar)) = ar_amc ar
  /\ ar_segs (Nat.iter n AMCRampEnd (Nat.iter n AMCRampBegin ar))
     = map (fun s =>
        if Nat.eqb (seg_gen s) (amc_rampGen (ar_amc ar)) && seg_deferred s
           && (seg_white s =? TraceSetEMPTY)
        then SegSetAmcFlags s (seg_forwarded s) (seg_old s) (seg_accountedAsBuffered s) false
        else s) (ar_segs ar).
Proof.
  intros Hc Hm Hn Hu. rewrite (AMCRamp_begin_end_arena ar n Hc Hm Hn Hu).
  split; reflexivity.
Qed.

Lemma AMCRamp_begin_end_witness :
  amc_rampCount (ar_amc ex_arena_fwd) = 0 /\ amc_rampMode (ar_amc ex_arena_fwd) = RampOUTSIDE /\
  ar_amc (Nat.iter 3 AMCRampEnd (Nat.iter 3 AMCRampBegin ex_arena_fwd)) = ar_amc ex_arena_fwd.
Proof.
  assert (Hc : amc_rampCount (ar_amc ex_arena_fwd) = 0) by reflexivity.
  assert (Hm : amc_rampMode (ar_amc ex_arena_fwd) = RampOUTSIDE) by reflexivity.
  split; [exact Hc|]. split; [exact Hm|].
  exact (proj1 (AMCRamp_begin_end ex_arena_fwd 3 Hc Hm ltac:(lia) ltac:(unfold UINT_MAX; lia))).
Defined.

(** ** Creating and destroying traces *)

(** X1: [TraceCreate] fails with [ResLIMIT], changing nothing, when trace
    0 is busy; otherwise it succeeds with trace 0 busy and a fresh trace
    that satisfies [TraceCheck]: initial state, empty white and may-move
    sets, no emergency, a zero work clock, the flipped set and the
    segments untouched. *)
Theorem TraceCreate_spec (ar : Arena) :
  let '(res, ar') := TraceCreate ar in
  (TraceSetIsMember (ar_busyTraces ar) 0 = true -> res = ResLIMIT /\ ar' = ar) /\
  (TraceSetIsMember (ar_busyTraces ar) 0 = false ->
     res = ResOK /\ TraceCheck ar' = true
     /\ TraceSetIsMember (ar_busyTraces ar') 0 = true
     /\ tr_state (ar_trace ar') = TraceINIT
     /\ tr_white (ar_trace ar') = RefSetEMPTY /\ tr_mayMove (ar_trace ar') = RefSetEMPTY
     /\ tr_emergency (ar_trace ar') = false /\ TraceWorkClock ar' = 0
     /\ ar_flippedTraces ar' = ar_flippedTraces ar /\ ar_segs ar' = ar_segs ar).
Proof.
  unfold TraceCreate.
  destruct (TraceSetIsMember (ar_busyTraces ar) 0) eqn:E; cbn -[TraceSetIsMember TraceSetAdd].
  - split; [auto | intro; discriminate].
  - split; [intro; discriminate |].
    intros _.
    assert (Hm : TraceSetIsMember (TraceSetAdd (ar_busyTraces ar) 0) 0 = true)
      by apply TraceSetIsMember_Add0.
    unfold TraceCheck. cbn -[TraceSetIsMember TraceSetAdd]. rewrite Hm.
    repeat split; reflexivity.
Qed.

(** X2: [TraceDestroy] of a checked trace is an assertion failure unless
    the trace is finished; a finished trace is destroyed, leaving trace 0
    neither busy nor flipped, so that [TraceCreate] then succeeds with a
    checked, unflipped trace. *)
Theorem TraceDestroy_spec (ar : Arena) (Hc : TraceCheck ar = true) :
  (tr_state (ar_trace ar) <> TraceFINISHED -> TraceDestroy ar = None) /\
  (tr_state (ar_trace ar) = TraceFINISHED ->
     exists ar1, TraceDestroy ar = Some ar1
       /\ TraceSetIsMember (ar_busyTraces ar1) 0 = false
       /\ TraceSetIsMember (ar_flippedTraces ar1) 0 = false
       /\ let '(res, ar2) := TraceCreate ar1 in
          res = ResOK /\ TraceCheck ar2 = true
          /\ TraceSetIsMember (ar_flippedTraces ar2) 0 = false).
Proof.
  assert (Hti : tr_ti (ar_trace ar) = 0).
  { unfold TraceCheck in Hc.
    destruct (tr_ti (ar_trace ar) =? 0) eqn:E; [apply Z.eqb_eq; exact E|].
    rewrite andb_false_r in Hc; cbn -[TraceSetIsMember TraceSetAdd TraceSetDel] in Hc; discriminate. }
  unfold TraceDestroy; rewrite Hc; cbn -[TraceSetIsMember TraceSetAdd TraceSetDel].
  split.
  - intro Hn. destruct (tr_state (ar_trace ar)); cbn -[TraceSetIsMember TraceSetAdd TraceSetDel]; auto; congruence.
  - intro Hf. rewrite Hf; cbn -[TraceSetIsMember TraceSetAdd TraceSetDel]. eexists; split; [reflexivity|].
    cbn -[TraceSetIsMember TraceSetAdd TraceSetDel]. rewrite Hti. rewrite !TraceSetIsMember_Del0.
    split; [reflexivity|]. split; [reflexivity|].
    unfold TraceCreate; cbn -[TraceSetIsMember TraceSetAdd TraceSetDel]. rewrite TraceSetIsMember_Del0; cbn -[TraceSetIsMember TraceSetAdd TraceSetDel].
    unfold TraceCheck; cbn -[TraceSetIsMember TraceSetAdd TraceSetDel]. rewrite TraceSetIsMember_Add0, TraceSetIsMember_Del0.
    repeat split; reflexivity.
Qed.

Lemma TraceDestroy_spec_witness :
  TraceCheck (ex_arena (ex_seg 4096 0 0 0 None ex_objs) [ex_fwdbuf] TraceFINISHED) = true
  /\ ((tr_state (ar_trace (ex_arena (ex_seg 4096 0 0 0 None ex_objs) [ex_fwdbuf] TraceFINISHED))
        <> TraceFINISHED ->
       TraceDestroy (ex_arena (ex_seg 4096 0 0 0 None ex_objs) [ex_fwdbuf] TraceFINISHED) = None)
      /\ (tr_state (ar_trace (ex_arena (ex_seg 4096 0 0 0 None ex_objs) [ex_fwdbuf] TraceFINISHED))
            = TraceFINISHED ->
          exists ar1, TraceDestroy (ex_arena (ex_seg 4096 0 0 0 None ex_objs) [ex_fwdbuf] TraceFINISHED)
                      = Some ar1
            /\ TraceSetIsMember (ar_busyTraces ar1) 0 = false
            /\ TraceSetIsMember (ar_flippedTraces ar1) 0 = false
            /\ let '(res, ar2) := TraceCreate ar1 in
               res = ResOK /\ TraceCheck ar2 = true
               /\ TraceSetIsMember (ar_flippedTraces ar2) 0 = false)).
Proof.
  split; [vm_compute; reflexivity|].
  apply TraceDestroy_spec. vm_compute; reflexivity.
Defined.

Lemma ar_set_segs_self ar : ar_set_segs ar (ar_segs ar) = ar.
Proof. destruct ar; reflexivity. Qed.

Lemma amcSegFixInPlace_shape ar i ss ref :
  let ar' := amcSegFixInPlace ar i ss ref in
  ar' = ar_set_segs ar (ar_segs ar') /\ length (ar_segs ar') = length (ar_segs ar).
Proof.
  cbv zeta. unfold amcSegFixInPlace.
  destruct (seg_board (ar_seg ar i)) as [b|].
  - destruct (NailboardSet _ _ b ref) as [wm b'].
    destruct (_ && wm);
      [|destruct (negb _)];
      unfold ar_set_seg; cbn; split; try reflexivity; apply length_list_set.
  - destruct (TraceSetSub _ _).
    + rewrite ar_set_segs_self. split; reflexivity.
    + destruct (negb _); unfold ar_set_seg; cbn; split; try reflexivity; apply length_list_set.
Qed.

(** X9: [TraceFixEmergency] always succeeds and never allocates: the
    arena changes only in its segments, whose number is kept; the
    reference is kept or replaced by the forwarding address of the
    object in its segment; the fixed summary gains the result's zone,
    and the unfixed summary, the traces and the white set are kept. *)
Theorem TraceFixEmergency_no_alloc ar ss ref :
  let '(res, ref', ss', ar') := TraceFixEmergency ar ss ref in
  res = ResOK /\ ar' = ar_set_segs ar (ar_segs ar')
  /\ length (ar_segs ar') = length (ar_segs ar)
  /\ (ref' = ref \/ exists i s, SegOfAddr ar ref = Some (i, s) /\ ref' = FormatIsMoved s ref)
  /\ ss_fixedSummary ss' = RefSetAdd (ar_zoneShift ar) (ss_fixedSummary ss) ref'
  /\ ss_unfixedSummary ss' = ss_unfixedSummary ss
  /\ ss_traces ss' = ss_traces ss /\ ss_white ss' = ss_white ss.
Proof.
  unfold TraceFixEmergency.
  destruct (SegOfAddr ar ref) as [[i s]|] eqn:Hs.
  2:{ cbn. rewrite ar_set_segs_self. repeat split; auto. }
  destruct (negb _).
  2:{ cbn. rewrite ar_set_segs_self. repeat split; auto. }
  unfold amcSegFixEmergency.
  destruct (Rank_eqb _ _).
  - destruct (amcSegFixInPlace_shape ar i (ss_bump (ss_bump (ss_bump ss 1 0 0) 0 1 0) 0 0 1) ref) as [E L].
    cbn. refine (conj eq_refl (conj E (conj L (conj (or_introl eq_refl) _)))).
    repeat split; try reflexivity. rewrite E. reflexivity.
  - destruct (negb (FormatIsMoved (ar_seg ar i) ref =? 0)).
    + cbn. rewrite ar_set_segs_self.
      refine (conj eq_refl (conj eq_refl (conj eq_refl (conj _ _)))).
      * right. exists i, s. split; [reflexivity|].
        apply SegOfAddr_ok in Hs. destruct Hs as (_ & <- & _). reflexivity.
      * repeat split; reflexivity.
    + destruct (amcSegFixInPlace_shape ar i (ss_bump (ss_bump (ss_bump ss 1 0 0) 0 1 0) 0 0 1) ref) as [E L].
      cbn. refine (conj eq_refl (conj E (conj L (conj (or_introl eq_refl) _)))).
      repeat split; try reflexivity. rewrite E. reflexivity.
Qed.

Lemma list_set_app_last {A} (l : list A) x y : list_set (l ++ [x]) (length l) y = l ++ [y].
Proof. induction l as [|z l IH]; simpl; [reflexivity|now rewrite IH]. Qed.

(** The shape of [AMCBufferFill]'s result in the model: the commit
    limit of the [PoolGenAlloc] stand-in, or the new segment appended. *)
Lemma AMCBufferFill_shape ar bi size :
  let amc := ar_amc ar in
  let buffer := ar_buf ar bi in
  let gs := if size <? amc_extendBy amc then amc_extendBy amc
            else SizeArenaGrains size (ar_grainSize ar) in
  let n := length (ar_segs ar) in
  let '(res, base, limit, ar') := AMCBufferFill ar bi size in
  if ar_commitLimit ar <? ArenaCommitted ar + gs then
    res = ResCOMMIT_LIMIT /\ base = 0 /\ limit = 0 /\ ar' = ar
  else
    res = ResOK /\ base = ArenaFreshBase ar
    /\ limit = (if size <? amc_largeSize amc then base + gs else base + size)
    /\ firstn n (ar_segs ar') = ar_segs ar /\ length (ar_segs ar') = S n
    /\ ar_bufs ar' = ar_bufs ar /\ ar_gens ar' = ar_gens ar
    /\ ar_trace ar' = ar_trace ar /\ ar_amc ar' = ar_amc ar
    /\ seg_base (ar_seg ar' n) = base /\ seg_limit (ar_seg ar' n) = base + gs
    /\ seg_gen (ar_seg ar' n) = buf_gen buffer
    /\ seg_white (ar_seg ar' n) = TraceSetEMPTY /\ seg_grey (ar_seg ar' n) = TraceSetEMPTY
    /\ seg_nailed (ar_seg ar' n) = TraceSetEMPTY
    /\ seg_rankSet (ar_seg ar' n) = buf_rankSet buffer
    /\ seg_summary (ar_seg ar' n) =
         (if buf_rankSet buffer =? RankSetEMPTY then RefSetEMPTY else RefSetUNIV)
    /\ seg_accountedAsBuffered (ar_seg ar' n) = true
    /\ seg_deferred (ar_seg ar' n) =
         ((RampMode_eqb (amc_rampMode amc) RampRAMPING
           && Nat.eqb bi (gen_forward (ar_gen ar (amc_rampGen amc)))
           && Nat.eqb (buf_gen buffer) (amc_rampGen amc)) || buf_forHashArrays buffer).
Proof.
  cbv zeta. unfold AMCBufferFill, PoolGenAlloc.
  set (gs := if size <? amc_extendBy (ar_amc ar) then _ else _).
  destruct (ar_commitLimit ar <? ArenaCommitted ar + gs) eqn:Hc.
  { repeat split; reflexivity. }
  set (fb := ArenaFreshBase ar).
  set (segs := ar_segs ar).
  set (B := ar_buf ar bi).
  cbn [ar_segs ar_set_segs ar_upd]. fold segs. rewrite nth_app_last.
  set (s1 := (if buf_rankSet B =? RankSetEMPTY then _ else _)).
  set (s2 := if _ : bool then SegSetAmcFlags s1 _ _ _ true else s1).
  assert (Hs2 : seg_base s2 = fb /\ seg_limit s2 = fb + gs /\ seg_gen s2 = buf_gen B
                /\ seg_white s2 = TraceSetEMPTY /\ seg_grey s2 = TraceSetEMPTY
                /\ seg_nailed s2 = TraceSetEMPTY /\ seg_rankSet s2 = buf_rankSet B
                /\ seg_summary s2 =
                   (if buf_rankSet B =? RankSetEMPTY then RefSetEMPTY else RefSetUNIV)
                /\ seg_deferred s2 =
                   ((RampMode_eqb (amc_rampMode (ar_amc ar)) RampRAMPING
                     && Nat.eqb bi (gen_forward (ar_gen ar (amc_rampGen (ar_amc ar))))
                     && Nat.eqb (buf_gen B) (amc_rampGen (ar_amc ar))) || buf_forHashArrays B)).
  { subst s2 s1. unfold ar_gen. cbn [ar_gens ar_set_segs ar_upd].
    destruct (buf_rankSet B =? RankSetEMPTY), (_ || _);
      repeat split; reflexivity. }
  clearbody s2. clear s1.
  unfold ar_set_seg. cbn [ar_segs ar_set_segs ar_upd]. rewrite list_set_app_last.
  assert (Hl : forall s, length (segs ++ [s]) = S (length segs)).
  { intros s. rewrite length_app. simpl. lia. }
  assert (Hf : forall s, firstn (length segs) (segs ++ [s]) = segs).
  { intros s. rewrite firstn_app, firstn_all, Nat.sub_diag. simpl. apply app_nil_r. }
  destruct Hs2 as (H1 & H2 & H3 & H4 & H5 & H6 & H7 & H8 & H9).
  destruct (size <? amc_largeSize (ar_amc ar)).
  - cbn [ar_segs ar_set_segs ar_upd]. rewrite nth_app_last, list_set_app_last.
    unfold ar_seg. cbn [ar_segs ar_set_segs ar_upd ar_bufs ar_gens ar_trace ar_amc].
    rewrite nth_app_last. cbn. rewrite H1.
    repeat split; auto.
  - destruct (0 <? gs - size); unfold FormatPad, ar_log_event, ar_set_seg;
      cbn [ar_segs ar_set_segs ar_upd]; rewrite ?nth_app_last, ?list_set_app_last, ?nth_app_last;
      unfold ar_seg; cbn [ar_segs ar_set_segs ar_upd ar_bufs ar_gens ar_trace ar_amc];
      rewrite ?nth_app_last, ?list_set_app_last, ?nth_app_last; cbn; rewrite ?H1;
      repeat split; auto.
Qed.

(** X19: when [AMCBufferFill] succeeds on a positive size, the segment
    it returns lies in the pool's segment list: it starts at the
    returned base and is the extend size long (or the size rounded up
    to grains), the returned limit covers the requested size and lies
    inside it, with the limit at the grains for small requests and at
    the requested size for large ones; the segment belongs to the
    buffer's generation with the buffer's rank set, has an empty summary
    for an empty rank set and a universal one otherwise, is accounted as
    buffered, and is deferred exactly when the pool ramps, the buffer is
    the ramp generation's forwarding buffer and the generation is the
    ramp generation, or the buffer is for hash arrays; the segments that
    were there before are kept. *)
Theorem AMCBufferFill_spec ar bi size res base limit ar'
  (Hsize : 0 < size) (Hgrain : 0 < ar_grainSize ar)
  (Hfill : AMCBufferFill ar bi size = (res, base, limit, ar'))
  (Hres : res = ResOK) :
  let amc := ar_amc ar in
  let buffer := ar_buf ar bi in
  let gs := if size <? amc_extendBy amc then amc_extendBy amc
            else SizeArenaGrains size (ar_grainSize ar) in
  exists i, (i < length (ar_segs ar'))%nat
    /\ firstn i (ar_segs ar') = ar_segs ar
    /\ seg_base (ar_seg ar' i) = base /\ seg_limit (ar_seg ar' i) = base + gs
    /\ base + size <= limit <= seg_limit (ar_seg ar' i)
    /\ limit = (if size <? amc_largeSize amc then base + gs else base + size)
    /\ seg_gen (ar_seg ar' i) = buf_gen buffer
    /\ seg_rankSet (ar_seg ar' i) = buf_rankSet buffer
    /\ seg_summary (ar_seg ar' i) =
         (if buf_rankSet buffer =? RankSetEMPTY then RefSetEMPTY else RefSetUNIV)
    /\ seg_accountedAsBuffered (ar_seg ar' i) = true
    /\ seg_deferred (ar_seg ar' i) =
         ((RampMode_eqb (amc_rampMode amc) RampRAMPING
           && Nat.eqb bi (gen_forward (ar_gen ar (amc_rampGen amc)))
           && Nat.eqb (buf_gen buffer) (amc_rampGen amc)) || buf_forHashArrays buffer).
Proof.
  cbv zeta. pose proof (AMCBufferFill_shape ar bi size) as Hs. cbv zeta in Hs.
  rewrite Hfill in Hs. cbv beta iota in Hs. subst res.
  set (gs := if size <? amc_extendBy (ar_amc ar) then _ else _) in *.
  assert (Hgs : size <= gs).
  { subst gs. destruct (Z.ltb_spec size (amc_extendBy (ar_amc ar))).
    - lia.
    - apply SizeArenaGrains_ge; exact Hgrain. }
  destruct (ar_commitLimit ar <? ArenaCommitted ar + gs).
  { destruct Hs as (Hr & _); discriminate Hr. }
  destruct Hs as (_ & Hb & Hl & Hf & Hn & _ & _ & _ & _ & Hsb & Hsl & Hsg & _ & _ & _
                  & Hsr & Hss & Hsa & Hsd).
  exists (length (ar_segs ar)). rewrite Hn.
  refine (conj (Nat.lt_succ_diag_r _) (conj Hf (conj Hsb (conj Hsl (conj _ (conj Hl
            (conj Hsg (conj Hsr (conj Hss (conj Hsa Hsd)))))))))).
  rewrite Hsl, Hl. destruct (size <? amc_largeSize (ar_amc ar)); lia.
Qed.

Lemma AMCBufferFill_spec_witness :
  0 < 16 /\ 0 < ar_grainSize ex_arena_fwd
  /\ AMCBufferFill ex_arena_fwd O 16 = (ResOK, snd (fst (fst (AMCBufferFill ex_arena_fwd O 16))),
                                         snd (fst (AMCBufferFill ex_arena_fwd O 16)),
                                         snd (AMCBufferFill ex_arena_fwd O 16))
  /\ exists i, (i < length (ar_segs (snd (AMCBufferFill ex_arena_fwd O 16%Z))))%nat
       /\ seg_accountedAsBuffered (ar_seg (snd (AMCBufferFill ex_arena_fwd O 16)) i) = true.
Proof.
  assert (H : AMCBufferFill ex_arena_fwd O 16 =
              (ResOK, snd (fst (fst (AMCBufferFill ex_arena_fwd O 16))),
               snd (fst (AMCBufferFill ex_arena_fwd O 16)),
               snd (AMCBufferFill ex_arena_fwd O 16))) by (vm_compute; reflexivity).
  refine (conj _ (conj _ (conj H _))); [lia | vm_compute; reflexivity |].
  destruct (AMCBufferFill_spec ex_arena_fwd O 16 _ _ _ _ ltac:(lia)
              ltac:(vm_compute; reflexivity) H eq_refl)
    as (i & Hi & _ & _ & _ & _ & _ & _ & _ & _ & Ha & _).
  exists i. split; [exact Hi | exact Ha].
Defined.

Lemma WhiteKeep_refl ar : WhiteKeep ar ar.
Proof. repeat split; auto. Qed.

Lemma WhiteKeep_trans a b c : WhiteKeep a b -> WhiteKeep b c -> WhiteKeep a c.
Proof.
  intros (L1 & W1 & T1 & S1) (L2 & W2 & T2 & S2).
  repeat split; congruence.
Qed.

Lemma list_set_oob {A} (l : list A) i x : (length l <= i)%nat -> list_set l i x = l.
Proof.
  revert i; induction l as [|y l IH]; intros [|i] H; simpl in *; try lia; auto.
  rewrite IH; [reflexivity|lia].
Qed.

Lemma WhiteKeep_set_seg ar i s :
  seg_white s = seg_white (ar_seg ar i) -> WhiteKeep ar (ar_set_seg ar i s).
Proof.
  intros Hs. unfold WhiteKeep, ar_set_seg, ar_seg. cbn.
  refine (conj (length_list_set _ _ _) (conj _ (conj eq_refl eq_refl))).
  intros j. destruct (Nat.eq_dec j i) as [->|Hne].
  - destruct (Nat.lt_ge_cases i (length (ar_segs ar))) as [Hl|Hl].
    + rewrite nth_list_set_eq by exact Hl. exact Hs.
    + rewrite list_set_oob by exact Hl. reflexivity.
  - rewrite nth_list_set_neq by exact Hne. reflexivity.
Qed.

Lemma WhiteKeep_set_buf ar bi b : WhiteKeep ar (ar_set_buf ar bi b).
Proof. repeat split; auto. Qed.

Lemma WhiteKeep_set_amc ar amc : WhiteKeep ar (ar_set_amc ar amc).
Proof. repeat split; auto. Qed.

Lemma WhiteKeep_GenDescCondemned ar g size : WhiteKeep ar (GenDescCondemned ar g size).
Proof. repeat split; auto. Qed.

Lemma WhiteKeep_FormatPad ar i a len : WhiteKeep ar (FormatPad ar i a len).
Proof.
  unfold FormatPad. pose proof (WhiteKeep_set_seg ar i
    (SegSetObjs (ar_seg ar i) (obj_set (a + amc_headerSize (ar_amc ar)) (PadObj len)
                                (seg_objs (ar_seg ar i)))) eq_refl) as H.
  exact H.
Qed.

Lemma WhiteKeep_amcSegBufferEmpty ar i b : WhiteKeep ar (amcSegBufferEmpty ar i b).
Proof.
  unfold amcSegBufferEmpty.
  set (ar1 := if buf_init b <? buf_limit b then _ else ar).
  assert (H1 : WhiteKeep ar ar1).
  { subst ar1. destruct (_ <? _); [apply WhiteKeep_FormatPad | apply WhiteKeep_refl]. }
  clearbody ar1.
  set (ar2 := if TraceSetIsMember _ 0 then _ else ar1).
  assert (H2 : WhiteKeep ar ar2).
  { subst ar2. destruct (TraceSetIsMember _ 0);
      [eapply WhiteKeep_trans; [exact H1 | apply WhiteKeep_GenDescCondemned] | exact H1]. }
  clearbody ar2.
  destruct (seg_accountedAsBuffered _); [|exact H2].
  eapply WhiteKeep_trans; [exact H2|]. apply WhiteKeep_set_seg. reflexivity.
Qed.

Lemma WhiteKeep_BufferDetach ar bi : WhiteKeep ar (BufferDetach ar bi).
Proof.
  unfold BufferDetach. destruct (buf_seg (ar_buf ar bi)); [|apply WhiteKeep_refl].
  eapply WhiteKeep_trans; [|apply WhiteKeep_set_buf].
  destruct (SegIndexOfBase ar a); [apply WhiteKeep_amcSegBufferEmpty | apply WhiteKeep_refl].
Qed.

Lemma WhiteKeep_set_buf_base ar bi base : WhiteKeep ar (ar_set_buf_base ar bi base).
Proof. repeat split; auto. Qed.

Lemma WhiteKeep_SegNailboardSetRange ar i lo hi : WhiteKeep ar (SegNailboardSetRange ar i lo hi).
Proof.
  unfold SegNailboardSetRange. destruct (seg_board (ar_seg ar i));
    [apply WhiteKeep_set_seg; reflexivity | apply WhiteKeep_refl].
Qed.

Lemma WhiteKeep_amcSegCreateNailboard ar i : WhiteKeep ar (snd (amcSegCreateNailboard ar i)).
Proof.
  unfold amcSegCreateNailboard. destruct (ar_boardOK ar);
    [apply WhiteKeep_set_seg; reflexivity | apply WhiteKeep_refl].
Qed.

Lemma WhitenedAt_keep ar0 ar i ar' :
  WhitenedAt ar0 i ar -> WhiteKeep ar ar' -> WhitenedAt ar0 i ar'.
Proof.
  intros (L1 & O1 & I1 & T1 & S1) (L2 & W2 & T2 & S2).
  refine (conj _ (conj _ (conj _ (conj _ _)))); try congruence.
  intros j Hj. rewrite W2. auto.
Qed.

Lemma amcSegWhitenCondemn_ok ar0 ar i c :
  WhiteKeep ar0 ar -> (i < length (ar_segs ar0))%nat ->
  fst (amcSegWhitenCondemn ar i c) = ResOK /\ WhitenedAt ar0 i (snd (amcSegWhitenCondemn ar i c)).
Proof.
  intros Hk Hi. unfold amcSegWhitenCondemn.
  set (s1 := if negb (seg_old (ar_seg ar i)) then _ else _).
  set (s3 := SegSetWhite (SegSetAmcFlags s1 _ _ _ _) _).
  assert (H1 : WhitenedAt ar0 i (ar_set_seg ar i s3)).
  { destruct Hk as (L & W & T & S).
    unfold WhitenedAt, ar_set_seg, ar_seg. cbn.
    refine (conj _ (conj _ (conj _ (conj T S)))).
    - rewrite length_list_set. exact L.
    - intros j Hj. rewrite nth_list_set_neq by exact Hj. apply W.
    - rewrite nth_list_set_eq by lia. subst s3 s1.
      destruct (negb _); cbn; f_equal; apply W. }
  clearbody s3.
  set (ar1 := GenDescCondemned _ _ _).
  assert (H2 : WhitenedAt ar0 i ar1).
  { eapply WhitenedAt_keep; [exact H1 | apply WhiteKeep_GenDescCondemned]. }
  clearbody ar1.
  destruct (_ && _); [|destruct (_ && _)]; cbn [fst snd]; split; try reflexivity;
    try exact H2; eapply WhitenedAt_keep; try exact H2;
    (eapply WhiteKeep_trans; [eapply WhiteKeep_trans; [apply WhiteKeep_BufferDetach | apply WhiteKeep_set_buf] | apply WhiteKeep_set_amc]).
Qed.

(** X20: [amcSegWhiten] always returns [ResOK] (a failed nailboard
    allocation is not passed on); it keeps the number of segments, the
    trace's white set and state and the colour of the other segments,
    and either condemns segment [i] for trace 0 or leaves the arena
    unchanged. *)
Theorem amcSegWhiten_ok ar i :
  (i < length (ar_segs ar))%nat ->
  let '(res, ar') := amcSegWhiten ar i in
  res = ResOK
  /\ length (ar_segs ar') = length (ar_segs ar)
  /\ tr_white (ar_trace ar') = tr_white (ar_trace ar)
  /\ tr_state (ar_trace ar') = tr_state (ar_trace ar)
  /\ (forall j, j <> i -> seg_white (ar_seg ar' j) = seg_white (ar_seg ar j))
  /\ (seg_white (ar_seg ar' i) = TraceSetAdd (seg_white (ar_seg ar i)) 0 \/ ar' = ar).
Proof.
  intros Hi.
  assert (Fin : forall ar1 c, WhiteKeep ar ar1 ->
    let '(res, ar') := amcSegWhitenCondemn ar1 i c in
    res = ResOK
    /\ length (ar_segs ar') = length (ar_segs ar)
    /\ tr_white (ar_trace ar') = tr_white (ar_trace ar)
    /\ tr_state (ar_trace ar') = tr_state (ar_trace ar)
    /\ (forall j, j <> i -> seg_white (ar_seg ar' j) = seg_white (ar_seg ar j))
    /\ (seg_white (ar_seg ar' i) = TraceSetAdd (seg_white (ar_seg ar i)) 0 \/ ar' = ar)).
  { intros ar1 c Hk. destruct (amcSegWhitenCondemn_ok ar ar1 i c Hk Hi) as [R W].
    destruct (amcSegWhitenCondemn ar1 i c) as [res ar']. cbn [fst snd] in R, W.
    destruct W as (L & O & I & T & S). auto 7. }
  assert (Same : ResOK = ResOK
    /\ length (ar_segs ar) = length (ar_segs ar)
    /\ tr_white (ar_trace ar) = tr_white (ar_trace ar)
    /\ tr_state (ar_trace ar) = tr_state (ar_trace ar)
    /\ (forall j, j <> i -> seg_white (ar_seg ar j) = seg_white (ar_seg ar j))
    /\ (seg_white (ar_seg ar i) = TraceSetAdd (seg_white (ar_seg ar i)) 0 \/ ar = ar)).
  { auto 7. }
  unfold amcSegWhiten.
  destruct (SegBuffer ar (ar_seg ar i)) as [[bi buffer]|]; [|apply Fin, WhiteKeep_refl].
  destruct (negb (buf_mutator buffer)); [apply Fin, WhiteKeep_BufferDetach|].
  destruct (BufferScanLimit buffer =? seg_base (ar_seg ar i)); [exact Same|].
  cbv zeta.
  destruct (negb (amcSegHasNailboard (ar_seg ar i))).
  - destruct (seg_nailed (ar_seg ar i) =? TraceSetEMPTY); [|exact Same].
    pose proof (WhiteKeep_amcSegCreateNailboard ar i) as Hn.
    destruct (amcSegCreateNailboard ar i) as [r ar1] eqn:Ec.
    destruct r; cbn [snd] in Hn;
      try (unfold amcSegCreateNailboard in Ec; destruct (ar_boardOK ar);
           first [discriminate Ec | injection Ec as <-; exact Same]).
    apply Fin.
    set (ar2 := if negb _ then _ else ar1).
    assert (H2 : WhiteKeep ar ar2).
    { subst ar2. destruct (negb _); [|exact Hn].
      eapply WhiteKeep_trans; [exact Hn | apply WhiteKeep_SegNailboardSetRange]. }
    clearbody ar2.
    eapply WhiteKeep_trans; [|apply WhiteKeep_set_buf_base].
    eapply WhiteKeep_trans; [exact H2|]. apply WhiteKeep_set_seg. reflexivity.
  - apply Fin. eapply WhiteKeep_trans; [|apply WhiteKeep_set_buf_base].
    apply WhiteKeep_set_seg. reflexivity.
Qed.

Lemma amcSegWhiten_ok_witness :
  lt 0 (length (ar_segs (ex_arena (ex_seg 4096 0 0 0 None ex_objs) [ex_fwdbuf] TraceINIT))) /\
  let ar := ex_arena (ex_seg 4096 0 0 0 None ex_objs) [ex_fwdbuf] TraceINIT in
  let '(res, ar') := amcSegWhiten ar 0 in
  res = ResOK
  /\ length (ar_segs ar') = length (ar_segs ar)
  /\ tr_white (ar_trace ar') = tr_white (ar_trace ar)
  /\ tr_state (ar_trace ar') = tr_state (ar_trace ar)
  /\ (forall j, j <> 0%nat -> seg_white (ar_seg ar' j) = seg_white (ar_seg ar j))
  /\ (seg_white (ar_seg ar' 0) = TraceSetAdd (seg_white (ar_seg ar 0)) 0 \/ ar' = ar).
Proof.
  assert (H : lt 0 (length (ar_segs (ex_arena (ex_seg 4096 0 0 0 None ex_objs) [ex_fwdbuf] TraceINIT))))
    by (cbn; lia).
  split; [exact H|].
  exact (amcSegWhiten_ok _ 0 H).
Defined.
